(** * quickhull3: incremental 3D convex hull over a half-edge mesh

    A shallow embedding of the incremental QuickHull implementation
    (function [quickhull3] and its helpers) together with the properties
    of its specification.

    Numbers are the IEEE 754 binary64 values of the run time, modelled by
    Rocq's primitive floats.  Objects that the source links by reference
    (vertex nodes, half-edges, faces) live in three arenas and are named
    by their position; a reference that may be [undefined] is an
    [option].  A run-time error (indexing or arithmetic on [nil]) is the
    outcome [Raise]. *)

From Stdlib Require Import ZArith Floats Lia.
From stdpp Require Import base option list.

Set Default Proof Using "Type".
Set Warnings "-inexact-float".
Open Scope float_scope.
Open Scope nat_scope.

(** ** Outcomes and the hull-state monad *)

Inductive result (A : Type) : Type :=
| Ok (a : A)
| Raise
| OutOfFuel.
Arguments Ok {A} a.
Arguments Raise {A}.
Arguments OutOfFuel {A}.

(** A reference to an object: its position in the arena of its kind. *)
Abbreviation ref := nat (only parsing).
Definition Vec3 := (float * float * float)%type.

(** const EPSILON = 1e-12; VISIBLE = 0; DELETED = 1 *)
Definition EPSILON : float := 1e-12%float.
Definition VISIBLE : nat := 0.
Definition DELETED : nat := 1.

(** Modelled from the spec: the module [Number] that exports [EPSILON] is
    not among the sources; the specification calls it machine epsilon,
    which for binary64 is 2^-52. *)
Definition Number_EPSILON : float := 0x1p-52%float.

Module VertexNode.
Record t := mk { index : nat; prev : option ref; next : option ref; face : option ref }.
Definition set_prev (p : option ref) (v : t) := mk (index v) p (next v) (face v).
Definition set_next (n : option ref) (v : t) := mk (index v) (prev v) n (face v).
Definition set_face (f : option ref) (v : t) := mk (index v) (prev v) (next v) f.
End VertexNode.

Module HalfEdge.
Record t := mk { vertex : ref; prev : option ref; next : option ref;
                 twin : option ref; face : ref }.
Definition set_prev (p : option ref) (e : t) := mk (vertex e) p (next e) (twin e) (face e).
Definition set_next (n : option ref) (e : t) := mk (vertex e) (prev e) n (twin e) (face e).
Definition set_twin (w : option ref) (e : t) := mk (vertex e) (prev e) (next e) w (face e).
End HalfEdge.

Module Face.
Record t := mk { normal : Vec3; midpoint : Vec3; area : float; constant : float;
                 outside : option ref; mark : nat; edge : option ref }.
Definition set_geometry (n m : Vec3) (a c : float) (f : t) :=
  mk n m a c (outside f) (mark f) (edge f).
Definition set_outside (o : option ref) (f : t) :=
  mk (normal f) (midpoint f) (area f) (constant f) o (mark f) (edge f).
Definition set_mark (k : nat) (f : t) :=
  mk (normal f) (midpoint f) (area f) (constant f) (outside f) k (edge f).
Definition set_edge (e : option ref) (f : t) :=
  mk (normal f) (midpoint f) (area f) (constant f) (outside f) (mark f) e.
End Face.

Module VertexList.
Record t := mk { head : option ref; tail : option ref }.
End VertexList.

(** Which of the two conflict lists of the state an operation works on. *)
Inductive ListName := Assigned | Unassigned.

Module HullState.
Record t := mk {
  points : list float;
  tolerance : float;
  faces : list ref;
  newFaces : list ref;
  assigned : VertexList.t;
  unassigned : VertexList.t;
  vertices : list VertexNode.t;
  (* the objects behind the references *)
  faceStore : list Face.t;
  edgeStore : list HalfEdge.t }.
Definition set_tolerance (x : float) (s : t) :=
  mk (points s) x (faces s) (newFaces s) (assigned s) (unassigned s)
     (vertices s) (faceStore s) (edgeStore s).
Definition set_faces (x : list ref) (s : t) :=
  mk (points s) (tolerance s) x (newFaces s) (assigned s) (unassigned s)
     (vertices s) (faceStore s) (edgeStore s).
Definition set_newFaces (x : list ref) (s : t) :=
  mk (points s) (tolerance s) (faces s) x (assigned s) (unassigned s)
     (vertices s) (faceStore s) (edgeStore s).
Definition set_assigned (x : VertexList.t) (s : t) :=
  mk (points s) (tolerance s) (faces s) (newFaces s) x (unassigned s)
     (vertices s) (faceStore s) (edgeStore s).
Definition set_unassigned (x : VertexList.t) (s : t) :=
  mk (points s) (tolerance s) (faces s) (newFaces s) (assigned s) x
     (vertices s) (faceStore s) (edgeStore s).
Definition set_vertices (x : list VertexNode.t) (s : t) :=
  mk (points s) (tolerance s) (faces s) (newFaces s) (assigned s) (unassigned s)
     x (faceStore s) (edgeStore s).
Definition set_faceStore (x : list Face.t) (s : t) :=
  mk (points s) (tolerance s) (faces s) (newFaces s) (assigned s) (unassigned s)
     (vertices s) x (edgeStore s).
Definition set_edgeStore (x : list HalfEdge.t) (s : t) :=
  mk (points s) (tolerance s) (faces s) (newFaces s) (assigned s) (unassigned s)
     (vertices s) (faceStore s) x.
Definition getList (w : ListName) (s : t) : VertexList.t :=
  match w with Assigned => assigned s | Unassigned => unassigned s end.
Definition setList (w : ListName) (x : VertexList.t) (s : t) : t :=
  match w with Assigned => set_assigned x s | Unassigned => set_unassigned x s end.
End HullState.

Definition M (A : Type) : Type := HullState.t -> result (A * HullState.t).

Definition ret {A} (a : A) : M A := fun s => Ok (a, s).
Definition bind {A B} (m : M A) (k : A -> M B) : M B :=
  fun s => match m s with
           | Ok (a, s') => k a s'
           | Raise => Raise
           | OutOfFuel => OutOfFuel
           end.
Definition raise {A} : M A := fun _ => Raise.
Definition outOfFuel {A} : M A := fun _ => OutOfFuel.
Definition gets {A} (f : HullState.t -> A) : M A := fun s => Ok (f s, s).
Definition modify (f : HullState.t -> HullState.t) : M unit := fun s => Ok (tt, f s).
(** Reading through a reference: [nil] (or a dangling name) raises. *)
Definition orRaise {A} (o : option A) : M A :=
  match o with Some a => ret a | None => raise end.

Declare Scope hull_scope.
Delimit Scope hull_scope with hull.
Notation "x <- m ;; k" := (bind m (fun x => k))
  (at level 20, m at level 99, k at level 200, only parsing) : hull_scope.
Notation "m ;; k" := (bind m (fun _ => k))
  (at level 100, k at level 200, only parsing, right associativity) : hull_scope.
Open Scope hull_scope.

(** *** Access to the three arenas *)

Definition getVertex (v : ref) : M VertexNode.t :=
  vs <- gets HullState.vertices ;; orRaise (vs !! v).
Definition updVertex (v : ref) (f : VertexNode.t -> VertexNode.t) : M unit :=
  nd <- getVertex v ;;
  modify (fun s => HullState.set_vertices (<[v := f nd]> (HullState.vertices s)) s).
Definition getEdge (e : ref) : M HalfEdge.t :=
  es <- gets HullState.edgeStore ;; orRaise (es !! e).
Definition updEdge (e : ref) (f : HalfEdge.t -> HalfEdge.t) : M unit :=
  ed <- getEdge e ;;
  modify (fun s => HullState.set_edgeStore (<[e := f ed]> (HullState.edgeStore s)) s).
Definition getFace (f : ref) : M Face.t :=
  fs <- gets HullState.faceStore ;; orRaise (fs !! f).
Definition updFace (f : ref) (g : Face.t -> Face.t) : M unit :=
  fc <- getFace f ;;
  modify (fun s => HullState.set_faceStore (<[f := g fc]> (HullState.faceStore s)) s).
Definition getList (w : ListName) : M VertexList.t := gets (HullState.getList w).
Definition setHead (w : ListName) (h : option ref) : M unit :=
  modify (fun s => HullState.setList w
            (VertexList.mk h (VertexList.tail (HullState.getList w s))) s).
Definition setTail (w : ListName) (t : option ref) : M unit :=
  modify (fun s => HullState.setList w
            (VertexList.mk (VertexList.head (HullState.getList w s)) t) s).

(** ** Vertex nodes and vertex lists *)

Definition createVertexNode (index : nat) : VertexNode.t :=
  VertexNode.mk index None None None.

Definition createVertexList : VertexList.t := VertexList.mk None None.

Definition vertexListIsEmpty (list : VertexList.t) : bool :=
  match VertexList.head list with None => true | Some _ => false end.

Definition vertexListClear (w : ListName) : M unit :=
  modify (HullState.setList w (VertexList.mk None None)).

Definition vertexListAppend (w : ListName) (vertex : ref) : M unit :=
  list <- getList w ;;
  match VertexList.head list with
  | None => setHead w (Some vertex)
  | Some _ =>
      tl <- orRaise (VertexList.tail list) ;;
      updVertex tl (VertexNode.set_next (Some vertex))
  end ;;
  list <- getList w ;;
  updVertex vertex (VertexNode.set_prev (VertexList.tail list)) ;;
  updVertex vertex (VertexNode.set_next None) ;;
  setTail w (Some vertex).

(** while (current.next !== undefined) current = current.next *)
Fixpoint findEndOfChain (fuel : nat) (current : ref) : M ref :=
  nd <- getVertex current ;;
  match VertexNode.next nd with
  | None => ret current
  | Some nx =>
      match fuel with
      | O => outOfFuel
      | S fuel' => findEndOfChain fuel' nx
      end
  end.

Definition vertexListAppendChain (fuel : nat) (w : ListName) (vertex : ref) : M unit :=
  list <- getList w ;;
  match VertexList.head list with
  | None => setHead w (Some vertex)
  | Some _ =>
      tl <- orRaise (VertexList.tail list) ;;
      updVertex tl (VertexNode.set_next (Some vertex))
  end ;;
  list <- getList w ;;
  updVertex vertex (VertexNode.set_prev (VertexList.tail list)) ;;
  current <- findEndOfChain fuel vertex ;;
  setTail w (Some current).

Definition vertexListInsertBefore (w : ListName) (target vertex : ref) : M unit :=
  tg <- getVertex target ;;
  updVertex vertex (VertexNode.set_prev (VertexNode.prev tg)) ;;
  updVertex vertex (VertexNode.set_next (Some target)) ;;
  vx <- getVertex vertex ;;
  match VertexNode.prev vx with
  | None => setHead w (Some vertex)
  | Some p => updVertex p (VertexNode.set_next (Some vertex))
  end ;;
  updVertex target (VertexNode.set_prev (Some vertex)).

Definition vertexListRemove (w : ListName) (vertex : ref) : M unit :=
  vx <- getVertex vertex ;;
  match VertexNode.prev vx with
  | None => setHead w (VertexNode.next vx)
  | Some p => updVertex p (VertexNode.set_next (VertexNode.next vx))
  end ;;
  vx <- getVertex vertex ;;
  match VertexNode.next vx with
  | None => setTail w (VertexNode.prev vx)
  | Some n => updVertex n (VertexNode.set_prev (VertexNode.prev vx))
  end.

Definition vertexListRemoveSubList (w : ListName) (a b : ref) : M unit :=
  na <- getVertex a ;;
  nb <- getVertex b ;;
  match VertexNode.prev na with
  | None => setHead w (VertexNode.next nb)
  | Some p => updVertex p (VertexNode.set_next (VertexNode.next nb))
  end ;;
  na <- getVertex a ;;
  nb <- getVertex b ;;
  match VertexNode.next nb with
  | None => setTail w (VertexNode.prev na)
  | Some n => updVertex n (VertexNode.set_prev (VertexNode.prev na))
  end.

(** ** Half-edges *)

Definition createHalfEdge (vertex face : ref) : M ref :=
  es <- gets HullState.edgeStore ;;
  modify (HullState.set_edgeStore (es ++ [HalfEdge.mk vertex None None None face])) ;;
  ret (length es).

Definition halfEdgeHead (edge : ref) : M ref :=
  ed <- getEdge edge ;; ret (HalfEdge.vertex ed).

Definition halfEdgeTail (edge : ref) : M (option ref) :=
  ed <- getEdge edge ;;
  match HalfEdge.prev ed with
  | Some p => pd <- getEdge p ;; ret (Some (HalfEdge.vertex pd))
  | None => ret None
  end.

Definition halfEdgeSetTwin (edge twin : ref) : M unit :=
  updEdge edge (HalfEdge.set_twin (Some twin)) ;;
  updEdge twin (HalfEdge.set_twin (Some edge)).

(** ** Faces *)

Definition zero3 : Vec3 := (0%float, 0%float, 0%float).

Definition createFace : Face.t :=
  Face.mk zero3 zero3 0%float 0%float None VISIBLE None.

Definition faceCreate (a b c : ref) : M ref :=
  fs <- gets HullState.faceStore ;;
  modify (HullState.set_faceStore (fs ++ [createFace])) ;;
  let face := length fs in
  e0 <- createHalfEdge a face ;;
  e1 <- createHalfEdge b face ;;
  e2 <- createHalfEdge c face ;;
  (* join edges in a cycle *)
  updEdge e0 (HalfEdge.set_next (Some e1)) ;;
  updEdge e0 (HalfEdge.set_prev (Some e2)) ;;
  updEdge e1 (HalfEdge.set_next (Some e2)) ;;
  updEdge e1 (HalfEdge.set_prev (Some e0)) ;;
  updEdge e2 (HalfEdge.set_next (Some e0)) ;;
  updEdge e2 (HalfEdge.set_prev (Some e1)) ;;
  updFace face (Face.set_edge (Some e0)) ;;
  ret face.

(** [edge = edge.next!] repeated: reading [next] through [nil] raises. *)
Fixpoint walkNext (i : nat) (edge : option ref) : M (option ref) :=
  match i with
  | O => ret edge
  | S i' => e <- orRaise edge ;; ed <- getEdge e ;; walkNext i' (HalfEdge.next ed)
  end.

Fixpoint walkPrev (i : nat) (edge : option ref) : M (option ref) :=
  match i with
  | O => ret edge
  | S i' => e <- orRaise edge ;; ed <- getEdge e ;; walkPrev i' (HalfEdge.prev ed)
  end.

Definition faceGetEdge (face : ref) (i : Z) : M (option ref) :=
  fc <- getFace face ;;
  match Face.edge fc with
  | None => ret None
  | Some e =>
      edge <- walkNext (Z.to_nat i) (Some e) ;;
      walkPrev (Z.to_nat (- i)) edge
  end.

(** ** Geometry kernel: pure functions over the coordinate array.
    [points[i]] beyond the array is [nil], and arithmetic on it raises:
    the functions answer [None] there. *)

Definition point3 (points : list float) (idx : nat) : option Vec3 :=
  x ← points !! idx; y ← points !! (idx + 1); z ← points !! (idx + 2);
  Some (x, y, z).

Definition planeOf (fc : Face.t) (p : Vec3) : float :=
  let '(n0, n1, n2) := Face.normal fc in
  let '(x, y, z) := p in
  (n0 * x + n1 * y + n2 * z - Face.constant fc)%float.

Definition faceDistanceToPoint (face : Face.t) (points : list float)
    (vertexIndex : nat) : option float :=
  p ← point3 points (vertexIndex * 3); Some (planeOf face p).

Definition faceGeometry (fc : Face.t) (pa pb pc : Vec3) : Face.t :=
  let '(ax, ay, az) := pa in
  let '(bx, b_y, bz) := pb in
  let '(cx, cy, cz) := pc in
  let e1x := (bx - ax)%float in
  let e1y := (b_y - ay)%float in
  let e1z := (bz - az)%float in
  let e2x := (cx - ax)%float in
  let e2y := (cy - ay)%float in
  let e2z := (cz - az)%float in
  let nx := (e1y * e2z - e1z * e2y)%float in
  let ny := (e1z * e2x - e1x * e2z)%float in
  let nz := (e1x * e2y - e1y * e2x)%float in
  let len := PrimFloat.sqrt (nx * nx + ny * ny + nz * nz)%float in
  let normal :=
    if (EPSILON <? len)%float then ((nx / len)%float, (ny / len)%float, (nz / len)%float)
    else Face.normal fc in
  let midpoint :=
    (((ax + bx + cx) / 3)%float, ((ay + b_y + cy) / 3)%float, ((az + bz + cz) / 3)%float) in
  let area := (len / 2)%float in
  let '(n0, n1, n2) := normal in
  let '(m0, m1, m2) := midpoint in
  let constant := (n0 * m0 + n1 * m1 + n2 * m2)%float in
  Face.set_geometry normal midpoint area constant fc.

Definition faceCompute (face : ref) : M unit :=
  points <- gets HullState.points ;;
  fc <- getFace face ;;
  e <- orRaise (Face.edge fc) ;;
  ta <- halfEdgeTail e ;;
  a <- orRaise ta ;;
  b <- halfEdgeHead e ;;
  ed <- getEdge e ;;
  en <- orRaise (HalfEdge.next ed) ;;
  c <- halfEdgeHead en ;;
  na <- getVertex a ;;
  nb <- getVertex b ;;
  nc <- getVertex c ;;
  pa <- orRaise (point3 points (VertexNode.index na * 3)) ;;
  pb <- orRaise (point3 points (VertexNode.index nb * 3)) ;;
  pc <- orRaise (point3 points (VertexNode.index nc * 3)) ;;
  updFace face (fun f => faceGeometry f pa pb pc).

Definition computePlane (points : list float) (v0 v1 v2 : nat) : option (Vec3 * float) :=
  '(p0x, p0y, p0z) ← point3 points (v0 * 3);
  '(p1x, p1y, p1z) ← point3 points (v1 * 3);
  '(p2x, p2y, p2z) ← point3 points (v2 * 3);
  let e1x := (p1x - p0x)%float in
  let e1y := (p1y - p0y)%float in
  let e1z := (p1z - p0z)%float in
  let e2x := (p2x - p0x)%float in
  let e2y := (p2y - p0y)%float in
  let e2z := (p2z - p0z)%float in
  let nx := (e1y * e2z - e1z * e2y)%float in
  let ny := (e1z * e2x - e1x * e2z)%float in
  let nz := (e1x * e2y - e1y * e2x)%float in
  let len := PrimFloat.sqrt (nx * nx + ny * ny + nz * nz)%float in
  if (len <? EPSILON)%float then Some ((0%float, 0%float, 1%float), 0%float)
  else
    let invLen := (1 / len)%float in
    let o0 := (nx * invLen)%float in
    let o1 := (ny * invLen)%float in
    let o2 := (nz * invLen)%float in
    Some ((o0, o1, o2), (- (o0 * p0x + o1 * p0y + o2 * p0z))%float).

Definition distanceToPlane (points : list float) (idx : nat) (normal : Vec3)
    (offset : float) : option float :=
  '(x, y, z) ← point3 points (idx * 3);
  let '(n0, n1, n2) := normal in
  Some (n0 * x + n1 * y + n2 * z + offset)%float.

Definition distanceToLineSquared (points : list float) (idx v0 v1 : nat) : option float :=
  '(px, py, pz) ← point3 points (idx * 3);
  '(ax, ay, az) ← point3 points (v0 * 3);
  '(bx, b_y, bz) ← point3 points (v1 * 3);
  let apx := (px - ax)%float in
  let apy := (py - ay)%float in
  let apz := (pz - az)%float in
  let abx := (bx - ax)%float in
  let aby := (b_y - ay)%float in
  let abz := (bz - az)%float in
  let cx := (apy * abz - apz * aby)%float in
  let cy := (apz * abx - apx * abz)%float in
  let cz := (apx * aby - apy * abx)%float in
  let crossLenSq := (cx * cx + cy * cy + cz * cz)%float in
  let abLenSq := (abx * abx + aby * aby + abz * abz)%float in
  if (abLenSq <? EPSILON)%float then Some (apx * apx + apy * apy + apz * apz)%float
  else Some (crossLenSq / abLenSq)%float.

(** ** Hull computation *)

Definition get3 {A} (j : nat) (t : A * A * A) : A :=
  let '(a, b, c) := t in
  match j with 0 => a | 1 => b | _ => c end.

Definition set3 {A} (j : nat) (x : A) (t : A * A * A) : A * A * A :=
  let '(a, b, c) := t in
  match j with 0 => (x, b, c) | 1 => (a, x, c) | _ => (a, b, x) end.

(** math.max(a, b) keeps [a] unless [b > a]. *)
Definition math_max (a b : float) : float := if (a <? b)%float then b else a.

Record Extremes := mkExtremes {
  ex_min : Vec3; ex_max : Vec3;
  minVertices : ref * ref * ref; maxVertices : ref * ref * ref }.

(** The body of the inner loop over the axes [j] for one vertex. *)
Definition extremesAxis (points : list float) (idx : nat) (vertex : ref) (j : nat)
    (acc : Extremes) : option Extremes :=
  val ← points !! (idx + j);
  let acc1 :=
    if (val <? get3 j (ex_min acc))%float
    then mkExtremes (set3 j val (ex_min acc)) (ex_max acc)
                    (set3 j vertex (minVertices acc)) (maxVertices acc)
    else acc in
  Some (if (get3 j (ex_max acc1) <? val)%float
        then mkExtremes (ex_min acc1) (set3 j val (ex_max acc1))
                        (minVertices acc1) (set3 j vertex (maxVertices acc1))
        else acc1).

Definition extremesVertex (points : list float) (vs : list VertexNode.t)
    (acc : Extremes) (i : nat) : option Extremes :=
  nd ← vs !! i;
  let idx := VertexNode.index nd * 3 in
  acc ← extremesAxis points idx i 0 acc;
  acc ← extremesAxis points idx i 1 acc;
  extremesAxis points idx i 2 acc.

Fixpoint extremesLoop (points : list float) (vs : list VertexNode.t)
    (idxs : list nat) (acc : Extremes) : option Extremes :=
  match idxs with
  | [] => Some acc
  | i :: rest => acc' ← extremesVertex points vs acc i; extremesLoop points vs rest acc'
  end.

Definition toleranceOf (mn mx : Vec3) : float :=
  (3 * Number_EPSILON *
   (math_max (abs (get3 0 mn)) (abs (get3 0 mx)) +
    math_max (abs (get3 1 mn)) (abs (get3 1 mx)) +
    math_max (abs (get3 2 mn)) (abs (get3 2 mx))))%float.

Definition computeExtremes : M Extremes :=
  points <- gets HullState.points ;;
  vs <- gets HullState.vertices ;;
  (* initialise with the first vertex *)
  first <- orRaise (point3 points 0) ;;
  let init := mkExtremes first first (0, 0, 0) (0, 0, 0) in
  ex <- orRaise (extremesLoop points vs (seq 0 (length vs)) init) ;;
  modify (HullState.set_tolerance (toleranceOf (ex_min ex) (ex_max ex))) ;;
  ret ex.

(** 1. the axis with the greatest 1D separation *)
Fixpoint separationLoop (points : list float) (vs : list VertexNode.t) (ex : Extremes)
    (idxs : list nat) (maxDistance : float) (index : nat) : option nat :=
  match idxs with
  | [] => Some index
  | i :: rest =>
      n0 ← vs !! get3 i (minVertices ex);
      n1 ← vs !! get3 i (maxVertices ex);
      a ← points !! (VertexNode.index n0 * 3 + i);
      b ← points !! (VertexNode.index n1 * 3 + i);
      let distance := (a - b)%float in
      if (maxDistance <? abs distance)%float
      then separationLoop points vs ex rest (abs distance) i
      else separationLoop points vs ex rest maxDistance index
  end.

(** 2. the vertex farthest from the line v0-v1 *)
Fixpoint farthestFromLine (points : list float) (vs : list VertexNode.t) (v0 v1 : ref)
    (idxs : list ref) (maxDistance : float) (v2 : option ref) : option (option ref) :=
  match idxs with
  | [] => Some v2
  | vertex :: rest =>
      if bool_decide (vertex ≠ v0) && bool_decide (vertex ≠ v1) then
        nd ← vs !! vertex; n0 ← vs !! v0; n1 ← vs !! v1;
        dist ← distanceToLineSquared points (VertexNode.index nd)
                 (VertexNode.index n0) (VertexNode.index n1);
        if (maxDistance <? dist)%float
        then farthestFromLine points vs v0 v1 rest dist (Some vertex)
        else farthestFromLine points vs v0 v1 rest maxDistance v2
      else farthestFromLine points vs v0 v1 rest maxDistance v2
  end.

(** 3. the vertex farthest from the plane v0-v1-v2 *)
Fixpoint farthestFromPlane (points : list float) (vs : list VertexNode.t) (v0 v1 v2 : ref)
    (normal : Vec3) (offset : float)
    (idxs : list ref) (maxDistance : float) (v3 : option ref) : option (option ref) :=
  match idxs with
  | [] => Some v3
  | vertex :: rest =>
      if bool_decide (vertex ≠ v0) && bool_decide (vertex ≠ v1) && bool_decide (vertex ≠ v2) then
        nd ← vs !! vertex;
        d ← distanceToPlane points (VertexNode.index nd) normal offset;
        let dist := abs d in
        if (maxDistance <? dist)%float
        then farthestFromPlane points vs v0 v1 v2 normal offset rest dist (Some vertex)
        else farthestFromPlane points vs v0 v1 v2 normal offset rest maxDistance v3
      else farthestFromPlane points vs v0 v1 v2 normal offset rest maxDistance v3
  end.

Definition addVertexToFace (vertex face : ref) : M unit :=
  updVertex vertex (VertexNode.set_face (Some face)) ;;
  fc <- getFace face ;;
  match Face.outside fc with
  | None => vertexListAppend Assigned vertex
  | Some o => vertexListInsertBefore Assigned o vertex
  end ;;
  updFace face (Face.set_outside (Some vertex)).

(** The scan of step 5: the face of greatest distance above the tolerance. *)
Fixpoint farthestFace (vertexIndex : nat) (faces : list ref)
    (maxDistance : float) (maxFace : option ref) : M (option ref) :=
  match faces with
  | [] => ret maxFace
  | face :: rest =>
      points <- gets HullState.points ;;
      fc <- getFace face ;;
      distance <- orRaise (faceDistanceToPoint fc points vertexIndex) ;;
      if (maxDistance <? distance)%float
      then farthestFace vertexIndex rest distance (Some face)
      else farthestFace vertexIndex rest maxDistance maxFace
  end.

(** One round of the loop of step 5, for a vertex outside the seed. *)
Definition assignVertex (vertex : ref) : M unit :=
  tol <- gets HullState.tolerance ;;
  faces <- gets HullState.faces ;;
  nd <- getVertex vertex ;;
  maxFace <- farthestFace (VertexNode.index nd) faces tol None ;;
  match maxFace with
  | Some f => addVertexToFace vertex f
  | None => ret tt
  end.

Fixpoint assignRemaining (v0 v1 v2 v3 : ref) (idxs : list ref) : M unit :=
  match idxs with
  | [] => ret tt
  | vertex :: rest =>
      (if bool_decide (vertex ≠ v0) && bool_decide (vertex ≠ v1)
          && bool_decide (vertex ≠ v2) && bool_decide (vertex ≠ v3)
       then assignVertex vertex
       else ret tt) ;;
      assignRemaining v0 v1 v2 v3 rest
  end.

(** faceGetEdge(...)! handed to halfEdgeSetTwin: [nil] raises there. *)
Definition twinEdges (f1 : ref) (i1 : Z) (f2 : ref) (i2 : Z) : M unit :=
  oa <- faceGetEdge f1 i1 ;;
  ob <- faceGetEdge f2 i2 ;;
  a <- orRaise oa ;;
  b <- orRaise ob ;;
  halfEdgeSetTwin a b.

Fixpoint twinOutward (faces : list ref) (idxs : list nat) : M unit :=
  match idxs with
  | [] => ret tt
  | i :: rest =>
      let j := (i + 1) mod 3 in
      fi <- orRaise (faces !! (i + 1)) ;;
      f0 <- orRaise (faces !! 0) ;;
      fj <- orRaise (faces !! (j + 1)) ;;
      twinEdges fi 2 f0 (Z.of_nat j) ;;
      twinEdges fi 1 fj 0 ;;
      twinOutward faces rest
  end.

Fixpoint twinInward (faces : list ref) (idxs : list nat) : M unit :=
  match idxs with
  | [] => ret tt
  | i :: rest =>
      let j := (i + 1) mod 3 in
      fi <- orRaise (faces !! (i + 1)) ;;
      f0 <- orRaise (faces !! 0) ;;
      fj <- orRaise (faces !! (j + 1)) ;;
      twinEdges fi 2 f0 (Z.of_nat ((3 - i) mod 3)) ;;
      twinEdges fi 0 fj 1 ;;
      twinInward faces rest
  end.

Fixpoint addFacesToHull (faces : list ref) : M unit :=
  match faces with
  | [] => ret tt
  | face :: rest =>
      faceCompute face ;;
      modify (fun s => HullState.set_faces (HullState.faces s ++ [face]) s) ;;
      addFacesToHull rest
  end.

Definition computeInitialHull : M unit :=
  ex <- computeExtremes ;;
  points <- gets HullState.points ;;
  vs <- gets HullState.vertices ;;
  index <- orRaise (separationLoop points vs ex [0; 1; 2] 0%float 0) ;;
  let v0 := get3 index (minVertices ex) in
  let v1 := get3 index (maxVertices ex) in
  let all := seq 0 (length vs) in
  ov2 <- orRaise (farthestFromLine points vs v0 v1 all 0%float None) ;;
  match ov2 with
  | None => ret tt
  | Some v2 =>
      n0 <- getVertex v0 ;;
      n1 <- getVertex v1 ;;
      n2 <- getVertex v2 ;;
      plane <- orRaise (computePlane points (VertexNode.index n0)
                          (VertexNode.index n1) (VertexNode.index n2)) ;;
      let '(normal, offset) := plane in
      ov3 <- orRaise (farthestFromPlane points vs v0 v1 v2 normal offset all (-1)%float None) ;;
      match ov3 with
      | None => ret tt
      | Some v3 =>
          n3 <- getVertex v3 ;;
          d3 <- orRaise (distanceToPlane points (VertexNode.index n3) normal offset) ;;
          faces <-
            (if (d3 <? 0)%float then
               (* normal points outward *)
               fa <- faceCreate v0 v1 v2 ;;
               fb <- faceCreate v3 v1 v0 ;;
               fc <- faceCreate v3 v2 v1 ;;
               fd <- faceCreate v3 v0 v2 ;;
               twinOutward [fa; fb; fc; fd] [0; 1; 2] ;;
               ret [fa; fb; fc; fd]
             else
               (* normal points inward *)
               fa <- faceCreate v0 v2 v1 ;;
               fb <- faceCreate v3 v0 v1 ;;
               fc <- faceCreate v3 v1 v2 ;;
               fd <- faceCreate v3 v2 v0 ;;
               twinInward [fa; fb; fc; fd] [0; 1; 2] ;;
               ret [fa; fb; fc; fd]) ;;
          addFacesToHull faces ;;
          assignRemaining v0 v1 v2 v3 all
      end
  end.

Definition removeVertexFromFace (vertex face : ref) : M unit :=
  fc <- getFace face ;;
  (if bool_decide (Face.outside fc = Some vertex) then
     vx <- getVertex vertex ;;
     match VertexNode.next vx with
     | Some n =>
         nn <- getVertex n ;;
         if bool_decide (VertexNode.face nn = Some face)
         then updFace face (Face.set_outside (Some n))
         else updFace face (Face.set_outside None)
     | None => updFace face (Face.set_outside None)
     end
   else ret tt) ;;
  vertexListRemove Assigned vertex.

(** while (end_.next !== undefined && end_.next.face === face) end_ = end_.next *)
Fixpoint findRunEnd (fuel : nat) (face : ref) (end_ : ref) : M ref :=
  nd <- getVertex end_ ;;
  match VertexNode.next nd with
  | None => ret end_
  | Some n =>
      nn <- getVertex n ;;
      if bool_decide (VertexNode.face nn = Some face) then
        match fuel with
        | O => outOfFuel
        | S fuel' => findRunEnd fuel' face n
        end
      else ret end_
  end.

Definition removeAllVerticesFromFace (fuel : nat) (face : ref) : M (option ref) :=
  fc <- getFace face ;;
  match Face.outside fc with
  | Some start =>
      end_ <- findRunEnd fuel face start ;;
      vertexListRemoveSubList Assigned start end_ ;;
      updVertex start (VertexNode.set_prev None) ;;
      updVertex end_ (VertexNode.set_next None) ;;
      updFace face (Face.set_outside None) ;;
      ret (Some start)
  | None => ret None
  end.

(** One round of the absorbing loop; answers the vertex to go on with. *)
Definition absorbVertex (absorbingFace v : ref) : M (option ref) :=
  vx <- getVertex v ;;
  let nextVertex := VertexNode.next vx in
  points <- gets HullState.points ;;
  tol <- gets HullState.tolerance ;;
  fc <- getFace absorbingFace ;;
  distance <- orRaise (faceDistanceToPoint fc points (VertexNode.index vx)) ;;
  (if (tol <? distance)%float
   then addVertexToFace v absorbingFace
   else vertexListAppend Unassigned v) ;;
  ret nextVertex.

Fixpoint absorbLoop (fuel : nat) (absorbingFace : ref) (vertex : option ref) : M unit :=
  match vertex with
  | None => ret tt
  | Some v =>
      match fuel with
      | O => outOfFuel
      | S fuel' =>
          nextVertex <- absorbVertex absorbingFace v ;;
          absorbLoop fuel' absorbingFace nextVertex
      end
  end.

Definition deleteFaceVertices (fuel : nat) (face : ref) (absorbingFace : option ref) : M unit :=
  faceVertices <- removeAllVerticesFromFace fuel face ;;
  match faceVertices with
  | Some fv =>
      match absorbingFace with
      | None => vertexListAppendChain fuel Unassigned fv
      | Some af => absorbLoop fuel af (Some fv)
      end
  | None => ret tt
  end.

(** The scan of step 6e over the new faces, with its early exit. *)
Fixpoint scanNewFaces (vertexIndex : nat) (newFaces : list ref)
    (maxDistance : float) (maxFace : option ref) : M (option ref) :=
  match newFaces with
  | [] => ret maxFace
  | face :: rest =>
      fc <- getFace face ;;
      if bool_decide (Face.mark fc = VISIBLE) then
        points <- gets HullState.points ;;
        tol <- gets HullState.tolerance ;;
        distance <- orRaise (faceDistanceToPoint fc points vertexIndex) ;;
        let '(maxDistance', maxFace') :=
          if (maxDistance <? distance)%float then (distance, Some face)
          else (maxDistance, maxFace) in
        if (1000 * tol <? maxDistance')%float then ret maxFace'
        else scanNewFaces vertexIndex rest maxDistance' maxFace'
      else scanNewFaces vertexIndex rest maxDistance maxFace
  end.

(** One round of the re-triage loop; answers the vertex to go on with. *)
Definition resolveVertex (newFaces : list ref) (v : ref) : M (option ref) :=
  vx <- getVertex v ;;
  let nextVertex := VertexNode.next vx in
  tol <- gets HullState.tolerance ;;
  maxFace <- scanNewFaces (VertexNode.index vx) newFaces tol None ;;
  match maxFace with
  | Some f => addVertexToFace v f
  | None => ret tt
  end ;;
  ret nextVertex.

Fixpoint resolveLoop (fuel : nat) (newFaces : list ref) (vertex : option ref) : M unit :=
  match vertex with
  | None => ret tt
  | Some v =>
      match fuel with
      | O => outOfFuel
      | S fuel' =>
          nextVertex <- resolveVertex newFaces v ;;
          resolveLoop fuel' newFaces nextVertex
      end
  end.

Definition resolveUnassignedPoints (fuel : nat) (newFaces : list ref) : M unit :=
  un <- gets HullState.unassigned ;;
  if vertexListIsEmpty un then ret tt
  else resolveLoop fuel newFaces (VertexList.head un).

Fixpoint eyeLoop (fuel : nat) (eyeFace : ref) (vertex : option ref)
    (maxDistance : float) (eyeVertex : option ref) : M (option ref) :=
  match vertex with
  | None => ret eyeVertex
  | Some v =>
      vx <- getVertex v ;;
      if bool_decide (VertexNode.face vx = Some eyeFace) then
        match fuel with
        | O => outOfFuel
        | S fuel' =>
            points <- gets HullState.points ;;
            fc <- getFace eyeFace ;;
            distance <- orRaise (faceDistanceToPoint fc points (VertexNode.index vx)) ;;
            if (maxDistance <? distance)%float
            then eyeLoop fuel' eyeFace (VertexNode.next vx) distance (Some v)
            else eyeLoop fuel' eyeFace (VertexNode.next vx) maxDistance eyeVertex
        end
      else ret eyeVertex
  end.

Definition nextVertexToAdd (fuel : nat) : M (option ref) :=
  asg <- gets HullState.assigned ;;
  match VertexList.head asg with
  | None => ret None
  | Some h =>
      hd <- getVertex h ;;
      eyeFace <- orRaise (VertexNode.face hd) ;;
      fc <- getFace eyeFace ;;
      eyeLoop fuel eyeFace (Face.outside fc) 0%float None
  end.

Fixpoint computeHorizon (fuel : nat) (eyePoint : nat) (crossEdge : option ref)
    (face : ref) (horizon : list ref) {struct fuel} : M (list ref) :=
  match fuel with
  | O => outOfFuel
  | S fuel' =>
      deleteFaceVertices fuel' face None ;;
      updFace face (Face.set_mark DELETED) ;;
      edge <- match crossEdge with
              | None => oe <- faceGetEdge face 0 ;; orRaise oe
              | Some ce => cd <- getEdge ce ;; orRaise (HalfEdge.next cd)
              end ;;
      horizonLoop fuel' eyePoint edge edge horizon
  end
with horizonLoop (fuel : nat) (eyePoint : nat) (startEdge edge : ref)
    (horizon : list ref) {struct fuel} : M (list ref) :=
  match fuel with
  | O => outOfFuel
  | S fuel' =>
      ed <- getEdge edge ;;
      twinEdge <- orRaise (HalfEdge.twin ed) ;;
      td <- getEdge twinEdge ;;
      let oppositeFace := HalfEdge.face td in
      opp <- getFace oppositeFace ;;
      horizon' <-
        (if bool_decide (Face.mark opp = VISIBLE) then
           points <- gets HullState.points ;;
           tol <- gets HullState.tolerance ;;
           d <- orRaise (faceDistanceToPoint opp points eyePoint) ;;
           if (tol <? d)%float
           then computeHorizon fuel' eyePoint (Some twinEdge) oppositeFace horizon
           else ret (horizon ++ [edge])
         else ret horizon) ;;
      ed' <- getEdge edge ;;
      next <- orRaise (HalfEdge.next ed') ;;
      if bool_decide (next = startEdge) then ret horizon'
      else horizonLoop fuel' eyePoint startEdge next horizon'
  end.

Definition addAdjoiningFace (eyeVertex horizonEdge : ref) : M ref :=
  ot <- halfEdgeTail horizonEdge ;;
  hd <- halfEdgeHead horizonEdge ;;
  tl <- orRaise ot ;;
  face <- faceCreate eyeVertex tl hd ;;
  faceCompute face ;;
  modify (fun s => HullState.set_faces (HullState.faces s ++ [face]) s) ;;
  oe <- faceGetEdge face (-1) ;;
  he <- getEdge horizonEdge ;;
  e <- orRaise oe ;;
  tw <- orRaise (HalfEdge.twin he) ;;
  halfEdgeSetTwin e tw ;;
  o0 <- faceGetEdge face 0 ;;
  orRaise o0.

Fixpoint addNewFacesLoop (eyeVertex : ref) (horizon : list ref)
    (firstSideEdge previousSideEdge : option ref) : M (option ref * option ref) :=
  match horizon with
  | [] => ret (firstSideEdge, previousSideEdge)
  | horizonEdge :: rest =>
      sideEdge <- addAdjoiningFace eyeVertex horizonEdge ;;
      sd <- getEdge sideEdge ;;
      first' <-
        match firstSideEdge with
        | None => ret (Some sideEdge)
        | Some _ =>
            sn <- orRaise (HalfEdge.next sd) ;;
            pv <- orRaise previousSideEdge ;;
            halfEdgeSetTwin sn pv ;;
            ret firstSideEdge
        end ;;
      modify (fun s => HullState.set_newFaces (HullState.newFaces s ++ [HalfEdge.face sd]) s) ;;
      addNewFacesLoop eyeVertex rest first' (Some sideEdge)
  end.

Definition addNewFaces (eyeVertex : ref) (horizon : list ref) : M unit :=
  modify (HullState.set_newFaces []) ;;
  fp <- addNewFacesLoop eyeVertex horizon None None ;;
  let '(firstSideEdge, previousSideEdge) := fp in
  f <- orRaise firstSideEdge ;;
  fd <- getEdge f ;;
  fn <- orRaise (HalfEdge.next fd) ;;
  pv <- orRaise previousSideEdge ;;
  halfEdgeSetTwin fn pv.

Definition addVertexToHull (fuel : nat) (eyeVertex : ref) : M unit :=
  vertexListClear Unassigned ;;
  ev <- getVertex eyeVertex ;;
  face <- orRaise (VertexNode.face ev) ;;
  removeVertexFromFace eyeVertex face ;;
  ev <- getVertex eyeVertex ;;
  face <- orRaise (VertexNode.face ev) ;;
  horizon <- computeHorizon fuel (VertexNode.index ev) None face [] ;;
  addNewFaces eyeVertex horizon ;;
  newFaces <- gets HullState.newFaces ;;
  resolveUnassignedPoints fuel newFaces.

Fixpoint activeFaces (faces : list ref) : M (list ref) :=
  match faces with
  | [] => ret []
  | face :: rest =>
      fc <- getFace face ;;
      act <- activeFaces rest ;;
      ret (if bool_decide (Face.mark fc = VISIBLE) then face :: act else act)
  end.

Definition reindexFaces : M unit :=
  faces <- gets HullState.faces ;;
  act <- activeFaces faces ;;
  modify (HullState.set_faces act).

Fixpoint triangleIndices (faces : list ref) : M (list nat) :=
  match faces with
  | [] => ret []
  | face :: rest =>
      fc <- getFace face ;;
      tri <-
        match Face.edge fc with
        | Some e =>
            if bool_decide (Face.mark fc = VISIBLE) then
              ed <- getEdge e ;;
              v0 <- getVertex (HalfEdge.vertex ed) ;;
              en <- orRaise (HalfEdge.next ed) ;;
              nd <- getEdge en ;;
              v1 <- getVertex (HalfEdge.vertex nd) ;;
              ep <- orRaise (HalfEdge.prev ed) ;;
              pd <- getEdge ep ;;
              v2 <- getVertex (HalfEdge.vertex pd) ;;
              ret [VertexNode.index v0; VertexNode.index v1; VertexNode.index v2]
            else ret []
        | None => ret []
        end ;;
      more <- triangleIndices rest ;;
      ret (tri ++ more)
  end.

Definition getTriangleIndices : M (list nat) :=
  faces <- gets HullState.faces ;;
  triangleIndices faces.

(** [n = points.size() / 3] need not be whole; [for (i = 0; i < n; i++)]
    then runs for every i with 3 * i < size. *)
Definition vertexCount (size : nat) : nat := (size + 2) / 3.

Definition createHullState (points : list float) : HullState.t :=
  HullState.mk points (-1)%float [] [] createVertexList createVertexList
    (map createVertexNode (seq 0 (vertexCount (length points)))) [] [].

Fixpoint insertionLoop (fuel : nat) (vertex : option ref) : M unit :=
  match vertex with
  | None => ret tt
  | Some v =>
      match fuel with
      | O => outOfFuel
      | S fuel' =>
          addVertexToHull fuel v ;;
          vertex' <- nextVertexToAdd fuel ;;
          insertionLoop fuel' vertex'
      end
  end.

(** The body of [quickhull3] after the hull state is created. *)
Definition buildHull (fuel : nat) : M unit :=
  computeInitialHull ;;
  vertex <- nextVertexToAdd fuel ;;
  insertionLoop fuel vertex ;;
  reindexFaces.

Definition runHull (fuel : nat) (points : list float) : result (list nat * HullState.t) :=
  (buildHull fuel ;; getTriangleIndices) (createHullState points).

Definition quickhull3 (fuel : nat) (points : list float) : result (list nat) :=
  if length points <? 12 then Ok []
  else match runHull fuel points with
       | Ok (r, _) => Ok r
       | Raise => Raise
       | OutOfFuel => OutOfFuel
       end.

(** ** The scenarios of the test suite *)

Definition fl (z : Z) : float := PrimFloat.of_uint63 (Uint63.of_Z (Z.abs z)) *
  (if (z <? 0)%Z then (-1)%float else 1%float).

Definition flattenPoints (pts : list (Z * Z * Z)) : list float :=
  flat_map (fun '(x, y, z) => [fl x; fl y; fl z]) pts.

Definition tetrahedron := flattenPoints [(0,1,0); (1,-1,1); (-1,-1,1); (0,-1,-1)]%Z.
Definition octahedron :=
  flattenPoints [(1,0,0); (0,1,0); (0,0,1); (-1,0,0); (0,-1,0); (0,0,-1)]%Z.
Definition cube :=
  flattenPoints [(0,0,0); (1,0,0); (0,1,0); (0,0,1); (1,1,0); (1,0,1); (0,1,1); (1,1,1)]%Z.

(** ** Reference definitions for the statements *)

(** The state with which [quickhull3] returns, when it returns. *)
Definition finalState (fuel : nat) (points : list float) : option HullState.t :=
  match runHull fuel points with Ok (_, s) => Some s | _ => None end.

(** Coordinate [j] of point [i] in the flat array. *)
Definition coord (points : list float) (i j : nat) : float :=
  default 0%float (points !! (i * 3 + j)).

Definition minStep (m v : float) : float := if (v <? m)%float then v else m.
Definition maxStep (m v : float) : float := if (m <? v)%float then v else m.

(** The least and the greatest coordinate of axis [j] over the [n] points,
    found by a left-to-right scan that starts from the first point. *)
Definition axisMin (points : list float) (n j : nat) : float :=
  fold_left (fun m i => minStep m (coord points i j)) (seq 0 n) (coord points 0 j).
Definition axisMax (points : list float) (n j : nat) : float :=
  fold_left (fun m i => maxStep m (coord points i j)) (seq 0 n) (coord points 0 j).

Definition axisExtent (points : list float) (n j : nat) : float :=
  math_max (abs (axisMin points n j)) (abs (axisMax points n j)).

(** 3 x machine epsilon x (sum of the per-axis greatest absolute extents) *)
Definition specTolerance (points : list float) : float :=
  let n := vertexCount (length points) in
  (3 * Number_EPSILON *
   (axisExtent points n 0 + axisExtent points n 1 + axisExtent points n 2))%float.

(** The length of the cross product of the edge vectors p1 - p0 and
    p2 - p0 (twice the area of the triangle). *)
Definition sub3 (a b : Vec3) : Vec3 :=
  let '(ax, ay, az) := a in let '(bx, b_y, bz) := b in
  ((ax - bx)%float, (ay - b_y)%float, (az - bz)%float).
Definition cross3 (u v : Vec3) : Vec3 :=
  let '(ux, uy, uz) := u in let '(vx, vy, vz) := v in
  ((uy * vz - uz * vy)%float, (uz * vx - ux * vz)%float, (ux * vy - uy * vx)%float).
Definition length3 (u : Vec3) : float :=
  let '(ux, uy, uz) := u in PrimFloat.sqrt (ux * ux + uy * uy + uz * uz)%float.
Definition edgeCrossLength (p0 p1 p2 : Vec3) : float :=
  length3 (cross3 (sub3 p1 p0) (sub3 p2 p0)).

(** Signed distance of input point [vertexIndex] to the plane stored in
    face [face] of state [s]. *)
Definition distanceTo (s : HullState.t) (face : ref) (vertexIndex : nat) : option float :=
  fc ← HullState.faceStore s !! face;
  faceDistanceToPoint fc (HullState.points s) vertexIndex.

Definition isVisible (s : HullState.t) (face : ref) : bool :=
  match HullState.faceStore s !! face with
  | Some fc => bool_decide (Face.mark fc = VISIBLE)
  | None => false
  end.

(** *** Integrity of a vertex list

    [segment vs p xs n]: the nodes named by [xs] are linked to each other
    in this order, both ways; the first one has [prev = p] and the last
    one [next = n]. *)
Definition firstOr (xs : list ref) (n : option ref) : option ref :=
  match xs with [] => n | x :: _ => Some x end.
Definition lastOr (xs : list ref) (p : option ref) : option ref :=
  match last xs with Some x => Some x | None => p end.

Fixpoint segment (vs : list VertexNode.t) (p : option ref) (xs : list ref)
    (n : option ref) : Prop :=
  match xs with
  | [] => True
  | x :: rest =>
      exists nd, vs !! x = Some nd /\ VertexNode.prev nd = p /\
                 VertexNode.next nd = firstOr rest n /\
                 segment vs (Some x) rest n
  end.

(** The list [l] over the arena [vs] holds exactly the nodes [xs], in
    order: head and tail point at its ends, prev and next are inverse of
    each other along it, and no node occurs twice. *)
Definition wellFormed (vs : list VertexNode.t) (l : VertexList.t) (xs : list ref) : Prop :=
  NoDup xs /\
  VertexList.head l = head xs /\
  VertexList.tail l = last xs /\
  segment vs None xs None.

Definition listOk (s : HullState.t) (w : ListName) (xs : list ref) : Prop :=
  wellFormed (HullState.vertices s) (HullState.getList w s) xs.

(** A small state for trying the list operations: nodes 0, 1, 2 are the
    assigned list in this order, node 3 is in no list, and nodes 4, 5 are
    an already linked chain outside the list. *)
Definition listDemo : HullState.t :=
  HullState.mk [] 0%float [] []
    (VertexList.mk (Some 0) (Some 2)) createVertexList
    [ VertexNode.mk 0 None (Some 1) None;
      VertexNode.mk 1 (Some 0) (Some 2) None;
      VertexNode.mk 2 (Some 1) None None;
      VertexNode.mk 3 None None None;
      VertexNode.mk 4 None (Some 5) None;
      VertexNode.mk 5 (Some 4) None None ] [] [].

(** Vertex [v] is filed under face [f]: the node names the face, and the
    face names the node as the first of its outside vertices. *)
Definition filedUnder (s : HullState.t) (v f : ref) : Prop :=
  (exists nd, HullState.vertices s !! v = Some nd /\ VertexNode.face nd = Some f) /\
  (exists fc, HullState.faceStore s !! f = Some fc /\ Face.outside fc = Some v).

(** The first visible face of [faces] that point [vertexIndex] is beyond
    tolerance outside of, if there is one. *)
Fixpoint firstExceeding (s : HullState.t) (vertexIndex : nat) (faces : list ref)
    : option ref :=
  match faces with
  | [] => None
  | face :: rest =>
      match distanceTo s face vertexIndex with
      | Some d =>
          if isVisible s face && (HullState.tolerance s <? d)%float then Some face
          else firstExceeding s vertexIndex rest
      | None => firstExceeding s vertexIndex rest
      end
  end.

(** The part of [addVertexToHull] that comes before the re-triage. *)
Definition hullBeforeRetriage (fuel : nat) (eyeVertex : ref) : M unit :=
  vertexListClear Unassigned ;;
  ev <- getVertex eyeVertex ;;
  face <- orRaise (VertexNode.face ev) ;;
  removeVertexFromFace eyeVertex face ;;
  ev <- getVertex eyeVertex ;;
  face <- orRaise (VertexNode.face ev) ;;
  horizon <- computeHorizon fuel (VertexNode.index ev) None face [] ;;
  addNewFaces eyeVertex horizon.

(** Six points: a tetrahedron (0, 1, 2, 3), the eye point 4 in the plane
    of its face (0, 1, 2), and point 5, which is 1e-13 above that plane
    and well outside the new face that joins 4 to the edge (1, 3). *)
Definition retriageInput : list float :=
  [ -1; 0; 0;   1; 0; 0;   0; 1; 0;   0; 0.5; -1;   0; -1; 0;
    0.9; -0.5; 1e-13 ]%float.

(** The state an operation ends in (the empty state if it does not end). *)
Definition stateOf {A} (r : result (A * HullState.t)) : HullState.t :=
  match r with Ok (_, s) => s | _ => createHullState [] end.

(** [retriageInput] after the seed tetrahedron, and then after the hull is
    opened for the eye vertex 4, just before the re-triage. *)
Definition retriageSeed : HullState.t :=
  stateOf (computeInitialHull (createHullState retriageInput)).
Definition retriageState : HullState.t :=
  stateOf (hullBeforeRetriage 100 4 retriageSeed).

(** Readings of the half-edge arena. *)
Definition nextOf (s : HullState.t) (e : ref) : option ref :=
  ed ← HullState.edgeStore s !! e; HalfEdge.next ed.
Definition prevOf (s : HullState.t) (e : ref) : option ref :=
  ed ← HullState.edgeStore s !! e; HalfEdge.prev ed.
Definition twinOf (s : HullState.t) (e : ref) : option ref :=
  ed ← HullState.edgeStore s !! e; HalfEdge.twin ed.
Definition faceOf (s : HullState.t) (e : ref) : option ref :=
  ed ← HullState.edgeStore s !! e; Some (HalfEdge.face ed).
Definition edgeOf (s : HullState.t) (f : ref) : option ref :=
  fc ← HullState.faceStore s !! f; Face.edge fc.
Definition markOf (s : HullState.t) (f : ref) : option nat :=
  fc ← HullState.faceStore s !! f; Some (Face.mark fc).

(** The octahedron after its seed tetrahedron, and then after the first
    insertion (of vertex 4). *)
Definition octahedronSeed : HullState.t :=
  stateOf (computeInitialHull (createHullState octahedron)).
Definition octahedronStep : HullState.t :=
  stateOf (addVertexToHull 100 4 octahedronSeed).

(** The first steps of [computeInitialHull] as a function of the input
    alone: the extremes, the seed line (v0, v1), and the search for the
    third seed vertex v2. *)
Definition seedVertices (points : list float) : list VertexNode.t :=
  map createVertexNode (seq 0 (vertexCount (length points))).






(** What of a half-edge never changes once it is made, and what of a face
    does not depend on its geometry. *)
Definition edgeShape (ed : HalfEdge.t) : ref * option ref * option ref * ref :=
  (HalfEdge.vertex ed, HalfEdge.prev ed, HalfEdge.next ed, HalfEdge.face ed).
Definition faceShape (fc : Face.t) : nat * option ref * option ref :=
  (Face.mark fc, Face.edge fc, Face.outside fc).
Definition edgeSkeleton (s : HullState.t) := map edgeShape (HullState.edgeStore s).
Definition faceSkeleton (s : HullState.t) := map faceShape (HullState.faceStore s).

(** The shape of the faces made from the vertex triples [ts], in an empty
    arena: face k owns the half-edges 3k, 3k+1, 3k+2. *)
Fixpoint trianglesShape (k : nat) (ts : list (ref * ref * ref))
    : list (ref * option ref * option ref * ref) :=
  match ts with
  | [] => []
  | (a, b, c) :: rest =>
      [ (a, Some (3 * k + 2), Some (3 * k + 1), k);
        (b, Some (3 * k), Some (3 * k + 2), k);
        (c, Some (3 * k + 1), Some (3 * k), k) ] ++ trianglesShape (S k) rest
  end.

(** The two windings of the seed tetrahedron. *)
Definition seedOutward (v0 v1 v2 v3 : ref) : list (ref * ref * ref) :=
  [(v0, v1, v2); (v3, v1, v0); (v3, v2, v1); (v3, v0, v2)].
Definition seedInward (v0 v1 v2 v3 : ref) : list (ref * ref * ref) :=
  [(v0, v2, v1); (v3, v0, v1); (v3, v1, v2); (v3, v2, v0)].

(** The three vertices [faceCompute] reads for a face: tail and head of
    its edge, and head of the next edge. *)
Definition cornersOf (s : HullState.t) (face : ref) : option (ref * ref * ref) :=
  fc ← HullState.faceStore s !! face;
  e ← Face.edge fc;
  ed ← HullState.edgeStore s !! e;
  p ← HalfEdge.prev ed;
  pd ← HullState.edgeStore s !! p;
  en ← HalfEdge.next ed;
  nd ← HullState.edgeStore s !! en;
  Some (HalfEdge.vertex pd, HalfEdge.vertex ed, HalfEdge.vertex nd).

(** What [faceCompute] makes of the face record [base] of a face made by
    [faceCreate a b c]: it reads the corners in the order c, a, b. *)
Definition facePlane (base : Face.t) (points : list float) (t : ref * ref * ref)
    : option Face.t :=
  let '(a, b, c) := t in
  pc ← point3 points (c * 3); pa ← point3 points (a * 3); pb ← point3 points (b * 3);
  Some (faceGeometry base pc pa pb).

(** The plane stored for the output triangle [t]. *)
Definition storedPlane (points : list float) (t : ref * ref * ref) : option Face.t :=
  facePlane createFace points t.

Definition triangleList (ts : list (ref * ref * ref)) : list nat :=
  flat_map (fun '(a, b, c) => [a; b; c]) ts.

(** A long thin wedge: the seed tetrahedron has the vertices 0, 1, 2, 3,
    and vertex 4 lies next to the middle of its long edge 0-1, above the
    tolerance over face (0, 1, 2) but within it over face (3, 0, 1). *)
Definition leverInput : list float :=
  [-1000000; 0; 0;  1000000; 0; 0;  0; 50000; -100000;  0; 100000; 0;
   0; -2e-9; 5e-10]%float.

(** The check of the test suite ([isConvexHull]) for one triangle and one
    point: the length of the triangle's cross product (triangles under
    1e-6 are skipped) and the signed distance of the point to its plane
    (a distance above 1e-6 counts as an error). *)
Definition TEST_EPS : float := 1e-6%float.

Definition oracleDistance (points : list float) (t : ref * ref * ref) (j : nat)
    : option (float * float) :=
  let '(v0, v1, v2) := t in
  '(p0x, p0y, p0z) ← point3 points (v0 * 3);
  '(p1x, p1y, p1z) ← point3 points (v1 * 3);
  '(p2x, p2y, p2z) ← point3 points (v2 * 3);
  '(px, py, pz) ← point3 points (j * 3);
  let e1x := (p1x - p0x)%float in
  let e1y := (p1y - p0y)%float in
  let e1z := (p1z - p0z)%float in
  let e2x := (p2x - p0x)%float in
  let e2y := (p2y - p0y)%float in
  let e2z := (p2z - p0z)%float in
  let nx := (e1y * e2z - e1z * e2y)%float in
  let ny := (e1z * e2x - e1x * e2z)%float in
  let nz := (e1x * e2y - e1y * e2x)%float in
  let len := PrimFloat.sqrt (nx * nx + ny * ny + nz * nz)%float in
  let normalX := (nx / len)%float in
  let normalY := (ny / len)%float in
  let normalZ := (nz / len)%float in
  let offset := (normalX * p0x + normalY * p0y + normalZ * p0z)%float in
  Some (len, (normalX * px + normalY * py + normalZ * pz - offset)%float).

(** The half-edges come in threes: face k owns the half-edges 3k, 3k+1
    and 3k+2, its [edge] is the first of them, and [next] and [prev] turn
    around the three. *)
Definition meshShape (s : HullState.t) : Prop :=
  length (HullState.edgeStore s) = 3 * length (HullState.faceStore s) /\
  (forall f fc, HullState.faceStore s !! f = Some fc -> Face.edge fc = Some (3 * f)) /\
  (forall k i ed, i < 3 -> HullState.edgeStore s !! (3 * k + i) = Some ed ->
     HalfEdge.face ed = k /\
     HalfEdge.next ed = Some (3 * k + (i + 1) mod 3) /\
     HalfEdge.prev ed = Some (3 * k + (i + 2) mod 3)).

(** Every half-edge of a VISIBLE face has a twin, the twin is a half-edge
    of a VISIBLE face, and the twin's twin is the half-edge itself. *)
Definition twinsLinked (s : HullState.t) : Prop :=
  forall e ed, HullState.edgeStore s !! e = Some ed ->
    isVisible s (HalfEdge.face ed) = true ->
    exists t td, HalfEdge.twin ed = Some t /\
      HullState.edgeStore s !! t = Some td /\
      HalfEdge.twin td = Some e /\
      isVisible s (HalfEdge.face td) = true.

(** The eye point is above the tolerance over the face. *)
Definition seesEye (s : HullState.t) (eyePoint : nat) (face : ref) : bool :=
  match distanceTo s face eyePoint with
  | Some d => (HullState.tolerance s <? d)%float
  | None => false
  end.

(** The vertex is filed under a face that is VISIBLE. *)
Definition onVisible (s : HullState.t) (v : ref) : Prop :=
  exists nd f, HullState.vertices s !! v = Some nd /\
               VertexNode.face nd = Some f /\ isVisible s f = true.

(** The states of the construction between the rounds of the insertion
    loop: the seed hull, and what [addVertexToHull], called for the vertex
    that [nextVertexToAdd] answered, makes of a state so reached. *)
Inductive underConstruction (points : list float) : HullState.t -> Prop :=
| uc_seed s :
    computeInitialHull (createHullState points) = Ok (tt, s) ->
    underConstruction points s
| uc_step fuel fuel' s v s1 s' :
    underConstruction points s ->
    nextVertexToAdd fuel s = Ok (Some v, s1) ->
    addVertexToHull fuel' v s1 = Ok (tt, s') ->
    underConstruction points s'.

(** ** Invariants and relations used in the proofs *)

(** Which face a node is filed under is not touched by the list links. *)
Definition faceFields (s : HullState.t) : list (option ref) :=
  map VertexNode.face (HullState.vertices s).

(** What [faceCreate] builds, in full: one fresh face and three fresh
    half-edges after the ones that exist. *)
Definition faceCreated (a b c : ref) (s : HullState.t) : HullState.t :=
  let f := length (HullState.faceStore s) in
  let n := length (HullState.edgeStore s) in
  HullState.set_faceStore
    (HullState.faceStore s ++ [Face.set_edge (Some n) createFace])
    (HullState.set_edgeStore
       (HullState.edgeStore s ++
          [ HalfEdge.mk a (Some (n + 2)) (Some (n + 1)) None f;
            HalfEdge.mk b (Some n) (Some (n + 2)) None f;
            HalfEdge.mk c (Some (n + 1)) (Some n) None f ]) s).



(** Wiring twins and computing geometry leave everything else alone. *)
Definition sameButTwinsAndGeometry (s s' : HullState.t) : Prop :=
  edgeSkeleton s' = edgeSkeleton s /\
  faceSkeleton s' = faceSkeleton s /\
  HullState.vertices s' = HullState.vertices s /\
  HullState.assigned s' = HullState.assigned s /\
  HullState.points s' = HullState.points s /\
  HullState.tolerance s' = HullState.tolerance s /\
  HullState.faces s' = HullState.faces s.

(** Face [f] of [s'] carries the geometry of its three corners in [s]. *)
Definition computedFrom (s s' : HullState.t) (f : ref) : Prop :=
  exists fc a b c na nb nc pa pb pc,
    HullState.faceStore s !! f = Some fc /\
    cornersOf s f = Some (a, b, c) /\
    HullState.vertices s !! a = Some na /\
    HullState.vertices s !! b = Some nb /\
    HullState.vertices s !! c = Some nc /\
    point3 (HullState.points s) (VertexNode.index na * 3) = Some pa /\
    point3 (HullState.points s) (VertexNode.index nb * 3) = Some pb /\
    point3 (HullState.points s) (VertexNode.index nc * 3) = Some pc /\
    HullState.faceStore s' !! f = Some (faceGeometry fc pa pb pc).

(** The mark, the edge and the plane of a face. *)
Definition faceCore (fc : Face.t) : nat * option ref * Vec3 * float :=
  (Face.mark fc, Face.edge fc, Face.normal fc, Face.constant fc).

(** What the bookkeeping of the outside vertices leaves alone: the
    half-edges, and of a face its mark, its edge and its plane. *)
Definition sameMesh (s s' : HullState.t) : Prop :=
  HullState.edgeStore s' = HullState.edgeStore s /\
  map faceCore (HullState.faceStore s') = map faceCore (HullState.faceStore s) /\
  HullState.points s' = HullState.points s /\
  HullState.tolerance s' = HullState.tolerance s.

(** The edge and the plane of a face. *)
Definition faceGeom (fc : Face.t) : option ref * Vec3 * float :=
  (Face.edge fc, Face.normal fc, Face.constant fc).

(** While the horizon is computed, faces only go from VISIBLE to DELETED. *)
Definition marksDrop (s s' : HullState.t) : Prop :=
  HullState.edgeStore s' = HullState.edgeStore s /\
  map faceGeom (HullState.faceStore s') = map faceGeom (HullState.faceStore s) /\
  HullState.points s' = HullState.points s /\
  HullState.tolerance s' = HullState.tolerance s /\
  (forall f, isVisible s' f = true -> isVisible s f = true).

(** [e] was looked at from its face: its twin's face is gone by now, or
    [e] is on the horizon. *)
Definition examined (s : HullState.t) (new : list ref) (e : ref) : Prop :=
  exists ed t td,
    HullState.edgeStore s !! e = Some ed /\ HalfEdge.twin ed = Some t /\
    HullState.edgeStore s !! t = Some td /\
    (isVisible s (HalfEdge.face td) = false \/ e ∈ new).

(** [h] is a horizon edge: its own face is gone, the face of its twin
    stays, and the eye point is not above the tolerance over that face. *)
Definition pushed (s s' : HullState.t) (eye : nat) (h : ref) : Prop :=
  exists hd t td,
    HullState.edgeStore s !! h = Some hd /\
    isVisible s' (HalfEdge.face hd) = false /\
    HalfEdge.twin hd = Some t /\
    HullState.edgeStore s !! t = Some td /\
    isVisible s' (HalfEdge.face td) = true /\
    seesEye s eye (HalfEdge.face td) = false.

Definition onVisibleFace (s : HullState.t) (h : ref) : Prop :=
  exists hd, HullState.edgeStore s !! h = Some hd /\
             isVisible s (HalfEdge.face hd) = true.

(** A part of the depth-first walk of [computeHorizon], from [s] to [s'],
    that found the horizon edges [new]. *)
Definition sweep (s s' : HullState.t) (eye : nat) (own root : ref -> Prop)
    (new : list ref) : Prop :=
  marksDrop s s' /\ NoDup new /\
  (forall h, h ∈ new -> pushed s s' eye h /\ (own h \/ onVisibleFace s h)) /\
  (forall g, isVisible s g = true -> isVisible s' g = false ->
     (root g \/ seesEye s eye g = true) /\
     forall j, j < 3 -> examined s' new (3 * g + j)).

(** Reading the mesh does not change the state. *)
Definition unchanged (s s' : HullState.t) : Prop := s' = s.

(** The mesh while the new faces are welded in: the horizon edges still
    to do ([rest]) are half-edges of deleted faces whose twins, on kept
    faces, point back at them; the half-edges in [opens] are side edges
    of new faces that wait for their twin; every other half-edge of a
    VISIBLE face has a twin that points back, on a VISIBLE face or in
    [rest]. *)
Definition weld (s : HullState.t) (rest opens : list ref) : Prop :=
  meshShape s /\ NoDup rest /\
  (forall h, h ∈ rest -> exists hd t td,
      HullState.edgeStore s !! h = Some hd /\
      isVisible s (HalfEdge.face hd) = false /\
      HalfEdge.twin hd = Some t /\
      HullState.edgeStore s !! t = Some td /\
      isVisible s (HalfEdge.face td) = true /\
      HalfEdge.twin td = Some h) /\
  (forall e, e ∈ opens -> exists ed,
      HullState.edgeStore s !! e = Some ed /\
      isVisible s (HalfEdge.face ed) = true /\
      HalfEdge.twin ed = None) /\
  (forall e ed, HullState.edgeStore s !! e = Some ed ->
      isVisible s (HalfEdge.face ed) = true ->
      e ∈ opens \/
      exists t td, HalfEdge.twin ed = Some t /\
        HullState.edgeStore s !! t = Some td /\
        HalfEdge.twin td = Some e /\
        (isVisible s (HalfEdge.face td) = true \/ t ∈ rest)).

(** The side edges that wait for a twin while [addNewFaces] loops: the
    second edge of the first new face and the first edge of the last. *)
Definition opensOf (first prev : option ref) : list ref :=
  match first, prev with
  | Some f, Some p => [f + 1; p]
  | _, _ => []
  end.

Definition sideEdges (first prev : option ref) : Prop :=
  match first, prev with
  | Some f, Some p => f mod 3 = 0 /\ p mod 3 = 0
  | None, None => True
  | _, _ => False
  end.

(** The twins of the twelve half-edges of the seed tetrahedron. *)
Definition outwardTwins : list (option ref) :=
  [Some 11; Some 5; Some 8; Some 10; Some 6; Some 1;
   Some 4; Some 9; Some 2; Some 7; Some 3; Some 0].

Definition inwardTwins : list (option ref) :=
  [Some 5; Some 11; Some 8; Some 7; Some 9; Some 0;
   Some 10; Some 3; Some 2; Some 4; Some 6; Some 1].

(** A list operation on [w] changes links of nodes and the head and tail
    of [w], and nothing else. *)
Definition otherList (w : ListName) : ListName :=
  match w with Assigned => Unassigned | Unassigned => Assigned end.

Definition linksOnly (w : ListName) (s s' : HullState.t) : Prop :=
  faceFields s' = faceFields s /\
  length (HullState.vertices s') = length (HullState.vertices s) /\
  HullState.getList (otherList w) s' = HullState.getList (otherList w) s /\
  HullState.faceStore s' = HullState.faceStore s /\
  HullState.edgeStore s' = HullState.edgeStore s /\
  HullState.points s' = HullState.points s /\
  HullState.tolerance s' = HullState.tolerance s.

(** Nodes outside [X] are the same in [s'] as in [s]. *)
Definition nodesKept (X : list ref) (s s' : HullState.t) : Prop :=
  forall x, x ∉ X -> HullState.vertices s' !! x = HullState.vertices s !! x.

(** The assigned list is kept in groups, one per face with outside
    vertices: [gs] names each such face with its run of vertices, in the
    order of the list. *)
Definition runs (gs : list (ref * list ref)) : list ref := concat (map snd gs).

Definition outsideOf (s : HullState.t) (f : ref) : option ref :=
  match HullState.faceStore s !! f with
  | Some fc => Face.outside fc
  | None => None
  end.

Definition namesFace (s : HullState.t) (x f : ref) : Prop :=
  faceFields s !! x = Some (Some f).

(** A group: the face is VISIBLE, its [outside] is the first of the run,
    and every vertex of the run is filed under it. *)
Definition runOk (s : HullState.t) (g : ref * list ref) : Prop :=
  g.2 <> [] /\ isVisible s g.1 = true /\ outsideOf s g.1 = head g.2 /\
  forall x, x ∈ g.2 -> namesFace s x g.1.

(** The assigned list is the runs of [gs] one after the other, no face
    has two groups, and a face without a group has no outside vertex. *)
Definition filed (s : HullState.t) (gs : list (ref * list ref)) : Prop :=
  listOk s Assigned (runs gs) /\ NoDup (map fst gs) /\ Forall (runOk s) gs /\
  forall f, f ∉ map fst gs -> outsideOf s f = None.

Definition regroup (f : ref) (r : list ref) : list (ref * list ref) :=
  match r with [] => [] | _ => [(f, r)] end.

(** Both conflict lists at once: the assigned one grouped by face, the
    unassigned one well formed and apart from it. *)
Definition triaged (s : HullState.t) (gs : list (ref * list ref)) (us : list ref) : Prop :=
  filed s gs /\ listOk s Unassigned us /\ forall x, x ∈ us -> x ∉ runs gs.

Definition keepsTriage (s s' : HullState.t) : Prop :=
  (exists gs us, triaged s gs us) -> exists gs' us', triaged s' gs' us'.

(** What building and welding faces leaves alone: the vertex nodes, the
    two conflict lists, the [outside] of every face, and the faces that
    are VISIBLE stay so. *)
Definition filesKept (s s' : HullState.t) : Prop :=
  HullState.vertices s' = HullState.vertices s /\
  HullState.assigned s' = HullState.assigned s /\
  HullState.unassigned s' = HullState.unassigned s /\
  (forall f, outsideOf s' f = outsideOf s f) /\
  (forall f, isVisible s f = true -> isVisible s' f = true).

Definition allVisible (s : HullState.t) : Prop :=
  forall f fc, HullState.faceStore s !! f = Some fc -> Face.mark fc = VISIBLE.

Definition storesKept (s s' : HullState.t) : Prop :=
  HullState.edgeStore s' = HullState.edgeStore s /\
  HullState.faceStore s' = HullState.faceStore s.

(** ** Definitions for the further properties *)

Definition sameIndices (s s' : HullState.t) : Prop :=
  map VertexNode.index (HullState.vertices s') = map VertexNode.index (HullState.vertices s).

(** The vertex a half-edge points to, and the one it starts from. *)
Definition headOf (s : HullState.t) (e : ref) : option ref :=
  ed ← HullState.edgeStore s !! e; Some (HalfEdge.vertex ed).
Definition tailOf (s : HullState.t) (e : ref) : option ref :=
  ed ← HullState.edgeStore s !! e; p ← HalfEdge.prev ed;
  pd ← HullState.edgeStore s !! p; Some (HalfEdge.vertex pd).

(** The half-edges of a fan of faces around [eye], made one after the
    other from half-edge [n] and face [k] on, over the sides [corners]. *)
Fixpoint fanShape (eye : ref) (n k : nat) (corners : list (ref * ref))
    : list (ref * option ref * option ref * ref) :=
  match corners with
  | [] => []
  | (tl, hv) :: rest =>
      [ (eye, Some (n + 2), Some (n + 1), k);
        (tl, Some n, Some (n + 2), k);
        (hv, Some (n + 1), Some n, k) ] ++ fanShape eye (n + 3) (S k) rest
  end.

Definition fanFaces (n count : nat) : list (nat * option ref * option ref) :=
  map (fun i => (VISIBLE, Some (n + 3 * i), None)) (seq 0 count).

Definition sameShape (s s' : HullState.t) : Prop :=
  edgeSkeleton s' = edgeSkeleton s /\ faceSkeleton s' = faceSkeleton s /\
  HullState.faces s' = HullState.faces s /\ HullState.newFaces s' = HullState.newFaces s.

(** The octahedron once the hull is opened for vertex 4, the faces seen
    from it deleted and the horizon found. *)
Definition octahedronOpened : HullState.t :=
  stateOf (computeHorizon 100 4 None 1 [] octahedronSeed).

(** The distance of the point of vertex [x] over the plane of face [f]. *)
Definition vertexDistance (s : HullState.t) (f x : ref) : option float :=
  nd ← HullState.vertices s !! x; distanceTo s f (VertexNode.index nd).

(** A float whose sign bit is clear, or NaN. *)
Definition unsignedSF (x : spec_float) : Prop :=
  match x with
  | S754_zero s | S754_infinity s | S754_finite s _ _ => s = false
  | S754_nan => True
  end.
Definition unsigned (x : float) : Prop := unsignedSF (Prim2SF x).

(** What the plane distance of a filed vertex depends on: the face and
    the index of the node, the normal and the constant of the face. *)
Definition filing (nd : VertexNode.t) : option ref * nat :=
  (VertexNode.face nd, VertexNode.index nd).
Definition planeFields (fc : Face.t) : Vec3 * float := (Face.normal fc, Face.constant fc).

(** Every vertex node with a face in its [face] field lies above the
    plane of that face by more than the tolerance. *)
Definition filedAbove (s : HullState.t) : Prop :=
  forall v nd f, HullState.vertices s !! v = Some nd -> VertexNode.face nd = Some f ->
    exists d, distanceTo s f (VertexNode.index nd) = Some d /\
              (HullState.tolerance s <? d)%float = true.

Definition planesKept (s s' : HullState.t) : Prop :=
  HullState.points s' = HullState.points s /\
  HullState.tolerance s' = HullState.tolerance s /\
  map filing (HullState.vertices s') = map filing (HullState.vertices s) /\
  forall f fc, HullState.faceStore s !! f = Some fc ->
    exists fc', HullState.faceStore s' !! f = Some fc' /\ planeFields fc' = planeFields fc.

Definition keepsAbove (s s' : HullState.t) : Prop := filedAbove s -> filedAbove s'.

(** [m] started in [s] does not run out of fuel: it answers or raises. *)
Definition finishes {A} (m : M A) (s : HullState.t) : Prop := m s <> OutOfFuel.

(** [m] never runs out of fuel. *)
Definition ends {A} (m : M A) : Prop := forall s, finishes m s.

(** The number of faces marked VISIBLE. *)
Definition visibleCount (s : HullState.t) : nat :=
  length (filter (fun f => isVisible s f = true) (seq 0 (length (HullState.faceStore s)))).

(** Between [s] and [s'] the two conflict lists take up no vertex: what
    they hold afterwards, they held before. *)
Definition keepsCensus (s s' : HullState.t) : Prop :=
  forall gs us, triaged s gs us ->
    exists gs' us', triaged s' gs' us' /\
      forall x, x ∈ runs gs' ++ us' -> x ∈ runs gs ++ us.

(** Fuel that is enough for [quickhull3] on [points]. *)
Definition enoughFuel (points : list float) : nat :=
  let n := vertexCount (length points) in
  2 * n + 16 * 4 ^ n + 4.

(** A float that is a zero of either sign, or NaN. *)
Definition zeroOrNan (x : float) : Prop :=
  match Prim2SF x with
  | S754_zero _ | S754_nan => True
  | _ => False
  end.

(** A face over three points of one line, fresh from [faceCreate]. *)
Definition flatFace : HullState.t :=
  stateOf (faceCreate 0 1 2
             (createHullState [0; 0; 0; 1; 0; 0; 2; 0; 0; 0; 0; 1]%float)).

(** What the bookkeeping of the vertices and the walk over the faces
    leave alone: the list [faces] and the number of faces there are. *)
Definition facesKept (s s' : HullState.t) : Prop :=
  HullState.faces s' = HullState.faces s /\
  length (HullState.faceStore s') = length (HullState.faceStore s).

(** ** The check of the test suite *)

(** The check of the test suite in full.  [oraclePlane] is the plane it
    computes for one output triangle, with the length of the cross
    product; [oracleErrors] counts the points the inner loop finds more
    than 1e-6 above that plane (none for a triangle it skips), and
    [isConvexHull] says whether no triangle has any.  Reading a
    coordinate that is not there is an error ([None]). *)
Definition oraclePlane (points : list float) (t : ref * ref * ref)
    : option (float * Vec3 * float) :=
  let '(v0, v1, v2) := t in
  '(p0x, p0y, p0z) ← point3 points (v0 * 3);
  '(p1x, p1y, p1z) ← point3 points (v1 * 3);
  '(p2x, p2y, p2z) ← point3 points (v2 * 3);
  let e1x := (p1x - p0x)%float in
  let e1y := (p1y - p0y)%float in
  let e1z := (p1z - p0z)%float in
  let e2x := (p2x - p0x)%float in
  let e2y := (p2y - p0y)%float in
  let e2z := (p2z - p0z)%float in
  let nx := (e1y * e2z - e1z * e2y)%float in
  let ny := (e1z * e2x - e1x * e2z)%float in
  let nz := (e1x * e2y - e1y * e2x)%float in
  let len := PrimFloat.sqrt (nx * nx + ny * ny + nz * nz)%float in
  let normalX := (nx / len)%float in
  let normalY := (ny / len)%float in
  let normalZ := (nz / len)%float in
  let offset := (normalX * p0x + normalY * p0y + normalZ * p0z)%float in
  Some (len, (normalX, normalY, normalZ), offset).

Fixpoint oracleErrors (points : list float) (t : ref * ref * ref) (normal : Vec3)
    (offset : float) (js : list nat) (nError : nat) : option nat :=
  match js with
  | [] => Some nError
  | j :: rest =>
      let '(v0, v1, v2) := t in
      if bool_decide (j = v0) || bool_decide (j = v1) || bool_decide (j = v2)
      then oracleErrors points t normal offset rest nError
      else
        '(px, py, pz) ← point3 points (j * 3);
        let '(normalX, normalY, normalZ) := normal in
        let dist := (normalX * px + normalY * py + normalZ * pz - offset)%float in
        oracleErrors points t normal offset rest
          (if (TEST_EPS <? dist)%float then S nError else nError)
  end.

Fixpoint oracleFaces (points : list float) (faces : list nat) (nError : nat)
    {struct faces} : option nat :=
  match faces with
  | v0 :: v1 :: v2 :: rest =>
      '(len, normal, offset) ← oraclePlane points (v0, v1, v2);
      if (len <? TEST_EPS)%float then oracleFaces points rest nError
      else
        nError' ← oracleErrors points (v0, v1, v2) normal offset
                    (seq 0 (vertexCount (length points))) nError;
        oracleFaces points rest nError'
  | [] => Some nError
  | _ => None
  end.

Definition isConvexHull (points : list float) (faces : list nat) : option bool :=
  nError ← oracleFaces points faces 0; Some (bool_decide (nError = 0)).

(** ** Degenerate inputs *)





(** ** The re-triage, described *)

(** *** The re-triage as the amended C3 words it *)

(** The distance the scan sees for face [g]: faces that are not VISIBLE
    are passed over. *)
Definition seenDistance (s : HullState.t) (i : nat) (g : ref) : option float :=
  if isVisible s g then distanceTo s g i else None.

(** The greatest distance seen: the greatest of [m] and the distances of
    point [i] to the visible faces among [faces]. *)
Definition greatestSeen (s : HullState.t) (i : nat) (faces : list ref) (m : float) : float :=
  fold_left (fun m g => match seenDistance s i g with
                        | Some d => if (m <? d)%float then d else m
                        | None => m
                        end) faces m.

(** The faces the scan looks at for point [i], [front] being looked at
    already: all of them, unless with some visible face the greatest
    distance seen goes above 1000 x tolerance, which ends the scan. *)
Fixpoint scannedFaces (s : HullState.t) (i : nat) (front faces : list ref) : list ref :=
  match faces with
  | [] => front
  | g :: rest =>
      if isVisible s g &&
         (1000 * HullState.tolerance s
            <? greatestSeen s i (front ++ [g]) (HullState.tolerance s))%float
      then front ++ [g]
      else scannedFaces s i (front ++ [g]) rest
  end.

(** Face [g] is seen at distance [m]. *)
Definition seenAt (s : HullState.t) (i : nat) (m : float) (g : ref) : bool :=
  match seenDistance s i g with Some d => (d =? m)%float | None => false end.

(** The first of [faces] seen at distance [m], if [m] is above the
    tolerance. *)
Definition firstSeenAt (s : HullState.t) (i : nat) (faces : list ref) (m : float)
    : option ref :=
  if (HullState.tolerance s <? m)%float then List.find (seenAt s i m) faces else None.

(** The face the re-triage files point [i] under: the first scanned face
    at the greatest distance seen, if that is above the tolerance. *)
Definition retriageFace (s : HullState.t) (i : nat) (newFaces : list ref) : option ref :=
  let scanned := scannedFaces s i [] newFaces in
  firstSeenAt s i scanned (greatestSeen s i scanned (HullState.tolerance s)).

(** What a scan reads of the state: the coordinates, the tolerance, the
    index of every vertex node, and plane and mark of every face. *)
Definition scanFields (fc : Face.t) : Vec3 * float * nat :=
  (Face.normal fc, Face.constant fc, Face.mark fc).
Definition sameScan (s s' : HullState.t) : Prop :=
  HullState.points s' = HullState.points s /\
  HullState.tolerance s' = HullState.tolerance s /\
  map VertexNode.index (HullState.vertices s') = map VertexNode.index (HullState.vertices s) /\
  map scanFields (HullState.faceStore s') = map scanFields (HullState.faceStore s).

(** ** Inputs that are equal to the program *)

(** *** Numbers that are equal to the program

    [==] on numbers does not tell the two zeros apart: [sameNumber a b]
    holds when [a] and [b] are the same value, or are zeros of either
    sign. *)
Definition sameSF (x y : spec_float) : Prop :=
  x = y \/ exists s s', x = S754_zero s /\ y = S754_zero s'.
Definition sameNumber (a b : float) : Prop := sameSF (Prim2SF a) (Prim2SF b).

Definition sameVec (u v : Vec3) : Prop :=
  sameNumber u.1.1 v.1.1 /\ sameNumber u.1.2 v.1.2 /\ sameNumber u.2 v.2.

Definition sameFace (f g : Face.t) : Prop :=
  sameVec (Face.normal f) (Face.normal g) /\
  sameVec (Face.midpoint f) (Face.midpoint g) /\
  sameNumber (Face.area f) (Face.area g) /\
  sameNumber (Face.constant f) (Face.constant g) /\
  Face.outside f = Face.outside g /\ Face.mark f = Face.mark g /\
  Face.edge f = Face.edge g.

Definition sameExtremes (a b : Extremes) : Prop :=
  sameVec (ex_min a) (ex_min b) /\ sameVec (ex_max a) (ex_max b) /\
  minVertices a = minVertices b /\ maxVertices a = maxVertices b.

Definition samePlane (a b : Vec3 * float) : Prop :=
  sameVec a.1 b.1 /\ sameNumber a.2 b.2.

(** Two states of the construction that differ at most in the sign of
    zeros among their numbers. *)
Definition sameRun (s t : HullState.t) : Prop :=
  Forall2 sameNumber (HullState.points s) (HullState.points t) /\
  sameNumber (HullState.tolerance s) (HullState.tolerance t) /\
  HullState.faces s = HullState.faces t /\
  HullState.newFaces s = HullState.newFaces t /\
  HullState.assigned s = HullState.assigned t /\
  HullState.unassigned s = HullState.unassigned t /\
  HullState.vertices s = HullState.vertices t /\
  Forall2 sameFace (HullState.faceStore s) (HullState.faceStore t) /\
  HullState.edgeStore s = HullState.edgeStore t.

(** Two outcomes of the same kind, with answers related by [RA] and end
    states alike. *)
Definition sameOutcome {A} (RA : A -> A -> Prop) (r1 r2 : result (A * HullState.t)) : Prop :=
  match r1, r2 with
  | Ok (a, s), Ok (b, t) => RA a b /\ sameRun s t
  | Raise, Raise => True
  | OutOfFuel, OutOfFuel => True
  | _, _ => False
  end.

(** Two programs that take like states to like outcomes. *)
Definition agree {A} (RA : A -> A -> Prop) (m1 m2 : M A) : Prop :=
  forall s t, sameRun s t -> sameOutcome RA (m1 s) (m2 t).

(** The tetrahedron of the test suite with every zero coordinate written
    as the negative zero. *)
Definition tetrahedronNegativeZeros : list float :=
  [-0; 1; -0;  1; -1; 1;  -1; -1; 1;  -0; -1; -1]%float.

(* ====================================================================== *)
(** * Properties *)

(** ** Order facts of binary64 comparison *)

Lemma SFcompare_Lt_irrefl x : SFcompare x x <> Some Lt.
Proof.
  destruct x as [[]|[]| |[] m e]; simpl; try congruence.
  - rewrite Z.compare_refl, Pos.compare_cont_refl. simpl. congruence.
  - rewrite Z.compare_refl, Pos.compare_cont_refl. congruence.
Qed.

Lemma ltb_irrefl (x : float) : (x <? x)%float = false.
Proof.
  rewrite ltb_spec. unfold SFltb.
  pose proof (SFcompare_Lt_irrefl (Prim2SF x)).
  destruct (SFcompare (Prim2SF x) (Prim2SF x)) as [[]|]; congruence.
Qed.

Lemma SFltb_trans x y z : SFltb x y = true -> SFltb y z = true -> SFltb x z = true.
Proof.
  unfold SFltb.
  destruct x as [[]|[]| |[] m1 e1], y as [[]|[]| |[] m2 e2], z as [[]|[]| |[] m3 e3];
    simpl; try congruence;
    fold (Pos.compare m1 m2) (Pos.compare m2 m3) (Pos.compare m1 m3);
    destruct (Z.compare_spec e1 e2), (Z.compare_spec e2 e3), (Z.compare_spec e1 e3);
    try congruence; try lia;
    destruct (Pos.compare_spec m1 m2), (Pos.compare_spec m2 m3), (Pos.compare_spec m1 m3);
    simpl; try congruence; lia.
Qed.

Lemma ltb_trans (x y z : float) :
  (x <? y)%float = true -> (y <? z)%float = true -> (x <? z)%float = true.
Proof. rewrite !ltb_spec. apply SFltb_trans. Qed.

(** ** Reasoning about the monad *)

Lemma bind_Ok {A B} (m : M A) (k : A -> M B) s b s'' :
  bind m k s = Ok (b, s'') <-> exists a s', m s = Ok (a, s') /\ k a s' = Ok (b, s'').
Proof.
  unfold bind. split.
  - destruct (m s) as [[a s']| |]; try discriminate. eauto.
  - intros (a & s' & -> & H). exact H.
Qed.

Lemma ret_Ok {A} (a b : A) s s' : ret a s = Ok (b, s') <-> a = b /\ s = s'.
Proof. unfold ret. split; [intros [= -> ->]; auto | intros [-> ->]; auto]. Qed.

Lemma gets_Ok {A} (f : HullState.t -> A) b s s' : gets f s = Ok (b, s') <-> f s = b /\ s = s'.
Proof. unfold gets. split; [intros [= -> ->]; auto | intros [-> ->]; auto]. Qed.

Lemma modify_Ok f u s s' : modify f s = Ok (u, s') <-> s' = f s.
Proof. unfold modify. destruct u. split; [intros [= <-]; auto | intros ->; auto]. Qed.

Lemma orRaise_Ok {A} (o : option A) b s s' : orRaise o s = Ok (b, s') <-> o = Some b /\ s = s'.
Proof.
  destruct o; simpl; unfold ret, raise; split; try discriminate.
  - intros [= -> ->]; auto.
  - intros [[= ->] ->]; auto.
  - intros [? _]; discriminate.
Qed.

(** Splits a successful run of a monadic program into its steps. *)
Ltac inv_run :=
  repeat match goal with
  | H : bind _ _ _ = Ok _ |- _ =>
      apply bind_Ok in H; destruct H as (? & ? & ? & H)
  | H : ret _ _ = Ok _ |- _ => apply ret_Ok in H; destruct H as [? ?]; subst
  | H : gets _ _ = Ok _ |- _ => apply gets_Ok in H; destruct H as [? ?]; subst
  | H : modify _ _ = Ok _ |- _ => apply modify_Ok in H; subst
  | H : orRaise _ _ = Ok _ |- _ => apply orRaise_Ok in H; destruct H as [? ?]; subst
  | H : raise _ = Ok _ |- _ => discriminate H
  | H : outOfFuel _ = Ok _ |- _ => discriminate H
  | H : Raise = Ok _ |- _ => discriminate H
  | H : OutOfFuel = Ok _ |- _ => discriminate H
  end.

(** ** Frame: what the hull operations leave untouched

    [f] is any reading of the state that is blind to the seven components
    the operations below write (there is no write to [points] at all, and
    [tolerance] is written by [computeExtremes] alone). *)

Section Frame.
Context {X : Type} (f : HullState.t -> X).
Hypothesis f_faces : forall x s, f (HullState.set_faces x s) = f s.
Hypothesis f_newFaces : forall x s, f (HullState.set_newFaces x s) = f s.
Hypothesis f_assigned : forall x s, f (HullState.set_assigned x s) = f s.
Hypothesis f_unassigned : forall x s, f (HullState.set_unassigned x s) = f s.
Hypothesis f_vertices : forall x s, f (HullState.set_vertices x s) = f s.
Hypothesis f_faceStore : forall x s, f (HullState.set_faceStore x s) = f s.
Hypothesis f_edgeStore : forall x s, f (HullState.set_edgeStore x s) = f s.

Definition preserves {A} (m : M A) : Prop :=
  forall s a s', m s = Ok (a, s') -> f s' = f s.

Lemma preserves_bind {A B} (m : M A) (k : A -> M B) :
  preserves m -> (forall a, preserves (k a)) -> preserves (bind m k).
Proof using Type.
  intros Hm Hk s b s'' H. apply bind_Ok in H as (a & s' & H1 & H2).
  rewrite (Hk _ _ _ _ H2). eauto.
Qed.

Lemma preserves_ret {A} (a : A) : preserves (ret a).
Proof using Type. intros s b s' H. inv_run. reflexivity. Qed.

Lemma preserves_gets {A} (g : HullState.t -> A) : preserves (gets g).
Proof using Type. intros s b s' H. inv_run. reflexivity. Qed.

Lemma preserves_raise {A} : preserves (@raise A).
Proof using Type. intros s b s' H. inv_run. Qed.

Lemma preserves_outOfFuel {A} : preserves (@outOfFuel A).
Proof using Type. intros s b s' H. inv_run. Qed.

Lemma preserves_orRaise {A} (o : option A) : preserves (orRaise o).
Proof using Type. intros s b s' H. inv_run. reflexivity. Qed.

Lemma preserves_modify g : (forall s, f (g s) = f s) -> preserves (modify g).
Proof using Type. intros Hg s b s' H. inv_run. apply Hg. Qed.

Lemma f_setList w x s : f (HullState.setList w x s) = f s.
Proof using f_assigned f_unassigned. destruct w; simpl; auto. Qed.

Ltac frame :=
  repeat (intros;
    match goal with
    | |- preserves (bind _ _) => apply preserves_bind
    | |- preserves (ret _) => apply preserves_ret
    | |- preserves (gets _) => apply preserves_gets
    | |- preserves raise => apply preserves_raise
    | |- preserves outOfFuel => apply preserves_outOfFuel
    | |- preserves (orRaise _) => apply preserves_orRaise
    | |- preserves (modify _) =>
        apply preserves_modify; intros; solve [auto using f_setList]
    | |- preserves (match ?x with _ => _ end) => destruct x
    | |- preserves _ => solve [eauto]
    end).

Lemma preserves_getVertex v : preserves (getVertex v).
Proof using Type. unfold getVertex. frame. Qed.
Lemma preserves_updVertex v g : preserves (updVertex v g).
Proof using f_vertices. unfold updVertex, getVertex. frame. Qed.
Lemma preserves_getEdge e : preserves (getEdge e).
Proof using Type. unfold getEdge. frame. Qed.
Lemma preserves_updEdge e g : preserves (updEdge e g).
Proof using f_edgeStore. unfold updEdge, getEdge. frame. Qed.
Lemma preserves_getFace v : preserves (getFace v).
Proof using Type. unfold getFace. frame. Qed.
Lemma preserves_updFace v g : preserves (updFace v g).
Proof using f_faceStore. unfold updFace, getFace. frame. Qed.
Lemma preserves_getList w : preserves (getList w).
Proof using Type. unfold getList. frame. Qed.
Lemma preserves_setHead w h : preserves (setHead w h).
Proof using f_assigned f_unassigned. unfold setHead. frame. Qed.
Lemma preserves_setTail w h : preserves (setTail w h).
Proof using f_assigned f_unassigned. unfold setTail. frame. Qed.

Hint Resolve preserves_getVertex preserves_updVertex preserves_getEdge
  preserves_updEdge preserves_getFace preserves_updFace preserves_getList
  preserves_setHead preserves_setTail : core.

Lemma preserves_vertexListClear w : preserves (vertexListClear w).
Proof using f_assigned f_unassigned. unfold vertexListClear. frame. Qed.
Lemma preserves_vertexListAppend w v : preserves (vertexListAppend w v).
Proof using All. unfold vertexListAppend. frame. Qed.
Lemma preserves_findEndOfChain fuel v : preserves (findEndOfChain fuel v).
Proof using All. revert v. induction fuel; simpl; frame. Qed.
Hint Resolve preserves_vertexListClear preserves_vertexListAppend
  preserves_findEndOfChain : core.
Lemma preserves_vertexListAppendChain fuel w v : preserves (vertexListAppendChain fuel w v).
Proof using All. unfold vertexListAppendChain. frame. Qed.
Lemma preserves_vertexListInsertBefore w t v : preserves (vertexListInsertBefore w t v).
Proof using All. unfold vertexListInsertBefore. frame. Qed.
Lemma preserves_vertexListRemove w v : preserves (vertexListRemove w v).
Proof using All. unfold vertexListRemove. frame. Qed.
Lemma preserves_vertexListRemoveSubList w a b : preserves (vertexListRemoveSubList w a b).
Proof using All. unfold vertexListRemoveSubList. frame. Qed.
Hint Resolve preserves_vertexListAppendChain preserves_vertexListInsertBefore
  preserves_vertexListRemove preserves_vertexListRemoveSubList : core.

Lemma preserves_createHalfEdge v fc : preserves (createHalfEdge v fc).
Proof using All. unfold createHalfEdge. frame. Qed.
Lemma preserves_halfEdgeHead e : preserves (halfEdgeHead e).
Proof using All. unfold halfEdgeHead. frame. Qed.
Lemma preserves_halfEdgeTail e : preserves (halfEdgeTail e).
Proof using All. unfold halfEdgeTail. frame. Qed.
Lemma preserves_halfEdgeSetTwin e t : preserves (halfEdgeSetTwin e t).
Proof using All. unfold halfEdgeSetTwin. frame. Qed.
Hint Resolve preserves_createHalfEdge preserves_halfEdgeHead preserves_halfEdgeTail
  preserves_halfEdgeSetTwin : core.
Lemma preserves_faceCreate a b c : preserves (faceCreate a b c).
Proof using All. unfold faceCreate. frame. Qed.
Lemma preserves_walkNext i e : preserves (walkNext i e).
Proof using All. revert e. induction i; simpl; frame. Qed.
Lemma preserves_walkPrev i e : preserves (walkPrev i e).
Proof using All. revert e. induction i; simpl; frame. Qed.
Hint Resolve preserves_faceCreate preserves_walkNext preserves_walkPrev : core.
Lemma preserves_faceGetEdge fc i : preserves (faceGetEdge fc i).
Proof using All. unfold faceGetEdge. frame. Qed.
Lemma preserves_faceCompute fc : preserves (faceCompute fc).
Proof using All. unfold faceCompute. frame. Qed.
Lemma preserves_addVertexToFace v fc : preserves (addVertexToFace v fc).
Proof using All. unfold addVertexToFace. frame. Qed.
Hint Resolve preserves_faceGetEdge preserves_faceCompute preserves_addVertexToFace : core.
Lemma preserves_farthestFace vi faces d mf : preserves (farthestFace vi faces d mf).
Proof using All. revert d mf. induction faces; simpl; frame. Qed.
Hint Resolve preserves_farthestFace : core.
Lemma preserves_assignVertex v : preserves (assignVertex v).
Proof using All. unfold assignVertex. frame. Qed.
Hint Resolve preserves_assignVertex : core.
Lemma preserves_assignRemaining v0 v1 v2 v3 idxs : preserves (assignRemaining v0 v1 v2 v3 idxs).
Proof using All. induction idxs; simpl; frame. Qed.
Lemma preserves_twinEdges f1 i1 f2 i2 : preserves (twinEdges f1 i1 f2 i2).
Proof using All. unfold twinEdges. frame. Qed.
Hint Resolve preserves_assignRemaining preserves_twinEdges : core.
Lemma preserves_twinOutward faces idxs : preserves (twinOutward faces idxs).
Proof using All. induction idxs; simpl; frame. Qed.
Lemma preserves_twinInward faces idxs : preserves (twinInward faces idxs).
Proof using All. induction idxs; simpl; frame. Qed.
Lemma preserves_addFacesToHull faces : preserves (addFacesToHull faces).
Proof using All. induction faces; simpl; frame. Qed.
Hint Resolve preserves_twinOutward preserves_twinInward preserves_addFacesToHull : core.

Lemma preserves_removeVertexFromFace v fc : preserves (removeVertexFromFace v fc).
Proof using All. unfold removeVertexFromFace. frame. Qed.
Lemma preserves_findRunEnd fuel fc v : preserves (findRunEnd fuel fc v).
Proof using All. revert v. induction fuel; simpl; frame. Qed.
Hint Resolve preserves_removeVertexFromFace preserves_findRunEnd : core.
Lemma preserves_removeAllVerticesFromFace fuel fc : preserves (removeAllVerticesFromFace fuel fc).
Proof using All. unfold removeAllVerticesFromFace. frame. Qed.
Lemma preserves_absorbVertex af v : preserves (absorbVertex af v).
Proof using All. unfold absorbVertex. frame. Qed.
Hint Resolve preserves_absorbVertex : core.
Lemma preserves_absorbLoop fuel af v : preserves (absorbLoop fuel af v).
Proof using All. revert v. induction fuel; destruct v; simpl; frame. Qed.
Hint Resolve preserves_removeAllVerticesFromFace preserves_absorbLoop : core.
Lemma preserves_deleteFaceVertices fuel fc af : preserves (deleteFaceVertices fuel fc af).
Proof using All. unfold deleteFaceVertices. frame. Qed.
Lemma preserves_scanNewFaces vi faces d mf : preserves (scanNewFaces vi faces d mf).
Proof using All. revert d mf. induction faces; simpl; frame. Qed.
Hint Resolve preserves_deleteFaceVertices preserves_scanNewFaces : core.
Lemma preserves_resolveVertex nf v : preserves (resolveVertex nf v).
Proof using All. unfold resolveVertex. frame. Qed.
Hint Resolve preserves_resolveVertex : core.
Lemma preserves_resolveLoop fuel nf v : preserves (resolveLoop fuel nf v).
Proof using All. revert v. induction fuel; destruct v; simpl; frame. Qed.
Hint Resolve preserves_resolveLoop : core.
Lemma preserves_resolveUnassignedPoints fuel nf : preserves (resolveUnassignedPoints fuel nf).
Proof using All. unfold resolveUnassignedPoints. frame. Qed.
Lemma preserves_eyeLoop fuel ef v d ev : preserves (eyeLoop fuel ef v d ev).
Proof using All. revert v d ev. induction fuel; destruct v; simpl; frame. Qed.
Hint Resolve preserves_resolveUnassignedPoints preserves_eyeLoop : core.
Lemma preserves_nextVertexToAdd fuel : preserves (nextVertexToAdd fuel).
Proof using All. unfold nextVertexToAdd. frame. Qed.

Lemma preserves_horizon fuel :
  (forall ep ce fc hz, preserves (computeHorizon fuel ep ce fc hz)) /\
  (forall ep se e hz, preserves (horizonLoop fuel ep se e hz)).
Proof using All.
  induction fuel as [|fuel [IH1 IH2]]; split; simpl; frame.
Qed.
Lemma preserves_computeHorizon fuel ep ce fc hz : preserves (computeHorizon fuel ep ce fc hz).
Proof using All. apply preserves_horizon. Qed.
Hint Resolve preserves_nextVertexToAdd preserves_computeHorizon : core.

Lemma preserves_addAdjoiningFace ev he : preserves (addAdjoiningFace ev he).
Proof using All. unfold addAdjoiningFace. frame. Qed.
Hint Resolve preserves_addAdjoiningFace : core.
Lemma preserves_addNewFacesLoop ev hz fs ps : preserves (addNewFacesLoop ev hz fs ps).
Proof using All. revert fs ps. induction hz; simpl; frame. Qed.
Hint Resolve preserves_addNewFacesLoop : core.
Lemma preserves_addNewFaces ev hz : preserves (addNewFaces ev hz).
Proof using All. unfold addNewFaces. frame. Qed.
Hint Resolve preserves_addNewFaces : core.
Lemma preserves_addVertexToHull fuel ev : preserves (addVertexToHull fuel ev).
Proof using All. unfold addVertexToHull. frame. Qed.
Lemma preserves_activeFaces faces : preserves (activeFaces faces).
Proof using All. induction faces; simpl; frame. Qed.
Hint Resolve preserves_addVertexToHull preserves_activeFaces : core.
Lemma preserves_reindexFaces : preserves reindexFaces.
Proof using All. unfold reindexFaces. frame. Qed.
Lemma preserves_triangleIndices faces : preserves (triangleIndices faces).
Proof using All. induction faces; simpl; frame. Qed.
Hint Resolve preserves_reindexFaces preserves_triangleIndices : core.
Lemma preserves_getTriangleIndices : preserves getTriangleIndices.
Proof using All. unfold getTriangleIndices. frame. Qed.
Lemma preserves_insertionLoop fuel v : preserves (insertionLoop fuel v).
Proof using All. revert v. induction fuel; destruct v; simpl; frame. Qed.
Hint Resolve preserves_getTriangleIndices preserves_insertionLoop : core.

(** Everything after [computeExtremes] in [computeInitialHull]. *)
Lemma computeInitialHull_after_extremes s u s' :
  computeInitialHull s = Ok (u, s') ->
  exists ex s1, computeExtremes s = Ok (ex, s1) /\ f s' = f s1.
Proof using All.
  unfold computeInitialHull. intros H.
  apply bind_Ok in H as (ex & s1 & H1 & H2). exists ex, s1. split; [exact H1|].
  revert H2.
  match goal with |- ?k s1 = _ -> _ => enough (preserves k) as Hk by (intros; eapply Hk; eauto) end.
  frame.
Qed.

Lemma buildHull_after_extremes fuel s u s' :
  buildHull fuel s = Ok (u, s') ->
  exists ex s1, computeExtremes s = Ok (ex, s1) /\ f s' = f s1.
Proof using All.
  unfold buildHull. intros H.
  apply bind_Ok in H as (u1 & s1 & H1 & H2).
  apply computeInitialHull_after_extremes in H1 as (ex & s0 & H0 & E0).
  exists ex, s0. split; [exact H0|]. rewrite <- E0.
  revert H2.
  match goal with |- ?k s1 = _ -> _ => enough (preserves k) as Hk by (intros; eapply Hk; eauto) end.
  frame.
Qed.
End Frame.

(** ** The input array is only read (C9) and the tolerance is set once (C4) *)

Lemma runHull_after_extremes {X} (f : HullState.t -> X) fuel points r s :
  (forall x s, f (HullState.set_faces x s) = f s) ->
  (forall x s, f (HullState.set_newFaces x s) = f s) ->
  (forall x s, f (HullState.set_assigned x s) = f s) ->
  (forall x s, f (HullState.set_unassigned x s) = f s) ->
  (forall x s, f (HullState.set_vertices x s) = f s) ->
  (forall x s, f (HullState.set_faceStore x s) = f s) ->
  (forall x s, f (HullState.set_edgeStore x s) = f s) ->
  runHull fuel points = Ok (r, s) ->
  exists ex s1, computeExtremes (createHullState points) = Ok (ex, s1) /\ f s = f s1.
Proof.
  intros H1 H2 H3 H4 H5 H6 H7 H. unfold runHull in H.
  apply bind_Ok in H as (u & s0 & Hb & Ht).
  eapply (buildHull_after_extremes f) in Hb as (ex & s1 & He & E); eauto.
  exists ex, s1. split; [exact He|]. rewrite <- E.
  eapply (preserves_getTriangleIndices f); eauto.
Qed.

Lemma computeExtremes_points s ex s1 :
  computeExtremes s = Ok (ex, s1) -> HullState.points s1 = HullState.points s.
Proof. unfold computeExtremes. intros H. inv_run. reflexivity. Qed.

(** C9. [quickhull3] never writes to its input: the coordinate array held
    by the hull state when the call returns is the array it was given. *)
Theorem quickhull3_points_unchanged fuel points r s :
  runHull fuel points = Ok (r, s) -> HullState.points s = points.
Proof.
  intros H.
  eapply (runHull_after_extremes HullState.points) in H as (ex & s1 & He & E);
    try (intros; reflexivity).
  rewrite E. apply computeExtremes_points in He. exact He.
Qed.

Lemma quickhull3_points_unchanged_witness :
  exists r s, runHull 100 tetrahedron = Ok (r, s) /\ HullState.points s = tetrahedron.
Proof.
  destruct (runHull 100 tetrahedron) as [[r s]| |] eqn:E.
  - exists r, s. split; [reflexivity|]. exact (quickhull3_points_unchanged _ _ _ _ E).
  - vm_compute in E. discriminate E.
  - vm_compute in E. discriminate E.
Defined.

Lemma get3_set3_eq {A} j (x : A) t : get3 j (set3 j x t) = x.
Proof. destruct t as [[a b] c]. destruct j as [|[|j]]; reflexivity. Qed.

Lemma get3_set3_ne {A} j k (x : A) t :
  j < 3 -> k < 3 -> j <> k -> get3 k (set3 j x t) = get3 k t.
Proof.
  destruct t as [[a b] c]. intros Hj Hk Hne.
  destruct j as [|[|[|j]]], k as [|[|[|k]]]; try lia; reflexivity.
Qed.

Lemma extremesAxis_spec points idx v j acc acc' :
  j < 3 ->
  extremesAxis points idx v j acc = Some acc' ->
  let val := default 0%float (points !! (idx + j)) in
  get3 j (ex_min acc') = minStep (get3 j (ex_min acc)) val /\
  get3 j (ex_max acc') = maxStep (get3 j (ex_max acc)) val /\
  forall k, k < 3 -> k <> j ->
    get3 k (ex_min acc') = get3 k (ex_min acc) /\
    get3 k (ex_max acc') = get3 k (ex_max acc).
Proof.
  intros Hj. unfold extremesAxis.
  destruct (points !! (idx + j)) as [val|]; simpl; [|discriminate].
  intros [= <-]. unfold minStep, maxStep.
  destruct (val <? get3 j (ex_min acc))%float; simpl;
    destruct (get3 j (ex_max acc) <? val)%float; simpl;
    rewrite ?get3_set3_eq; repeat split; auto;
    intros; rewrite ?get3_set3_ne by (auto; lia); auto.
Qed.

Lemma extremesVertex_spec points n acc acc' i :
  i < n ->
  extremesVertex points (map createVertexNode (seq 0 n)) acc i = Some acc' ->
  forall j, j < 3 ->
    get3 j (ex_min acc') = minStep (get3 j (ex_min acc)) (coord points i j) /\
    get3 j (ex_max acc') = maxStep (get3 j (ex_max acc)) (coord points i j).
Proof.
  intros Hi. unfold extremesVertex.
  rewrite list_lookup_fmap, lookup_seq_lt by exact Hi. simpl.
  destruct (extremesAxis points (i * 3) i 0 acc) as [a0|] eqn:E0; simpl; [|discriminate].
  destruct (extremesAxis points (i * 3) i 1 a0) as [a1|] eqn:E1; simpl; [|discriminate].
  intros E2 j Hj.
  apply extremesAxis_spec in E0 as (M0 & X0 & R0); [|lia].
  apply extremesAxis_spec in E1 as (M1 & X1 & R1); [|lia].
  apply extremesAxis_spec in E2 as (M2 & X2 & R2); [|lia].
  unfold coord.
  destruct j as [|[|[|j]]]; [| | |lia].
  - destruct (R2 0) as [-> ->]; [lia..|]. destruct (R1 0) as [-> ->]; [lia..|]. auto.
  - destruct (R2 1) as [-> ->]; [lia..|]. rewrite M1, X1.
    destruct (R0 1) as [-> ->]; [lia..|]. auto.
  - rewrite M2, X2. destruct (R1 2) as [-> ->]; [lia..|].
    destruct (R0 2) as [-> ->]; [lia..|]. auto.
Qed.

Lemma extremesLoop_spec points n idxs : forall acc ex,
  Forall (fun i => i < n) idxs ->
  extremesLoop points (map createVertexNode (seq 0 n)) idxs acc = Some ex ->
  forall j, j < 3 ->
    get3 j (ex_min ex) =
      fold_left (fun m i => minStep m (coord points i j)) idxs (get3 j (ex_min acc)) /\
    get3 j (ex_max ex) =
      fold_left (fun m i => maxStep m (coord points i j)) idxs (get3 j (ex_max acc)).
Proof.
  induction idxs as [|i rest IH]; intros acc ex Hall; simpl.
  - intros [= <-]. auto.
  - destruct (extremesVertex _ _ acc i) as [acc'|] eqn:E; simpl; [|discriminate].
    intros Hl j Hj. inversion Hall; subst.
    destruct (extremesVertex_spec _ _ _ _ _ ltac:(eassumption) E j Hj) as [<- <-].
    eapply IH; eauto.
Qed.

Lemma computeExtremes_tolerance points ex s1 :
  computeExtremes (createHullState points) = Ok (ex, s1) ->
  HullState.tolerance s1 = specTolerance points.
Proof.
  unfold computeExtremes. intros H. inv_run. simpl in *.
  match goal with H : extremesLoop _ _ _ _ = Some _ |- _ => rename H into Hl end.
  match goal with H : point3 _ _ = Some _ |- _ => rename H into Hp end.
  rewrite length_map, length_seq in Hl.
  assert (Hall : Forall (fun i => i < vertexCount (length points))
                   (seq 0 (vertexCount (length points)))).
  { apply Forall_forall. intros i Hi. apply elem_of_seq in Hi. lia. }
  pose proof (extremesLoop_spec _ _ _ _ _ Hall Hl) as Hs.
  unfold point3 in Hp. simpl in Hp, Hs.
  destruct (points !! 0) as [x|] eqn:Ex; simpl in Hp; [|discriminate].
  destruct (points !! 1) as [y|] eqn:Ey; simpl in Hp; [|discriminate].
  destruct (points !! 2) as [z|] eqn:Ez; simpl in Hp; [|discriminate].
  injection Hp as <-.
  unfold specTolerance, toleranceOf, axisExtent, axisMin, axisMax.
  destruct (Hs 0) as [-> ->]; [lia|].
  destruct (Hs 1) as [-> ->]; [lia|].
  destruct (Hs 2) as [-> ->]; [lia|].
  assert (C0 : coord points 0 0 = x) by (unfold coord; simpl; rewrite Ex; reflexivity).
  assert (C1 : coord points 0 1 = y) by (unfold coord; simpl; rewrite Ey; reflexivity).
  assert (C2 : coord points 0 2 = z) by (unfold coord; simpl; rewrite Ez; reflexivity).
  rewrite C0, C1, C2. reflexivity.
Qed.

Lemma minScan_spec (g : nat -> float) idxs : forall m0,
  let r := fold_left (fun m i => minStep m (g i)) idxs m0 in
  (r = m0 \/ (r <? m0)%float = true) /\
  Forall (fun i => (g i <? r)%float = false) idxs.
Proof.
  induction idxs as [|i rest IH]; intros m0; simpl.
  - split; [left; reflexivity | constructor].
  - destruct (IH (minStep m0 (g i))) as [Hr Hall].
    set (r := fold_left _ rest _) in *.
    unfold minStep in Hr. destruct (g i <? m0)%float eqn:Hlt.
    + split.
      * right. destruct Hr as [->|Hr]; [exact Hlt | eapply ltb_trans; eauto].
      * constructor; [|exact Hall].
        destruct Hr as [->|Hr]; [apply ltb_irrefl|].
        destruct (g i <? r)%float eqn:Hc; [|reflexivity].
        pose proof (ltb_trans _ _ _ Hc Hr) as Hbad.
        rewrite ltb_irrefl in Hbad. discriminate.
    + split; [exact Hr|]. constructor; [|exact Hall].
      destruct (g i <? r)%float eqn:Hc; [|reflexivity].
      destruct Hr as [->|Hr]; [congruence|].
      pose proof (ltb_trans _ _ _ Hc Hr). congruence.
Qed.

Lemma maxScan_spec (g : nat -> float) idxs : forall m0,
  let r := fold_left (fun m i => maxStep m (g i)) idxs m0 in
  (r = m0 \/ (m0 <? r)%float = true) /\
  Forall (fun i => (r <? g i)%float = false) idxs.
Proof.
  induction idxs as [|i rest IH]; intros m0; simpl.
  - split; [left; reflexivity | constructor].
  - destruct (IH (maxStep m0 (g i))) as [Hr Hall].
    set (r := fold_left _ rest _) in *.
    unfold maxStep in Hr. destruct (m0 <? g i)%float eqn:Hlt.
    + split.
      * right. destruct Hr as [->|Hr]; [exact Hlt | eapply ltb_trans; eauto].
      * constructor; [|exact Hall].
        destruct Hr as [->|Hr]; [apply ltb_irrefl|].
        destruct (r <? g i)%float eqn:Hc; [|reflexivity].
        pose proof (ltb_trans _ _ _ Hr Hc) as Hbad.
        rewrite ltb_irrefl in Hbad. discriminate.
    + split; [exact Hr|]. constructor; [|exact Hall].
      destruct (r <? g i)%float eqn:Hc; [|reflexivity].
      destruct Hr as [->|Hr]; [congruence|].
      pose proof (ltb_trans _ _ _ Hr Hc). congruence.
Qed.

Lemma axisMin_lower points n j i :
  i < n -> (coord points i j <? axisMin points n j)%float = false.
Proof.
  intros Hi. unfold axisMin.
  destruct (minScan_spec (fun i => coord points i j) (seq 0 n) (coord points 0 j)) as [_ H].
  rewrite Forall_forall in H. apply H. apply elem_of_seq. lia.
Qed.

Lemma axisMax_upper points n j i :
  i < n -> (axisMax points n j <? coord points i j)%float = false.
Proof.
  intros Hi. unfold axisMax.
  destruct (maxScan_spec (fun i => coord points i j) (seq 0 n) (coord points 0 j)) as [_ H].
  rewrite Forall_forall in H. apply H. apply elem_of_seq. lia.
Qed.

(** C4. When [quickhull3] runs the construction, the tolerance set by
    [computeExtremes] before any face exists is
    3 * Number.EPSILON * (sum over the axes of max(|min|, |max|)), where
    no coordinate of the axis is below its min or above its max; the state
    still holds that value when the call returns, and one insertion step
    never changes it. *)
Theorem tolerance_is_global fuel points r s :
  runHull fuel points = Ok (r, s) ->
  (exists ex s1,
      computeExtremes (createHullState points) = Ok (ex, s1) /\
      HullState.tolerance s1 = specTolerance points /\
      HullState.tolerance s = HullState.tolerance s1) /\
  (forall i j, i < vertexCount (length points) ->
      (coord points i j <? axisMin points (vertexCount (length points)) j)%float = false /\
      (axisMax points (vertexCount (length points)) j <? coord points i j)%float = false) /\
  (forall fuel' v t u t', addVertexToHull fuel' v t = Ok (u, t') ->
      HullState.tolerance t' = HullState.tolerance t).
Proof.
  intros H. split; [|split].
  - eapply (runHull_after_extremes HullState.tolerance) in H as (ex & s1 & He & E);
      try (intros; reflexivity).
    exists ex, s1. split; [exact He|]. split; [|exact E].
    eapply computeExtremes_tolerance; eauto.
  - intros i j Hi. split; [apply axisMin_lower | apply axisMax_upper]; exact Hi.
  - intros fuel' v t u t' Ha.
    eapply (preserves_addVertexToHull HullState.tolerance); eauto; intros; reflexivity.
Qed.

Lemma tolerance_is_global_witness :
  exists s, finalState 100 octahedron = Some s /\
            HullState.tolerance s = specTolerance octahedron.
Proof.
  unfold finalState.
  destruct (runHull 100 octahedron) as [[r s]| |] eqn:E.
  - exists s. split; [reflexivity|].
    destruct (tolerance_is_global _ _ _ _ E) as [(ex & s1 & _ & H1 & H2) _].
    rewrite H2. exact H1.
  - vm_compute in E. discriminate E.
  - vm_compute in E. discriminate E.
Defined.

(** ** The degenerate plane (C8) *)

(** C8. For three points of the array whose edge vectors have a cross
    product of length below EPSILON (1e-12), [computePlane] does not fail
    and answers the default normal (0, 0, 1) with offset 0. *)
Theorem computePlane_degenerate points v0 v1 v2 p0 p1 p2 :
  point3 points (v0 * 3) = Some p0 ->
  point3 points (v1 * 3) = Some p1 ->
  point3 points (v2 * 3) = Some p2 ->
  (edgeCrossLength p0 p1 p2 <? EPSILON)%float = true ->
  computePlane points v0 v1 v2 = Some ((0%float, 0%float, 1%float), 0%float).
Proof.
  intros H0 H1 H2. unfold computePlane. rewrite H0, H1, H2. simpl.
  destruct p0 as [[p0x p0y] p0z], p1 as [[p1x p1y] p1z], p2 as [[p2x p2y] p2z].
  unfold edgeCrossLength, length3, cross3, sub3. simpl.
  intros ->. reflexivity.
Qed.

Lemma computePlane_degenerate_witness :
  computePlane (flattenPoints [(0,0,0); (1,0,0); (2,0,0); (3,0,0)]%Z) 0 3 1
  = Some ((0%float, 0%float, 1%float), 0%float).
Proof.
  eapply (computePlane_degenerate _ 0 3 1); reflexivity.
Defined.

(** ** Integrity of the vertex lists (C6) *)

Lemma bind_run {A B} (m : M A) (k : A -> M B) s a s' :
  m s = Ok (a, s') -> bind m k s = k a s'.
Proof. unfold bind. intros ->. reflexivity. Qed.

Lemma getVertex_run s v nd :
  HullState.vertices s !! v = Some nd -> getVertex v s = Ok (nd, s).
Proof. unfold getVertex, bind, gets. intros ->. reflexivity. Qed.

Lemma updVertex_run s v nd g :
  HullState.vertices s !! v = Some nd ->
  updVertex v g s =
    Ok (tt, HullState.set_vertices (<[v := g nd]> (HullState.vertices s)) s).
Proof.
  intros H. unfold updVertex. rewrite (bind_run _ _ _ _ _ (getVertex_run _ _ _ H)).
  reflexivity.
Qed.

Lemma firstOr_app xs ys n : firstOr (xs ++ ys) n = firstOr xs (firstOr ys n).
Proof. destruct xs; reflexivity. Qed.

Lemma lastOr_app xs ys p : lastOr (xs ++ ys) p = lastOr ys (lastOr xs p).
Proof.
  unfold lastOr. rewrite last_app. destruct (last ys); reflexivity.
Qed.

Lemma lastOr_cons x xs p : lastOr (x :: xs) p = lastOr xs (Some x).
Proof. exact (lastOr_app [x] xs p). Qed.

Lemma segment_app vs xs : forall p ys n,
  segment vs p (xs ++ ys) n <->
  segment vs p xs (firstOr ys n) /\ segment vs (lastOr xs p) ys n.
Proof.
  induction xs as [|x xs IH]; intros p ys n; simpl.
  - unfold lastOr; simpl. tauto.
  - rewrite lastOr_cons. split.
    + intros (nd & Hl & Hp & Hn & Hs). apply IH in Hs as [Hs1 Hs2].
      split; [|exact Hs2]. exists nd. rewrite firstOr_app in Hn. auto.
    + intros [(nd & Hl & Hp & Hn & Hs1) Hs2].
      exists nd. rewrite firstOr_app. repeat split; auto. apply IH. auto.
Qed.

Lemma segment_insert_notin vs x nd xs : forall p n,
  x ∉ xs -> segment vs p xs n -> segment (<[x := nd]> vs) p xs n.
Proof.
  induction xs as [|y xs IH]; intros p n Hx; simpl; [auto|].
  apply not_elem_of_cons in Hx as [Hxy Hx].
  intros (nd' & Hl & Hp & Hn & Hs). exists nd'.
  rewrite list_lookup_insert_ne by auto. auto.
Qed.

Lemma segment_lookup vs xs : forall p n x,
  segment vs p xs n -> x ∈ xs -> is_Some (vs !! x).
Proof.
  induction xs as [|y xs IH]; intros p n x Hs Hx; [inversion Hx|].
  simpl in Hs. destruct Hs as (nd & Hl & _ & _ & Hs).
  apply elem_of_cons in Hx as [->|Hx]; eauto.
Qed.

(** Re-aiming the [next] of the last node of a segment. *)
Lemma segment_set_next vs p pre x nd n n' :
  NoDup (pre ++ [x]) ->
  segment vs p (pre ++ [x]) n ->
  vs !! x = Some nd ->
  segment (<[x := VertexNode.set_next n' nd]> vs) p (pre ++ [x]) n'.
Proof.
  intros Hnd Hs Hl. apply segment_app in Hs as [Hs1 Hs2]. apply segment_app.
  apply NoDup_app in Hnd as (_ & Hdis & _).
  split.
  - apply segment_insert_notin; [|exact Hs1].
    intros Hin. apply (Hdis _ Hin). constructor.
  - simpl in *. destruct Hs2 as (nd' & Hl' & Hp & _ & _).
    assert (nd' = nd) as -> by congruence.
    exists (VertexNode.set_next n' nd).
    rewrite list_lookup_insert_eq by (eapply lookup_lt_Some; eauto). auto.
Qed.

(** Re-aiming the [prev] of the first node of a segment. *)
Lemma segment_set_prev vs p x post nd n p' :
  NoDup (x :: post) ->
  segment vs p (x :: post) n ->
  vs !! x = Some nd ->
  segment (<[x := VertexNode.set_prev p' nd]> vs) p' (x :: post) n.
Proof.
  intros Hnd Hs Hl. simpl in *. destruct Hs as (nd' & Hl' & Hp & Hn & Hs).
  assert (nd' = nd) as -> by congruence.
  exists (VertexNode.set_prev p' nd).
  rewrite list_lookup_insert_eq by (eapply lookup_lt_Some; eauto).
  repeat split; auto.
  apply segment_insert_notin; [|exact Hs]. apply NoDup_cons in Hnd. tauto.
Qed.

Lemma segment_last_node vs p pre x n :
  segment vs p (pre ++ [x]) n ->
  exists nd, vs !! x = Some nd /\ VertexNode.prev nd = lastOr pre p /\ VertexNode.next nd = n.
Proof.
  intros Hs. apply segment_app in Hs as [_ Hs]. simpl in Hs.
  destruct Hs as (nd & ? & ? & ? & _). eauto.
Qed.

Lemma segment_first_node vs p x post n :
  segment vs p (x :: post) n ->
  exists nd, vs !! x = Some nd /\ VertexNode.prev nd = p /\ VertexNode.next nd = firstOr post n.
Proof. simpl. intros (nd & ? & ? & ? & _). eauto. Qed.

Lemma last_snoc_inv (xs : list ref) x :
  last xs = Some x -> exists pre, xs = pre ++ [x].
Proof.
  intros H. destruct xs as [|y ys] using rev_ind; [discriminate|].
  rewrite last_snoc in H. injection H as ->. eauto.
Qed.

Lemma getList_setList w l s : HullState.getList w (HullState.setList w l s) = l.
Proof. destruct w; reflexivity. Qed.

Lemma vertices_setList w l s :
  HullState.vertices (HullState.setList w l s) = HullState.vertices s.
Proof. destruct w; reflexivity. Qed.

Lemma getList_set_vertices w vs s :
  HullState.getList w (HullState.set_vertices vs s) = HullState.getList w s.
Proof. destruct w; reflexivity. Qed.

Lemma bind_gets {A B} (f : HullState.t -> A) (k : A -> M B) s :
  bind (gets f) k s = k (f s) s.
Proof. reflexivity. Qed.

Lemma bind_modify {B} g (k : unit -> M B) s : bind (modify g) k s = k tt (g s).
Proof. reflexivity. Qed.

Lemma bind_ret {A B} (a : A) (k : A -> M B) s : bind (ret a) k s = k a s.
Proof. reflexivity. Qed.

Lemma bind_assoc {A B C} (m : M A) (k : A -> M B) (h : B -> M C) s :
  bind (bind m k) h s = bind m (fun a => bind (k a) h) s.
Proof. unfold bind. destruct (m s) as [[a s']| |]; reflexivity. Qed.

Lemma bind_getVertex {B} v nd (k : VertexNode.t -> M B) s :
  HullState.vertices s !! v = Some nd -> bind (getVertex v) k s = k nd s.
Proof. intros H. apply bind_run, getVertex_run, H. Qed.

Lemma bind_updVertex {B} v nd g (k : unit -> M B) s :
  HullState.vertices s !! v = Some nd ->
  bind (updVertex v g) k s =
    k tt (HullState.set_vertices (<[v := g nd]> (HullState.vertices s)) s).
Proof. intros H. apply bind_run, updVertex_run, H. Qed.

(** Evaluates the next step of a list operation whose reads are known. *)
Ltac look :=
  simpl; rewrite ?vertices_setList; simpl;
  repeat first
    [ rewrite list_lookup_insert_eq by (rewrite ?length_insert; eapply lookup_lt_Some; eassumption)
    | rewrite list_lookup_insert_ne by congruence ];
  first [ eassumption | reflexivity ].

Ltac run1 :=
  first
    [ rewrite bind_assoc
    | rewrite bind_gets
    | rewrite bind_modify
    | rewrite bind_ret
    | erewrite bind_getVertex by look
    | erewrite bind_updVertex by look
    | erewrite updVertex_run by look ].

Lemma head_snoc_Some (ys : list ref) y : exists h, head (ys ++ [y]) = Some h.
Proof. destruct ys; simpl; eauto. Qed.

Lemma lastOr_snoc (ys : list ref) y p : lastOr (ys ++ [y]) p = Some y.
Proof. unfold lastOr. rewrite last_snoc. reflexivity. Qed.

Lemma vertexListAppend_ok w s xs v :
  listOk s w xs -> v ∉ xs -> is_Some (HullState.vertices s !! v) ->
  exists s', vertexListAppend w v s = Ok (tt, s') /\ listOk s' w (xs ++ [v]).
Proof.
  unfold listOk, wellFormed.
  destruct s as [pts tol fs nfs [ah atl] [uh utl] vs fst est].
  intros (Hnd & Hh & Ht & Hseg) Hv [nv Hnv].
  assert (Hnd' : NoDup (xs ++ [v])).
  { apply NoDup_app. repeat split; auto.
    - intros x Hx Hx'. apply list_elem_of_singleton in Hx'. subst. auto.
    - apply NoDup_singleton. }
  unfold vertexListAppend, setHead, getList, setTail.
  destruct xs as [|y ys _] using rev_ind.
  - destruct w; simpl in *; subst; repeat (run1; simpl).
    all: eexists; split; [reflexivity|]; simpl.
    all: repeat split; auto.
    all: eexists; rewrite list_lookup_insert_eq
           by (rewrite ?length_insert; eapply lookup_lt_Some; eauto); auto.
  - destruct (head_snoc_Some ys y) as [h Hhd].
    destruct (segment_last_node _ _ _ _ _ Hseg) as (ny & Hny & _ & _).
    assert (Hvy : v <> y).
    { intros ->. apply Hv. apply elem_of_app. right. constructor. }
    rewrite last_snoc in Ht. rewrite Hhd in Hh.
    destruct w; simpl in *; subst; repeat (run1; simpl).
    all: eexists; split; [reflexivity|]; simpl.
    all: rewrite last_snoc; repeat split; auto.
    all: try (rewrite head_app, Hhd; reflexivity).
    all: rewrite list_insert_insert_eq; apply segment_app; split; simpl.
    all: try (apply segment_insert_notin; [exact Hv|];
              apply segment_set_next with (n := None); auto).
    all: rewrite lastOr_snoc; eexists;
         rewrite list_lookup_insert_eq
           by (rewrite ?length_insert; eapply lookup_lt_Some; eauto); auto.
Qed.

Lemma firstOr_None xs : firstOr xs None = head xs.
Proof. destruct xs; reflexivity. Qed.

Lemma lastOr_None xs : lastOr xs None = last xs.
Proof. unfold lastOr. destruct (last xs); reflexivity. Qed.

Lemma NoDup_remove_mid (pre mid post : list ref) :
  NoDup (pre ++ mid ++ post) -> NoDup (pre ++ post).
Proof.
  intros H. apply NoDup_app in H as (H1 & H2 & H3).
  apply NoDup_app in H3 as (_ & _ & H3).
  apply NoDup_app. repeat split; auto.
  intros x Hx Hx'. apply (H2 x Hx). apply elem_of_app. auto.
Qed.

Lemma vertexListRemove_ok w s pre v post :
  listOk s w (pre ++ v :: post) ->
  exists s', vertexListRemove w v s = Ok (tt, s') /\ listOk s' w (pre ++ post).
Proof.
  unfold listOk, wellFormed.
  destruct s as [pts tol fs nfs [ah atl] [uh utl] vs fst est].
  intros (Hnd & Hh & Ht & Hseg).
  pose proof (NoDup_remove_mid pre [v] post Hnd) as Hnd'.
  apply segment_app in Hseg as [Hpre Hrest].
  destruct (segment_first_node _ _ _ _ _ Hrest) as (nv & Hnv & Hpv & Hnx).
  simpl in Hrest. destruct Hrest as (_ & _ & _ & _ & Hpost).
  apply NoDup_app in Hnd as (Hnd1 & Hdis & Hnd2).
  apply NoDup_cons in Hnd2 as [Hvpost Hnd2].
  unfold vertexListRemove, setHead, getList, setTail.
  destruct pre as [|p pre' _] using rev_ind; destruct post as [|n post'].
  - (* the only node *)
    destruct w; simpl in *; subst; repeat (run1; simpl); rewrite ?Hpv, ?Hnx; simpl;
      repeat (run1; simpl); rewrite ?Hpv, ?Hnx; simpl;
      eexists; (split; [reflexivity|]); simpl; auto.
  - (* removing the head *)
    destruct (segment_first_node _ _ _ _ _ Hpost) as (nn & Hnn & _ & _).
    assert (v <> n) by (intros ->; apply Hvpost; constructor).
    destruct w; simpl in *; subst; repeat (run1; simpl); rewrite ?Hpv, ?Hnx; simpl;
      repeat (run1; simpl); rewrite ?Hpv, ?Hnx; simpl;
      repeat (run1; simpl);
      eexists; (split; [reflexivity|]); simpl; repeat split; auto;
      apply (segment_set_prev _ (Some v)); auto.
  - (* removing the tail *)
    destruct (segment_last_node _ _ _ _ _ Hpre) as (np & Hnp & _ & _).
    assert (p <> v).
    { intros ->. apply (Hdis v); [apply elem_of_app; right|]; constructor. }
    rewrite lastOr_snoc in Hpv. rewrite app_nil_r in *.
    destruct (head_snoc_Some pre' p) as [h Hhd].
    destruct w; simpl in *; subst; repeat (run1; simpl); rewrite ?Hpv, ?Hnx; simpl;
      repeat (run1; simpl); rewrite ?Hpv, ?Hnx; simpl;
      repeat (run1; simpl);
      eexists; (split; [reflexivity|]); simpl; rewrite ?last_snoc;
      repeat split; auto;
      try (rewrite !head_app, Hhd in *; simpl in *; congruence);
      apply (segment_set_next _ _ _ _ _ (Some v)); auto.
  - (* removing an inner node *)
    destruct (segment_first_node _ _ _ _ _ Hpost) as (nn & Hnn & _ & _).
    destruct (segment_last_node _ _ _ _ _ Hpre) as (np & Hnp & _ & _).
    assert (v <> n) by (intros ->; apply Hvpost; constructor).
    assert (p <> v).
    { intros ->. apply (Hdis v); [apply elem_of_app; right|]; constructor. }
    assert (p <> n).
    { intros ->. apply (Hdis n); [apply elem_of_app; right; constructor|].
      right. constructor. }
    rewrite lastOr_snoc in Hpv.
    destruct (head_snoc_Some pre' p) as [h Hhd].
    assert (G : segment (<[n:=VertexNode.set_prev (Some p) nn]>
                           (<[p:=VertexNode.set_next (Some n) np]> vs))
                  None ((pre' ++ [p]) ++ n :: post') None).
    { apply segment_app. rewrite lastOr_snoc. split.
      - apply segment_insert_notin.
        + intros Hin. apply (Hdis n Hin). right. constructor.
        + apply (segment_set_next _ _ _ _ _ (Some v)); auto.
      - apply (segment_set_prev _ (Some v)); auto.
        + apply segment_insert_notin; [|exact Hpost].
          intros Hin. apply (Hdis p); [apply elem_of_app; right; constructor|].
          right. exact Hin.
        + rewrite list_lookup_insert_ne by auto. exact Hnn. }
    destruct w; simpl in *; subst; repeat (run1; simpl); rewrite ?Hpv, ?Hnx; simpl;
      repeat (run1; simpl); rewrite ?Hpv, ?Hnx; simpl;
      repeat (run1; simpl);
      eexists; (split; [reflexivity|]); simpl;
      rewrite ?last_app in *; simpl in *; repeat split; auto;
      try (rewrite !head_app, Hhd in *; simpl in *; congruence).
Qed.

Lemma lastOr_cons_last (x : ref) xs p : lastOr (x :: xs) p = last (x :: xs).
Proof.
  unfold lastOr. destruct (last (x :: xs)) eqn:E; [reflexivity|].
  apply last_None in E. discriminate.
Qed.

Lemma vertexListRemoveSubList_ok w s pre mid post a b :
  listOk s w (pre ++ mid ++ post) ->
  head mid = Some a -> last mid = Some b ->
  exists s', vertexListRemoveSubList w a b s = Ok (tt, s') /\ listOk s' w (pre ++ post).
Proof.
  unfold listOk, wellFormed.
  destruct s as [pts tol fs nfs [ah atl] [uh utl] vs fst est].
  intros (Hnd & Hh & Ht & Hseg) Ha Hb.
  pose proof (NoDup_remove_mid pre mid post Hnd) as Hnd'.
  apply segment_app in Hseg as [Hpre Hrest].
  apply segment_app in Hrest as [Hmid Hpost].
  assert (Hlast : lastOr mid (lastOr pre None) = Some b).
  { unfold lastOr at 1. rewrite Hb. reflexivity. }
  rewrite Hlast in Hpost.
  assert (Hfirst : firstOr (mid ++ post) None = Some a).
  { destruct mid; [discriminate|]. simpl in *. congruence. }
  rewrite Hfirst in Hpre.
  assert (Hain : a ∈ mid).
  { destruct mid; [discriminate|]. injection Ha as ->. constructor. }
  assert (Hbin : b ∈ mid).
  { apply last_snoc_inv in Hb as [m ->]. apply elem_of_app. right. constructor. }
  assert (exists na, vs !! a = Some na /\ VertexNode.prev na = lastOr pre None)
    as (na & Hna & Hpa).
  { destruct mid as [|a' m]; [discriminate|]. injection Ha as ->.
    destruct (segment_first_node _ _ _ _ _ Hmid) as (na & ? & ? & _). eauto. }
  assert (exists nb, vs !! b = Some nb /\ VertexNode.next nb = firstOr post None)
    as (nb & Hnb & Hxb).
  { destruct (last_snoc_inv _ _ Hb) as [m ->].
    destruct (segment_last_node _ _ _ _ _ Hmid) as (nb & ? & _ & ?). eauto. }
  apply NoDup_app in Hnd as (Hnd1 & Hdis & Hnd2).
  apply NoDup_app in Hnd2 as (Hndm & Hdis2 & Hnd2).
  assert (Hlastxs : last (pre ++ mid ++ post) = lastOr post (Some b)).
  { rewrite app_assoc, <- lastOr_None, lastOr_app, lastOr_app, lastOr_None.
    unfold lastOr at 2. rewrite Hb. reflexivity. }
  rewrite Hlastxs in Ht.
  unfold vertexListRemoveSubList, setHead, getList, setTail.
  destruct pre as [|p pre' _] using rev_ind; destruct post as [|n post'].
  - destruct w; simpl in *; subst; repeat (run1; simpl); rewrite ?Hpa, ?Hxb; simpl;
      repeat (run1; simpl); rewrite ?Hpa, ?Hxb; simpl;
      eexists; (split; [reflexivity|]); simpl; auto.
  - destruct (segment_first_node _ _ _ _ _ Hpost) as (nn & Hnn & _ & _).
    assert (G : segment (<[n:=VertexNode.set_prev None nn]> vs) None (n :: post') None).
    { apply (segment_set_prev _ (Some b)); auto. }
    destruct w; simpl in *; subst; repeat (run1; simpl); rewrite ?Hpa, ?Hxb; simpl;
      repeat (run1; simpl); rewrite ?Hpa, ?Hxb; simpl;
      repeat (run1; simpl);
      eexists; (split; [reflexivity|]); simpl; repeat split; auto;
      apply lastOr_cons_last.
  - destruct (segment_last_node _ _ _ _ _ Hpre) as (np & Hnp & _ & _).
    rewrite lastOr_snoc in Hpa. rewrite app_nil_r in *.
    destruct (head_snoc_Some pre' p) as [h Hhd].
    assert (p <> a).
    { intros ->. apply (Hdis a); [apply elem_of_app; right; constructor|]. auto. }
    assert (p <> b).
    { intros ->. apply (Hdis b); [apply elem_of_app; right; constructor|]. auto. }
    assert (G : segment (<[p:=VertexNode.set_next None np]> vs) None (pre' ++ [p]) None).
    { apply (segment_set_next _ _ _ _ _ (Some a)); auto. }
    destruct w; simpl in *; subst; repeat (run1; simpl); rewrite ?Hpa, ?Hxb; simpl;
      repeat (run1; simpl); rewrite ?Hpa, ?Hxb; simpl;
      repeat (run1; simpl);
      eexists; (split; [reflexivity|]); simpl; rewrite ?last_snoc;
      repeat split; auto;
      try (rewrite !head_app, Hhd in *; simpl in *; congruence).
  - destruct (segment_first_node _ _ _ _ _ Hpost) as (nn & Hnn & _ & _).
    destruct (segment_last_node _ _ _ _ _ Hpre) as (np & Hnp & _ & _).
    assert (Hpn : p <> n).
    { intros ->. apply NoDup_app in Hnd' as (_ & Hd & _).
      apply (Hd n); [apply elem_of_app; right|]; constructor. }
    rewrite lastOr_snoc in Hpa.
    destruct (head_snoc_Some pre' p) as [h Hhd].
    assert (G : segment (<[n:=VertexNode.set_prev (Some p) nn]>
                           (<[p:=VertexNode.set_next (Some n) np]> vs))
                  None ((pre' ++ [p]) ++ n :: post') None).
    { apply NoDup_app in Hnd' as (_ & Hd & _).
      apply segment_app. rewrite lastOr_snoc. split.
      - apply segment_insert_notin.
        + intros Hin. apply (Hd n Hin). constructor.
        + apply (segment_set_next _ _ _ _ _ (Some a)); auto.
      - apply (segment_set_prev _ (Some b)); auto.
        + apply segment_insert_notin; [|exact Hpost].
          intros Hin. apply (Hd p); [apply elem_of_app; right; constructor|].
          exact Hin.
        + rewrite list_lookup_insert_ne by auto. exact Hnn. }
    assert (p <> a).
    { intros ->. apply (Hdis a); [apply elem_of_app; right; constructor|].
      apply elem_of_app. auto. }
    assert (p <> b).
    { intros ->. apply (Hdis b); [apply elem_of_app; right; constructor|].
      apply elem_of_app. auto. }
    destruct w; simpl in *; subst; repeat (run1; simpl); rewrite ?Hpa, ?Hxb; simpl;
      repeat (run1; simpl); rewrite ?Hpa, ?Hxb; simpl;
      repeat (run1; simpl);
      eexists; (split; [reflexivity|]); simpl;
      rewrite ?last_app in *; simpl in *; repeat split; auto;
      try (rewrite !head_app, Hhd in *; simpl in *; congruence);
      rewrite lastOr_cons_last;
      (destruct (last (n :: post')) eqn:E;
         [reflexivity | apply last_None in E; discriminate]).
Qed.

Lemma vertexListInsertBefore_ok w s pre t post v :
  listOk s w (pre ++ t :: post) -> v ∉ pre ++ t :: post ->
  is_Some (HullState.vertices s !! v) ->
  exists s', vertexListInsertBefore w t v s = Ok (tt, s') /\
             listOk s' w (pre ++ v :: t :: post).
Proof.
  unfold listOk, wellFormed.
  destruct s as [pts tol fs nfs [ah atl] [uh utl] vs fst est].
  intros (Hnd & Hh & Ht & Hseg) Hv [nv Hnv].
  assert (Hnd' : NoDup (pre ++ v :: t :: post)).
  { apply NoDup_app in Hnd as (H1 & H2 & H3). apply NoDup_app. repeat split; auto.
    - intros x Hx Hx'. apply elem_of_cons in Hx' as [->|Hx'].
      + apply Hv. apply elem_of_app. auto.
      + apply (H2 x Hx Hx').
    - apply NoDup_cons. split; [|exact H3].
      intros Hin. apply Hv. apply elem_of_app. auto. }
  assert (Hvt : v <> t).
  { intros ->. apply Hv. apply elem_of_app. right. constructor. }
  assert (Hvpost : v ∉ t :: post).
  { intros Hin. apply Hv. apply elem_of_app. auto. }
  assert (Hvpre : v ∉ pre).
  { intros Hin. apply Hv. apply elem_of_app. auto. }
  apply segment_app in Hseg as [Hpre Hrest]. simpl firstOr in Hpre.
  destruct (segment_first_node _ _ _ _ _ Hrest) as (nt & Hnt & Hpt & Hxt).
  assert (Hlast : last (pre ++ v :: t :: post) = last (pre ++ t :: post)).
  { rewrite !last_app. simpl. destruct post; reflexivity. }
  apply NoDup_app in Hnd as (Hnd1 & Hdis & Hnd2).
  unfold vertexListInsertBefore, setHead, getList, setTail.
  destruct pre as [|p pre' _] using rev_ind.
  - set (nv' := VertexNode.set_next (Some t) (VertexNode.set_prev None nv)).
    assert (G : segment (<[t:=VertexNode.set_prev (Some v) nt]> (<[v:=nv']> vs))
                  None (v :: t :: post) None).
    { simpl. exists nv'.
      rewrite list_lookup_insert_ne, list_lookup_insert_eq
        by (auto; eapply lookup_lt_Some; eauto).
      repeat split; auto.
      apply (segment_set_prev _ None); auto.
      - apply segment_insert_notin; auto.
      - rewrite list_lookup_insert_ne by auto. exact Hnt. }
    destruct w; simpl in *; subst; repeat (run1; simpl); rewrite ?Hpt; simpl;
      rewrite ?list_insert_insert_eq;
      repeat (run1; simpl); rewrite ?Hpt; simpl;
      repeat (run1; simpl);
      eexists; (split; [reflexivity|]); simpl; repeat split; auto.
  - destruct (segment_last_node _ _ _ _ _ Hpre) as (np & Hnp & _ & _).
    rewrite lastOr_snoc in Hpt, Hrest.
    destruct (head_snoc_Some pre' p) as [h Hhd].
    assert (Hpv : p <> v).
    { intros ->. apply Hvpre. apply elem_of_app. right. constructor. }
    assert (Hpt' : p <> t).
    { intros ->. apply (Hdis t); [apply elem_of_app; right|]; constructor. }
    set (nv' := VertexNode.set_next (Some t) (VertexNode.set_prev (Some p) nv)).
    assert (G : segment (<[t:=VertexNode.set_prev (Some v) nt]>
                           (<[p:=VertexNode.set_next (Some v) np]> (<[v:=nv']> vs)))
                  None ((pre' ++ [p]) ++ v :: t :: post) None).
    { apply segment_app. rewrite lastOr_snoc. split.
      - apply segment_insert_notin.
        { intros Hin. apply (Hdis t Hin). constructor. }
        apply (segment_set_next _ _ _ _ _ (Some t)); auto.
        + apply segment_insert_notin; auto.
        + rewrite list_lookup_insert_ne by auto. exact Hnp.
      - simpl. exists nv'.
        rewrite !list_lookup_insert_ne, list_lookup_insert_eq
          by (auto; eapply lookup_lt_Some; eauto).
        repeat split; auto.
        apply (segment_set_prev _ (Some p)); auto.
        + apply segment_insert_notin.
          { intros Hin. apply (Hdis p); [apply elem_of_app; right; constructor|].
            exact Hin. }
          apply segment_insert_notin; auto.
        + rewrite !list_lookup_insert_ne by auto. exact Hnt. }
    destruct w; simpl in *; subst; repeat (run1; simpl); rewrite ?Hpt; simpl;
      rewrite ?list_insert_insert_eq;
      repeat (run1; simpl); rewrite ?Hpt; simpl;
      repeat (run1; simpl);
      eexists; (split; [reflexivity|]); simpl; repeat split; auto;
      try (rewrite !head_app, Hhd in *; simpl in *; congruence);
      congruence.
Qed.

Lemma findEndOfChain_run s ys : forall p v fuel,
  segment (HullState.vertices s) p ys None ->
  head ys = Some v -> length ys <= S fuel ->
  exists b, last ys = Some b /\ findEndOfChain fuel v s = Ok (b, s).
Proof.
  induction ys as [|y rest IH]; intros p v fuel Hs Hh Hl; [discriminate|].
  injection Hh as ->. simpl in Hs. destruct Hs as (nd & Hnd & _ & Hnx & Hs).
  destruct rest as [|z rest'].
  - exists v. split; [reflexivity|].
    destruct fuel; simpl; rewrite (bind_getVertex _ _ _ _ Hnd), Hnx; reflexivity.
  - destruct fuel as [|fuel']; [simpl in Hl; lia|].
    destruct (IH (Some v) z fuel' Hs eq_refl) as (b & Hb & Hrun).
    { simpl in *. lia. }
    exists b. split; [exact Hb|].
    simpl findEndOfChain. rewrite (bind_getVertex _ _ _ _ Hnd), Hnx. exact Hrun.
Qed.

Lemma bind_findEndOfChain {B} fuel v b (k : ref -> M B) s :
  findEndOfChain fuel v s = Ok (b, s) -> bind (findEndOfChain fuel v) k s = k b s.
Proof. apply bind_run. Qed.

Lemma vertexListAppendChain_ok fuel w s xs ys p v :
  listOk s w xs ->
  segment (HullState.vertices s) p ys None ->
  head ys = Some v -> NoDup (xs ++ ys) -> length ys <= S fuel ->
  exists s', vertexListAppendChain fuel w v s = Ok (tt, s') /\ listOk s' w (xs ++ ys).
Proof.
  unfold listOk, wellFormed.
  destruct s as [pts tol fs nfs [ah atl] [uh utl] vs fst est].
  intros (_ & Hh & Ht & Hseg) Hys Hv Hnd Hlen.
  destruct ys as [|v' rest]; [discriminate|]. injection Hv as ->.
  destruct (segment_first_node _ _ _ _ _ Hys) as (nv & Hnv & _ & _).
  pose proof Hnd as Hnd0.
  apply NoDup_app in Hnd as (Hnd1 & Hdis & Hnd2).
  unfold vertexListAppendChain, setHead, getList, setTail.
  destruct xs as [|t ts _] using rev_ind.
  - assert (G : segment (<[v:=VertexNode.set_prev None nv]> vs) None (v :: rest) None).
    { apply (segment_set_prev _ p); auto. }
    destruct (findEndOfChain_run
                (HullState.mk pts tol fs nfs (VertexList.mk ah atl) (VertexList.mk uh utl)
                   (<[v:=VertexNode.set_prev None nv]> vs) fst est)
                (v :: rest) None v fuel G eq_refl Hlen) as (b & Hb & Hrun).
    destruct w; simpl in *; subst; repeat (run1; simpl).
    all: match goal with
         | |- context [bind (findEndOfChain ?f ?x) ?k ?st] =>
             destruct (findEndOfChain_run st (v :: rest) None v fuel G eq_refl Hlen)
               as (b' & Hb' & Hrun');
             rewrite (bind_findEndOfChain _ _ _ _ _ Hrun')
         end.
    all: eexists; (split; [reflexivity|]); simpl; repeat split; auto.
  - destruct (segment_last_node _ _ _ _ _ Hseg) as (nt & Hnt & _ & _).
    destruct (head_snoc_Some ts t) as [h Hhd].
    assert (Htv : t <> v).
    { intros ->. apply (Hdis v); [apply elem_of_app; right|]; constructor. }
    rewrite last_snoc in Ht. rewrite Hhd in Hh.
    assert (G2 : segment (<[v:=VertexNode.set_prev (Some t) nv]>
                            (<[t:=VertexNode.set_next (Some v) nt]> vs))
                   (Some t) (v :: rest) None).
    { apply (segment_set_prev _ p); auto.
      - apply segment_insert_notin; auto.
        intros Hin. apply (Hdis t); [apply elem_of_app; right; constructor|]. exact Hin.
      - rewrite list_lookup_insert_ne by auto. exact Hnv. }
    assert (G1 : segment (<[v:=VertexNode.set_prev (Some t) nv]>
                            (<[t:=VertexNode.set_next (Some v) nt]> vs))
                   None (ts ++ [t]) (Some v)).
    { apply segment_insert_notin.
      - intros Hin. apply (Hdis v Hin). constructor.
      - apply (segment_set_next _ _ _ _ _ None); auto. }
    destruct w; simpl in *; subst; repeat (run1; simpl).
    all: match goal with
         | |- context [bind (findEndOfChain ?f ?x) ?k ?st] =>
             destruct (findEndOfChain_run st (v :: rest) (Some t) v fuel G2 eq_refl Hlen)
               as (b' & Hb' & Hrun');
             rewrite (bind_findEndOfChain _ _ _ _ _ Hrun')
         end.
    all: eexists; (split; [reflexivity|]); simpl; repeat split; auto.
    all: try (rewrite !head_app, Hhd in *; simpl in *; congruence).
    all: try (rewrite last_app; simpl in *; rewrite Hb'; reflexivity).
    all: apply segment_app; rewrite lastOr_snoc; split; auto.
Qed.

(** C6. On a well-formed list (head and tail right, prev and next inverse
    of each other, no node twice) each of append, appendChain,
    insertBefore, remove and removeSubList succeeds and leaves a
    well-formed list holding the expected nodes; the parts before and
    after the place of the change may be empty, which covers the empty
    list, the single node, and removal at the head or the tail.  The
    node handed to append or insertBefore is one that is not in the list,
    the chain handed to appendChain is linked and apart from the list. *)
Theorem vertex_list_integrity :
  (forall w s xs v,
      listOk s w xs -> v ∉ xs -> is_Some (HullState.vertices s !! v) ->
      exists s', vertexListAppend w v s = Ok (tt, s') /\ listOk s' w (xs ++ [v])) /\
  (forall fuel w s xs ys p v,
      listOk s w xs -> segment (HullState.vertices s) p ys None ->
      head ys = Some v -> NoDup (xs ++ ys) -> length ys <= S fuel ->
      exists s', vertexListAppendChain fuel w v s = Ok (tt, s') /\ listOk s' w (xs ++ ys)) /\
  (forall w s pre t post v,
      listOk s w (pre ++ t :: post) -> v ∉ pre ++ t :: post ->
      is_Some (HullState.vertices s !! v) ->
      exists s', vertexListInsertBefore w t v s = Ok (tt, s') /\
                 listOk s' w (pre ++ v :: t :: post)) /\
  (forall w s pre v post,
      listOk s w (pre ++ v :: post) ->
      exists s', vertexListRemove w v s = Ok (tt, s') /\ listOk s' w (pre ++ post)) /\
  (forall w s pre mid post a b,
      listOk s w (pre ++ mid ++ post) -> head mid = Some a -> last mid = Some b ->
      exists s', vertexListRemoveSubList w a b s = Ok (tt, s') /\ listOk s' w (pre ++ post)).
Proof.
  repeat split.
  - apply vertexListAppend_ok.
  - apply vertexListAppendChain_ok.
  - apply vertexListInsertBefore_ok.
  - apply vertexListRemove_ok.
  - apply vertexListRemoveSubList_ok.
Qed.

Lemma listDemo_ok : listOk listDemo Assigned [0; 1; 2].
Proof.
  split; [compute_done|]. simpl. repeat split; repeat (eexists; repeat split).
Defined.

Lemma vertex_list_integrity_witness :
  (exists s', vertexListAppend Unassigned 3 listDemo = Ok (tt, s') /\
              listOk s' Unassigned [3]) /\
  (exists s', vertexListAppend Assigned 3 listDemo = Ok (tt, s') /\
              listOk s' Assigned [0; 1; 2; 3]) /\
  (exists s', vertexListAppendChain 5 Assigned 4 listDemo = Ok (tt, s') /\
              listOk s' Assigned [0; 1; 2; 4; 5]) /\
  (exists s', vertexListInsertBefore Assigned 0 3 listDemo = Ok (tt, s') /\
              listOk s' Assigned [3; 0; 1; 2]) /\
  (exists s', vertexListRemove Assigned 0 listDemo = Ok (tt, s') /\
              listOk s' Assigned [1; 2]) /\
  (exists s', vertexListRemove Assigned 2 listDemo = Ok (tt, s') /\
              listOk s' Assigned [0; 1]) /\
  (exists s', vertexListRemoveSubList Assigned 0 2 listDemo = Ok (tt, s') /\
              listOk s' Assigned []).
Proof.
  destruct vertex_list_integrity as (Happ & Hchain & Hins & Hrem & Hsub).
  repeat split.
  - apply (Happ Unassigned listDemo [] 3).
    + repeat split; simpl; auto. constructor.
    + compute_done.
    + simpl. eauto.
  - apply (Happ Assigned listDemo [0; 1; 2] 3).
    + exact listDemo_ok.
    + compute_done.
    + simpl. eauto.
  - apply (Hchain 5 Assigned listDemo [0; 1; 2] [4; 5] None 4).
    + exact listDemo_ok.
    + simpl. repeat (eexists; repeat split).
    + reflexivity.
    + compute_done.
    + simpl. lia.
  - apply (Hins Assigned listDemo [] 0 [1; 2] 3).
    + exact listDemo_ok.
    + compute_done.
    + simpl. eauto.
  - apply (Hrem Assigned listDemo [] 0 [1; 2]). exact listDemo_ok.
  - apply (Hrem Assigned listDemo [0; 1] 2 []). exact listDemo_ok.
  - apply (Hsub Assigned listDemo [] [0; 1; 2] [] 0 2); [exact listDemo_ok| |]; reflexivity.
Defined.

(** ** Classifying a point against faces (C3, C5) *)

Lemma ltb_asym_eq (a b : float) : a = b \/ (a <? b)%float = true -> (b <? a)%float = false.
Proof.
  intros [->|H]; [apply ltb_irrefl|].
  destruct (b <? a)%float eqn:E; [|reflexivity].
  pose proof (ltb_trans _ _ _ H E) as Hbad. rewrite ltb_irrefl in Hbad. discriminate.
Qed.

Lemma ltb_weak_trans (a b c : float) :
  (a <? b)%float = true -> b = c \/ (b <? c)%float = true -> (a <? c)%float = true.
Proof. intros H [<-|H']; [exact H | eapply ltb_trans; eauto]. Qed.

Lemma not_ltb_mono (a b d : float) :
  a = b \/ (a <? b)%float = true -> (a <? d)%float = false -> (b <? d)%float = false.
Proof.
  intros [<-|H] Hd; [exact Hd|].
  destruct (b <? d)%float eqn:E; [|reflexivity].
  pose proof (ltb_trans _ _ _ H E). congruence.
Qed.

Lemma getFace_Ok f fc s s' :
  getFace f s = Ok (fc, s') <-> HullState.faceStore s !! f = Some fc /\ s = s'.
Proof.
  unfold getFace. split.
  - intros H. inv_run. auto.
  - intros [H ->]. unfold bind, gets. rewrite H. reflexivity.
Qed.

Lemma getVertex_Ok v nd s s' :
  getVertex v s = Ok (nd, s') <-> HullState.vertices s !! v = Some nd /\ s = s'.
Proof.
  unfold getVertex. split.
  - intros H. inv_run. auto.
  - intros [H ->]. unfold bind, gets. rewrite H. reflexivity.
Qed.

Lemma getEdge_Ok e ed s s' :
  getEdge e s = Ok (ed, s') <-> HullState.edgeStore s !! e = Some ed /\ s = s'.
Proof.
  unfold getEdge. split.
  - intros H. inv_run. auto.
  - intros [H ->]. unfold bind, gets. rewrite H. reflexivity.
Qed.

Ltac inv_get :=
  repeat match goal with
  | H : getFace _ _ = Ok _ |- _ => apply getFace_Ok in H; destruct H as [H ?]; subst
  | H : getVertex _ _ = Ok _ |- _ => apply getVertex_Ok in H; destruct H as [H ?]; subst
  | H : getEdge _ _ = Ok _ |- _ => apply getEdge_Ok in H; destruct H as [H ?]; subst
  end.

Lemma distanceTo_intro s f fc vi d :
  HullState.faceStore s !! f = Some fc ->
  faceDistanceToPoint fc (HullState.points s) vi = Some d ->
  distanceTo s f vi = Some d.
Proof. unfold distanceTo. intros -> H. exact H. Qed.

(** The scan of step 5 keeps the state, and answers the first face of
    greatest distance, provided that distance is above the start value. *)
Lemma farthestFace_inv vi faces : forall m mf s r s',
  farthestFace vi faces m mf s = Ok (r, s') ->
  s' = s /\
  exists m', (m = m' \/ (m <? m')%float = true) /\
    Forall (fun g => exists dg, distanceTo s g vi = Some dg /\ (m' <? dg)%float = false) faces /\
    ((r = mf /\ m' = m) \/
     (exists f, r = Some f /\ f ∈ faces /\ distanceTo s f vi = Some m' /\
                (m <? m')%float = true)).
Proof.
  induction faces as [|face rest IH]; intros m mf s r s' H; simpl in H.
  - inv_run. split; [reflexivity|]. exists m. repeat split; auto.
  - inv_run. inv_get.
    match goal with H : faceDistanceToPoint _ _ _ = Some ?d |- _ =>
      rename H into Hd; set (dist := d) in * end.
    match goal with H : HullState.faceStore _ !! face = Some _ |- _ => rename H into Hf end.
    pose proof (distanceTo_intro _ _ _ _ _ Hf Hd) as Hdist.
    destruct (m <? dist)%float eqn:Hlt.
    + apply IH in H as (-> & m' & Hmm & Hall & Hr). split; [reflexivity|].
      exists m'. split; [right; eapply ltb_weak_trans; eauto|].
      split.
      * constructor; [|exact Hall]. exists dist. split; [exact Hdist|].
        apply ltb_asym_eq. exact Hmm.
      * right. destruct Hr as [[-> ->]|(f & -> & Hin & Hdf & Hlt')].
        -- exists face. repeat split; auto. constructor.
        -- exists f. repeat split; auto; [right; exact Hin|].
           eapply ltb_trans; eauto.
    + apply IH in H as (-> & m' & Hmm & Hall & Hr). split; [reflexivity|].
      exists m'. split; [exact Hmm|]. split.
      * constructor; [|exact Hall]. exists dist. split; [exact Hdist|].
        eapply not_ltb_mono; eauto.
      * destruct Hr as [[-> ->]|(f & -> & Hin & Hdf & Hlt')]; [left; auto|].
        right. exists f. repeat split; auto. right. exact Hin.
Qed.

Lemma isVisible_intro s f fc :
  HullState.faceStore s !! f = Some fc -> isVisible s f = bool_decide (Face.mark fc = VISIBLE).
Proof. unfold isVisible. intros ->. reflexivity. Qed.

(** The scan of step 6e keeps the state; it looks at a front part of the
    new faces, all of them unless the greatest distance seen went above
    1000 x tolerance, and answers the first visible face of greatest
    distance among those it looked at. *)
Lemma scanNewFaces_inv vi newFaces : forall m mf s r s',
  scanNewFaces vi newFaces m mf s = Ok (r, s') ->
  s' = s /\
  exists m' scanned rest,
    newFaces = scanned ++ rest /\
    (rest = [] \/ (1000 * HullState.tolerance s <? m')%float = true) /\
    (m = m' \/ (m <? m')%float = true) /\
    Forall (fun g => isVisible s g = true ->
              exists dg, distanceTo s g vi = Some dg /\ (m' <? dg)%float = false) scanned /\
    ((r = mf /\ m' = m) \/
     (exists f, r = Some f /\ f ∈ scanned /\ isVisible s f = true /\
                distanceTo s f vi = Some m' /\ (m <? m')%float = true)).
Proof.
  induction newFaces as [|face rest IH]; intros m mf s r s' H; simpl in H.
  - inv_run. split; [reflexivity|]. exists m, [], []. repeat split; auto.
  - inv_run. inv_get.
    match goal with H : HullState.faceStore _ !! face = Some _ |- _ => rename H into Hf end.
    pose proof (isVisible_intro _ _ _ Hf) as Hvis.
    destruct (bool_decide (Face.mark _ = VISIBLE)) eqn:Hmark.
    + inv_run.
      match goal with H : faceDistanceToPoint _ _ _ = Some ?d |- _ =>
        rename H into Hd; set (dist := d) in * end.
      pose proof (distanceTo_intro _ _ _ _ _ Hf Hd) as Hdist.
      destruct (m <? dist)%float eqn:Hlt.
      * destruct (1000 * HullState.tolerance _ <? dist)%float eqn:Hbrk.
        -- inv_run. split; [reflexivity|].
           exists dist, [face], rest. repeat split; auto.
           ++ constructor; [|constructor]. intros _. exists dist.
              split; [exact Hdist | apply ltb_irrefl].
           ++ right. exists face. repeat split; auto. constructor.
        -- apply IH in H as (-> & m' & sc & rs & -> & Hbr & Hmm & Hall & Hr).
           split; [reflexivity|].
           exists m', (face :: sc), rs. split; [reflexivity|]. split; [exact Hbr|].
           split; [right; eapply ltb_weak_trans; eauto|]. split.
           ++ constructor; [|exact Hall]. intros _. exists dist.
              split; [exact Hdist | apply ltb_asym_eq; exact Hmm].
           ++ right. destruct Hr as [[-> ->]|(f & -> & Hin & Hv & Hdf & Hlt')].
              ** exists face. repeat split; auto. constructor.
              ** exists f. repeat split; auto; [right; exact Hin|].
                 eapply ltb_trans; eauto.
      * destruct (1000 * HullState.tolerance _ <? m)%float eqn:Hbrk.
        -- inv_run. split; [reflexivity|].
           exists m, [face], rest. repeat split; auto.
           constructor; [|constructor]. intros _. exists dist. auto.
        -- apply IH in H as (-> & m' & sc & rs & -> & Hbr & Hmm & Hall & Hr).
           split; [reflexivity|].
           exists m', (face :: sc), rs. split; [reflexivity|]. split; [exact Hbr|].
           split; [exact Hmm|]. split.
           ++ constructor; [|exact Hall]. intros _. exists dist.
              split; [exact Hdist | eapply not_ltb_mono; eauto].
           ++ destruct Hr as [[-> ->]|(f & -> & Hin & Hv & Hdf & Hlt')]; [left; auto|].
              right. exists f. repeat split; auto. right. exact Hin.
    + apply IH in H as (-> & m' & sc & rs & -> & Hbr & Hmm & Hall & Hr).
      split; [reflexivity|].
      exists m', (face :: sc), rs. split; [reflexivity|]. split; [exact Hbr|].
      split; [exact Hmm|]. split.
      * constructor; [|exact Hall]. rewrite Hvis. discriminate.
      * destruct Hr as [[-> ->]|(f & -> & Hin & Hv & Hdf & Hlt')]; [left; auto|].
        right. exists f. repeat split; auto. right. exact Hin.
Qed.

Ltac keeps_by leaf :=
  repeat (intros;
    match goal with
    | |- preserves _ (bind _ _) => apply preserves_bind
    | |- preserves _ (ret _) => apply preserves_ret
    | |- preserves _ (gets _) => apply preserves_gets
    | |- preserves _ raise => apply preserves_raise
    | |- preserves _ outOfFuel => apply preserves_outOfFuel
    | |- preserves _ (orRaise _) => apply preserves_orRaise
    | |- preserves _ (getVertex _) => apply preserves_getVertex
    | |- preserves _ (getFace _) => apply preserves_getFace
    | |- preserves _ (getEdge _) => apply preserves_getEdge
    | |- preserves _ (modify _) =>
        apply preserves_modify; intros ?;
        try (match goal with |- context [HullState.setList ?w _ _] => destruct w end);
        reflexivity
    | |- preserves _ (match ?x with _ => _ end) => destruct x
    | |- preserves _ _ => solve [leaf]
    end).

Lemma faceFields_updVertex x g :
  (forall nd, VertexNode.face (g nd) = VertexNode.face nd) ->
  preserves faceFields (updVertex x g).
Proof.
  intros Hg s u s' H. unfold updVertex in H. inv_run. inv_get.
  unfold faceFields. simpl.
  rewrite list_fmap_insert, Hg. apply list_insert_id.
  rewrite list_lookup_fmap.
  match goal with H : ?l !! ?i = Some _ |- context [?l !! ?i] => rewrite H end.
  reflexivity.
Qed.

Lemma faceFields_vertexListAppend w v : preserves faceFields (vertexListAppend w v).
Proof.
  unfold vertexListAppend, setHead, setTail, getList.
  keeps_by ltac:(apply faceFields_updVertex; intros; reflexivity).
Qed.

Lemma faceFields_vertexListInsertBefore w t v :
  preserves faceFields (vertexListInsertBefore w t v).
Proof.
  unfold vertexListInsertBefore, setHead, setTail, getList.
  keeps_by ltac:(apply faceFields_updVertex; intros; reflexivity).
Qed.

(** [addVertexToFace] files the vertex under the face and makes it the
    first of the face's outside vertices. *)
Lemma addVertexToFace_spec v f s u s' :
  addVertexToFace v f s = Ok (u, s') ->
  (exists nd, HullState.vertices s' !! v = Some nd /\ VertexNode.face nd = Some f) /\
  (exists fc, HullState.faceStore s' !! f = Some fc /\ Face.outside fc = Some v).
Proof.
  unfold addVertexToFace. intros H.
  apply bind_Ok in H as (u1 & s1 & H1 & H).
  apply bind_Ok in H as (fc & s2 & H2 & H).
  apply bind_Ok in H as (u3 & s3 & H3 & H4).
  apply getFace_Ok in H2 as [H2 <-].
  assert (Hv1 : faceFields s1 !! v = Some (Some f)).
  { unfold updVertex in H1. apply bind_Ok in H1 as (nd & s0 & Hg & Hm).
    apply getVertex_Ok in Hg as [Hg <-]. apply modify_Ok in Hm. subst s1.
    unfold faceFields. simpl.
    rewrite list_lookup_fmap, list_lookup_insert_eq by (eapply lookup_lt_Some; eauto).
    reflexivity. }
  assert (E3 : faceFields s3 = faceFields s1).
  { destruct (Face.outside fc);
      [eapply faceFields_vertexListInsertBefore | eapply faceFields_vertexListAppend];
      eauto. }
  unfold updFace in H4. apply bind_Ok in H4 as (fc' & s4 & Hg & Hm).
  apply getFace_Ok in Hg as [Hg <-]. apply modify_Ok in Hm. subst s'. simpl.
  split.
  - rewrite <- E3 in Hv1. unfold faceFields in Hv1. rewrite list_lookup_fmap in Hv1.
    destruct (HullState.vertices s3 !! v) as [nd|]; [|discriminate].
    exists nd. split; [reflexivity|]. simpl in Hv1. congruence.
  - eexists. rewrite list_lookup_insert_eq by (eapply lookup_lt_Some; eauto).
    split; reflexivity.
Qed.

Lemma assignVertex_inv v s u s' :
  assignVertex v s = Ok (u, s') ->
  exists nd r,
    HullState.vertices s !! v = Some nd /\
    farthestFace (VertexNode.index nd) (HullState.faces s) (HullState.tolerance s) None s
      = Ok (r, s) /\
    match r with
    | Some f => addVertexToFace v f s = Ok (tt, s')
    | None => s' = s
    end.
Proof.
  unfold assignVertex. intros H.
  apply bind_Ok in H as (tol & s1 & H1 & H). apply gets_Ok in H1 as [<- <-].
  apply bind_Ok in H as (fs & s1 & H1 & H). apply gets_Ok in H1 as [<- <-].
  apply bind_Ok in H as (nd & s1 & H1 & H). apply getVertex_Ok in H1 as [Hnd <-].
  apply bind_Ok in H as (r & s1 & H1 & H).
  pose proof (farthestFace_inv _ _ _ _ _ _ _ H1) as [-> _].
  exists nd, r. repeat split; auto.
  destruct r; [destruct u; exact H | apply ret_Ok in H as [_ <-]; reflexivity].
Qed.

Lemma resolveVertex_inv nf v s nx s' :
  resolveVertex nf v s = Ok (nx, s') ->
  exists nd r,
    HullState.vertices s !! v = Some nd /\ nx = VertexNode.next nd /\
    scanNewFaces (VertexNode.index nd) nf (HullState.tolerance s) None s = Ok (r, s) /\
    match r with
    | Some f => addVertexToFace v f s = Ok (tt, s')
    | None => s' = s
    end.
Proof.
  unfold resolveVertex. intros H.
  apply bind_Ok in H as (nd & s1 & H1 & H). apply getVertex_Ok in H1 as [Hnd <-].
  apply bind_Ok in H as (tol & s1 & H1 & H). apply gets_Ok in H1 as [<- <-].
  apply bind_Ok in H as (r & s1 & H1 & H).
  pose proof (scanNewFaces_inv _ _ _ _ _ _ _ H1) as [-> _].
  apply bind_Ok in H as (u & s2 & H2 & H). apply ret_Ok in H as [<- <-].
  exists nd, r. repeat split; auto.
  destruct r; [destruct u; exact H2 | apply ret_Ok in H2 as [_ <-]; reflexivity].
Qed.

Lemma absorbVertex_inv af v s nx s' :
  absorbVertex af v s = Ok (nx, s') ->
  exists nd d,
    HullState.vertices s !! v = Some nd /\ nx = VertexNode.next nd /\
    distanceTo s af (VertexNode.index nd) = Some d /\
    if (HullState.tolerance s <? d)%float
    then addVertexToFace v af s = Ok (tt, s')
    else vertexListAppend Unassigned v s = Ok (tt, s').
Proof.
  unfold absorbVertex. intros H.
  apply bind_Ok in H as (nd & s1 & H1 & H). apply getVertex_Ok in H1 as [Hnd <-].
  apply bind_Ok in H as (pts & s1 & H1 & H). apply gets_Ok in H1 as [<- <-].
  apply bind_Ok in H as (tol & s1 & H1 & H). apply gets_Ok in H1 as [<- <-].
  apply bind_Ok in H as (fc & s1 & H1 & H). apply getFace_Ok in H1 as [Hfc <-].
  apply bind_Ok in H as (d & s1 & H1 & H). apply orRaise_Ok in H1 as [Hd <-].
  apply bind_Ok in H as (u & s2 & H2 & H). apply ret_Ok in H as [<- <-].
  exists nd, d. repeat split; auto.
  - eapply distanceTo_intro; eauto.
  - destruct u. destruct (HullState.tolerance s <? d)%float; exact H2.
Qed.

(** C5. In each of the three steps that classify a point against faces,
    the point is filed under a face only when its signed distance to
    that face is strictly greater than the tolerance; with no such face
    the initial assignment and the re-triage leave the state as it is,
    and the absorbing step hands the point to the unassigned list.  A
    distance equal to the tolerance is not strictly greater. *)
Theorem outside_is_strictly_beyond_tolerance :
  (forall v s u s', assignVertex v s = Ok (u, s') ->
     exists nd, HullState.vertices s !! v = Some nd /\
       (s' = s \/
        exists f d, f ∈ HullState.faces s /\
          distanceTo s f (VertexNode.index nd) = Some d /\
          (HullState.tolerance s <? d)%float = true /\ filedUnder s' v f) /\
       ((forall g d, g ∈ HullState.faces s ->
            distanceTo s g (VertexNode.index nd) = Some d ->
            (HullState.tolerance s <? d)%float = false) -> s' = s)) /\
  (forall af v s nx s', absorbVertex af v s = Ok (nx, s') ->
     exists nd d, HullState.vertices s !! v = Some nd /\
       distanceTo s af (VertexNode.index nd) = Some d /\
       (((HullState.tolerance s <? d)%float = true /\ filedUnder s' v af) \/
        ((HullState.tolerance s <? d)%float = false /\
         vertexListAppend Unassigned v s = Ok (tt, s')))) /\
  (forall nf v s nx s', resolveVertex nf v s = Ok (nx, s') ->
     exists nd, HullState.vertices s !! v = Some nd /\
       (s' = s \/
        exists f d, f ∈ nf /\ isVisible s f = true /\
          distanceTo s f (VertexNode.index nd) = Some d /\
          (HullState.tolerance s <? d)%float = true /\ filedUnder s' v f) /\
       ((forall g d, g ∈ nf -> isVisible s g = true ->
            distanceTo s g (VertexNode.index nd) = Some d ->
            (HullState.tolerance s <? d)%float = false) -> s' = s)) /\
  (forall tol d : float, d = tol -> (tol <? d)%float = false).
Proof.
  split; [|split; [|split]].
  - intros v s u s' H.
    apply assignVertex_inv in H as (nd & r & Hnd & Hscan & Hr).
    apply farthestFace_inv in Hscan as (_ & m' & Hmm & Hall & Hres).
    exists nd. split; [exact Hnd|].
    destruct r as [f|].
    + destruct Hres as [[Hbad _]|(f' & [= <-] & Hin & Hd & Hlt)]; [discriminate|].
      pose proof (addVertexToFace_spec _ _ _ _ _ Hr) as Hfiled.
      split; [right; exists f, m'; auto|].
      intros Hno. rewrite (Hno f m' Hin Hd) in Hlt. discriminate.
    + subst s'. auto.
  - intros af v s nx s' H.
    apply absorbVertex_inv in H as (nd & d & Hnd & _ & Hd & Hr).
    exists nd, d. repeat split; auto.
    destruct (HullState.tolerance s <? d)%float; [left|right]; split; auto.
    eapply addVertexToFace_spec; eauto.
  - intros nf v s nx s' H.
    apply resolveVertex_inv in H as (nd & r & Hnd & _ & Hscan & Hr).
    apply scanNewFaces_inv in Hscan
      as (_ & m' & sc & rs & -> & _ & Hmm & Hall & Hres).
    exists nd. split; [exact Hnd|].
    destruct r as [f|].
    + destruct Hres as [[Hbad _]|(f' & [= <-] & Hin & Hv & Hd & Hlt)]; [discriminate|].
      pose proof (addVertexToFace_spec _ _ _ _ _ Hr) as Hfiled.
      assert (Hin' : f ∈ sc ++ rs) by (apply elem_of_app; auto).
      split; [right; exists f, m'; auto 10|].
      intros Hno. rewrite (Hno f m' Hin' Hv Hd) in Hlt. discriminate.
    + subst s'. auto.
  - intros tol d ->. apply ltb_irrefl.
Qed.

Lemma bind_cong {A B} (m : M A) (k k' : A -> M B) s :
  (forall a s', k a s' = k' a s') -> bind m k s = bind m k' s.
Proof. intros H. unfold bind. destruct (m s) as [[a s']| |]; auto. Qed.

Lemma addVertexToHull_split fuel eyeVertex s :
  addVertexToHull fuel eyeVertex s =
  bind (hullBeforeRetriage fuel eyeVertex)
       (fun _ => bind (gets HullState.newFaces) (resolveUnassignedPoints fuel)) s.
Proof.
  unfold addVertexToHull, hullBeforeRetriage.
  repeat (rewrite bind_assoc; apply bind_cong; intros).
  reflexivity.
Qed.

(** C3, as stated, fails: at the first insertion on [retriageInput] the
    unassigned vertex 5 is beyond tolerance outside the new faces 4 and
    6; face 4 is the first such face of the scan, yet the vertex is filed
    under face 6, whose distance is greater. *)
Lemma retriage_not_first_exceeding :
  computeInitialHull (createHullState retriageInput) = Ok (tt, retriageSeed) /\
  nextVertexToAdd 100 retriageSeed = Ok (Some 4, retriageSeed) /\
  hullBeforeRetriage 100 4 retriageSeed = Ok (tt, retriageState) /\
  VertexList.head (HullState.unassigned retriageState) = Some 5 /\
  HullState.newFaces retriageState = [4; 5; 6] /\
  firstExceeding retriageState 5 [4; 5; 6] = Some 4 /\
  exists nx s1,
    resolveVertex [4; 5; 6] 5 retriageState = Ok (nx, s1) /\
    filedUnder s1 5 6 /\ ~ filedUnder s1 5 4.
Proof.
  split; [vm_compute; reflexivity|].
  split; [vm_compute; reflexivity|].
  split; [vm_compute; reflexivity|].
  split; [vm_compute; reflexivity|].
  split; [vm_compute; reflexivity|].
  split; [vm_compute; reflexivity|].
  eexists _, _.
  split; [vm_compute; reflexivity|].
  split.
  - split; eexists; (split; [vm_compute; reflexivity|]); reflexivity.
  - intros [(nd & Hnd & Hf) _]. vm_compute in Hnd. injection Hnd as <-. discriminate Hf.
Qed.

(** ** The half-edge mesh (C7) *)

Lemma updEdge_run s e ed g :
  HullState.edgeStore s !! e = Some ed ->
  updEdge e g s =
    Ok (tt, HullState.set_edgeStore (<[e := g ed]> (HullState.edgeStore s)) s).
Proof.
  intros H. unfold updEdge, getEdge, bind, gets. rewrite H. reflexivity.
Qed.

Lemma bind_updEdge {B} e ed g (k : unit -> M B) s :
  HullState.edgeStore s !! e = Some ed ->
  bind (updEdge e g) k s =
    k tt (HullState.set_edgeStore (<[e := g ed]> (HullState.edgeStore s)) s).
Proof. intros H. apply bind_run, updEdge_run, H. Qed.

Lemma updFace_run s f fc g :
  HullState.faceStore s !! f = Some fc ->
  updFace f g s =
    Ok (tt, HullState.set_faceStore (<[f := g fc]> (HullState.faceStore s)) s).
Proof.
  intros H. unfold updFace, getFace, bind, gets. rewrite H. reflexivity.
Qed.

Lemma lookup_fresh {A} (l : list A) (new : list A) k :
  (l ++ new) !! (length l + k) = new !! k.
Proof. rewrite lookup_app_r by lia. f_equal. lia. Qed.

Lemma insert_fresh {A} (l : list A) (new : list A) k x :
  <[length l + k := x]> (l ++ new) = l ++ <[k := x]> new.
Proof. rewrite insert_app_r_alt by lia. do 2 f_equal. lia. Qed.

Lemma faceCreate_run a b c s :
  faceCreate a b c s = Ok (length (HullState.faceStore s), faceCreated a b c s).
Proof.
  destruct s as [pts tol fs nfs asg un vs fst est].
  unfold faceCreate, createHalfEdge, faceCreated.
  unfold HullState.set_edgeStore, HullState.set_faceStore. simpl.
  repeat (first [rewrite bind_assoc | rewrite bind_gets | rewrite bind_modify
                | rewrite bind_ret]; simpl).
  rewrite <- !app_assoc. simpl. rewrite !length_app. simpl.
  replace (length est + 1 + 1) with (length est + 2) by lia.
  assert (E0 : forall x0 x1 x2 : HalfEdge.t,
             (est ++ [x0; x1; x2]) !! length est = Some x0).
  { intros. rewrite lookup_app_r, Nat.sub_diag by lia. reflexivity. }
  assert (E1 : forall x0 x1 x2 : HalfEdge.t,
             (est ++ [x0; x1; x2]) !! (length est + 1) = Some x1).
  { intros. rewrite lookup_fresh. reflexivity. }
  assert (E2 : forall x0 x1 x2 : HalfEdge.t,
             (est ++ [x0; x1; x2]) !! (length est + 2) = Some x2).
  { intros. rewrite lookup_fresh. reflexivity. }
  assert (I0 : forall x x0 x1 x2 : HalfEdge.t,
             <[length est := x]> (est ++ [x0; x1; x2]) = est ++ [x; x1; x2]).
  { intros. rewrite insert_app_r_alt, Nat.sub_diag by lia. reflexivity. }
  assert (I1 : forall x x0 x1 x2 : HalfEdge.t,
             <[length est + 1 := x]> (est ++ [x0; x1; x2]) = est ++ [x0; x; x2]).
  { intros. rewrite insert_fresh. reflexivity. }
  assert (I2 : forall x x0 x1 x2 : HalfEdge.t,
             <[length est + 2 := x]> (est ++ [x0; x1; x2]) = est ++ [x0; x1; x]).
  { intros. rewrite insert_fresh. reflexivity. }
  do 2 (erewrite bind_updEdge by (simpl; apply E0);
        unfold HullState.set_edgeStore; simpl; rewrite I0).
  do 2 (erewrite bind_updEdge by (simpl; apply E1);
        unfold HullState.set_edgeStore; simpl; rewrite I1).
  do 2 (erewrite bind_updEdge by (simpl; apply E2);
        unfold HullState.set_edgeStore; simpl; rewrite I2).
  unfold bind at 1.
  erewrite updFace_run; simpl.
  2:{ rewrite lookup_app_r, Nat.sub_diag by lia. reflexivity. }
  unfold ret, HullState.set_faceStore. simpl.
  rewrite insert_app_r_alt, Nat.sub_diag by lia. reflexivity.
Qed.

Lemma halfEdgeSetTwin_spec e t s u s' :
  halfEdgeSetTwin e t s = Ok (u, s') ->
  twinOf s' e = Some t /\ twinOf s' t = Some e /\
  (forall x, x <> e -> x <> t ->
     HullState.edgeStore s' !! x = HullState.edgeStore s !! x).
Proof.
  unfold halfEdgeSetTwin, updEdge. intros H.
  apply bind_Ok in H as (u1 & s1 & H1 & H2).
  apply bind_Ok in H1 as (ed & s0 & Hg & Hm). apply getEdge_Ok in Hg as [Hed <-].
  apply modify_Ok in Hm. subst s1.
  apply bind_Ok in H2 as (td & s0 & Hg & Hm). apply getEdge_Ok in Hg as [Htd <-].
  apply modify_Ok in Hm. subst s'. simpl in *.
  assert (Hlt : e < length (HullState.edgeStore s)) by (eapply lookup_lt_Some; eauto).
  assert (Hlt' : t < length (<[e:=HalfEdge.set_twin (Some t) ed]> (HullState.edgeStore s)))
    by (eapply lookup_lt_Some; eauto).
  unfold twinOf. simpl. repeat split.
  - destruct (decide (t = e)) as [->|Hne].
    + rewrite list_lookup_insert_eq by exact Hlt'. reflexivity.
    + rewrite list_lookup_insert_ne, list_lookup_insert_eq by auto. reflexivity.
  - rewrite list_lookup_insert_eq by exact Hlt'. reflexivity.
  - intros x Hxe Hxt. rewrite !list_lookup_insert_ne by auto. reflexivity.
Qed.

(** C7, as stated, fails for the half-edges of deleted faces: after the
    first insertion on the octahedron, face 1 is DELETED and still in
    [faces]; its half-edge 3 has twin 7, but the twin of 7 is 14, a
    half-edge of the new face 4. *)
Lemma stale_twin_on_deleted_face :
  computeInitialHull (createHullState octahedron) = Ok (tt, octahedronSeed) /\
  nextVertexToAdd 100 octahedronSeed = Ok (Some 4, octahedronSeed) /\
  addVertexToHull 100 4 octahedronSeed = Ok (tt, octahedronStep) /\
  1 ∈ HullState.faces octahedronStep /\
  markOf octahedronStep 1 = Some DELETED /\
  edgeOf octahedronStep 1 = Some 3 /\
  twinOf octahedronStep 3 = Some 7 /\
  twinOf octahedronStep 7 = Some 14 /\
  faceOf octahedronStep 14 = Some 4.
Proof.
  split; [vm_compute; reflexivity|].
  split; [vm_compute; reflexivity|].
  split; [vm_compute; reflexivity|].
  split; [compute_done|].
  repeat split; vm_compute; reflexivity.
Qed.

(** ** Degenerate inputs (C2) *)



(** With no third seed vertex the construction stops before any face is
    made, and the result is the empty list. *)
Lemma length_seedVertices points :
  length (seedVertices points) = vertexCount (length points).
Proof. unfold seedVertices. rewrite length_map, length_seq. reflexivity. Qed.



(** *** The search for the seed line and apex never fails on an array of
    whole points *)




















(** ** Relating the state before and after an operation *)

Section Respects.
Context (R : HullState.t -> HullState.t -> Prop).
Hypothesis R_refl : forall s, R s s.
Hypothesis R_trans : forall s1 s2 s3, R s1 s2 -> R s2 s3 -> R s1 s3.

Definition respects {A} (m : M A) : Prop :=
  forall s a s', m s = Ok (a, s') -> R s s'.

Lemma respects_bind {A B} (m : M A) (k : A -> M B) :
  respects m -> (forall a, respects (k a)) -> respects (bind m k).
Proof using R_trans.
  intros Hm Hk s b s'' H. apply bind_Ok in H as (a & s' & H1 & H2).
  eapply R_trans; [eapply Hm | eapply Hk]; eauto.
Qed.

Lemma respects_ret {A} (a : A) : respects (ret a).
Proof using R_refl. intros s b s' H. inv_run. apply R_refl. Qed.

Lemma respects_gets {A} (g : HullState.t -> A) : respects (gets g).
Proof using R_refl. intros s b s' H. inv_run. apply R_refl. Qed.

Lemma respects_raise {A} : respects (@raise A).
Proof using Type. intros s b s' H. inv_run. Qed.

Lemma respects_outOfFuel {A} : respects (@outOfFuel A).
Proof using Type. intros s b s' H. inv_run. Qed.

Lemma respects_orRaise {A} (o : option A) : respects (orRaise o).
Proof using R_refl. intros s b s' H. inv_run. apply R_refl. Qed.

Lemma respects_modify g : (forall s, R s (g s)) -> respects (modify g).
Proof using Type. intros Hg s b s' H. inv_run. apply Hg. Qed.

Lemma respects_getVertex v : respects (getVertex v).
Proof using R_refl. intros s b s' H. inv_get. apply R_refl. Qed.

Lemma respects_getFace v : respects (getFace v).
Proof using R_refl. intros s b s' H. inv_get. apply R_refl. Qed.

Lemma respects_getEdge v : respects (getEdge v).
Proof using R_refl. intros s b s' H. inv_get. apply R_refl. Qed.

Lemma respects_updVertex v g :
  (forall s nd, HullState.vertices s !! v = Some nd ->
     R s (HullState.set_vertices (<[v := g nd]> (HullState.vertices s)) s)) ->
  respects (updVertex v g).
Proof using Type.
  intros Hg s b s' H. unfold updVertex in H. inv_run. inv_get. eauto.
Qed.

Lemma respects_updEdge e g :
  (forall s ed, HullState.edgeStore s !! e = Some ed ->
     R s (HullState.set_edgeStore (<[e := g ed]> (HullState.edgeStore s)) s)) ->
  respects (updEdge e g).
Proof using Type.
  intros Hg s b s' H. unfold updEdge in H. inv_run. inv_get. eauto.
Qed.

Lemma respects_updFace f g :
  (forall s fc, HullState.faceStore s !! f = Some fc ->
     R s (HullState.set_faceStore (<[f := g fc]> (HullState.faceStore s)) s)) ->
  respects (updFace f g).
Proof using Type.
  intros Hg s b s' H. unfold updFace in H. inv_run. inv_get. eauto.
Qed.
End Respects.

(** Walks through a program; [leaf] settles the writes. *)
Ltac walk_by leaf :=
  repeat (intros;
    match goal with
    | |- respects _ (bind _ _) => apply respects_bind; [assumption| |]
    | |- respects _ (ret _) => apply respects_ret; assumption
    | |- respects _ (gets _) => apply respects_gets; assumption
    | |- respects _ raise => apply respects_raise
    | |- respects _ outOfFuel => apply respects_outOfFuel
    | |- respects _ (orRaise _) => apply respects_orRaise; assumption
    | |- respects _ (getVertex _) => apply respects_getVertex; assumption
    | |- respects _ (getFace _) => apply respects_getFace; assumption
    | |- respects _ (getEdge _) => apply respects_getEdge; assumption
    | |- respects _ (match ?x with _ => _ end) => destruct x
    | |- respects _ _ => solve [leaf]
    end).

(** ** The seed tetrahedron *)

Lemma sameButTwinsAndGeometry_refl s : sameButTwinsAndGeometry s s.
Proof. repeat split. Qed.

Lemma sameButTwinsAndGeometry_trans s1 s2 s3 :
  sameButTwinsAndGeometry s1 s2 -> sameButTwinsAndGeometry s2 s3 ->
  sameButTwinsAndGeometry s1 s3.
Proof.
  intros (A1 & A2 & A3 & A4 & A5 & A6 & A7) (B1 & B2 & B3 & B4 & B5 & B6 & B7).
  repeat split; congruence.
Qed.

Lemma map_insert_same {A B} (f : A -> B) (l : list A) i x y :
  l !! i = Some x -> f y = f x -> map f (<[i := y]> l) = map f l.
Proof.
  intros Hl Hf. rewrite list_fmap_insert, Hf. apply list_insert_id.
  rewrite list_lookup_fmap, Hl. reflexivity.
Qed.

Lemma faceShape_faceGeometry fc pa pb pc : faceShape (faceGeometry fc pa pb pc) = faceShape fc.
Proof.
  destruct pa as [[ax ay] az], pb as [[bx b_y] bz], pc as [[cx cy] cz].
  unfold faceGeometry.
  destruct (if (EPSILON <? _)%float then _ else _) as [[n0 n1] n2].
  reflexivity.
Qed.

Ltac seed_leaf :=
  first
    [ apply respects_updEdge; intros; repeat split;
      unfold edgeSkeleton; simpl; eapply map_insert_same; eauto
    | apply respects_updFace; intros; repeat split;
      unfold faceSkeleton; simpl; eapply map_insert_same; eauto using faceShape_faceGeometry ].

Ltac seed_walk :=
  pose proof sameButTwinsAndGeometry_refl as Hrefl;
  pose proof sameButTwinsAndGeometry_trans as Htrans;
  walk_by seed_leaf.

Lemma seed_halfEdgeSetTwin e t : respects sameButTwinsAndGeometry (halfEdgeSetTwin e t).
Proof. unfold halfEdgeSetTwin. seed_walk. Qed.

Lemma seed_walkNext i e : respects sameButTwinsAndGeometry (walkNext i e).
Proof. revert e. induction i; simpl; seed_walk; eauto. Qed.

Lemma seed_walkPrev i e : respects sameButTwinsAndGeometry (walkPrev i e).
Proof. revert e. induction i; simpl; seed_walk; eauto. Qed.

Lemma seed_faceGetEdge f i : respects sameButTwinsAndGeometry (faceGetEdge f i).
Proof.
  unfold faceGetEdge.
  pose proof seed_walkNext. pose proof seed_walkPrev. seed_walk; eauto.
Qed.

Lemma seed_twinEdges f1 i1 f2 i2 : respects sameButTwinsAndGeometry (twinEdges f1 i1 f2 i2).
Proof.
  unfold twinEdges.
  pose proof seed_faceGetEdge. pose proof seed_halfEdgeSetTwin. seed_walk; eauto.
Qed.

Lemma seed_twinOutward faces idxs : respects sameButTwinsAndGeometry (twinOutward faces idxs).
Proof. pose proof seed_twinEdges. induction idxs; simpl; seed_walk; eauto. Qed.

Lemma seed_twinInward faces idxs : respects sameButTwinsAndGeometry (twinInward faces idxs).
Proof. pose proof seed_twinEdges. induction idxs; simpl; seed_walk; eauto. Qed.

Lemma seed_faceCompute f : respects sameButTwinsAndGeometry (faceCompute f).
Proof.
  unfold faceCompute, halfEdgeTail, halfEdgeHead. seed_walk.
Qed.

Lemma length_faceStore_faceCreated a b c s :
  length (HullState.faceStore (faceCreated a b c s)) = S (length (HullState.faceStore s)).
Proof. unfold faceCreated. simpl. rewrite length_app. simpl. lia. Qed.

(** Four faces in a row, then their twins. *)
Lemma seed_build (R : HullState.t -> HullState.t -> Prop)
    (tw : list ref -> list nat -> M unit)
    a0 b0 c0 a1 b1 c1 a2 b2 c2 a3 b3 c3 s faces sT :
  (forall fs idxs, respects R (tw fs idxs)) ->
  (fa <- faceCreate a0 b0 c0 ;;
   fb <- faceCreate a1 b1 c1 ;;
   fc <- faceCreate a2 b2 c2 ;;
   fd <- faceCreate a3 b3 c3 ;;
   tw [fa; fb; fc; fd] [0; 1; 2] ;;
   ret [fa; fb; fc; fd]) s = Ok (faces, sT) ->
  let f := length (HullState.faceStore s) in
  faces = [f; S f; S (S f); S (S (S f))] /\
  R (faceCreated a3 b3 c3 (faceCreated a2 b2 c2 (faceCreated a1 b1 c1
       (faceCreated a0 b0 c0 s)))) sT.
Proof.
  intros Htw H.
  rewrite (bind_run _ _ _ _ _ (faceCreate_run _ _ _ _)) in H.
  rewrite (bind_run _ _ _ _ _ (faceCreate_run _ _ _ _)) in H.
  rewrite (bind_run _ _ _ _ _ (faceCreate_run _ _ _ _)) in H.
  rewrite (bind_run _ _ _ _ _ (faceCreate_run _ _ _ _)) in H.
  rewrite !length_faceStore_faceCreated in H.
  apply bind_Ok in H as (u & s1 & H1 & H2). apply ret_Ok in H2 as [<- <-].
  split; [reflexivity|]. eapply Htw; eauto.
Qed.

Lemma addFacesToHull_spec faces : forall s u s',
  addFacesToHull faces s = Ok (u, s') ->
  HullState.faces s' = HullState.faces s ++ faces /\
  edgeSkeleton s' = edgeSkeleton s /\
  faceSkeleton s' = faceSkeleton s /\
  HullState.vertices s' = HullState.vertices s /\
  HullState.assigned s' = HullState.assigned s /\
  HullState.points s' = HullState.points s /\
  HullState.tolerance s' = HullState.tolerance s.
Proof.
  induction faces as [|f rest IH]; intros s u s' H; simpl in H.
  - apply ret_Ok in H as [_ <-]. rewrite app_nil_r. repeat split.
  - apply bind_Ok in H as (u1 & s1 & H1 & H).
    apply bind_Ok in H as (u2 & s2 & H2 & H3). apply modify_Ok in H2. subst s2.
    apply seed_faceCompute in H1 as (A1 & A2 & A3 & A4 & A5 & A6 & A7).
    apply IH in H3 as (B1 & B2 & B3 & B4 & B5 & B6 & B7).
    unfold edgeSkeleton, faceSkeleton in *. simpl in *.
    rewrite B1, A7, <- app_assoc. repeat split; congruence.
Qed.

Lemma computeExtremes_inv s ex s1 :
  computeExtremes s = Ok (ex, s1) ->
  s1 = HullState.set_tolerance (toleranceOf (ex_min ex) (ex_max ex)) s.
Proof. unfold computeExtremes. intros H. inv_run. reflexivity. Qed.

(** [faceCompute] replaces the geometry of the face by that of its three
    corners and leaves the rest of the state alone. *)
Lemma faceCompute_inv f s u s' :
  faceCompute f s = Ok (u, s') ->
  exists fc a b c na nb nc pa pb pc,
    HullState.faceStore s !! f = Some fc /\
    cornersOf s f = Some (a, b, c) /\
    HullState.vertices s !! a = Some na /\
    HullState.vertices s !! b = Some nb /\
    HullState.vertices s !! c = Some nc /\
    point3 (HullState.points s) (VertexNode.index na * 3) = Some pa /\
    point3 (HullState.points s) (VertexNode.index nb * 3) = Some pb /\
    point3 (HullState.points s) (VertexNode.index nc * 3) = Some pc /\
    s' = HullState.set_faceStore (<[f := faceGeometry fc pa pb pc]> (HullState.faceStore s)) s.
Proof.
  unfold faceCompute, halfEdgeTail, halfEdgeHead. intros H.
  apply bind_Ok in H as (pts & s1 & H1 & H). apply gets_Ok in H1 as [<- <-].
  apply bind_Ok in H as (fc & s1 & H1 & H). apply getFace_Ok in H1 as [Hfc <-].
  apply bind_Ok in H as (e & s1 & H1 & H). apply orRaise_Ok in H1 as [He <-].
  apply bind_Ok in H as (ta & s1 & H1 & H).
  apply bind_Ok in H1 as (ed & s2 & H2 & H1). apply getEdge_Ok in H2 as [Hed <-].
  destruct (HalfEdge.prev ed) as [p|] eqn:Hp.
  2:{ apply ret_Ok in H1 as [<- <-].
      apply bind_Ok in H as (a & s1 & H1 & H). apply orRaise_Ok in H1 as [Hx _].
      discriminate. }
  apply bind_Ok in H1 as (pd & s2 & H2 & H1). apply getEdge_Ok in H2 as [Hpd <-].
  apply ret_Ok in H1 as [<- <-].
  apply bind_Ok in H as (a & s1 & H1 & H). apply orRaise_Ok in H1 as [Ha <-].
  injection Ha as <-.
  apply bind_Ok in H as (b & s1 & H1 & H).
  apply bind_Ok in H1 as (ed' & s2 & H2 & H1). apply getEdge_Ok in H2 as [Hed' <-].
  apply ret_Ok in H1 as [<- <-].
  rewrite Hed in Hed'. injection Hed' as <-.
  apply bind_Ok in H as (ed' & s1 & H1 & H). apply getEdge_Ok in H1 as [Hed' <-].
  rewrite Hed in Hed'. injection Hed' as <-.
  apply bind_Ok in H as (en & s1 & H1 & H). apply orRaise_Ok in H1 as [Hen <-].
  apply bind_Ok in H as (c & s1 & H1 & H).
  apply bind_Ok in H1 as (nd & s2 & H2 & H1). apply getEdge_Ok in H2 as [Hnd <-].
  apply ret_Ok in H1 as [<- <-].
  apply bind_Ok in H as (na & s1 & H1 & H). apply getVertex_Ok in H1 as [Hna <-].
  apply bind_Ok in H as (nb & s1 & H1 & H). apply getVertex_Ok in H1 as [Hnb <-].
  apply bind_Ok in H as (nc & s1 & H1 & H). apply getVertex_Ok in H1 as [Hnc <-].
  apply bind_Ok in H as (pa & s1 & H1 & H). apply orRaise_Ok in H1 as [Hpa <-].
  apply bind_Ok in H as (pb & s1 & H1 & H). apply orRaise_Ok in H1 as [Hpb <-].
  apply bind_Ok in H as (pc & s1 & H1 & H). apply orRaise_Ok in H1 as [Hpc <-].
  unfold updFace in H.
  apply bind_Ok in H as (fc' & s1 & H1 & H). apply getFace_Ok in H1 as [Hfc' <-].
  rewrite Hfc in Hfc'. injection Hfc' as <-.
  apply modify_Ok in H. subst s'.
  exists fc, (HalfEdge.vertex pd), (HalfEdge.vertex ed), (HalfEdge.vertex nd),
    na, nb, nc, pa, pb, pc.
  repeat split; auto.
  unfold cornersOf. rewrite Hfc. simpl. rewrite He. simpl. rewrite Hed. simpl.
  rewrite Hp. simpl. rewrite Hpd. simpl. rewrite Hen. simpl. rewrite Hnd. reflexivity.
Qed.

(** Wiring twins does not touch the faces. *)
Lemma faceStore_halfEdgeSetTwin e t : preserves HullState.faceStore (halfEdgeSetTwin e t).
Proof.
  unfold halfEdgeSetTwin. keeps_by ltac:(apply preserves_updEdge; reflexivity).
Qed.

Lemma faceStore_walkNext i e : preserves HullState.faceStore (walkNext i e).
Proof. revert e. induction i; simpl; keeps_by ltac:(apply IHi). Qed.

Lemma faceStore_walkPrev i e : preserves HullState.faceStore (walkPrev i e).
Proof. revert e. induction i; simpl; keeps_by ltac:(apply IHi). Qed.

Lemma faceStore_faceGetEdge f i : preserves HullState.faceStore (faceGetEdge f i).
Proof.
  unfold faceGetEdge.
  keeps_by ltac:(first [apply faceStore_walkNext | apply faceStore_walkPrev]).
Qed.

Lemma faceStore_twinEdges f1 i1 f2 i2 : preserves HullState.faceStore (twinEdges f1 i1 f2 i2).
Proof.
  unfold twinEdges.
  keeps_by ltac:(first [apply faceStore_faceGetEdge | apply faceStore_halfEdgeSetTwin]).
Qed.

Lemma faceStore_twinOutward faces idxs : preserves HullState.faceStore (twinOutward faces idxs).
Proof.
  induction idxs; simpl; keeps_by ltac:(first [apply faceStore_twinEdges | apply IHidxs]).
Qed.

Lemma faceStore_twinInward faces idxs : preserves HullState.faceStore (twinInward faces idxs).
Proof.
  induction idxs; simpl; keeps_by ltac:(first [apply faceStore_twinEdges | apply IHidxs]).
Qed.

(** The corners depend on the shape of the mesh only. *)
Lemma cornersOf_shape s s' f :
  edgeSkeleton s' = edgeSkeleton s -> faceSkeleton s' = faceSkeleton s ->
  cornersOf s' f = cornersOf s f.
Proof.
  unfold edgeSkeleton, faceSkeleton, cornersOf. intros He Hf.
  assert (Hfl : faceShape <$> HullState.faceStore s' !! f = faceShape <$> HullState.faceStore s !! f).
  { rewrite <- !list_lookup_fmap. f_equal. exact Hf. }
  assert (Hel : forall e, edgeShape <$> HullState.edgeStore s' !! e
                        = edgeShape <$> HullState.edgeStore s !! e).
  { intros e. rewrite <- !list_lookup_fmap. f_equal. exact He. }
  destruct (HullState.faceStore s' !! f) as [fc'|], (HullState.faceStore s !! f) as [fc|];
    try discriminate; [|reflexivity].
  simpl in *. injection Hfl as _ Hedge _. rewrite Hedge.
  destruct (Face.edge fc) as [e|]; [|reflexivity]. simpl.
  pose proof (Hel e) as H0.
  destruct (HullState.edgeStore s' !! e) as [ed'|], (HullState.edgeStore s !! e) as [ed|];
    try discriminate; [|reflexivity].
  simpl in *. injection H0 as Hv Hp Hn _. rewrite Hv, Hp, Hn.
  destruct (HalfEdge.prev ed) as [p|]; [|reflexivity]. simpl.
  pose proof (Hel p) as H1.
  destruct (HullState.edgeStore s' !! p) as [pd'|], (HullState.edgeStore s !! p) as [pd|];
    try discriminate; [|reflexivity].
  simpl in *. injection H1 as Hpv _ _ _. rewrite Hpv.
  destruct (HalfEdge.next ed) as [n|]; [|reflexivity]. simpl.
  pose proof (Hel n) as H2.
  destruct (HullState.edgeStore s' !! n) as [nd'|], (HullState.edgeStore s !! n) as [nd|];
    try discriminate; [|reflexivity].
  simpl in *. injection H2 as Hnv _ _ _. rewrite Hnv. reflexivity.
Qed.

Lemma addFacesToHull_corners faces : forall s u s',
  addFacesToHull faces s = Ok (u, s') -> NoDup faces ->
  (forall f, f ∉ faces -> HullState.faceStore s' !! f = HullState.faceStore s !! f) /\
  Forall (computedFrom s s') faces.
Proof.
  induction faces as [|f rest IH]; intros s u s' H Hnd; simpl in H.
  - apply ret_Ok in H as [_ <-]. split; [reflexivity|constructor].
  - apply bind_Ok in H as (u1 & s1 & H1 & H).
    apply bind_Ok in H as (u2 & s2 & H2 & H3). apply modify_Ok in H2. subst s2.
    apply NoDup_cons in Hnd as [Hf Hnd].
    pose proof (seed_faceCompute _ _ _ _ H1) as (A1 & A2 & A3 & A4 & A5 & A6 & A7).
    apply faceCompute_inv in H1
      as (fc & a & b & c & na & nb & nc & pa & pb & pc &
          Hfc & Hc & Hna & Hnb & Hnc & Hpa & Hpb & Hpc & Hs1).
    apply IH in H3 as [Hout Hall]; [|exact Hnd]. simpl in Hout.
    assert (Hkeep : forall g, g <> f ->
               HullState.faceStore s1 !! g = HullState.faceStore s !! g).
    { intros g Hg. subst s1. simpl. apply list_lookup_insert_ne. congruence. }
    split.
    + intros g Hg. rewrite not_elem_of_cons in Hg. destruct Hg as [Hgf Hgr].
      rewrite Hout by exact Hgr. apply Hkeep, Hgf.
    + constructor.
      * exists fc, a, b, c, na, nb, nc, pa, pb, pc. repeat split; auto.
        rewrite Hout by exact Hf. subst s1. simpl.
        apply list_lookup_insert_eq. eapply lookup_lt_Some; eauto.
      * rewrite Forall_forall in Hall |- *. intros g Hg.
        destruct (Hall g Hg)
          as (gc & a' & b' & c' & na' & nb' & nc' & pa' & pb' & pc' &
              Hgc & Hc' & Hna' & Hnb' & Hnc' & Hpa' & Hpb' & Hpc' & Hs').
        assert (Hgf : g <> f) by (intros ->; contradiction).
        exists gc, a', b', c', na', nb', nc', pa', pb', pc'.
        simpl in *.
        rewrite (Hkeep g Hgf) in Hgc.
        rewrite (cornersOf_shape s _ g) in Hc'
          by (unfold edgeSkeleton, faceSkeleton; simpl; assumption).
        rewrite A3 in Hna', Hnb', Hnc'. rewrite A5 in Hpa', Hpb', Hpc'.
        repeat split; auto.
Qed.

Lemma seedVertices_index points v nd :
  seedVertices points !! v = Some nd ->
  nd = createVertexNode v /\ v < vertexCount (length points).
Proof.
  unfold seedVertices. rewrite list_lookup_fmap. intros H.
  destruct (seq 0 (vertexCount (length points)) !! v) as [i|] eqn:Hi; [|discriminate].
  apply lookup_seq in Hi as [-> Hlt]. simpl in H. injection H as <-. auto.
Qed.

(** Four fresh faces in empty arenas. *)
Lemma fourFaces_shape a0 b0 c0 a1 b1 c1 a2 b2 c2 a3 b3 c3 s :
  HullState.faceStore s = [] -> HullState.edgeStore s = [] ->
  let sF := faceCreated a3 b3 c3 (faceCreated a2 b2 c2 (faceCreated a1 b1 c1
              (faceCreated a0 b0 c0 s))) in
  edgeSkeleton sF = trianglesShape 0 [(a0, b0, c0); (a1, b1, c1); (a2, b2, c2); (a3, b3, c3)] /\
  HullState.faceStore sF =
    [ Face.set_edge (Some 0) createFace; Face.set_edge (Some 3) createFace;
      Face.set_edge (Some 6) createFace; Face.set_edge (Some 9) createFace ] /\
  cornersOf sF 0 = Some (c0, a0, b0) /\ cornersOf sF 1 = Some (c1, a1, b1) /\
  cornersOf sF 2 = Some (c2, a2, b2) /\ cornersOf sF 3 = Some (c3, a3, b3) /\
  HullState.vertices sF = HullState.vertices s /\
  HullState.assigned sF = HullState.assigned s /\
  HullState.points sF = HullState.points s /\
  HullState.tolerance sF = HullState.tolerance s /\
  HullState.faces sF = HullState.faces s.
Proof.
  destruct s as [pts tol fs nfs asg un vs fst est]. simpl. intros -> ->.
  repeat split.
Qed.

Lemma computedFrom_facePlane sT sB k base a b c points :
  computedFrom sT sB k ->
  HullState.faceStore sT !! k = Some base ->
  cornersOf sT k = Some (c, a, b) ->
  HullState.vertices sT = seedVertices points ->
  HullState.points sT = points ->
  (exists fc, facePlane base points (a, b, c) = Some fc /\
              HullState.faceStore sB !! k = Some fc) /\
  a < vertexCount (length points) /\
  b < vertexCount (length points) /\
  c < vertexCount (length points).
Proof.
  intros (fc & a' & b' & c' & na & nb & nc & pa & pb & pc &
          Hfc & Hc & Hna & Hnb & Hnc & Hpa & Hpb & Hpc & Hs') Hbase Hcor Hvs Hpts.
  rewrite Hbase in Hfc. injection Hfc as <-.
  rewrite Hcor in Hc. injection Hc as <- <- <-.
  rewrite Hvs in Hna, Hnb, Hnc.
  apply seedVertices_index in Hna as [-> Hc'].
  apply seedVertices_index in Hnb as [-> Ha'].
  apply seedVertices_index in Hnc as [-> Hb'].
  rewrite Hpts in Hpa, Hpb, Hpc. simpl in Hpa, Hpb, Hpc.
  repeat split; auto.
  exists (faceGeometry base pa pb pc). split; [|exact Hs'].
  unfold facePlane. rewrite Hpa. simpl. rewrite Hpb. simpl. rewrite Hpc. reflexivity.
Qed.

(** The seed hull in full: shape, geometry and bookkeeping of the state
    in which the remaining vertices are assigned. *)
Lemma seed_faces_built (tw : list ref -> list nat -> M unit)
    a0 b0 c0 a1 b1 c1 a2 b2 c2 a3 b3 c3 points s faces sT u sB :
  HullState.faceStore s = [] -> HullState.edgeStore s = [] -> HullState.faces s = [] ->
  HullState.vertices s = seedVertices points -> HullState.points s = points ->
  (forall fs idxs, respects sameButTwinsAndGeometry (tw fs idxs)) ->
  (forall fs idxs, preserves HullState.faceStore (tw fs idxs)) ->
  (fa <- faceCreate a0 b0 c0 ;;
   fb <- faceCreate a1 b1 c1 ;;
   fc <- faceCreate a2 b2 c2 ;;
   fd <- faceCreate a3 b3 c3 ;;
   tw [fa; fb; fc; fd] [0; 1; 2] ;;
   ret [fa; fb; fc; fd]) s = Ok (faces, sT) ->
  addFacesToHull faces sT = Ok (u, sB) ->
  let ts := [(a0, b0, c0); (a1, b1, c1); (a2, b2, c2); (a3, b3, c3)] in
  edgeSkeleton sB = trianglesShape 0 ts /\
  faceSkeleton sB = [ (VISIBLE, Some 0, None); (VISIBLE, Some 3, None);
                      (VISIBLE, Some 6, None); (VISIBLE, Some 9, None) ] /\
  HullState.vertices sB = seedVertices points /\
  HullState.assigned sB = HullState.assigned s /\
  HullState.points sB = points /\
  HullState.tolerance sB = HullState.tolerance s /\
  HullState.faces sB = [0; 1; 2; 3] /\
  (forall k t, ts !! k = Some t ->
     exists fc, facePlane (Face.set_edge (Some (3 * k)) createFace) points t = Some fc /\
                HullState.faceStore sB !! k = Some fc) /\
  (forall v, v ∈ triangleList ts -> v < vertexCount (length points)).
Proof.
  intros Hfs Hes Hfaces Hvs Hpts Htw Htw' Hbuild Hadd ts.
  apply (seed_build (fun x y => sameButTwinsAndGeometry x y /\
                                HullState.faceStore y = HullState.faceStore x))
    in Hbuild as [Hf [(A1 & A2 & A3 & A4 & A5 & A6 & A7) AF]].
  2:{ intros fs idxs x r y Hrun. split; [eapply Htw | eapply Htw']; eauto. }
  rewrite Hfs in Hf. simpl in Hf. subst faces.
  destruct (fourFaces_shape a0 b0 c0 a1 b1 c1 a2 b2 c2 a3 b3 c3 s Hfs Hes)
    as (F1 & F2 & C0 & C1 & C2 & C3 & F3 & F4 & F5 & F6 & F7).
  set (sF := faceCreated _ _ _ _) in *.
  pose proof (addFacesToHull_spec _ _ _ _ Hadd) as (B1 & B2 & B3 & B4 & B5 & B6 & B7).
  assert (Hnd : NoDup [0; 1; 2; 3]) by (repeat constructor; rewrite ?elem_of_cons, ?elem_of_nil; lia).
  pose proof (addFacesToHull_corners _ _ _ _ Hadd Hnd) as [_ Hall].
  assert (HvT : HullState.vertices sT = seedVertices points) by congruence.
  assert (HpT : HullState.points sT = points) by congruence.
  assert (Hcor : forall k, cornersOf sT k = cornersOf sF k)
    by (intros k; apply cornersOf_shape; assumption).
  rewrite !Forall_cons in Hall. destruct Hall as (G0 & G1 & G2 & G3 & _).
  eapply computedFrom_facePlane in G0 as (P0 & ? & ? & ?);
    [| rewrite AF, F2; reflexivity | rewrite Hcor; exact C0 | exact HvT | exact HpT].
  eapply computedFrom_facePlane in G1 as (P1 & ? & ? & ?);
    [| rewrite AF, F2; reflexivity | rewrite Hcor; exact C1 | exact HvT | exact HpT].
  eapply computedFrom_facePlane in G2 as (P2 & ? & ? & ?);
    [| rewrite AF, F2; reflexivity | rewrite Hcor; exact C2 | exact HvT | exact HpT].
  eapply computedFrom_facePlane in G3 as (P3 & ? & ? & ?);
    [| rewrite AF, F2; reflexivity | rewrite Hcor; exact C3 | exact HvT | exact HpT].
  repeat split.
  - rewrite B2, A1. exact F1.
  - rewrite B3, A2. unfold faceSkeleton. rewrite F2. reflexivity.
  - congruence.
  - congruence.
  - congruence.
  - congruence.
  - rewrite B1, A7, F7, Hfaces. reflexivity.
  - intros k t Hk.
    destruct k as [|[|[|[|k]]]]; simpl in Hk; try discriminate;
      injection Hk as <-; assumption.
  - intros v Hv. unfold ts, triangleList in Hv. simpl in Hv.
    rewrite !elem_of_cons in Hv. rewrite elem_of_nil in Hv.
    intuition (subst; assumption).
Qed.

(** When [computeInitialHull] finds its four seed vertices, the state
    [sB] in which the remaining vertices are assigned holds exactly the
    four faces of the tetrahedron, all VISIBLE, with empty outside lists
    and the geometry of their corners, and nothing else was touched. *)
Lemma computeInitialHull_inv points s0 :
  computeInitialHull (createHullState points) = Ok (tt, s0) ->
  (exists ex, s0 = HullState.set_tolerance (toleranceOf (ex_min ex) (ex_max ex))
                     (createHullState points)) \/
  (exists v0 v1 v2 v3 ts sB,
      (ts = seedOutward v0 v1 v2 v3 \/ ts = seedInward v0 v1 v2 v3) /\
      edgeSkeleton sB = trianglesShape 0 ts /\
      faceSkeleton sB = [ (VISIBLE, Some 0, None); (VISIBLE, Some 3, None);
                          (VISIBLE, Some 6, None); (VISIBLE, Some 9, None) ] /\
      HullState.vertices sB = seedVertices points /\
      HullState.assigned sB = createVertexList /\
      HullState.points sB = points /\
      HullState.faces sB = [0; 1; 2; 3] /\
      (forall k t, ts !! k = Some t ->
         exists fc, facePlane (Face.set_edge (Some (3 * k)) createFace) points t = Some fc /\
                    HullState.faceStore sB !! k = Some fc) /\
      (forall v, v ∈ triangleList ts -> v < vertexCount (length points)) /\
      assignRemaining v0 v1 v2 v3 (seq 0 (vertexCount (length points))) sB = Ok (tt, s0)).
Proof.
  unfold computeInitialHull. intros H.
  apply bind_Ok in H as (ex & s1 & Hex & H).
  apply computeExtremes_inv in Hex. subst s1.
  set (s1 := HullState.set_tolerance _ _) in *.
  apply bind_Ok in H as (pts & s2 & H1 & H). apply gets_Ok in H1 as [<- <-].
  apply bind_Ok in H as (vs & s2 & H1 & H). apply gets_Ok in H1 as [<- <-].
  apply bind_Ok in H as (index & s2 & H1 & H). apply orRaise_Ok in H1 as [Hsep <-].
  apply bind_Ok in H as (ov2 & s2 & H1 & H). apply orRaise_Ok in H1 as [Hv2 <-].
  destruct ov2 as [v2|]; [|apply ret_Ok in H as [_ <-]; left; eauto].
  apply bind_Ok in H as (n0 & s2 & H1 & H). apply getVertex_Ok in H1 as [Hn0 <-].
  apply bind_Ok in H as (n1 & s2 & H1 & H). apply getVertex_Ok in H1 as [Hn1 <-].
  apply bind_Ok in H as (n2 & s2 & H1 & H). apply getVertex_Ok in H1 as [Hn2 <-].
  apply bind_Ok in H as ([normal offset] & s2 & H1 & H).
  apply orRaise_Ok in H1 as [Hplane <-].
  apply bind_Ok in H as (ov3 & s2 & H1 & H). apply orRaise_Ok in H1 as [Hv3 <-].
  destruct ov3 as [v3|]; [|apply ret_Ok in H as [_ <-]; left; eauto].
  apply bind_Ok in H as (n3 & s2 & H1 & H). apply getVertex_Ok in H1 as [Hn3 <-].
  apply bind_Ok in H as (d3 & s2 & H1 & H). apply orRaise_Ok in H1 as [Hd3 <-].
  apply bind_Ok in H as (faces & sT & Hbuild & H).
  apply bind_Ok in H as (u & sB & Hadd & Hassign).
  right.
  set (v0 := get3 index (minVertices ex)) in *.
  set (v1 := get3 index (maxVertices ex)) in *.
  unfold s1 in Hassign. simpl in Hassign. fold (seedVertices points) in Hassign.
  rewrite length_seedVertices in Hassign. destruct u.
  destruct (d3 <? 0)%float.
  - exists v0, v1, v2, v3, (seedOutward v0 v1 v2 v3), sB.
    split; [left; reflexivity|].
    eapply (seed_faces_built twinOutward) with (points := points) in Hbuild
      as (B1 & B2 & B3 & B4 & B5 & B6 & B7 & B8 & B9);
      [| reflexivity | reflexivity | reflexivity | reflexivity | reflexivity
       | apply seed_twinOutward | apply faceStore_twinOutward | exact Hadd].
    repeat split; auto.
  - exists v0, v1, v2, v3, (seedInward v0 v1 v2 v3), sB.
    split; [right; reflexivity|].
    eapply (seed_faces_built twinInward) with (points := points) in Hbuild
      as (B1 & B2 & B3 & B4 & B5 & B6 & B7 & B8 & B9);
      [| reflexivity | reflexivity | reflexivity | reflexivity | reflexivity
       | apply seed_twinInward | apply faceStore_twinInward | exact Hadd].
    repeat split; auto.
Qed.

Lemma skeleton_face s f m e o :
  faceSkeleton s !! f = Some (m, e, o) ->
  exists fc, HullState.faceStore s !! f = Some fc /\
             Face.mark fc = m /\ Face.edge fc = e /\ Face.outside fc = o.
Proof.
  unfold faceSkeleton. rewrite list_lookup_fmap. intros H.
  destruct (HullState.faceStore s !! f) as [fc|]; [|discriminate].
  injection H as <- <- <-. eauto.
Qed.

Lemma skeleton_edge s e v p n f :
  edgeSkeleton s !! e = Some (v, p, n, f) ->
  exists ed, HullState.edgeStore s !! e = Some ed /\
             HalfEdge.vertex ed = v /\ HalfEdge.prev ed = p /\
             HalfEdge.next ed = n /\ HalfEdge.face ed = f.
Proof.
  unfold edgeSkeleton. rewrite list_lookup_fmap. intros H.
  destruct (HullState.edgeStore s !! e) as [ed|]; [|discriminate].
  injection H as <- <- <- <-. exists ed. auto.
Qed.

Lemma getFace_run s f fc :
  HullState.faceStore s !! f = Some fc -> getFace f s = Ok (fc, s).
Proof. unfold getFace, bind, gets. intros ->. reflexivity. Qed.

Lemma getEdge_run s e ed :
  HullState.edgeStore s !! e = Some ed -> getEdge e s = Ok (ed, s).
Proof. unfold getEdge, bind, gets. intros ->. reflexivity. Qed.

(** ** The output and the check of the test suite (C1) *)

(** The check of the test suite accepts the hull of the cube. *)
Example isConvexHull_cube :
  exists r, quickhull3 100 cube = Ok r /\ length r = 36 /\ isConvexHull cube r = Some true.
Proof. eexists. split; [vm_compute; reflexivity|]. split; vm_compute; reflexivity. Qed.

(** C1. The code does not keep this promise.  On [leverInput] the output
    has the triangle (4, 1, 0), and input point 3, which is not one of
    its vertices, lies more than 24253 above its plane, whether the plane
    is the one the hull stores for the face or the one the test suite
    computes from the triangle's corners; the tolerance of the run is
    below 1e-9, and the check of the test suite ([isConvexHull]) answers
    false for this output.  Vertex 4 is inserted because it is above the
    tolerance over one face, the neighbouring face over which it is
    within the tolerance is kept, and the new face along their common
    edge tilts over the kept face. *)
Lemma lever_point_outside_output_face :
  quickhull3 100 leverInput = Ok [3; 0; 1; 3; 1; 2; 3; 2; 0; 4; 1; 0; 4; 0; 2; 4; 2; 1] /\
  isConvexHull leverInput [3; 0; 1; 3; 1; 2; 3; 2; 0; 4; 1; 0; 4; 0; 2; 4; 2; 1]
    = Some false /\
  (exists fc d,
      storedPlane leverInput (4, 1, 0) = Some fc /\
      faceDistanceToPoint fc leverInput 3 = Some d /\
      (24253 <? d)%float = true) /\
  (exists s d,
      finalState 100 leverInput = Some s /\
      4 ∈ HullState.faces s /\
      distanceTo s 4 3 = Some d /\
      (HullState.tolerance s <? 1e-9)%float = true /\
      (24253 <? d)%float = true) /\
  (exists len d,
      oracleDistance leverInput (4, 1, 0) 3 = Some (len, d) /\
      (TEST_EPS <? len)%float = true /\
      (24253 <? d)%float = true).
Proof.
  split; [vm_compute; reflexivity|]. split; [vm_compute; reflexivity|].
  split; [|split].
  - eexists _, _. split; [vm_compute; reflexivity|].
    split; [vm_compute; reflexivity|]. vm_compute. reflexivity.
  - destruct (finalState 100 leverInput) as [s|] eqn:E;
      [|vm_compute in E; discriminate E].
    vm_compute in E. injection E as <-.
    eexists _, _. split; [reflexivity|].
    split; [cbn [HullState.faces]; rewrite !elem_of_cons; auto 10|].
    split; [vm_compute; reflexivity|].
    split; vm_compute; reflexivity.
  - eexists _, _. split; [vm_compute; reflexivity|].
    split; vm_compute; reflexivity.
Qed.

(** ** The half-edge mesh (C7) *)

Lemma sameMesh_refl s : sameMesh s s.
Proof. repeat split. Qed.

Lemma sameMesh_trans s1 s2 s3 : sameMesh s1 s2 -> sameMesh s2 s3 -> sameMesh s1 s3.
Proof. intros (A1 & A2 & A3 & A4) (B1 & B2 & B3 & B4). repeat split; congruence. Qed.

Create HintDb mesh.

Ltac mesh_leaf :=
  first
    [ apply respects_updVertex; intros; repeat split
    | apply respects_updFace; intros; repeat split; simpl;
      eapply map_insert_same; eauto
    | apply respects_modify; intros ?;
      try (match goal with |- context [HullState.setList ?w _ _] => destruct w end);
      repeat split
    | solve [eauto with mesh] ].

Ltac mesh_walk :=
  pose proof sameMesh_refl as Hrefl;
  pose proof sameMesh_trans as Htrans;
  walk_by mesh_leaf.

Lemma mesh_vertexListClear w : respects sameMesh (vertexListClear w).
Proof. unfold vertexListClear. mesh_walk. Qed.
Lemma mesh_vertexListAppend w v : respects sameMesh (vertexListAppend w v).
Proof. unfold vertexListAppend, getList, setHead, setTail. mesh_walk. Qed.
Lemma mesh_findEndOfChain fuel v : respects sameMesh (findEndOfChain fuel v).
Proof. revert v. induction fuel; simpl; mesh_walk. Qed.
#[local] Hint Resolve mesh_vertexListClear mesh_vertexListAppend mesh_findEndOfChain : mesh.
Lemma mesh_vertexListAppendChain fuel w v : respects sameMesh (vertexListAppendChain fuel w v).
Proof. unfold vertexListAppendChain, getList, setHead, setTail. mesh_walk. Qed.
Lemma mesh_vertexListInsertBefore w t v : respects sameMesh (vertexListInsertBefore w t v).
Proof. unfold vertexListInsertBefore, setHead, setTail. mesh_walk. Qed.
Lemma mesh_vertexListRemove w v : respects sameMesh (vertexListRemove w v).
Proof. unfold vertexListRemove, setHead, setTail. mesh_walk. Qed.
Lemma mesh_vertexListRemoveSubList w a b : respects sameMesh (vertexListRemoveSubList w a b).
Proof. unfold vertexListRemoveSubList, setHead, setTail. mesh_walk. Qed.
#[local] Hint Resolve mesh_vertexListAppendChain mesh_vertexListInsertBefore
  mesh_vertexListRemove mesh_vertexListRemoveSubList : mesh.
Lemma mesh_addVertexToFace v f : respects sameMesh (addVertexToFace v f).
Proof. unfold addVertexToFace. mesh_walk. Qed.
Lemma mesh_removeVertexFromFace v f : respects sameMesh (removeVertexFromFace v f).
Proof. unfold removeVertexFromFace. mesh_walk. Qed.
Lemma mesh_findRunEnd fuel f v : respects sameMesh (findRunEnd fuel f v).
Proof. revert v. induction fuel; simpl; mesh_walk. Qed.
#[local] Hint Resolve mesh_addVertexToFace mesh_removeVertexFromFace mesh_findRunEnd : mesh.
Lemma mesh_removeAllVerticesFromFace fuel f :
  respects sameMesh (removeAllVerticesFromFace fuel f).
Proof. unfold removeAllVerticesFromFace. mesh_walk. Qed.
Lemma mesh_absorbVertex af v : respects sameMesh (absorbVertex af v).
Proof. unfold absorbVertex. mesh_walk. Qed.
#[local] Hint Resolve mesh_removeAllVerticesFromFace mesh_absorbVertex : mesh.
Lemma mesh_absorbLoop fuel af v : respects sameMesh (absorbLoop fuel af v).
Proof. revert v. induction fuel; destruct v; simpl; mesh_walk. Qed.
#[local] Hint Resolve mesh_absorbLoop : mesh.
Lemma mesh_deleteFaceVertices fuel f af : respects sameMesh (deleteFaceVertices fuel f af).
Proof. unfold deleteFaceVertices. mesh_walk. Qed.
Lemma mesh_scanNewFaces vi faces d mf : respects sameMesh (scanNewFaces vi faces d mf).
Proof. revert d mf. induction faces; simpl; mesh_walk. Qed.
#[local] Hint Resolve mesh_deleteFaceVertices mesh_scanNewFaces : mesh.
Lemma mesh_resolveVertex nf v : respects sameMesh (resolveVertex nf v).
Proof. unfold resolveVertex. mesh_walk. Qed.
#[local] Hint Resolve mesh_resolveVertex : mesh.
Lemma mesh_resolveLoop fuel nf v : respects sameMesh (resolveLoop fuel nf v).
Proof. revert v. induction fuel; destruct v; simpl; mesh_walk. Qed.
#[local] Hint Resolve mesh_resolveLoop : mesh.
Lemma mesh_resolveUnassignedPoints fuel nf :
  respects sameMesh (resolveUnassignedPoints fuel nf).
Proof. unfold resolveUnassignedPoints. mesh_walk. Qed.

Lemma marksDrop_refl s : marksDrop s s.
Proof. repeat split. auto. Qed.

Lemma marksDrop_trans s1 s2 s3 : marksDrop s1 s2 -> marksDrop s2 s3 -> marksDrop s1 s3.
Proof.
  intros (A1 & A2 & A3 & A4 & A5) (B1 & B2 & B3 & B4 & B5).
  repeat split; try congruence. auto.
Qed.

Lemma map_lookup_eq {A B} (f : A -> B) (l l' : list A) i :
  map f l' = map f l -> f <$> l' !! i = f <$> l !! i.
Proof. intros H. rewrite <- !list_lookup_fmap. f_equal. exact H. Qed.

Lemma sameMesh_isVisible s s' f : sameMesh s s' -> isVisible s' f = isVisible s f.
Proof.
  intros (_ & H & _). apply (map_lookup_eq _ _ _ f) in H. unfold isVisible.
  destruct (HullState.faceStore s' !! f) as [fc'|], (HullState.faceStore s !! f) as [fc|];
    try discriminate; [|reflexivity].
  simpl in H. injection H as -> _ _ _. reflexivity.
Qed.

Lemma sameMesh_marksDrop s s' : sameMesh s s' -> marksDrop s s'.
Proof.
  intros H. assert (Hv : forall f, isVisible s' f = isVisible s f)
    by (intros f; apply sameMesh_isVisible, H).
  destruct H as (A1 & A2 & A3 & A4). repeat split; auto.
  - apply (f_equal (map (fun c : nat * option ref * Vec3 * float =>
                           let '(_, e, n, c) := c in (e, n, c)))) in A2.
    rewrite !map_map in A2. exact A2.
  - intros f. rewrite Hv. auto.
Qed.

Lemma marksDrop_seesEye s s' eye f : marksDrop s s' -> seesEye s' eye f = seesEye s eye f.
Proof.
  intros (_ & H & Hp & Ht & _). apply (map_lookup_eq _ _ _ f) in H.
  unfold seesEye, distanceTo. rewrite Hp, Ht.
  destruct (HullState.faceStore s' !! f) as [fc'|], (HullState.faceStore s !! f) as [fc|];
    try discriminate; [|reflexivity].
  simpl in H. injection H as _ Hn Hc. simpl.
  unfold faceDistanceToPoint.
  destruct (point3 _ _) as [[[x y] z]|]; [|reflexivity]. simpl.
  unfold planeOf. rewrite Hn, Hc. reflexivity.
Qed.

Lemma marksDrop_meshShape s s' : marksDrop s s' -> meshShape s -> meshShape s'.
Proof.
  intros (He & Hf & _) (S1 & S2 & S3). unfold meshShape. rewrite He.
  split; [|split].
  - rewrite S1. f_equal. apply (f_equal length) in Hf.
    rewrite !length_map in Hf. congruence.
  - intros f fc' Hfc'. apply (map_lookup_eq _ _ _ f) in Hf. rewrite Hfc' in Hf.
    destruct (HullState.faceStore s !! f) as [fc|] eqn:Hfc; [|discriminate].
    simpl in Hf. injection Hf as -> _ _. eauto.
  - exact S3.
Qed.

Lemma sameMesh_twinsLinked s s' : sameMesh s s' -> twinsLinked s -> twinsLinked s'.
Proof.
  intros H HT e ed Hed Hvis.
  assert (Hv : forall f, isVisible s' f = isVisible s f)
    by (intros f; apply sameMesh_isVisible, H).
  destruct H as (He & _). rewrite He in Hed. rewrite Hv in Hvis.
  destruct (HT e ed Hed Hvis) as (t & td & H1 & H2 & H3 & H4).
  exists t, td. rewrite He, Hv. auto.
Qed.

Lemma meshShape_edge s e ed :
  meshShape s -> HullState.edgeStore s !! e = Some ed ->
  exists j, j < 3 /\ e = 3 * HalfEdge.face ed + j /\
    HalfEdge.next ed = Some (3 * HalfEdge.face ed + (j + 1) mod 3) /\
    HalfEdge.prev ed = Some (3 * HalfEdge.face ed + (j + 2) mod 3).
Proof.
  intros (_ & _ & S3) He.
  assert (E : e = 3 * (e / 3) + e mod 3) by apply Nat.div_mod_eq.
  assert (Hlt : e mod 3 < 3) by (apply Nat.mod_upper_bound; lia).
  rewrite E in He. destruct (S3 _ _ _ Hlt He) as (-> & Hn & Hp).
  exists (e mod 3). auto.
Qed.

Lemma meshShape_face s f j ed :
  meshShape s -> j < 3 -> HullState.edgeStore s !! (3 * f + j) = Some ed ->
  HalfEdge.face ed = f.
Proof. intros (_ & _ & S3) Hj He. apply (S3 _ _ _ Hj He). Qed.

Lemma examined_later s1 s' new1 new2 e :
  marksDrop s1 s' -> examined s1 new1 e -> examined s' (new1 ++ new2) e.
Proof.
  intros (He & _ & _ & _ & Hv) (ed & t & td & H1 & H2 & H3 & H4).
  exists ed, t, td. rewrite He. repeat split; auto.
  destruct H4 as [H4|H4].
  - left. destruct (isVisible s' (HalfEdge.face td)) eqn:E; [|reflexivity].
    apply Hv in E. congruence.
  - right. apply elem_of_app. auto.
Qed.

Lemma examined_more s new1 new2 e : examined s new2 e -> examined s (new1 ++ new2) e.
Proof.
  intros (ed & t & td & H1 & H2 & H3 & H4). exists ed, t, td. repeat split; auto.
  destruct H4 as [H4|H4]; [left; exact H4|right; apply elem_of_app; auto].
Qed.

Lemma sweep_app s s1 s' eye own1 own2 own root1 root new1 new2 :
  sweep s s1 eye own1 root1 new1 ->
  sweep s1 s' eye own2 (fun _ => False) new2 ->
  (forall h, h ∈ new1 -> own2 h -> False) ->
  (forall h, h ∈ new1 -> own1 h -> own h \/ onVisibleFace s h) ->
  (forall h, own2 h -> own h) ->
  (forall g, root1 g -> root g \/ seesEye s eye g = true) ->
  sweep s s' eye own root (new1 ++ new2).
Proof.
  intros (D1 & N1 & P1 & C1) (D2 & N2 & P2 & C2) Hdisj Hown1 Hown2 Hroot.
  pose proof D1 as (E1 & _ & _ & _ & V1). pose proof D2 as (E2 & _ & _ & _ & V2).
  assert (Hsee : forall g, seesEye s1 eye g = seesEye s eye g)
    by (intros g; apply marksDrop_seesEye, D1).
  split; [eapply marksDrop_trans; eauto|]. split; [|split].
  - apply NoDup_app. split; [exact N1|]. split; [|exact N2].
    intros h Hh1 Hh2. destruct (P2 h Hh2) as [_ [Ho|(hd & Hhd & Hvis)]].
    + eapply Hdisj; eauto.
    + destruct (P1 h Hh1) as [(hd' & t & td & A1 & A2 & _) _].
      rewrite E1 in Hhd. congruence.
  - intros h Hh. apply elem_of_app in Hh as [Hh|Hh].
    + destruct (P1 h Hh) as [(hd & t & td & A1 & A2 & A3 & A4 & A5 & A6) Ho]. split.
      * exists hd, t, td. repeat split; auto.
        -- destruct (isVisible s' (HalfEdge.face hd)) eqn:E; [|reflexivity].
           apply V2 in E. congruence.
        -- destruct (isVisible s' (HalfEdge.face td)) eqn:E; [reflexivity|].
           destruct (C2 _ A5 E) as [[[]|Hs] _]. rewrite Hsee in Hs. congruence.
      * destruct Ho as [Ho|Ho]; [apply Hown1; assumption|right; exact Ho].
    + destruct (P2 h Hh) as [(hd & t & td & A1 & A2 & A3 & A4 & A5 & A6) Ho]. split.
      * exists hd, t, td. rewrite <- E1, <- Hsee. repeat split; auto.
      * destruct Ho as [Ho|(hd' & B1 & B2)]; [left; apply Hown2, Ho|].
        right. exists hd'. rewrite <- E1. split; [exact B1|apply V1, B2].
  - intros g Hg Hg'. destruct (isVisible s1 g) eqn:Eg.
    + destruct (C2 g Eg Hg') as [[[]|Hs] Hex]. rewrite Hsee in Hs.
      split; [right; exact Hs|]. intros j Hj. apply examined_more, Hex, Hj.
    + destruct (C1 g Hg Eg) as [Hr Hex]. split.
      * destruct Hr as [Hr|Hr]; [apply Hroot, Hr|right; exact Hr].
      * intros j Hj. eapply examined_later; eauto.
Qed.

Lemma faceGetEdge_zero f s oe s' :
  faceGetEdge f 0 s = Ok (oe, s') ->
  s' = s /\ exists fc, HullState.faceStore s !! f = Some fc /\ oe = Face.edge fc.
Proof.
  unfold faceGetEdge. intros H.
  apply bind_Ok in H as (fc & s1 & H1 & H). apply getFace_Ok in H1 as [Hfc <-].
  destruct (Face.edge fc) as [e|] eqn:He.
  - simpl in H. apply bind_Ok in H as (x & s1 & H1 & H).
    apply ret_Ok in H1 as [<- <-]. apply ret_Ok in H as [<- <-].
    split; [reflexivity|]. exists fc. rewrite He. auto.
  - apply ret_Ok in H as [<- <-]. split; [reflexivity|]. exists fc. rewrite He. auto.
Qed.

Lemma isVisible_mark_deleted s f fc g :
  HullState.faceStore s !! f = Some fc ->
  isVisible (HullState.set_faceStore
               (<[f := Face.set_mark DELETED fc]> (HullState.faceStore s)) s) g
  = if bool_decide (g = f) then false else isVisible s g.
Proof.
  intros Hfc. unfold isVisible. simpl.
  destruct (bool_decide (g = f)) eqn:E.
  - apply bool_decide_eq_true in E. subst g.
    rewrite list_lookup_insert_eq by (eapply lookup_lt_Some; eauto). reflexivity.
  - apply bool_decide_eq_false in E.
    rewrite list_lookup_insert_ne by congruence. reflexivity.
Qed.

Lemma marksDrop_mark_deleted s f fc :
  HullState.faceStore s !! f = Some fc ->
  marksDrop s (HullState.set_faceStore
                 (<[f := Face.set_mark DELETED fc]> (HullState.faceStore s)) s).
Proof.
  intros Hfc. repeat split.
  - simpl. eapply map_insert_same; eauto.
  - intros g. rewrite (isVisible_mark_deleted _ _ _ _ Hfc).
    destruct (bool_decide (g = f)); [discriminate|auto].
Qed.

Lemma mod3_cases i r :
  i < 3 -> 1 <= r <= 3 ->
  ((i + 1) mod 3 = (i + r) mod 3 <-> r = 1) /\
  ((i + 1) mod 3 + (r - 1)) mod 3 = (i + r) mod 3 /\
  (i + 0) mod 3 = i /\
  (forall q, ((i + 1) mod 3 + q) mod 3 = (i + S q) mod 3).
Proof.
  intros Hi Hr.
  assert (Hq : forall q, ((i + 1) mod 3 + q) mod 3 = (i + S q) mod 3).
  { intros q. rewrite Nat.Div0.add_mod_idemp_l. f_equal. lia. }
  destruct i as [|[|[|i]]]; try lia;
    destruct r as [|[|[|[|r]]]]; try lia; repeat split; try reflexivity;
    try (intros H; first [discriminate H | lia]); try (intros; lia); exact Hq.
Qed.

Lemma seesEye_intro s eye f fc d :
  HullState.faceStore s !! f = Some fc ->
  faceDistanceToPoint fc (HullState.points s) eye = Some d ->
  seesEye s eye f = (HullState.tolerance s <? d)%float.
Proof.
  intros Hfc Hd. unfold seesEye. rewrite (distanceTo_intro _ _ _ _ _ Hfc Hd). reflexivity.
Qed.

Lemma sweep_nothing s eye own root : sweep s s eye own root [].
Proof.
  split; [apply marksDrop_refl|]. split; [constructor|]. split.
  - intros h Hh. apply elem_of_nil in Hh. contradiction.
  - intros g H1 H2. congruence.
Qed.

Lemma computeHorizon_S fuel eye cross face hz :
  computeHorizon (S fuel) eye cross face hz =
  (deleteFaceVertices fuel face None ;;
   updFace face (Face.set_mark DELETED) ;;
   edge <- match cross with
           | None => oe <- faceGetEdge face 0 ;; orRaise oe
           | Some ce => cd <- getEdge ce ;; orRaise (HalfEdge.next cd)
           end ;;
   horizonLoop fuel eye edge edge hz).
Proof. reflexivity. Qed.

Lemma horizonLoop_S fuel eye startEdge edge hz :
  horizonLoop (S fuel) eye startEdge edge hz =
  (ed <- getEdge edge ;;
   twinEdge <- orRaise (HalfEdge.twin ed) ;;
   td <- getEdge twinEdge ;;
   opp <- getFace (HalfEdge.face td) ;;
   horizon' <-
     (if bool_decide (Face.mark opp = VISIBLE) then
        points <- gets HullState.points ;;
        tol <- gets HullState.tolerance ;;
        d <- orRaise (faceDistanceToPoint opp points eye) ;;
        if (tol <? d)%float
        then computeHorizon fuel eye (Some twinEdge) (HalfEdge.face td) hz
        else ret (hz ++ [edge])
      else ret hz) ;;
   ed' <- getEdge edge ;;
   next <- orRaise (HalfEdge.next ed') ;;
   if bool_decide (next = startEdge) then ret horizon'
   else horizonLoop fuel eye startEdge next horizon').
Proof. reflexivity. Qed.

Lemma sweep_weaken s s' eye own1 own root1 root new :
  sweep s s' eye own1 root1 new ->
  (forall h, h ∈ new -> own1 h -> own h \/ onVisibleFace s h) ->
  (forall g, root1 g -> root g \/ seesEye s eye g = true) ->
  sweep s s' eye own root new.
Proof.
  intros (D & N & P & C) Hown Hroot. split; [exact D|]. split; [exact N|]. split.
  - intros h Hh. destruct (P h Hh) as [Hp Ho]. split; [exact Hp|].
    destruct Ho as [Ho|Ho]; [apply Hown; assumption|right; exact Ho].
  - intros g H1 H2. destruct (C g H1 H2) as [Hr Hex]. split; [|exact Hex].
    destruct Hr as [Hr|Hr]; [apply Hroot, Hr|right; exact Hr].
Qed.

Lemma sweep_prelude s sb s' eye own2 own face new :
  marksDrop s sb ->
  (forall g, g <> face -> isVisible sb g = isVisible s g) ->
  sweep sb s' eye own2 (fun _ => False) new ->
  (forall h, own2 h -> own h) ->
  (forall j, j < 3 -> examined s' new (3 * face + j)) ->
  sweep s s' eye own (eq face) new.
Proof.
  intros D0 Hother (D & N & P & C) Hown Hex.
  pose proof D0 as (E0 & _ & _ & _ & V0).
  assert (Hsee : forall g, seesEye sb eye g = seesEye s eye g)
    by (intros g; apply marksDrop_seesEye, D0).
  split; [eapply marksDrop_trans; eauto|]. split; [exact N|]. split.
  - intros h Hh. destruct (P h Hh) as [(hd & t & td & A1 & A2 & A3 & A4 & A5 & A6) Ho].
    split.
    + exists hd, t, td. rewrite <- E0, <- Hsee. repeat split; auto.
    + destruct Ho as [Ho|(hd' & B1 & B2)]; [left; apply Hown, Ho|].
      right. exists hd'. rewrite <- E0. split; [exact B1|apply V0, B2].
  - intros g H1 H2. destruct (decide (g = face)) as [->|Hne].
    + split; [left; reflexivity|exact Hex].
    + rewrite <- (Hother g Hne) in H1. destruct (C g H1 H2) as [[[]|Hs] Hex'].
      rewrite Hsee in Hs. split; [right; exact Hs|exact Hex'].
Qed.

Lemma horizon_sweep fuel :
  (forall eye cross face hz s hz' s',
     meshShape s ->
     match cross with
     | Some ce => exists j, j < 3 /\ ce = 3 * face + j
     | None => True
     end ->
     computeHorizon fuel eye cross face hz s = Ok (hz', s') ->
     exists new, hz' = hz ++ new /\
       sweep s s' eye (fun h => exists j, j < 3 /\ h = 3 * face + j) (eq face) new /\
       isVisible s' face = false /\
       forall j, j < 3 -> examined s' new (3 * face + j)) /\
  (forall eye f i r hz s hz' s',
     meshShape s -> isVisible s f = false -> i < 3 -> 1 <= r <= 3 ->
     horizonLoop fuel eye (3 * f + (i + r) mod 3) (3 * f + i) hz s = Ok (hz', s') ->
     exists new, hz' = hz ++ new /\
       sweep s s' eye (fun h => exists q, q < r /\ h = 3 * f + (i + q) mod 3)
         (fun _ => False) new /\
       forall q, q < r -> examined s' new (3 * f + (i + q) mod 3)).
Proof.
  induction fuel as [|fuel [IHA IHB]]; split.
  - intros eye cross face hz s hz' s' _ _ H. discriminate H.
  - intros eye f i r hz s hz' s' _ _ _ _ H. discriminate H.
  - (* computeHorizon *)
    intros eye cross face hz s hz' s' Hshape Hcross H.
    rewrite computeHorizon_S in H.
    apply bind_Ok in H as (u1 & sa & Hdel & H).
    apply mesh_deleteFaceVertices in Hdel.
    apply bind_Ok in H as (u2 & sb & Hmark & H).
    unfold updFace in Hmark.
    apply bind_Ok in Hmark as (fc & sa' & Hg & Hm). apply getFace_Ok in Hg as [Hfc <-].
    apply modify_Ok in Hm.
    apply bind_Ok in H as (edge & sb' & Hedge & Hloop).
    assert (Dab : marksDrop sa sb) by (subst sb; apply marksDrop_mark_deleted, Hfc).
    assert (D0 : marksDrop s sb)
      by (eapply marksDrop_trans; [apply sameMesh_marksDrop, Hdel|exact Dab]).
    assert (Hshape' : meshShape sb) by (eapply marksDrop_meshShape; eauto).
    assert (Hvis : forall g, isVisible sb g
                             = if bool_decide (g = face) then false else isVisible s g).
    { intros g. subst sb. rewrite (isVisible_mark_deleted _ _ _ _ Hfc).
      rewrite (sameMesh_isVisible _ _ g Hdel). reflexivity. }
    assert (Hgone : isVisible sb face = false).
    { rewrite Hvis. rewrite bool_decide_eq_true_2 by reflexivity. reflexivity. }
    assert (Hother : forall g, g <> face -> isVisible sb g = isVisible s g).
    { intros g Hg. rewrite Hvis. rewrite bool_decide_eq_false_2 by exact Hg. reflexivity. }
    assert (Hstart : exists i0, i0 < 3 /\ edge = 3 * face + i0 /\ sb' = sb).
    { pose proof Hshape' as (S1 & S2 & S3). destruct cross as [ce|].
      - destruct Hcross as (j & Hj & ->).
        apply bind_Ok in Hedge as (cd & s0 & Hg & Hedge). apply getEdge_Ok in Hg as [Hcd <-].
        apply orRaise_Ok in Hedge as [Hn <-].
        destruct (S3 _ _ _ Hj Hcd) as (_ & Hnext & _).
        exists ((j + 1) mod 3). split; [apply Nat.mod_upper_bound; lia|].
        split; [congruence|reflexivity].
      - apply bind_Ok in Hedge as (oe & s0 & Hg & Hedge).
        apply faceGetEdge_zero in Hg as (-> & fc' & Hfc' & ->).
        apply orRaise_Ok in Hedge as [He <-].
        apply S2 in Hfc'. exists 0. split; [lia|].
        split; [|reflexivity]. assert (Some edge = Some (3 * face)) by congruence.
        assert (edge = 3 * face) by congruence. lia. }
    destruct Hstart as (i0 & Hi0 & -> & ->).
    assert (Hmod : (i0 + 3) mod 3 = i0).
    { clear - Hi0. destruct i0 as [|[|[|i0]]]; try lia; reflexivity. }
    assert (Hloop' : horizonLoop fuel eye (3 * face + (i0 + 3) mod 3) (3 * face + i0) hz sb
                     = Ok (hz', s')) by (rewrite Hmod; exact Hloop).
    apply IHB in Hloop' as (new & -> & Hsw & Hex); [|exact Hshape'|exact Hgone|exact Hi0|lia].
    assert (Hall : forall j, j < 3 -> examined s' new (3 * face + j)).
    { intros j Hj.
      assert (Hq : exists q, q < 3 /\ (i0 + q) mod 3 = j).
      { clear - Hi0 Hj. destruct i0 as [|[|[|i0]]]; try lia;
          destruct j as [|[|[|j]]]; try lia;
          first [exists 0; split; [lia|reflexivity]
                | exists 1; split; [lia|reflexivity]
                | exists 2; split; [lia|reflexivity]]. }
      destruct Hq as (q & Hq & <-). apply Hex, Hq. }
    exists new. split; [reflexivity|]. split; [|split; [|exact Hall]].
    + eapply sweep_prelude; [exact D0|exact Hother|exact Hsw| |exact Hall].
      intros h (q & Hq & ->). exists ((i0 + q) mod 3).
      split; [apply Nat.mod_upper_bound; lia|reflexivity].
    + destruct Hsw as ((_ & _ & _ & _ & V) & _).
      destruct (isVisible s' face) eqn:Ev; [|reflexivity]. apply V in Ev. congruence.
  - (* horizonLoop *)
    intros eye f i r hz s hz' s' Hshape Hgone Hi Hr H.
    rewrite horizonLoop_S in H.
    destruct (mod3_cases i r Hi Hr) as (Hstop & Hstart & Hi0 & Hstep).
    apply bind_Ok in H as (ed & s0 & Hg & H). apply getEdge_Ok in Hg as [Hed <-].
    apply bind_Ok in H as (t & s0 & Hg & H). apply orRaise_Ok in Hg as [Htw <-].
    apply bind_Ok in H as (td & s0 & Hg & H). apply getEdge_Ok in Hg as [Htd <-].
    apply bind_Ok in H as (opp & s0 & Hg & H). apply getFace_Ok in Hg as [Hopp <-].
    apply bind_Ok in H as (hz1 & s1 & Hpart & H).
    pose proof (meshShape_face _ _ _ _ Hshape Hi Hed) as Hface.
    pose proof Hshape as (S1 & S2 & S3).
    destruct (S3 _ _ _ Hi Hed) as (_ & Hnext & _).
    set (g := HalfEdge.face td) in *.
    set (e := 3 * f + i) in *.
    assert (Hfirst : exists new1 own1 root1,
               hz1 = hz ++ new1 /\ sweep s s1 eye own1 root1 new1 /\
               examined s1 new1 e /\
               (forall h, h ∈ new1 -> own1 h -> h = e \/ onVisibleFace s h) /\
               (forall h, h ∈ new1 -> onVisibleFace s h \/ h = e) /\
               (forall x, root1 x -> seesEye s eye x = true)).
    { destruct (bool_decide (Face.mark opp = VISIBLE)) eqn:Hvis.
      - apply bool_decide_eq_true in Hvis.
        assert (Hgvis : isVisible s g = true).
        { unfold isVisible. rewrite Hopp. apply bool_decide_eq_true. exact Hvis. }
        apply bind_Ok in Hpart as (pts & s0 & Hg & Hpart). apply gets_Ok in Hg as [<- <-].
        apply bind_Ok in Hpart as (tol & s0 & Hg & Hpart). apply gets_Ok in Hg as [<- <-].
        apply bind_Ok in Hpart as (d & s0 & Hg & Hpart). apply orRaise_Ok in Hg as [Hd <-].
        pose proof (seesEye_intro _ _ _ _ _ Hopp Hd) as Hsee.
        destruct (HullState.tolerance s <? d)%float eqn:Hfar.
        + (* the opposite face goes as well *)
          destruct (meshShape_edge _ _ _ Hshape Htd) as (j & Hj & Ht & _).
          apply IHA in Hpart as (new1 & -> & Hsw & Hgone' & Hex); [|exact Hshape|eauto].
          exists new1, (fun h => exists j, j < 3 /\ h = 3 * g + j), (eq g).
          split; [reflexivity|]. split; [exact Hsw|].
          pose proof Hsw as ((E1 & _) & _ & P1 & _).
          split; [|split; [|split]].
          * exists ed, t, td. rewrite E1. repeat split; auto.
          * intros h Hh (j' & Hj' & ->). right.
            destruct (P1 _ Hh) as [(hd & t' & td' & A1 & _) _].
            exists hd. split; [exact A1|].
            rewrite (meshShape_face _ _ _ _ Hshape Hj' A1). exact Hgvis.
          * intros h Hh. left. destruct (P1 _ Hh) as [(hd & t' & td' & A1 & _) [Ho|Ho]];
              [|exact Ho].
            destruct Ho as (j' & Hj' & ->). exists hd. split; [exact A1|].
            rewrite (meshShape_face _ _ _ _ Hshape Hj' A1). exact Hgvis.
          * intros x <-. exact Hsee.
        + (* the edge is on the horizon *)
          apply ret_Ok in Hpart as [<- <-].
          exists [e], (eq e), (fun _ => False).
          split; [reflexivity|]. split; [|split; [|split; [|split]]].
          * split; [apply marksDrop_refl|]. split; [apply NoDup_singleton|]. split.
            -- intros h Hh. apply list_elem_of_singleton in Hh. subst h.
               split; [|left; reflexivity].
               exists ed, t, td. rewrite Hface. repeat split; auto.
            -- intros x H1 H2. congruence.
          * exists ed, t, td. repeat split; auto. right.
            apply list_elem_of_singleton. reflexivity.
          * intros h _ <-. left. reflexivity.
          * intros h Hh. apply list_elem_of_singleton in Hh. right. exact Hh.
          * intros x [].
      - (* the opposite face is gone already *)
        apply ret_Ok in Hpart as [<- <-].
        exists [], (fun _ => False), (fun _ => False).
        rewrite app_nil_r. split; [reflexivity|]. split; [apply sweep_nothing|].
        assert (Hg : isVisible s g = false).
        { unfold isVisible. rewrite Hopp. exact Hvis. }
        split; [|split; [|split]].
        + exists ed, t, td. repeat split; auto.
        + intros h Hh. apply elem_of_nil in Hh. contradiction.
        + intros h Hh. apply elem_of_nil in Hh. contradiction.
        + intros x []. }
    destruct Hfirst as (new1 & own1 & root1 & -> & Hsw1 & Hex1 & Hown1 & Hall1 & Hroot1).
    pose proof Hsw1 as (D1 & _). pose proof D1 as (E1 & _ & _ & _ & V1).
    apply bind_Ok in H as (ed' & s0 & Hg & H). apply getEdge_Ok in Hg as [Hed' <-].
    rewrite E1, Hed in Hed'. injection Hed' as <-.
    apply bind_Ok in H as (next & s0 & Hg & H). apply orRaise_Ok in Hg as [Hn <-].
    assert (Hnx : next = 3 * f + (i + 1) mod 3) by congruence. subst next. clear Hn.
    destruct (bool_decide (3 * f + (i + 1) mod 3 = 3 * f + (i + r) mod 3)) eqn:Hend.
    + apply bool_decide_eq_true in Hend.
      assert (r = 1) by (apply Hstop; lia). subst r.
      apply ret_Ok in H as [<- <-].
      exists new1. split; [reflexivity|]. split.
      * eapply sweep_weaken; [exact Hsw1| |].
        -- intros h Hh Ho. destruct (Hown1 h Hh Ho) as [->|Hv]; [|right; exact Hv].
           left. exists 0. split; [lia|]. rewrite Hi0. reflexivity.
        -- intros x Hx. right. apply Hroot1, Hx.
      * intros q Hq. assert (q = 0) by lia. subst q. rewrite Hi0. exact Hex1.
    + apply bool_decide_eq_false in Hend.
      assert (Hr1 : r <> 1) by (intros ->; apply Hend; reflexivity).
      assert (Hi' : (i + 1) mod 3 < 3) by (apply Nat.mod_upper_bound; lia).
      rewrite <- Hstart in H.
      apply IHB in H as (new2 & -> & Hsw2 & Hex2); [| |  | exact Hi' | lia].
      2:{ eapply marksDrop_meshShape; eauto. }
      2:{ destruct (isVisible s1 f) eqn:Ev; [|reflexivity]. apply V1 in Ev. congruence. }
      pose proof Hsw2 as (D2 & _).
      exists (new1 ++ new2). split; [rewrite app_assoc; reflexivity|]. split.
      * eapply sweep_app; [exact Hsw1|exact Hsw2| | | |].
        -- intros h Hh (q & Hq & ->). rewrite Hstep in Hh.
           destruct (Hall1 _ Hh) as [(hd & A1 & A2)|Heq].
           ++ assert (Hj : (i + S q) mod 3 < 3) by (apply Nat.mod_upper_bound; lia).
              rewrite (meshShape_face _ _ _ _ Hshape Hj A1) in A2. congruence.
           ++ unfold e in Heq.
              assert (Hm : (i + S q) mod 3 = i) by lia.
              clear - Hm Hi Hq Hr.
              destruct i as [|[|[|i]]]; try lia;
                destruct q as [|[|q]]; try lia; discriminate Hm.
        -- intros h Hh Ho. destruct (Hown1 h Hh Ho) as [->|Hv]; [|right; exact Hv].
           left. exists 0. split; [lia|]. rewrite Hi0. reflexivity.
        -- intros h (q & Hq & ->). exists (S q). split; [lia|]. rewrite Hstep. reflexivity.
        -- intros x Hx. right. apply Hroot1, Hx.
      * intros q Hq. destruct q as [|q].
        -- rewrite Hi0. eapply examined_later; eauto.
        -- rewrite <- Hstep. apply examined_more, Hex2. lia.
Qed.

Lemma unchanged_refl s : unchanged s s.
Proof. reflexivity. Qed.

Lemma unchanged_trans s1 s2 s3 : unchanged s1 s2 -> unchanged s2 s3 -> unchanged s1 s3.
Proof. unfold unchanged. congruence. Qed.

Ltac read_walk :=
  pose proof unchanged_refl as Hrefl;
  pose proof unchanged_trans as Htrans;
  walk_by ltac:(solve [eauto]).

Lemma read_halfEdgeTail e : respects unchanged (halfEdgeTail e).
Proof. unfold halfEdgeTail. read_walk. Qed.
Lemma read_halfEdgeHead e : respects unchanged (halfEdgeHead e).
Proof. unfold halfEdgeHead. read_walk. Qed.
Lemma read_walkNext i e : respects unchanged (walkNext i e).
Proof. revert e. induction i; simpl; read_walk. Qed.
Lemma read_walkPrev i e : respects unchanged (walkPrev i e).
Proof. revert e. induction i; simpl; read_walk. Qed.
Lemma read_faceGetEdge f i : respects unchanged (faceGetEdge f i).
Proof.
  unfold faceGetEdge. pose proof read_walkNext. pose proof read_walkPrev. read_walk.
Qed.

Lemma faceGetEdge_minus1 f s fc e0 ed p :
  HullState.faceStore s !! f = Some fc -> Face.edge fc = Some e0 ->
  HullState.edgeStore s !! e0 = Some ed -> HalfEdge.prev ed = Some p ->
  faceGetEdge f (-1) s = Ok (Some p, s).
Proof.
  intros Hfc He Hed Hp. unfold faceGetEdge.
  rewrite (bind_run _ _ _ _ _ (getFace_run _ _ _ Hfc)). rewrite He.
  change (Z.to_nat (-1)) with 0. change (Z.to_nat (- -1)) with 1.
  cbn [walkNext walkPrev]. rewrite !bind_ret.
  change (orRaise (Some e0)) with (@ret nat e0). rewrite bind_ret.
  rewrite (bind_run _ _ _ _ _ (getEdge_run _ _ _ Hed)). rewrite Hp. reflexivity.
Qed.

(** The state in which [halfEdgeSetTwin] ends. *)
Lemma halfEdgeSetTwin_inv e t s u s' :
  halfEdgeSetTwin e t s = Ok (u, s') ->
  exists ed td,
    HullState.edgeStore s !! e = Some ed /\
    (<[e := HalfEdge.set_twin (Some t) ed]> (HullState.edgeStore s)) !! t = Some td /\
    s' = HullState.set_edgeStore
           (<[t := HalfEdge.set_twin (Some e) td]>
              (<[e := HalfEdge.set_twin (Some t) ed]> (HullState.edgeStore s))) s.
Proof.
  unfold halfEdgeSetTwin, updEdge. intros H.
  apply bind_Ok in H as (u1 & s1 & H1 & H2).
  apply bind_Ok in H1 as (ed & s0 & Hg & Hm). apply getEdge_Ok in Hg as [Hed <-].
  apply modify_Ok in Hm. subst s1.
  apply bind_Ok in H2 as (td & s0 & Hg & Hm). apply getEdge_Ok in Hg as [Htd <-].
  apply modify_Ok in Hm. subst s'. simpl in *.
  exists ed, td. repeat split; auto.
Qed.

Lemma isVisible_insert s f g fc fc' :
  HullState.faceStore s !! f = Some fc -> Face.mark fc' = Face.mark fc ->
  isVisible (HullState.set_faceStore (<[f := fc']> (HullState.faceStore s)) s) g
  = isVisible s g.
Proof.
  intros Hfc Hm. unfold isVisible. simpl.
  destruct (decide (g = f)) as [->|Hne].
  - rewrite list_lookup_insert_eq by (eapply lookup_lt_Some; eauto).
    rewrite Hfc, Hm. reflexivity.
  - rewrite list_lookup_insert_ne by congruence. reflexivity.
Qed.

Lemma faceGeometry_fields fc pa pb pc :
  Face.mark (faceGeometry fc pa pb pc) = Face.mark fc /\
  Face.edge (faceGeometry fc pa pb pc) = Face.edge fc.
Proof.
  pose proof (faceShape_faceGeometry fc pa pb pc) as H. unfold faceShape in H.
  injection H as H1 H2 _. auto.
Qed.

(** What [addAdjoiningFace] does to the mesh: one fresh VISIBLE face with
    three fresh half-edges, the last of which becomes the twin of the
    twin of the horizon edge. *)
Lemma addAdjoiningFace_spec eye h s side s' hd t td :
  meshShape s ->
  HullState.edgeStore s !! h = Some hd -> HalfEdge.twin hd = Some t ->
  HullState.edgeStore s !! t = Some td ->
  addAdjoiningFace eye h s = Ok (side, s') ->
  let n := length (HullState.edgeStore s) in
  let k := length (HullState.faceStore s) in
  exists a b,
    side = n /\
    length (HullState.edgeStore s') = n + 3 /\
    length (HullState.faceStore s') = S k /\
    (forall x, x <> t -> x < n ->
       HullState.edgeStore s' !! x = HullState.edgeStore s !! x) /\
    HullState.edgeStore s' !! t = Some (HalfEdge.set_twin (Some (n + 2)) td) /\
    HullState.edgeStore s' !! n
      = Some (HalfEdge.mk eye (Some (n + 2)) (Some (n + 1)) None k) /\
    HullState.edgeStore s' !! (n + 1)
      = Some (HalfEdge.mk a (Some n) (Some (n + 2)) None k) /\
    HullState.edgeStore s' !! (n + 2)
      = Some (HalfEdge.mk b (Some (n + 1)) (Some n) (Some t) k) /\
    (forall f, f <> k -> isVisible s' f = isVisible s f) /\
    isVisible s' k = true /\
    (forall f fc', HullState.faceStore s' !! f = Some fc' -> Face.edge fc' = Some (3 * f)) /\
    HullState.newFaces s' = HullState.newFaces s.
Proof.
  intros Hshape Hhd Htw Htd H n k. unfold addAdjoiningFace in H.
  pose proof Hshape as (S1 & S2 & S3).
  assert (Hh : h < n) by (eapply lookup_lt_Some; eauto).
  assert (Ht : t < n) by (eapply lookup_lt_Some; eauto).
  apply bind_Ok in H as (ot & s0 & Hg & H). apply read_halfEdgeTail in Hg. red in Hg. subst s0.
  apply bind_Ok in H as (hv & s0 & Hg & H). apply read_halfEdgeHead in Hg. red in Hg. subst s0.
  apply bind_Ok in H as (tl & s0 & Hg & H). apply orRaise_Ok in Hg as [_ <-].
  rewrite (bind_run _ _ _ _ _ (faceCreate_run _ _ _ _)) in H.
  fold k in H.
  apply bind_Ok in H as (u & s2 & Hcomp & H).
  apply faceCompute_inv in Hcomp
    as (fc & a' & b' & c' & na & nb & nc & pa & pb & pc &
        Hfc & _ & _ & _ & _ & _ & _ & _ & ->).
  apply bind_Ok in H as (u' & s3 & Hm & H). apply modify_Ok in Hm. subst s3.
  set (s1 := faceCreated eye tl hv s) in *.
  assert (Hfc1 : fc = Face.set_edge (Some n) createFace).
  { unfold s1, faceCreated in Hfc. simpl in Hfc.
    rewrite lookup_app_r, Nat.sub_diag in Hfc by (fold k; lia). simpl in Hfc.
    injection Hfc as <-. reflexivity. }
  subst fc.
  set (G := faceGeometry _ pa pb pc) in *.
  set (s3 := HullState.set_faces _ _) in *.
  assert (E3 : HullState.edgeStore s3
               = HullState.edgeStore s ++
                   [ HalfEdge.mk eye (Some (n + 2)) (Some (n + 1)) None k;
                     HalfEdge.mk tl (Some n) (Some (n + 2)) None k;
                     HalfEdge.mk hv (Some (n + 1)) (Some n) None k ]) by reflexivity.
  assert (F3 : HullState.faceStore s3 = HullState.faceStore s ++ [G]).
  { unfold s3, s1, faceCreated. simpl.
    rewrite insert_app_r_alt, Nat.sub_diag by (fold k; lia). reflexivity. }
  assert (HG : Face.mark G = VISIBLE /\ Face.edge G = Some n).
  { unfold G. destruct (faceGeometry_fields (Face.set_edge (Some n) createFace) pa pb pc)
      as [-> ->]. split; reflexivity. }
  destruct HG as [HGm HGe].
  assert (Lk : HullState.faceStore s3 !! k = Some G).
  { rewrite F3, lookup_app_r, Nat.sub_diag by (fold k; lia). reflexivity. }
  assert (L0 : HullState.edgeStore s3 !! n
               = Some (HalfEdge.mk eye (Some (n + 2)) (Some (n + 1)) None k)).
  { rewrite E3, lookup_app_r, Nat.sub_diag by (fold n; lia). reflexivity. }
  assert (L2 : HullState.edgeStore s3 !! (n + 2)
               = Some (HalfEdge.mk hv (Some (n + 1)) (Some n) None k)).
  { rewrite E3. unfold n. rewrite lookup_fresh. reflexivity. }
  assert (L1 : HullState.edgeStore s3 !! (n + 1)
               = Some (HalfEdge.mk tl (Some n) (Some (n + 2)) None k)).
  { rewrite E3. unfold n. rewrite lookup_fresh. reflexivity. }
  assert (Lold : forall x, x < n -> HullState.edgeStore s3 !! x = HullState.edgeStore s !! x).
  { intros x Hx. rewrite E3. apply lookup_app_l. exact Hx. }
  rewrite (bind_run _ _ _ _ _ (faceGetEdge_minus1 _ _ _ _ _ _ Lk HGe L0 eq_refl)) in H.
  apply bind_Ok in H as (hd' & s0 & Hg & H). apply getEdge_Ok in Hg as [Hhd' <-].
  rewrite (Lold h Hh), Hhd in Hhd'. injection Hhd' as <-.
  apply bind_Ok in H as (e & s0 & Hg & H). apply orRaise_Ok in Hg as [He <-].
  injection He as <-.
  apply bind_Ok in H as (tw & s0 & Hg & H). apply orRaise_Ok in Hg as [Ht' <-].
  rewrite Htw in Ht'. injection Ht' as <-.
  apply bind_Ok in H as (u4 & s4 & Hset & H).
  apply halfEdgeSetTwin_inv in Hset as (e2 & td' & He2 & Htd' & ->).
  rewrite L2 in He2. injection He2 as <-.
  rewrite list_lookup_insert_ne, (Lold t Ht), Htd in Htd' by lia. injection Htd' as <-.
  apply bind_Ok in H as (o0 & s0 & Hg & H).
  apply faceGetEdge_zero in Hg as (-> & fc' & Hfc' & ->).
  change (HullState.faceStore s3 !! k = Some fc') in Hfc'.
  rewrite Lk in Hfc'. injection Hfc' as <-.
  apply orRaise_Ok in H as [Hside <-]. rewrite HGe in Hside. injection Hside as <-.
  assert (Hlen : length (HullState.edgeStore s3) = n + 3).
  { rewrite E3, length_app. reflexivity. }
  set (X := <[t := _]> (<[n + 2 := _]> (HullState.edgeStore s3))).
  assert (E4 : HullState.edgeStore (HullState.set_edgeStore X s3) = X) by reflexivity.
  assert (F4 : HullState.faceStore (HullState.set_edgeStore X s3)
               = HullState.faceStore s ++ [G]) by exact F3.
  assert (V4 : forall f, isVisible (HullState.set_edgeStore X s3) f
                         = match (HullState.faceStore s ++ [G]) !! f with
                           | Some fc => bool_decide (Face.mark fc = VISIBLE)
                           | None => false
                           end).
  { intros f. unfold isVisible. rewrite F4. reflexivity. }
  exists tl, hv. rewrite E4, F4. unfold X.
  rewrite !length_insert.
  split; [reflexivity|]. split; [exact Hlen|].
  split; [rewrite length_app; simpl; fold k; lia|].
  split; [intros x Hxt Hx; rewrite !list_lookup_insert_ne by lia; apply Lold, Hx|].
  split; [apply list_lookup_insert_eq; rewrite length_insert; lia|].
  split; [rewrite !list_lookup_insert_ne by lia; exact L0|].
  split; [rewrite !list_lookup_insert_ne by lia; exact L1|].
  split.
  { rewrite list_lookup_insert_ne by lia.
    rewrite list_lookup_insert_eq by lia. reflexivity. }
  split.
  { intros f Hf. rewrite V4. unfold isVisible.
    destruct (decide (f < k)) as [Hlt|Hge].
    - rewrite lookup_app_l by exact Hlt. reflexivity.
    - rewrite !lookup_ge_None_2; [reflexivity|fold k; lia|rewrite length_app; simpl; fold k; lia]. }
  split.
  { rewrite V4. rewrite lookup_app_r, Nat.sub_diag by (fold k; lia). simpl.
    rewrite HGm. reflexivity. }
  split; [|reflexivity].
  intros f fc' Hfc'.
  destruct (decide (f < k)) as [Hlt|Hge].
  - rewrite lookup_app_l in Hfc' by exact Hlt. eauto.
  - assert (Hfk : f = k).
    { apply lookup_lt_Some in Hfc'. rewrite length_app in Hfc'. simpl in Hfc'. fold k in Hfc'. lia. }
    subst f. rewrite lookup_app_r, Nat.sub_diag in Hfc' by (fold k; lia).
    injection Hfc' as <-. rewrite HGe. f_equal. unfold n, k. lia.
Qed.

Lemma meshShape_face_lt s x xd :
  meshShape s -> HullState.edgeStore s !! x = Some xd ->
  HalfEdge.face xd < length (HullState.faceStore s).
Proof.
  intros Hshape Hx. pose proof Hshape as (S1 & _).
  destruct (meshShape_edge _ _ _ Hshape Hx) as (j & Hj & He & _).
  apply lookup_lt_Some in Hx. lia.
Qed.

Lemma weld_opens s rest opens opens' :
  (forall e, e ∈ opens <-> e ∈ opens') -> weld s rest opens -> weld s rest opens'.
Proof.
  intros Hiff (W1 & W2 & W3 & W4 & W5).
  split; [exact W1|]. split; [exact W2|]. split; [exact W3|]. split.
  - intros e He. apply W4, Hiff, He.
  - intros e ed He Hv. destruct (W5 e ed He Hv) as [Ho|Hp]; [left; apply Hiff, Ho|right; exact Hp].
Qed.

Lemma weld_done s : weld s [] [] -> meshShape s /\ twinsLinked s.
Proof.
  intros (W1 & _ & _ & _ & W5). split; [exact W1|].
  intros e ed He Hv. destruct (W5 e ed He Hv) as [Ho|(t & td & A1 & A2 & A3 & A4)].
  - apply elem_of_nil in Ho. contradiction.
  - exists t, td. repeat split; auto. destruct A4 as [A4|A4]; [exact A4|].
    apply elem_of_nil in A4. contradiction.
Qed.

(** After the walk of [computeHorizon] the mesh is ready for welding. *)
Lemma weld_start s0 s eye root own horizon :
  meshShape s0 -> twinsLinked s0 -> isVisible s0 root = true ->
  (forall h, own h -> exists j, j < 3 /\ h = 3 * root + j) ->
  sweep s0 s eye own (eq root) horizon ->
  weld s horizon [].
Proof.
  intros Hshape Hlinked Hroot Hown (D & N & P & C).
  pose proof D as (E0 & _ & _ & _ & V0).
  split; [eapply marksDrop_meshShape; eauto|]. split; [exact N|]. split; [|split].
  - intros h Hh. destruct (P h Hh) as [(hd & t & td & A1 & A2 & A3 & A4 & A5 & A6) Ho].
    assert (Hv0 : isVisible s0 (HalfEdge.face hd) = true).
    { destruct Ho as [Ho|(hd' & B1 & B2)]; [|congruence].
      destruct (Hown h Ho) as (j & Hj & ->).
      rewrite (meshShape_face _ _ _ _ Hshape Hj A1). exact Hroot. }
    destruct (Hlinked h hd A1 Hv0) as (t' & td' & B1 & B2 & B3 & B4).
    assert (t' = t) by congruence. subst t'.
    assert (td' = td) by congruence. subst td'.
    exists hd, t, td. rewrite E0. repeat split; auto.
  - intros e He. apply elem_of_nil in He. contradiction.
  - intros e ed He Hv. right. rewrite E0 in He.
    destruct (Hlinked e ed He (V0 _ Hv)) as (t & td & B1 & B2 & B3 & B4).
    exists t, td. rewrite E0. repeat split; auto.
    destruct (isVisible s (HalfEdge.face td)) eqn:Ev; [left; reflexivity|right].
    destruct (C _ B4 Ev) as [_ Hex].
    destruct (meshShape_edge _ _ _ Hshape B2) as (j & Hj & Ht & _).
    destruct (Hex j Hj) as (td0 & t0 & td1 & X1 & X2 & X3 & X4).
    rewrite <- Ht, E0, B2 in X1. injection X1 as <-.
    rewrite B3 in X2. injection X2 as <-.
    rewrite E0, He in X3. injection X3 as <-.
    destruct X4 as [X4|X4]; [congruence|]. rewrite Ht. exact X4.
Qed.

(** One new face: the twin of the horizon edge is re-linked to the new
    face, whose two side edges are open. *)
Lemma weld_adjoin eye h rest opens s side s' :
  weld s (h :: rest) opens ->
  addAdjoiningFace eye h s = Ok (side, s') ->
  let n := length (HullState.edgeStore s) in
  side = n /\ n = 3 * length (HullState.faceStore s) /\
  weld s' rest (n :: n + 1 :: opens) /\
  HullState.newFaces s' = HullState.newFaces s /\
  (exists sd, HullState.edgeStore s' !! n = Some sd /\
              HalfEdge.next sd = Some (n + 1) /\
              HalfEdge.face sd = length (HullState.faceStore s)).
Proof.
  intros (W1 & W2 & W3 & W4 & W5) Hrun n.
  destruct (W3 h) as (hd & t & td & Hhd & Hhv & Htw & Htd & Htv & Hback);
    [apply elem_of_cons; auto|].
  destruct (addAdjoiningFace_spec _ _ _ _ _ _ _ _ W1 Hhd Htw Htd Hrun)
    as (a & b & -> & Hlen & HlenF & Hold & Lt & L0 & L1 & L2 & Vold & Vnew & Hedge & Hnf).
  fold n in Hlen, Hold, Lt, L0, L1, L2.
  set (k := length (HullState.faceStore s)) in *.
  pose proof W1 as (S1 & S2 & S3). fold n k in S1.
  apply NoDup_cons in W2 as [Hnotin W2].
  assert (Ht : t < n) by (eapply lookup_lt_Some; eauto).
  assert (Hface : forall x xd, HullState.edgeStore s !! x = Some xd ->
                    isVisible s' (HalfEdge.face xd) = isVisible s (HalfEdge.face xd)).
  { intros x xd Hx. apply Vold. pose proof (meshShape_face_lt _ _ _ W1 Hx). fold k in H. lia. }
  assert (Hshape' : meshShape s').
  { split; [rewrite Hlen, HlenF; lia|]. split; [exact Hedge|].
    intros k' i ed Hi He.
    destruct (decide (3 * k' + i < n)) as [Hlt|Hge].
    - destruct (decide (3 * k' + i = t)) as [Heq|Hne].
      + rewrite Heq, Lt in He. injection He as <-. simpl.
        rewrite <- Heq in Htd. apply (S3 _ _ _ Hi Htd).
      + rewrite Hold in He by assumption. apply (S3 _ _ _ Hi He).
    - assert (Hlt' : 3 * k' + i < n + 3).
      { apply lookup_lt_Some in He. lia. }
      assert (k' = k) by lia. subst k'.
      assert (Hn : n = 3 * k) by exact S1.
      destruct i as [|[|[|i]]]; try lia.
      * replace (3 * k + 0) with n in * by lia. rewrite L0 in He. injection He as <-.
        simpl. repeat split; f_equal; lia.
      * replace (3 * k + 1) with (n + 1) in * by lia. rewrite L1 in He. injection He as <-.
        simpl. repeat split; f_equal; lia.
      * replace (3 * k + 2) with (n + 2) in * by lia. rewrite L2 in He. injection He as <-.
        simpl. repeat split; f_equal; lia. }
  split; [reflexivity|]. split; [exact S1|]. split; [|split; [exact Hnf|]].
  2:{ eexists. split; [exact L0|]. split; reflexivity. }
  split; [exact Hshape'|]. split; [exact W2|]. split; [|split].
  - intros h' Hh'.
    destruct (W3 h') as (hd' & t' & td' & A1 & A2 & A3 & A4 & A5 & A6);
      [apply elem_of_cons; auto|].
    assert (h' <> t) by (intros ->; congruence).
    assert (t' <> t).
    { intros ->. assert (h' = h) by congruence. subst h'. contradiction. }
    assert (h' < n) by (eapply lookup_lt_Some; eauto).
    assert (t' < n) by (eapply lookup_lt_Some; eauto).
    exists hd', t', td'.
    rewrite (Hold h'), (Hold t'), (Hface _ _ A1), (Hface _ _ A4) by assumption.
    repeat split; assumption.
  - intros e He. rewrite !elem_of_cons in He. destruct He as [-> | [-> | He]].
    + eexists. split; [exact L0|]. split; [exact Vnew|reflexivity].
    + eexists. split; [exact L1|]. split; [exact Vnew|reflexivity].
    + destruct (W4 e He) as (ed & A1 & A2 & A3).
      assert (e <> t) by (intros ->; congruence).
      assert (e < n) by (eapply lookup_lt_Some; eauto).
      exists ed. rewrite (Hold e), (Hface _ _ A1) by assumption. repeat split; assumption.
  - intros e ed He Hv.
    destruct (decide (e < n)) as [Hlt|Hge].
    + destruct (decide (e = t)) as [->|Hne].
      * right. rewrite Lt in He. injection He as <-. simpl.
        eexists _, _. split; [reflexivity|]. split; [exact L2|]. split; [reflexivity|].
        left. exact Vnew.
      * rewrite Hold in He by assumption. rewrite (Hface _ _ He) in Hv.
        destruct (W5 e ed He Hv) as [Ho|(t' & td' & A1 & A2 & A3 & A4)].
        -- left. rewrite !elem_of_cons. auto.
        -- right. assert (t' <> t).
           { intros ->. assert (e = h) by congruence. subst e. congruence. }
           assert (t' < n) by (eapply lookup_lt_Some; eauto).
           exists t', td'. rewrite (Hold t'), (Hface _ _ A2) by assumption.
           repeat split; auto. destruct A4 as [A4|A4]; [left; exact A4|right].
           apply elem_of_cons in A4 as [->|A4]; [|exact A4].
           assert (e = t) by congruence. contradiction.
    + assert (Hlt' : e < n + 3) by (apply lookup_lt_Some in He; lia).
      assert (Hcases : e = n \/ e = n + 1 \/ e = n + 2) by lia.
      destruct Hcases as [-> | [-> | ->]].
      * left. rewrite !elem_of_cons. auto.
      * left. rewrite !elem_of_cons. auto.
      * right. rewrite L2 in He. injection He as <-. simpl.
        eexists _, _. split; [reflexivity|]. split; [exact Lt|]. split; [reflexivity|].
        left. simpl. rewrite (Hface _ _ Htd). exact Htv.
Qed.

(** Two open side edges become each other's twin. *)
Lemma weld_pair a b rest opens opens' s u s' :
  weld s rest opens -> a ∈ opens -> b ∈ opens -> a <> b ->
  (forall e, e ∈ opens' <-> e ∈ opens /\ e <> a /\ e <> b) ->
  halfEdgeSetTwin a b s = Ok (u, s') ->
  weld s' rest opens' /\
  HullState.newFaces s' = HullState.newFaces s /\
  HullState.faceStore s' = HullState.faceStore s /\
  (forall x xd, HullState.edgeStore s !! x = Some xd ->
     exists xd', HullState.edgeStore s' !! x = Some xd' /\
                 HalfEdge.next xd' = HalfEdge.next xd).
Proof.
  intros (W1 & W2 & W3 & W4 & W5) Ha Hb Hab Hopens Hrun.
  destruct (W4 a Ha) as (ad & La & Va & Ta).
  destruct (W4 b Hb) as (bd & Lb & Vb & Tb).
  apply halfEdgeSetTwin_inv in Hrun as (ad' & bd' & La' & Lb' & ->).
  rewrite La in La'. injection La' as <-.
  rewrite list_lookup_insert_ne, Lb in Lb' by congruence. injection Lb' as <-.
  assert (Hla : a < length (HullState.edgeStore s)) by (eapply lookup_lt_Some; eauto).
  assert (Hlb : b < length (HullState.edgeStore s)) by (eapply lookup_lt_Some; eauto).
  set (X := <[b := _]> (<[a := _]> (HullState.edgeStore s))).
  assert (Xa : X !! a = Some (HalfEdge.set_twin (Some b) ad)).
  { unfold X. rewrite list_lookup_insert_ne by congruence.
    apply list_lookup_insert_eq. exact Hla. }
  assert (Xb : X !! b = Some (HalfEdge.set_twin (Some a) bd)).
  { unfold X. apply list_lookup_insert_eq. rewrite length_insert. exact Hlb. }
  assert (Xo : forall x, x <> a -> x <> b -> X !! x = HullState.edgeStore s !! x).
  { intros x Hxa Hxb. unfold X. rewrite !list_lookup_insert_ne by congruence. reflexivity. }
  assert (Xlen : length X = length (HullState.edgeStore s)).
  { unfold X. rewrite !length_insert. reflexivity. }
  set (s' := HullState.set_edgeStore X s).
  assert (Es' : HullState.edgeStore s' = X) by reflexivity.
  assert (Vs' : forall f, isVisible s' f = isVisible s f) by reflexivity.
  assert (Hshape' : meshShape s').
  { pose proof W1 as (S1 & S2 & S3). split; [rewrite Es', Xlen; exact S1|].
    split; [exact S2|]. intros k i ed Hi He. rewrite Es' in He.
    destruct (decide (3 * k + i = a)) as [Heq|Hna].
    - rewrite Heq, Xa in He. injection He as <-. rewrite <- Heq in La.
      apply (S3 _ _ _ Hi La).
    - destruct (decide (3 * k + i = b)) as [Heq|Hnb].
      + rewrite Heq, Xb in He. injection He as <-. rewrite <- Heq in Lb.
        apply (S3 _ _ _ Hi Lb).
      + rewrite Xo in He by assumption. apply (S3 _ _ _ Hi He). }
  split; [|split; [reflexivity|split; [reflexivity|]]].
  2:{ intros x xd Hx. rewrite Es'.
      destruct (decide (x = a)) as [->|Hna].
      - rewrite La in Hx. injection Hx as <-. eexists. split; [exact Xa|reflexivity].
      - destruct (decide (x = b)) as [->|Hnb].
        + rewrite Lb in Hx. injection Hx as <-. eexists. split; [exact Xb|reflexivity].
        + exists xd. rewrite Xo by assumption. auto. }
  split; [exact Hshape'|]. split; [exact W2|]. split; [|split].
  - intros h Hh. destruct (W3 h Hh) as (hd & t & td & A1 & A2 & A3 & A4 & A5 & A6).
    assert (h <> a) by (intros ->; congruence).
    assert (h <> b) by (intros ->; congruence).
    assert (t <> a) by (intros ->; congruence).
    assert (t <> b) by (intros ->; congruence).
    exists hd, t, td. rewrite Es', !Vs', !Xo by assumption. repeat split; assumption.
  - intros e He. apply Hopens in He as (He & Hea & Heb).
    destruct (W4 e He) as (ed & A1 & A2 & A3).
    exists ed. rewrite Es', Vs', Xo by assumption. repeat split; assumption.
  - intros e ed He Hv. rewrite Es' in He. rewrite Vs' in Hv.
    destruct (decide (e = a)) as [->|Hna].
    { rewrite Xa in He. injection He as <-. right.
      exists b, (HalfEdge.set_twin (Some a) bd). rewrite Es', Vs'.
      repeat split; auto. }
    destruct (decide (e = b)) as [->|Hnb].
    { rewrite Xb in He. injection He as <-. right.
      exists a, (HalfEdge.set_twin (Some b) ad). rewrite Es', Vs'.
      repeat split; auto. }
    rewrite Xo in He by assumption.
    destruct (W5 e ed He Hv) as [Ho|(t & td & A1 & A2 & A3 & A4)].
    + left. apply Hopens. auto.
    + right. assert (t <> a) by (intros ->; congruence).
      assert (t <> b) by (intros ->; congruence).
      exists t, td. rewrite Es', Vs', Xo by assumption. repeat split; assumption.
Qed.

Lemma weld_newFaces s rest opens x :
  weld s rest opens -> weld (HullState.set_newFaces x s) rest opens.
Proof. intros H. exact H. Qed.

Lemma addNewFacesLoop_weld eye rest : forall first prev s fp s',
  weld s rest (opensOf first prev) -> sideEdges first prev ->
  addNewFacesLoop eye rest first prev s = Ok (fp, s') ->
  weld s' [] (opensOf fp.1 fp.2) /\ sideEdges fp.1 fp.2.
Proof.
  induction rest as [|h rest IH]; intros first prev s fp s' Hweld Hside H; simpl in H.
  - apply ret_Ok in H as [<- <-]. auto.
  - apply bind_Ok in H as (side & s1 & Hadj & H).
    destruct (weld_adjoin _ _ _ _ _ _ _ Hweld Hadj)
      as (-> & Hn & Hweld1 & Hnf & sd0 & Lsd & Hnext & _).
    set (n := length (HullState.edgeStore s)) in *.
    apply bind_Ok in H as (sd & s0 & Hg & H). apply getEdge_Ok in Hg as [Hsd <-].
    rewrite Lsd in Hsd. injection Hsd as <-.
    apply bind_Ok in H as (first' & s2 & Hfirst & H).
    apply bind_Ok in H as (u & s3 & Hm & H). apply modify_Ok in Hm. subst s3.
    assert (Hn3 : n mod 3 = 0).
    { rewrite Hn. rewrite Nat.mul_comm. apply Nat.Div0.mod_mul. }
    assert (Hnext' : exists first'',
               first' = Some first'' /\ sideEdges first' (Some n) /\
               weld s2 rest (opensOf first' (Some n))).
    { destruct first as [f|].
      - destruct prev as [p|]; [|contradiction]. destruct Hside as [Hf Hp].
        apply bind_Ok in Hfirst as (sn & s0 & Hg & Hfirst).
        apply orRaise_Ok in Hg as [Hsn <-]. rewrite Hnext in Hsn. injection Hsn as <-.
        apply bind_Ok in Hfirst as (pv & s0 & Hg & Hfirst).
        apply orRaise_Ok in Hg as [Hpv <-]. injection Hpv as <-.
        apply bind_Ok in Hfirst as (u' & s4 & Hset & Hfirst).
        apply ret_Ok in Hfirst as [<- <-].
        destruct Hweld as (_ & _ & _ & W4 & _).
        assert (Hf1 : f + 1 < n).
        { destruct (W4 (f + 1)) as (ed & A1 & _); [simpl; rewrite !elem_of_cons; auto|].
          eapply lookup_lt_Some; eauto. }
        assert (Hp1 : p < n).
        { destruct (W4 p) as (ed & A1 & _); [simpl; rewrite !elem_of_cons; auto|].
          eapply lookup_lt_Some; eauto. }
        assert (Hfp : f + 1 <> p).
        { intros <-. rewrite Nat.Div0.add_mod, Hf in Hp. discriminate Hp. }
        exists f. split; [reflexivity|]. split; [split; assumption|].
        eapply (weld_pair (n + 1) p) in Hset as (Hw & _); [exact Hw|exact Hweld1| | | |].
        + simpl. rewrite !elem_of_cons. auto.
        + simpl. rewrite !elem_of_cons. auto.
        + lia.
        + intros e. simpl. rewrite !elem_of_cons, !elem_of_nil. lia.
      - destruct prev as [p|]; [contradiction|].
        apply ret_Ok in Hfirst as [<- <-].
        exists n. split; [reflexivity|]. split; [split; assumption|].
        eapply weld_opens; [|exact Hweld1].
        intros e. simpl. rewrite !elem_of_cons, !elem_of_nil. lia. }
    destruct Hnext' as (first'' & -> & Hside' & Hweld2).
    eapply IH; [apply weld_newFaces; exact Hweld2|exact Hside'|exact H].
Qed.

(** [addNewFaces] restores the links: afterwards every half-edge of a
    VISIBLE face has its twin again. *)
Lemma addNewFaces_linked eye horizon s u s' :
  weld s horizon [] ->
  addNewFaces eye horizon s = Ok (u, s') ->
  meshShape s' /\ twinsLinked s'.
Proof.
  intros Hweld H. unfold addNewFaces in H.
  apply bind_Ok in H as (u0 & s0 & Hm & H). apply modify_Ok in Hm. subst s0.
  apply bind_Ok in H as ([first prev] & s1 & Hloop & H).
  apply (addNewFacesLoop_weld _ _ None None) in Hloop as [Hw Hside];
    [|apply weld_newFaces; exact Hweld|exact I].
  simpl in Hw, Hside.
  apply bind_Ok in H as (f & s0 & Hg & H). apply orRaise_Ok in Hg as [Hf <-]. subst first.
  destruct prev as [p|]; [|contradiction]. destruct Hside as [Hf3 Hp3].
  apply bind_Ok in H as (fd & s0 & Hg & H). apply getEdge_Ok in Hg as [Hfd <-].
  apply bind_Ok in H as (fn & s0 & Hg & H). apply orRaise_Ok in Hg as [Hfn <-].
  apply bind_Ok in H as (pv & s0 & Hg & H). apply orRaise_Ok in Hg as [Hpv <-].
  injection Hpv as <-.
  assert (Hfn' : fn = f + 1).
  { destruct Hw as ((_ & _ & S3) & _).
    assert (E : f = 3 * (f / 3) + 0).
    { pose proof (Nat.div_mod_eq f 3) as E. rewrite Hf3 in E. exact E. }
    rewrite E in Hfd. destruct (S3 (f / 3) 0 fd ltac:(lia) Hfd) as (_ & Hnx & _).
    assert (Some fn = Some (3 * (f / 3) + 1)) by (rewrite <- Hfn, Hnx; reflexivity).
    assert (Hv : fn = 3 * (f / 3) + 1) by congruence.
    rewrite Hv. rewrite E at 2. rewrite Nat.add_0_r. reflexivity. }
  subst fn.
  apply weld_done.
  eapply (weld_pair (f + 1) p) in H as (Hw' & _); [exact Hw'|exact Hw| | | |].
  - simpl. rewrite !elem_of_cons. auto.
  - simpl. rewrite !elem_of_cons. auto.
  - intros <-. rewrite Nat.Div0.add_mod, Hf3 in Hp3. discriminate Hp3.
  - intros e. simpl. rewrite !elem_of_cons, !elem_of_nil. lia.
Qed.

Lemma faceFields_updFace f g : preserves faceFields (updFace f g).
Proof. apply preserves_updFace. reflexivity. Qed.

Lemma faceFields_vertexListRemove w v : preserves faceFields (vertexListRemove w v).
Proof.
  unfold vertexListRemove, setHead, setTail, getList.
  keeps_by ltac:(apply faceFields_updVertex; intros; reflexivity).
Qed.

Lemma faceFields_removeVertexFromFace v f : preserves faceFields (removeVertexFromFace v f).
Proof.
  unfold removeVertexFromFace.
  keeps_by ltac:(first [apply faceFields_updFace | apply faceFields_vertexListRemove]).
Qed.

Lemma faceFields_lookup s s' v nd nd' :
  faceFields s' = faceFields s ->
  HullState.vertices s !! v = Some nd -> HullState.vertices s' !! v = Some nd' ->
  VertexNode.face nd' = VertexNode.face nd.
Proof.
  unfold faceFields. intros H Hnd Hnd'. apply (map_lookup_eq _ _ _ v) in H.
  rewrite Hnd, Hnd' in H. simpl in H. congruence.
Qed.

(** One insertion keeps the shape of the mesh and the links of the
    VISIBLE faces. *)
Lemma addVertexToHull_mesh fuel v s u s' :
  meshShape s -> twinsLinked s -> onVisible s v ->
  addVertexToHull fuel v s = Ok (u, s') ->
  meshShape s' /\ twinsLinked s'.
Proof.
  intros Hshape Hlinked (nd & f & Hnd & Hf & Hvis) H. unfold addVertexToHull in H.
  apply bind_Ok in H as (u1 & s1 & Hclear & H).
  assert (Hv1 : HullState.vertices s1 = HullState.vertices s).
  { unfold vertexListClear in Hclear. apply modify_Ok in Hclear. subst s1. reflexivity. }
  apply mesh_vertexListClear in Hclear.
  apply bind_Ok in H as (ev & s0 & Hg & H). apply getVertex_Ok in Hg as [Hev <-].
  rewrite Hv1, Hnd in Hev. injection Hev as <-.
  apply bind_Ok in H as (f' & s0 & Hg & H). apply orRaise_Ok in Hg as [Hf' <-].
  rewrite Hf in Hf'. injection Hf' as <-.
  apply bind_Ok in H as (u2 & s2 & Hrem & H).
  pose proof (faceFields_removeVertexFromFace _ _ _ _ _ Hrem) as Hff.
  apply mesh_removeVertexFromFace in Hrem.
  apply bind_Ok in H as (ev & s0 & Hg & H). apply getVertex_Ok in Hg as [Hev <-].
  assert (Hface : VertexNode.face ev = Some f).
  { rewrite <- Hf. eapply (faceFields_lookup s1 s2); eauto. rewrite Hv1. exact Hnd. }
  apply bind_Ok in H as (f' & s0 & Hg & H). apply orRaise_Ok in Hg as [Hf' <-].
  rewrite Hface in Hf'. injection Hf' as <-.
  apply bind_Ok in H as (horizon & s3 & Hhor & H).
  apply bind_Ok in H as (u4 & s4 & Hadd & H).
  apply bind_Ok in H as (nf & s0 & Hg & H). apply gets_Ok in Hg as [<- <-].
  apply mesh_resolveUnassignedPoints in H.
  assert (M02 : sameMesh s s2) by (eapply sameMesh_trans; eauto).
  assert (Hshape2 : meshShape s2)
    by (eapply marksDrop_meshShape; [apply sameMesh_marksDrop|]; eauto).
  assert (Hlinked2 : twinsLinked s2) by (eapply sameMesh_twinsLinked; eauto).
  assert (Hvis2 : isVisible s2 f = true) by (rewrite (sameMesh_isVisible _ _ f M02); exact Hvis).
  destruct (horizon_sweep fuel) as [HA _].
  apply HA in Hhor as (new & Hnew & Hsw & _); [|exact Hshape2|exact I].
  simpl in Hnew. subst new.
  assert (Hweld : weld s3 horizon []).
  { eapply weld_start; [exact Hshape2|exact Hlinked2|exact Hvis2| |exact Hsw].
    intros h Hh. exact Hh. }
  destruct (addNewFaces_linked _ _ _ _ _ Hweld Hadd) as [Hshape4 Hlinked4].
  split.
  - eapply marksDrop_meshShape; [apply sameMesh_marksDrop|]; eauto.
  - eapply sameMesh_twinsLinked; eauto.
Qed.

(** ** The mesh of the seed hull *)

Lemma mesh_farthestFace vi faces d mf : respects sameMesh (farthestFace vi faces d mf).
Proof. revert d mf. induction faces; simpl; mesh_walk. Qed.
#[local] Hint Resolve mesh_farthestFace : mesh.
Lemma mesh_assignVertex v : respects sameMesh (assignVertex v).
Proof. unfold assignVertex. mesh_walk. Qed.
#[local] Hint Resolve mesh_assignVertex : mesh.
Lemma mesh_assignRemaining v0 v1 v2 v3 idxs :
  respects sameMesh (assignRemaining v0 v1 v2 v3 idxs).
Proof. induction idxs; simpl; mesh_walk. Qed.

Lemma addFacesToHull_edges faces : forall s u s',
  addFacesToHull faces s = Ok (u, s') ->
  HullState.edgeStore s' = HullState.edgeStore s.
Proof.
  induction faces as [|f rest IH]; intros s u s' H; simpl in H.
  - apply ret_Ok in H as [_ <-]. reflexivity.
  - apply bind_Ok in H as (u1 & s1 & H1 & H).
    apply bind_Ok in H as (u2 & s2 & H2 & H3). apply modify_Ok in H2. subst s2.
    apply faceCompute_inv in H1
      as (fc & a & b & c & na & nb & nc & pa & pb & pc & _ & _ & _ & _ & _ & _ & _ & _ & ->).
    apply IH in H3. exact H3.
Qed.

Lemma twinOutward_links a0 b0 c0 a1 b1 c1 a2 b2 c2 a3 b3 c3 s u sT :
  HullState.faceStore s = [] -> HullState.edgeStore s = [] ->
  twinOutward [0; 1; 2; 3] [0; 1; 2]
    (faceCreated a3 b3 c3 (faceCreated a2 b2 c2 (faceCreated a1 b1 c1
       (faceCreated a0 b0 c0 s)))) = Ok (u, sT) ->
  map HalfEdge.twin (HullState.edgeStore sT) = outwardTwins.
Proof.
  destruct s as [pts tol fs nfs asg un vs fst est]. simpl. intros -> -> H.
  vm_compute in H. injection H as _ <-. reflexivity.
Qed.

Lemma twinInward_links a0 b0 c0 a1 b1 c1 a2 b2 c2 a3 b3 c3 s u sT :
  HullState.faceStore s = [] -> HullState.edgeStore s = [] ->
  twinInward [0; 1; 2; 3] [0; 1; 2]
    (faceCreated a3 b3 c3 (faceCreated a2 b2 c2 (faceCreated a1 b1 c1
       (faceCreated a0 b0 c0 s)))) = Ok (u, sT) ->
  map HalfEdge.twin (HullState.edgeStore sT) = inwardTwins.
Proof.
  destruct s as [pts tol fs nfs asg un vs fst est]. simpl. intros -> -> H.
  vm_compute in H. injection H as _ <-. reflexivity.
Qed.

Lemma twinsLinked_from_list s L :
  meshShape s ->
  (forall f, f < length (HullState.faceStore s) -> isVisible s f = true) ->
  map HalfEdge.twin (HullState.edgeStore s) = L ->
  Forall (fun e => exists t, L !! e = Some (Some t) /\ L !! t = Some (Some e))
         (seq 0 (length L)) ->
  twinsLinked s.
Proof.
  intros Hshape Hvis HL Hall e ed He _.
  assert (Hlen : length L = length (HullState.edgeStore s))
    by (rewrite <- HL, length_map; reflexivity).
  assert (He' : e < length L) by (rewrite Hlen; eapply lookup_lt_Some; eauto).
  rewrite Forall_forall in Hall.
  destruct (Hall e) as (t & H1 & H2); [apply elem_of_seq; lia|].
  rewrite <- HL, list_lookup_fmap, He in H1. simpl in H1.
  rewrite <- HL, list_lookup_fmap in H2.
  destruct (HullState.edgeStore s !! t) as [td|] eqn:Htd; [|discriminate].
  simpl in H2. exists t, td. repeat split; try congruence.
  apply Hvis. eapply meshShape_face_lt; eauto.
Qed.

Lemma meshShape_seed s ts :
  edgeSkeleton s = trianglesShape 0 ts -> length ts = 4 ->
  faceSkeleton s = [ (VISIBLE, Some 0, None); (VISIBLE, Some 3, None);
                     (VISIBLE, Some 6, None); (VISIBLE, Some 9, None) ] ->
  meshShape s /\
  (forall f, f < length (HullState.faceStore s) -> isVisible s f = true).
Proof.
  intros Hes Hlen Hfs.
  destruct ts as [|[[a0 b0] c0] [|[[a1 b1] c1] [|[[a2 b2] c2] [|[[a3 b3] c3] [|]]]]];
    try discriminate.
  assert (LE : length (HullState.edgeStore s) = 12).
  { apply (f_equal length) in Hes. unfold edgeSkeleton in Hes.
    rewrite length_map in Hes. exact Hes. }
  assert (LF : length (HullState.faceStore s) = 4).
  { apply (f_equal length) in Hfs. unfold faceSkeleton in Hfs.
    rewrite length_map in Hfs. exact Hfs. }
  split; [split; [|split]|].
  - rewrite LE, LF. reflexivity.
  - intros f fc Hfc.
    assert (Hsk : faceSkeleton s !! f = Some (faceShape fc))
      by (unfold faceSkeleton; rewrite list_lookup_fmap, Hfc; reflexivity).
    rewrite Hfs in Hsk.
    destruct f as [|[|[|[|f]]]]; simpl in Hsk; try discriminate;
      injection Hsk as _ <- _; reflexivity.
  - intros k i ed Hi He.
    assert (Hsk : edgeSkeleton s !! (3 * k + i) = Some (edgeShape ed))
      by (unfold edgeSkeleton; rewrite list_lookup_fmap, He; reflexivity).
    rewrite Hes in Hsk. apply lookup_lt_Some in He. rewrite LE in He.
    destruct k as [|[|[|[|k]]]]; try lia;
      destruct i as [|[|[|i]]]; try lia;
      simpl in Hsk; injection Hsk as _ <- <- <-; repeat split.
  - intros f Hf. rewrite LF in Hf.
    assert (Hsk : faceSkeleton s !! f
                  = faceShape <$> HullState.faceStore s !! f)
      by (unfold faceSkeleton; apply list_lookup_fmap).
    rewrite Hfs in Hsk. unfold isVisible.
    destruct (HullState.faceStore s !! f) as [fc|];
      destruct f as [|[|[|[|f]]]]; try lia; simpl in Hsk; try discriminate;
      injection Hsk as <- _ _; reflexivity.
Qed.

Lemma seed_build_run (tw : list ref -> list nat -> M unit)
    a0 b0 c0 a1 b1 c1 a2 b2 c2 a3 b3 c3 s faces sT :
  HullState.faceStore s = [] ->
  (fa <- faceCreate a0 b0 c0 ;;
   fb <- faceCreate a1 b1 c1 ;;
   fc <- faceCreate a2 b2 c2 ;;
   fd <- faceCreate a3 b3 c3 ;;
   tw [fa; fb; fc; fd] [0; 1; 2] ;;
   ret [fa; fb; fc; fd]) s = Ok (faces, sT) ->
  exists u, tw [0; 1; 2; 3] [0; 1; 2]
              (faceCreated a3 b3 c3 (faceCreated a2 b2 c2 (faceCreated a1 b1 c1
                 (faceCreated a0 b0 c0 s)))) = Ok (u, sT).
Proof.
  intros Hfs H.
  rewrite (bind_run _ _ _ _ _ (faceCreate_run _ _ _ _)) in H.
  rewrite (bind_run _ _ _ _ _ (faceCreate_run _ _ _ _)) in H.
  rewrite (bind_run _ _ _ _ _ (faceCreate_run _ _ _ _)) in H.
  rewrite (bind_run _ _ _ _ _ (faceCreate_run _ _ _ _)) in H.
  rewrite !length_faceStore_faceCreated, Hfs in H. simpl length in H.
  apply bind_Ok in H as (u & s1 & H1 & H2). apply ret_Ok in H2 as [_ <-].
  exists u. exact H1.
Qed.

Lemma outwardTwins_linked :
  Forall (fun e => exists t, outwardTwins !! e = Some (Some t) /\
                             outwardTwins !! t = Some (Some e))
         (seq 0 (length outwardTwins)).
Proof. repeat constructor; eexists; split; reflexivity. Qed.

Lemma inwardTwins_linked :
  Forall (fun e => exists t, inwardTwins !! e = Some (Some t) /\
                             inwardTwins !! t = Some (Some e))
         (seq 0 (length inwardTwins)).
Proof. repeat constructor; eexists; split; reflexivity. Qed.

(** The seed hull has the shape of a mesh, and all its half-edges are
    linked to their twins. *)
Lemma computeInitialHull_links points s0 :
  computeInitialHull (createHullState points) = Ok (tt, s0) ->
  meshShape s0 /\ twinsLinked s0.
Proof.
  unfold computeInitialHull. intros H.
  apply bind_Ok in H as (ex & s1 & Hex & H).
  apply computeExtremes_inv in Hex. subst s1.
  set (s1 := HullState.set_tolerance _ _) in *.
  assert (Hempty : meshShape s1 /\ twinsLinked s1).
  { split.
    - split; [reflexivity|]. split.
      + intros f fc Hf. discriminate Hf.
      + intros k i ed _ He. discriminate He.
    - intros e ed He. discriminate He. }
  apply bind_Ok in H as (pts & s2 & H1 & H). apply gets_Ok in H1 as [<- <-].
  apply bind_Ok in H as (vs & s2 & H1 & H). apply gets_Ok in H1 as [<- <-].
  apply bind_Ok in H as (index & s2 & H1 & H). apply orRaise_Ok in H1 as [Hsep <-].
  apply bind_Ok in H as (ov2 & s2 & H1 & H). apply orRaise_Ok in H1 as [Hv2 <-].
  destruct ov2 as [v2|]; [|apply ret_Ok in H as [_ <-]; exact Hempty].
  apply bind_Ok in H as (n0 & s2 & H1 & H). apply getVertex_Ok in H1 as [Hn0 <-].
  apply bind_Ok in H as (n1 & s2 & H1 & H). apply getVertex_Ok in H1 as [Hn1 <-].
  apply bind_Ok in H as (n2 & s2 & H1 & H). apply getVertex_Ok in H1 as [Hn2 <-].
  apply bind_Ok in H as ([normal offset] & s2 & H1 & H).
  apply orRaise_Ok in H1 as [Hplane <-].
  apply bind_Ok in H as (ov3 & s2 & H1 & H). apply orRaise_Ok in H1 as [Hv3 <-].
  destruct ov3 as [v3|]; [|apply ret_Ok in H as [_ <-]; exact Hempty].
  apply bind_Ok in H as (n3 & s2 & H1 & H). apply getVertex_Ok in H1 as [Hn3 <-].
  apply bind_Ok in H as (d3 & s2 & H1 & H). apply orRaise_Ok in H1 as [Hd3 <-].
  apply bind_Ok in H as (faces & sT & Hbuild & H).
  apply bind_Ok in H as (u & sB & Hadd & Hassign).
  apply mesh_assignRemaining in Hassign.
  set (v0 := get3 index (minVertices ex)) in *.
  set (v1 := get3 index (maxVertices ex)) in *.
  assert (HB : meshShape sB /\ twinsLinked sB).
  { pose proof (addFacesToHull_edges _ _ _ _ Hadd) as HE.
    assert (Hfs1 : HullState.faceStore s1 = []) by reflexivity.
    destruct (d3 <? 0)%float.
    - pose proof (seed_build_run twinOutward _ _ _ _ _ _ _ _ _ _ _ _ _ _ _ Hfs1 Hbuild)
        as [u' Hrun].
      apply twinOutward_links in Hrun; [|reflexivity|reflexivity].
      eapply (seed_faces_built twinOutward) with (points := points) in Hbuild
        as (B1 & B2 & _);
        [| reflexivity | reflexivity | reflexivity | reflexivity | reflexivity
         | apply seed_twinOutward | apply faceStore_twinOutward | exact Hadd].
      destruct (meshShape_seed _ _ B1 eq_refl B2) as [Hshape Hvis].
      split; [exact Hshape|].
      eapply twinsLinked_from_list; [exact Hshape|exact Hvis| |exact outwardTwins_linked].
      rewrite HE. exact Hrun.
    - pose proof (seed_build_run twinInward _ _ _ _ _ _ _ _ _ _ _ _ _ _ _ Hfs1 Hbuild)
        as [u' Hrun].
      apply twinInward_links in Hrun; [|reflexivity|reflexivity].
      eapply (seed_faces_built twinInward) with (points := points) in Hbuild
        as (B1 & B2 & _);
        [| reflexivity | reflexivity | reflexivity | reflexivity | reflexivity
         | apply seed_twinInward | apply faceStore_twinInward | exact Hadd].
      destruct (meshShape_seed _ _ B1 eq_refl B2) as [Hshape Hvis].
      split; [exact Hshape|].
      eapply twinsLinked_from_list; [exact Hshape|exact Hvis| |exact inwardTwins_linked].
      rewrite HE. exact Hrun. }
  destruct HB as [Hshape Hlinked]. split.
  - eapply marksDrop_meshShape; [apply sameMesh_marksDrop|]; eauto.
  - eapply sameMesh_twinsLinked; eauto.
Qed.

(** In a mesh every half-edge lies on a closed cycle of three: [next]
    taken three times comes back, [prev] undoes [next], the three
    half-edges differ and are exactly those of their face. *)
Lemma meshShape_cycle s e :
  meshShape s -> e < length (HullState.edgeStore s) ->
  exists f e1 e2,
    nextOf s e = Some e1 /\ nextOf s e1 = Some e2 /\ nextOf s e2 = Some e /\
    prevOf s e1 = Some e /\ prevOf s e2 = Some e1 /\ prevOf s e = Some e2 /\
    e1 <> e /\ e2 <> e /\ e1 <> e2 /\
    edgeOf s f = Some (3 * f) /\
    forall x, faceOf s x = Some f <-> x = e \/ x = e1 \/ x = e2.
Proof.
  intros Hshape He. pose proof Hshape as (S1 & S2 & S3).
  set (k := e / 3). set (i := e mod 3).
  assert (Hi : i < 3) by (apply Nat.mod_upper_bound; lia).
  assert (Ee : e = 3 * k + i) by apply Nat.div_mod_eq.
  assert (Hk : k < length (HullState.faceStore s)) by lia.
  assert (Hget : forall j, j < 3 -> exists ed,
             HullState.edgeStore s !! (3 * k + j) = Some ed /\
             HalfEdge.face ed = k /\
             HalfEdge.next ed = Some (3 * k + (j + 1) mod 3) /\
             HalfEdge.prev ed = Some (3 * k + (j + 2) mod 3)).
  { intros j Hj.
    destruct (lookup_lt_is_Some_2 (HullState.edgeStore s) (3 * k + j)) as [ed Hed]; [lia|].
    exists ed. split; [exact Hed|]. apply (S3 _ _ _ Hj Hed). }
  assert (Hfc : exists fc, HullState.faceStore s !! k = Some fc).
  { apply lookup_lt_is_Some_2. exact Hk. }
  destruct Hfc as [fc Hfc].
  assert (Hj1 : (i + 1) mod 3 < 3) by (apply Nat.mod_upper_bound; lia).
  assert (Hj2 : (i + 2) mod 3 < 3) by (apply Nat.mod_upper_bound; lia).
  destruct (Hget i Hi) as (ed & L0 & F0 & N0 & P0).
  destruct (Hget _ Hj1) as (ed1 & L1 & F1 & N1 & P1).
  destruct (Hget _ Hj2) as (ed2 & L2 & F2 & N2 & P2).
  assert (A1 : ((i + 1) mod 3 + 1) mod 3 = (i + 2) mod 3 /\
               ((i + 2) mod 3 + 1) mod 3 = i /\
               ((i + 1) mod 3 + 2) mod 3 = i /\
               ((i + 2) mod 3 + 2) mod 3 = (i + 1) mod 3 /\
               (i + 1) mod 3 <> i /\ (i + 2) mod 3 <> i /\
               (i + 1) mod 3 <> (i + 2) mod 3).
  { clear - Hi. destruct i as [|[|[|i]]]; try lia; repeat split; discriminate. }
  destruct A1 as (B1 & B2 & B3 & B4 & B5 & B6 & B7).
  rewrite B1 in N1. rewrite B2 in N2. rewrite B3 in P1. rewrite B4 in P2.
  assert (D1 : 3 * k + (i + 1) mod 3 <> 3 * k + i) by lia.
  assert (D2 : 3 * k + (i + 2) mod 3 <> 3 * k + i) by lia.
  assert (D3 : 3 * k + (i + 1) mod 3 <> 3 * k + (i + 2) mod 3) by lia.
  assert (Hcases : forall j, j < 3 -> j = i \/ j = (i + 1) mod 3 \/ j = (i + 2) mod 3).
  { clear - Hi. intros j Hj. destruct i as [|[|[|i]]]; try lia;
      destruct j as [|[|[|j]]]; try lia; simpl; auto. }
  set (e1 := 3 * k + (i + 1) mod 3) in *. set (e2 := 3 * k + (i + 2) mod 3) in *.
  rewrite Ee. set (e0 := 3 * k + i) in *.
  exists k, e1, e2.
  split; [unfold nextOf; rewrite L0; exact N0|].
  split; [unfold nextOf; rewrite L1; exact N1|].
  split; [unfold nextOf; rewrite L2; exact N2|].
  split; [unfold prevOf; rewrite L1; exact P1|].
  split; [unfold prevOf; rewrite L2; exact P2|].
  split; [unfold prevOf; rewrite L0; exact P0|].
  split; [exact D1|]. split; [exact D2|]. split; [exact D3|].
  split; [unfold edgeOf; rewrite Hfc; exact (S2 _ _ Hfc)|].
  intros x. unfold faceOf. split.
  - intros Hx. destruct (HullState.edgeStore s !! x) as [xd|] eqn:Hxd; [|discriminate].
    injection Hx as Hx.
    destruct (meshShape_edge _ _ _ Hshape Hxd) as (j & Hj & -> & _). rewrite Hx.
    destruct (Hcases j Hj) as [-> | [-> | ->]]; auto.
  - intros [-> | [-> | ->]]; [rewrite L0|rewrite L1|rewrite L2]; simpl; congruence.
Qed.

(** [faceCreate] always succeeds; the face it makes owns three fresh
    half-edges, linked by [next] and [prev] into a closed cycle of three,
    and it extends a mesh to a mesh. *)
Lemma faceCreate_cycle a b c s :
  let k := length (HullState.faceStore s) in
  let e := length (HullState.edgeStore s) in
  exists s', faceCreate a b c s = Ok (k, s') /\
    length (HullState.edgeStore s') = e + 3 /\
    (forall x, x < e -> HullState.edgeStore s' !! x = HullState.edgeStore s !! x) /\
    edgeOf s' k = Some e /\
    nextOf s' e = Some (e + 1) /\ nextOf s' (e + 1) = Some (e + 2) /\
    nextOf s' (e + 2) = Some e /\
    prevOf s' (e + 1) = Some e /\ prevOf s' (e + 2) = Some (e + 1) /\
    prevOf s' e = Some (e + 2) /\
    faceOf s' e = Some k /\ faceOf s' (e + 1) = Some k /\ faceOf s' (e + 2) = Some k /\
    twinOf s' e = None /\ twinOf s' (e + 1) = None /\ twinOf s' (e + 2) = None /\
    (meshShape s -> meshShape s').
Proof.
  intros k e. exists (faceCreated a b c s). split; [apply faceCreate_run|].
  assert (E' : HullState.edgeStore (faceCreated a b c s)
               = HullState.edgeStore s ++
                   [ HalfEdge.mk a (Some (e + 2)) (Some (e + 1)) None k;
                     HalfEdge.mk b (Some e) (Some (e + 2)) None k;
                     HalfEdge.mk c (Some (e + 1)) (Some e) None k ]) by reflexivity.
  assert (F' : HullState.faceStore (faceCreated a b c s)
               = HullState.faceStore s ++ [Face.set_edge (Some e) createFace])
    by reflexivity.
  assert (L0 : HullState.edgeStore (faceCreated a b c s) !! e
               = Some (HalfEdge.mk a (Some (e + 2)) (Some (e + 1)) None k)).
  { rewrite E', lookup_app_r, Nat.sub_diag by (fold e; lia). reflexivity. }
  assert (L1 : HullState.edgeStore (faceCreated a b c s) !! (e + 1)
               = Some (HalfEdge.mk b (Some e) (Some (e + 2)) None k)).
  { rewrite E'. unfold e. rewrite lookup_fresh. reflexivity. }
  assert (L2 : HullState.edgeStore (faceCreated a b c s) !! (e + 2)
               = Some (HalfEdge.mk c (Some (e + 1)) (Some e) None k)).
  { rewrite E'. unfold e. rewrite lookup_fresh. reflexivity. }
  assert (Lold : forall x, x < e ->
             HullState.edgeStore (faceCreated a b c s) !! x = HullState.edgeStore s !! x).
  { intros x Hx. rewrite E'. apply lookup_app_l. exact Hx. }
  assert (Lk : HullState.faceStore (faceCreated a b c s) !! k
               = Some (Face.set_edge (Some e) createFace)).
  { rewrite F', lookup_app_r, Nat.sub_diag by (fold k; lia). reflexivity. }
  split; [rewrite E', length_app; reflexivity|]. split; [exact Lold|].
  unfold edgeOf, nextOf, prevOf, faceOf, twinOf. rewrite Lk, L0, L1, L2.
  do 13 (split; [reflexivity|]).
  intros (S1 & S2 & S3). fold e k in S1. split; [|split].
  - rewrite E', F', !length_app. simpl. fold e k. lia.
  - intros f fc Hfc. rewrite F' in Hfc.
    destruct (decide (f < k)) as [Hlt|Hge].
    + rewrite lookup_app_l in Hfc by exact Hlt. eauto.
    + assert (f = k).
      { apply lookup_lt_Some in Hfc. rewrite length_app in Hfc. simpl in Hfc.
        fold k in Hfc. lia. }
      subst f. rewrite lookup_app_r, Nat.sub_diag in Hfc by (fold k; lia).
      injection Hfc as <-. simpl. f_equal. lia.
  - intros k' i ed Hi He.
    destruct (decide (3 * k' + i < e)) as [Hlt|Hge].
    + rewrite Lold in He by exact Hlt. apply (S3 _ _ _ Hi He).
    + assert (Hlt' : 3 * k' + i < e + 3).
      { apply lookup_lt_Some in He. rewrite E', length_app in He. simpl in He.
        fold e in He. lia. }
      assert (k' = k) by lia. subst k'.
      destruct i as [|[|[|i]]]; try lia.
      * replace (3 * k + 0) with e in * by lia. rewrite L0 in He. injection He as <-.
        simpl. repeat split; f_equal; lia.
      * replace (3 * k + 1) with (e + 1) in * by lia. rewrite L1 in He. injection He as <-.
        simpl. repeat split; f_equal; lia.
      * replace (3 * k + 2) with (e + 2) in * by lia. rewrite L2 in He. injection He as <-.
        simpl. repeat split; f_equal; lia.
Qed.

(** ** Which vertices wait outside which face *)

Lemma linksOnly_refl w s : linksOnly w s s.
Proof. repeat split. Qed.

Lemma linksOnly_trans w s1 s2 s3 : linksOnly w s1 s2 -> linksOnly w s2 s3 -> linksOnly w s1 s3.
Proof.
  intros (A1 & A2 & A3 & A4 & A5 & A6 & A7) (B1 & B2 & B3 & B4 & B5 & B6 & B7).
  repeat split; congruence.
Qed.

Lemma linksOnly_updVertex w x g :
  (forall nd, VertexNode.face (g nd) = VertexNode.face nd) ->
  respects (linksOnly w) (updVertex x g).
Proof.
  intros Hg. apply respects_updVertex. intros s nd Hnd.
  split.
  { unfold faceFields. simpl. eapply map_insert_same; eauto. }
  split; [simpl; apply length_insert|].
  split; [destruct w; reflexivity|]. repeat split.
Qed.

Ltac links_leaf :=
  first
    [ apply linksOnly_updVertex; intros; reflexivity
    | apply respects_modify; intros [? ? ? ? ? ? ? ? ?]; repeat split
    | solve [eauto] ].

Ltac links_walk w :=
  pose proof (linksOnly_refl w) as Hrefl;
  pose proof (linksOnly_trans w) as Htrans;
  walk_by links_leaf.

Lemma links_vertexListAppend w v : respects (linksOnly w) (vertexListAppend w v).
Proof. unfold vertexListAppend, getList, setHead, setTail. destruct w; [links_walk Assigned|links_walk Unassigned]. Qed.
Lemma links_findEndOfChain w fuel v : respects (linksOnly w) (findEndOfChain fuel v).
Proof. revert v. induction fuel; simpl; links_walk w. Qed.
Lemma links_vertexListAppendChain fuel w v :
  respects (linksOnly w) (vertexListAppendChain fuel w v).
Proof.
  unfold vertexListAppendChain, getList, setHead, setTail.
  pose proof (links_findEndOfChain w).
  destruct w; [links_walk Assigned|links_walk Unassigned].
Qed.
Lemma links_vertexListInsertBefore w t v :
  respects (linksOnly w) (vertexListInsertBefore w t v).
Proof.
  unfold vertexListInsertBefore, setHead, setTail.
  destruct w; [links_walk Assigned|links_walk Unassigned].
Qed.
Lemma links_vertexListRemove w v : respects (linksOnly w) (vertexListRemove w v).
Proof.
  unfold vertexListRemove, setHead, setTail.
  destruct w; [links_walk Assigned|links_walk Unassigned].
Qed.
Lemma links_vertexListRemoveSubList w a b :
  respects (linksOnly w) (vertexListRemoveSubList w a b).
Proof.
  unfold vertexListRemoveSubList, setHead, setTail.
  destruct w; [links_walk Assigned|links_walk Unassigned].
Qed.

(** Determinism in use: a run that is known answers what it answers. *)
Lemma run_agrees {A} (m : M A) s a s' b s'' :
  m s = Ok (a, s') -> m s = Ok (b, s'') -> b = a /\ s'' = s'.
Proof. intros H1 H2. rewrite H1 in H2. injection H2 as <- <-. auto. Qed.

Lemma nodesKept_refl X s : nodesKept X s s.
Proof. intros x _. reflexivity. Qed.

Lemma nodesKept_trans X s1 s2 s3 :
  nodesKept X s1 s2 -> nodesKept X s2 s3 -> nodesKept X s1 s3.
Proof. intros H1 H2 x Hx. rewrite H2, H1 by exact Hx. reflexivity. Qed.

Lemma nodesKept_weaken X Y s s' :
  (forall x, x ∈ X -> x ∈ Y) -> nodesKept X s s' -> nodesKept Y s s'.
Proof. intros Hsub H x Hx. apply H. intros Hin. apply Hx, Hsub, Hin. Qed.

Lemma nodesKept_updVertex X x g :
  x ∈ X -> respects (nodesKept X) (updVertex x g).
Proof.
  intros Hx. apply respects_updVertex. intros s nd Hnd y Hy. simpl.
  apply list_lookup_insert_ne. intros ->. contradiction.
Qed.

Lemma nodesKept_modify_list X w f :
  respects (nodesKept X) (modify (fun s => HullState.setList w (f s) s)).
Proof.
  apply respects_modify. intros s x _. rewrite vertices_setList. reflexivity.
Qed.

Lemma listOk_tail_in s w xs t :
  listOk s w xs -> VertexList.tail (HullState.getList w s) = Some t -> t ∈ xs.
Proof.
  intros (_ & _ & Ht & _) H. rewrite Ht in H.
  apply last_snoc_inv in H as [pre ->]. apply elem_of_app. right. constructor.
Qed.

Lemma segment_prev_in vs xs : forall p n x nd y,
  segment vs p xs n -> x ∈ xs -> vs !! x = Some nd ->
  VertexNode.prev nd = Some y -> y ∈ xs \/ p = Some y.
Proof.
  induction xs as [|z rest IH]; intros p n x nd y Hseg Hx Hnd Hp.
  - apply elem_of_nil in Hx. contradiction.
  - simpl in Hseg. destruct Hseg as (nz & Hnz & Hpz & Hnx & Hrest).
    apply elem_of_cons in Hx as [->|Hx].
    + right. congruence.
    + destruct (IH _ _ _ _ _ Hrest Hx Hnd Hp) as [Hin|Heq].
      * left. right. exact Hin.
      * left. injection Heq as <-. left.
Qed.

Lemma segment_next_in vs xs : forall p n x nd y,
  segment vs p xs n -> x ∈ xs -> vs !! x = Some nd ->
  VertexNode.next nd = Some y -> y ∈ xs \/ n = Some y.
Proof.
  induction xs as [|z rest IH]; intros p n x nd y Hseg Hx Hnd Hn.
  - apply elem_of_nil in Hx. contradiction.
  - simpl in Hseg. destruct Hseg as (nz & Hnz & Hpz & Hnx & Hrest).
    apply elem_of_cons in Hx as [->|Hx].
    + assert (nz = nd) by congruence. subst nz. rewrite Hn in Hnx.
      destruct rest as [|r rest']; simpl in Hnx.
      * right. congruence.
      * left. right. injection Hnx as <-. left.
    + destruct (IH _ _ _ _ _ Hrest Hx Hnd Hn) as [Hin|Heq];
        [left; right; exact Hin|right; exact Heq].
Qed.

Lemma nodesKept_setHead X w h : respects (nodesKept X) (setHead w h).
Proof.
  apply respects_modify. intros s x _. rewrite vertices_setList. reflexivity.
Qed.

Lemma nodesKept_setTail X w h : respects (nodesKept X) (setTail w h).
Proof.
  apply respects_modify. intros s x _. rewrite vertices_setList. reflexivity.
Qed.

Lemma vertexListAppend_kept w v s u s' xs :
  listOk s w xs -> vertexListAppend w v s = Ok (u, s') -> nodesKept (v :: xs) s s'.
Proof.
  intros Hok H. unfold vertexListAppend in H.
  apply bind_Ok in H as (l & s0 & Hg & H). apply gets_Ok in Hg as [<- <-].
  apply bind_Ok in H as (u1 & s1 & H1 & H).
  assert (K1 : nodesKept (v :: xs) s s1).
  { destruct (VertexList.head (HullState.getList w s)).
    - apply bind_Ok in H1 as (tl & s0 & Hg & H1). apply orRaise_Ok in Hg as [Htl <-].
      eapply nodesKept_updVertex; [|exact H1]. right. eapply listOk_tail_in; eauto.
    - eapply nodesKept_setHead. exact H1. }
  apply bind_Ok in H as (l' & s0 & Hg & H). apply gets_Ok in Hg as [<- <-].
  apply bind_Ok in H as (u2 & s2 & H2 & H).
  apply bind_Ok in H as (u3 & s3 & H3 & H4).
  eapply nodesKept_trans; [exact K1|].
  eapply nodesKept_trans; [eapply nodesKept_updVertex; [left|exact H2]|].
  eapply nodesKept_trans; [eapply nodesKept_updVertex; [left|exact H3]|].
  eapply nodesKept_setTail. exact H4.
Qed.

Lemma findEndOfChain_same fuel : forall v s r s',
  findEndOfChain fuel v s = Ok (r, s') -> s' = s.
Proof.
  induction fuel as [|fuel IH]; intros v s r s' H; simpl in H.
  all: apply bind_Ok in H as (nd & s0 & Hg & H); apply getVertex_Ok in Hg as [Hnd <-].
  all: destruct (VertexNode.next nd); try discriminate.
  all: try (apply ret_Ok in H as [_ <-]; reflexivity).
  eapply IH; eauto.
Qed.

Lemma vertexListAppendChain_kept fuel w v s u s' xs :
  listOk s w xs -> vertexListAppendChain fuel w v s = Ok (u, s') ->
  nodesKept (v :: xs) s s'.
Proof.
  intros Hok H. unfold vertexListAppendChain in H.
  apply bind_Ok in H as (l & s0 & Hg & H). apply gets_Ok in Hg as [<- <-].
  apply bind_Ok in H as (u1 & s1 & H1 & H).
  assert (K1 : nodesKept (v :: xs) s s1).
  { destruct (VertexList.head (HullState.getList w s)).
    - apply bind_Ok in H1 as (tl & s0 & Hg & H1). apply orRaise_Ok in Hg as [Htl <-].
      eapply nodesKept_updVertex; [|exact H1]. right. eapply listOk_tail_in; eauto.
    - eapply nodesKept_setHead. exact H1. }
  apply bind_Ok in H as (l' & s0 & Hg & H). apply gets_Ok in Hg as [<- <-].
  apply bind_Ok in H as (u2 & s2 & H2 & H).
  apply bind_Ok in H as (c & s3 & H3 & H4).
  apply findEndOfChain_same in H3. subst s3.
  eapply nodesKept_trans; [exact K1|].
  eapply nodesKept_trans; [eapply nodesKept_updVertex; [left|exact H2]|].
  eapply nodesKept_setTail. exact H4.
Qed.

Lemma updVertex_Ok x g s u s' :
  updVertex x g s = Ok (u, s') ->
  exists nd, HullState.vertices s !! x = Some nd /\
             s' = HullState.set_vertices (<[x := g nd]> (HullState.vertices s)) s.
Proof.
  intros H. unfold updVertex in H.
  apply bind_Ok in H as (nd & s0 & Hg & Hm). apply getVertex_Ok in Hg as [Hnd <-].
  apply modify_Ok in Hm. eauto.
Qed.

Lemma vertexListInsertBefore_kept w t v s u s' xs :
  listOk s w xs -> t ∈ xs -> vertexListInsertBefore w t v s = Ok (u, s') ->
  nodesKept (v :: xs) s s'.
Proof.
  intros Hok Ht H. unfold vertexListInsertBefore in H.
  apply bind_Ok in H as (tg & s0 & Hg & H). apply getVertex_Ok in Hg as [Htg <-].
  apply bind_Ok in H as (u1 & s1 & H1 & H).
  apply bind_Ok in H as (u2 & s2 & H2 & H).
  apply bind_Ok in H as (vx & s0 & Hg & H). apply getVertex_Ok in Hg as [Hvx <-].
  apply bind_Ok in H as (u3 & s3 & H3 & H4).
  assert (Hprev : VertexNode.prev vx = VertexNode.prev tg).
  { apply updVertex_Ok in H1 as (n1 & Hn1 & ->).
    apply updVertex_Ok in H2 as (n2 & Hn2 & ->). simpl in *.
    assert (Hlt : v < length (HullState.vertices s)) by (eapply lookup_lt_Some; eauto).
    rewrite list_lookup_insert_eq in Hn2 by exact Hlt. injection Hn2 as <-.
    rewrite list_lookup_insert_eq in Hvx by (rewrite length_insert; exact Hlt).
    injection Hvx as <-. reflexivity. }
  eapply nodesKept_trans; [eapply nodesKept_updVertex; [left|exact H1]|].
  eapply nodesKept_trans; [eapply nodesKept_updVertex; [left|exact H2]|].
  eapply nodesKept_trans; [|eapply nodesKept_updVertex; [right; exact Ht|exact H4]].
  destruct (VertexNode.prev vx) as [p|] eqn:Hp.
  - eapply nodesKept_updVertex; [|exact H3]. right.
    destruct Hok as (_ & _ & _ & Hseg).
    destruct (segment_prev_in _ _ _ _ _ _ _ Hseg Ht Htg (eq_sym Hprev)) as [Hin|Hbad];
      [exact Hin|discriminate].
  - eapply nodesKept_setHead. exact H3.
Qed.

Lemma vertexListRemove_kept w v s u s' xs :
  listOk s w xs -> v ∈ xs -> vertexListRemove w v s = Ok (u, s') -> nodesKept xs s s'.
Proof.
  intros Hok Hv H. unfold vertexListRemove in H.
  destruct Hok as (_ & _ & _ & Hseg).
  apply bind_Ok in H as (vx & s0 & Hg & H). apply getVertex_Ok in Hg as [Hvx <-].
  apply bind_Ok in H as (u1 & s1 & H1 & H).
  apply bind_Ok in H as (vx' & s0 & Hg & H). apply getVertex_Ok in Hg as [Hvx' <-].
  assert (K1 : nodesKept xs s s1 /\ VertexNode.next vx' = VertexNode.next vx
               /\ VertexNode.prev vx' = VertexNode.prev vx).
  { destruct (VertexNode.prev vx) as [p|] eqn:Hp.
    - split.
      + eapply nodesKept_updVertex; [|exact H1].
        destruct (segment_prev_in _ _ _ _ _ _ _ Hseg Hv Hvx Hp) as [Hin|Hbad];
          [exact Hin|discriminate].
      + apply updVertex_Ok in H1 as (pn & Hpn & ->). simpl in Hvx'.
        destruct (decide (p = v)) as [->|Hne].
        * rewrite list_lookup_insert_eq in Hvx' by (eapply lookup_lt_Some; eauto).
          injection Hvx' as <-. simpl.
          assert (pn = vx) by congruence. subst pn. auto.
        * rewrite list_lookup_insert_ne in Hvx' by exact Hne.
          assert (vx' = vx) by congruence. subst vx'. auto.
    - unfold setHead in H1. apply modify_Ok in H1. subst s1.
      rewrite vertices_setList in Hvx'.
      assert (vx' = vx) by congruence. subst vx'.
      split; [intros x _; rewrite vertices_setList; reflexivity|auto]. }
  destruct K1 as (K1 & Hnext & Hprev).
  eapply nodesKept_trans; [exact K1|].
  destruct (VertexNode.next vx') as [n|] eqn:Hn.
  - eapply nodesKept_updVertex; [|exact H].
    destruct (segment_next_in _ _ _ _ _ _ _ Hseg Hv Hvx (eq_sym Hnext)) as [Hin|Hbad];
      [exact Hin|discriminate].
  - eapply nodesKept_setTail. exact H.
Qed.

Lemma lastOr_None_in (xs : list ref) p : lastOr xs None = Some p -> p ∈ xs.
Proof.
  unfold lastOr. destruct (last xs) as [x|] eqn:E; [|discriminate].
  intros [= <-]. apply last_snoc_inv in E as [pre ->].
  apply elem_of_app. right. constructor.
Qed.

Lemma firstOr_None_in (xs : list ref) n : firstOr xs None = Some n -> n ∈ xs.
Proof. destruct xs; simpl; [discriminate|]. intros [= <-]. constructor. Qed.

Lemma vertexListRemoveSubList_kept w a b s u s' pre mid post :
  listOk s w (pre ++ mid ++ post) -> head mid = Some a -> last mid = Some b ->
  vertexListRemoveSubList w a b s = Ok (u, s') -> nodesKept (pre ++ post) s s'.
Proof.
  intros (Hnd & _ & _ & Hseg) Ha Hb H.
  apply segment_app in Hseg as [Hpre Hrest].
  apply segment_app in Hrest as [Hmid Hpost].
  destruct mid as [|a' mid']; [discriminate|]. injection Ha as ->.
  destruct (segment_first_node _ _ _ _ _ Hmid) as (na & Hna & Hpa & _).
  apply last_snoc_inv in Hb as [m' Hm']. rewrite Hm' in Hmid.
  destruct (segment_last_node _ _ _ _ _ Hmid) as (nb & Hnb & _ & Hxb).
  assert (Ha_mid : a ∈ m' ++ [b]) by (rewrite <- Hm'; constructor).
  assert (Hb_mid : b ∈ m' ++ [b]) by (apply elem_of_app; right; constructor).
  rewrite Hm' in Hnd. apply NoDup_app in Hnd as (_ & Hdis & _).
  unfold vertexListRemoveSubList in H.
  apply bind_Ok in H as (na0 & s0 & Hg & H). apply getVertex_Ok in Hg as [Hna0 <-].
  apply bind_Ok in H as (nb0 & s0 & Hg & H). apply getVertex_Ok in Hg as [Hnb0 <-].
  assert (na0 = na) by congruence. assert (nb0 = nb) by congruence. subst na0 nb0.
  apply bind_Ok in H as (u1 & s1 & H1 & H).
  apply bind_Ok in H as (na1 & s0 & Hg & H). apply getVertex_Ok in Hg as [Hna1 <-].
  apply bind_Ok in H as (nb1 & s0 & Hg & H). apply getVertex_Ok in Hg as [Hnb1 <-].
  assert (K1 : nodesKept (pre ++ post) s s1 /\ na1 = na /\ nb1 = nb).
  { destruct (VertexNode.prev na) as [p|] eqn:Hp.
    - symmetry in Hpa. apply lastOr_None_in in Hpa.
      assert (p <> a) by (intros ->; apply (Hdis a Hpa); apply elem_of_app; auto).
      assert (p <> b) by (intros ->; apply (Hdis b Hpa); apply elem_of_app; auto).
      split.
      + eapply nodesKept_updVertex; [|exact H1]. apply elem_of_app. auto.
      + apply updVertex_Ok in H1 as (pn & Hpn & ->). simpl in *.
        rewrite list_lookup_insert_ne in Hna1, Hnb1 by assumption.
        split; congruence.
    - unfold setHead in H1. apply modify_Ok in H1. subst s1.
      rewrite vertices_setList in Hna1, Hnb1.
      split; [intros x _; rewrite vertices_setList; reflexivity|split; congruence]. }
  destruct K1 as (K1 & -> & ->).
  eapply nodesKept_trans; [exact K1|].
  destruct (VertexNode.next nb) as [n|] eqn:Hn.
  - eapply nodesKept_updVertex; [|exact H].
    symmetry in Hxb. apply firstOr_None_in in Hxb. apply elem_of_app. auto.
  - eapply nodesKept_setTail. exact H.
Qed.

Lemma segment_frame vs vs' xs : forall p n,
  (forall x, x ∈ xs -> vs' !! x = vs !! x) ->
  segment vs p xs n -> segment vs' p xs n.
Proof.
  induction xs as [|x rest IH]; intros p n Hk; simpl; [auto|].
  intros (nd & Hnd & Hp & Hn & Hs). exists nd. repeat split; auto.
  - rewrite Hk by constructor. exact Hnd.
  - apply IH; [|exact Hs]. intros y Hy. apply Hk. right. exact Hy.
Qed.

Lemma listOk_frame X s s' w ys :
  listOk s w ys -> nodesKept X s s' -> (forall x, x ∈ ys -> x ∉ X) ->
  HullState.getList w s' = HullState.getList w s -> listOk s' w ys.
Proof.
  intros (Hnd & Hh & Ht & Hseg) Hk Hdis Hl. unfold listOk, wellFormed.
  rewrite Hl. repeat split; auto.
  eapply segment_frame; [|exact Hseg]. intros x Hx. apply Hk, Hdis, Hx.
Qed.

(** *** The grouping of the assigned list *)

Lemma runs_app g1 g2 : runs (g1 ++ g2) = runs g1 ++ runs g2.
Proof. unfold runs. rewrite map_app, concat_app. reflexivity. Qed.

Lemma runs_cons f r g : runs ((f, r) :: g) = r ++ runs g.
Proof. reflexivity. Qed.

Lemma elem_of_runs x gs : x ∈ runs gs <-> exists f r, (f, r) ∈ gs /\ x ∈ r.
Proof.
  induction gs as [|[f r] gs IH].
  - split; [intros H; inversion H|intros (f & r & H & _); inversion H].
  - rewrite runs_cons, elem_of_app, IH. split.
    + intros [H|(f' & r' & H1 & H2)].
      * exists f, r. split; [left|exact H].
      * exists f', r'. split; [right; exact H1|exact H2].
    + intros (f' & r' & H1 & H2). apply elem_of_cons in H1 as [[= -> ->]|H1]; [auto|].
      right. eauto.
Qed.

Lemma runOk_frame s s' g :
  runOk s g -> isVisible s' g.1 = isVisible s g.1 ->
  outsideOf s' g.1 = outsideOf s g.1 ->
  (forall x, x ∈ g.2 -> faceFields s' !! x = faceFields s !! x) -> runOk s' g.
Proof.
  intros (H1 & H2 & H3 & H4) Hv Ho Hf. unfold runOk, namesFace.
  rewrite Hv, Ho. repeat split; auto. intros x Hx. rewrite Hf by exact Hx. apply H4, Hx.
Qed.

(** A face with an outside vertex has a group, and the vertex leads it. *)
Lemma filed_group s gs f o :
  filed s gs -> outsideOf s f = Some o ->
  exists g1 r g2, gs = g1 ++ (f, o :: r) :: g2.
Proof.
  intros (_ & _ & Hall & Hno) Ho.
  destruct (decide (f ∈ map fst gs)) as [Hin|Hout].
  - apply list_elem_of_fmap in Hin as ([f' r] & -> & Hin). simpl in *.
    apply list_elem_of_split in Hin as (g1 & g2 & ->).
    apply Forall_app in Hall as [_ Hall]. apply Forall_cons in Hall as [Hg _].
    destruct Hg as (_ & _ & Hhd & _). simpl in Hhd. rewrite Ho in Hhd.
    destruct r as [|o' r]; [discriminate|]. injection Hhd as ->. eauto.
  - rewrite (Hno f Hout) in Ho. discriminate.
Qed.

Lemma filed_no_group s gs f :
  filed s gs -> outsideOf s f = None -> f ∉ map fst gs.
Proof.
  intros (_ & _ & Hall & _) Ho Hin.
  apply list_elem_of_fmap in Hin as ([f' r] & -> & Hin). simpl in *.
  rewrite Forall_forall in Hall. destruct (Hall _ Hin) as (Hne & _ & Hhd & _).
  simpl in *. rewrite Ho in Hhd. destruct r; [contradiction|discriminate].
Qed.

Lemma updFace_Ok f g s u s' :
  updFace f g s = Ok (u, s') ->
  exists fc, HullState.faceStore s !! f = Some fc /\
             s' = HullState.set_faceStore (<[f := g fc]> (HullState.faceStore s)) s.
Proof.
  intros H. unfold updFace in H.
  apply bind_Ok in H as (fc & s0 & Hg & Hm). apply getFace_Ok in Hg as [Hfc <-].
  apply modify_Ok in Hm. eauto.
Qed.

Lemma isVisible_updFace_same s f fc g f' :
  HullState.faceStore s !! f = Some fc -> Face.mark (g fc) = Face.mark fc ->
  isVisible (HullState.set_faceStore (<[f := g fc]> (HullState.faceStore s)) s) f'
  = isVisible s f'.
Proof.
  intros Hfc Hg. unfold isVisible. simpl.
  destruct (decide (f' = f)) as [->|Hne].
  - rewrite list_lookup_insert_eq by (eapply lookup_lt_Some; eauto).
    rewrite Hfc, Hg. reflexivity.
  - rewrite list_lookup_insert_ne by congruence. reflexivity.
Qed.

Lemma outsideOf_updFace_ne s f x f' :
  f' <> f ->
  outsideOf (HullState.set_faceStore (<[f := x]> (HullState.faceStore s)) s) f'
  = outsideOf s f'.
Proof.
  intros Hne. unfold outsideOf. simpl.
  rewrite list_lookup_insert_ne by congruence. reflexivity.
Qed.

Lemma outsideOf_updFace_eq s f fc x :
  HullState.faceStore s !! f = Some fc ->
  outsideOf (HullState.set_faceStore (<[f := x]> (HullState.faceStore s)) s) f
  = Face.outside x.
Proof.
  intros Hfc. unfold outsideOf. simpl.
  rewrite list_lookup_insert_eq by (eapply lookup_lt_Some; eauto). reflexivity.
Qed.

Lemma faceFields_set_face s v nd f x :
  HullState.vertices s !! v = Some nd -> x <> v ->
  faceFields (HullState.set_vertices
                (<[v := VertexNode.set_face f nd]> (HullState.vertices s)) s) !! x
  = faceFields s !! x.
Proof.
  intros Hnd Hne. unfold faceFields. simpl.
  rewrite !list_lookup_fmap, list_lookup_insert_ne by congruence. reflexivity.
Qed.

Lemma faceFields_set_face_eq s v nd f :
  HullState.vertices s !! v = Some nd ->
  faceFields (HullState.set_vertices
                (<[v := VertexNode.set_face f nd]> (HullState.vertices s)) s) !! v
  = Some f.
Proof.
  intros Hnd. unfold faceFields. simpl.
  rewrite list_lookup_fmap, list_lookup_insert_eq by (eapply lookup_lt_Some; eauto).
  reflexivity.
Qed.

Lemma addVertexToFace_filed v f s u s' gs :
  filed s gs -> v ∉ runs gs -> isVisible s f = true ->
  addVertexToFace v f s = Ok (u, s') ->
  (exists gs', filed s' gs' /\ forall x, x ∈ runs gs' <-> x = v \/ x ∈ runs gs) /\
  nodesKept (v :: runs gs) s s' /\
  HullState.unassigned s' = HullState.unassigned s /\
  (forall f', isVisible s' f' = isVisible s f').
Proof.
  intros Hfiled Hv Hvis H. unfold addVertexToFace in H.
  apply bind_Ok in H as (u1 & s1 & H1 & H).
  apply bind_Ok in H as (fc & s2 & H2 & H). apply getFace_Ok in H2 as [Hfc <-].
  apply bind_Ok in H as (u3 & s3 & H3 & H4).
  pose proof H1 as H1'. apply updVertex_Ok in H1' as (nd & Hnd & Es1).
  assert (K1 : nodesKept [v] s s1).
  { eapply nodesKept_updVertex; [left|exact H1]. }
  assert (Hfs1 : HullState.faceStore s1 = HullState.faceStore s) by (subst s1; reflexivity).
  assert (Hl1 : listOk s1 Assigned (runs gs)).
  { destruct Hfiled as (Hl & _).
    eapply listOk_frame; [exact Hl|exact K1| |subst s1; reflexivity].
    intros x Hx Hin. apply list_elem_of_singleton in Hin. subst x. contradiction. }
  assert (Hv1 : is_Some (HullState.vertices s1 !! v)).
  { subst s1. simpl. rewrite list_lookup_insert_eq by (eapply lookup_lt_Some; eauto). eauto. }
  assert (L3 : linksOnly Assigned s1 s3).
  { destruct (Face.outside fc);
      [eapply links_vertexListInsertBefore|eapply links_vertexListAppend]; exact H3. }
  destruct L3 as (Hff3 & _ & Hun3 & Hfs3 & _).
  apply updFace_Ok in H4 as (fc3 & Hfc3 & Es').
  assert (fc3 = fc) by congruence. subst fc3.
  assert (Hvis' : forall f', isVisible s' f' = isVisible s f').
  { intros f'. subst s'. rewrite isVisible_updFace_same by (auto; reflexivity).
    unfold isVisible. rewrite Hfs3, Hfs1. reflexivity. }
  assert (Hout' : forall f', f' <> f -> outsideOf s' f' = outsideOf s f').
  { intros f' Hne. subst s'. rewrite outsideOf_updFace_ne by exact Hne.
    unfold outsideOf. rewrite Hfs3, Hfs1. reflexivity. }
  assert (Houtf : outsideOf s' f = Some v).
  { subst s'. erewrite outsideOf_updFace_eq by exact Hfc3. reflexivity. }
  assert (Hffs : faceFields s' = faceFields s3) by (subst s'; reflexivity).
  assert (Hffx : forall x, x <> v -> faceFields s' !! x = faceFields s !! x).
  { intros x Hne. rewrite Hffs, Hff3. subst s1. apply faceFields_set_face; auto. }
  assert (Hffv : faceFields s' !! v = Some (Some f)).
  { rewrite Hffs, Hff3. subst s1. eapply faceFields_set_face_eq; eauto. }
  assert (Hold : forall g, g ∈ gs -> g.1 <> f -> runOk s g -> runOk s' g).
  { intros g Hg Hne Hok. eapply runOk_frame; eauto.
    intros x Hx. apply Hffx. intros ->. apply Hv. apply elem_of_runs.
    destruct g as [gf gr]. eauto. }
  assert (Hfcs : outsideOf s f = Face.outside fc).
  { unfold outsideOf. rewrite <- Hfs1, Hfc. reflexivity. }
  assert (Hvs' : HullState.vertices s' = HullState.vertices s3) by (subst s'; reflexivity).
  assert (Has' : HullState.assigned s' = HullState.assigned s3) by (subst s'; reflexivity).
  assert (Hus' : HullState.unassigned s' = HullState.unassigned s).
  { subst s'. simpl. simpl in Hun3. rewrite Hun3. subst s1. reflexivity. }
  assert (K4 : forall X, nodesKept X s3 s') by (intros X x _; rewrite Hvs'; reflexivity).
  destruct (Face.outside fc) as [o|] eqn:Ho.
  - (* the face has a group already: the vertex goes in front of it *)
    destruct (filed_group _ _ _ _ Hfiled Hfcs) as (g1 & r & g2 & ->).
    rewrite runs_app, runs_cons in Hl1, Hv. simpl in Hl1, Hv.
    destruct (vertexListInsertBefore_ok Assigned s1 (runs g1) o (r ++ runs g2) v)
      as (s3' & Hrun & Hl3); auto.
    destruct (run_agrees _ _ _ _ _ _ H3 Hrun) as [_ ->].
    assert (K3 : nodesKept (v :: runs (g1 ++ (f, o :: r) :: g2)) s1 s3).
    { eapply vertexListInsertBefore_kept; [| |exact H3].
      - rewrite runs_app, runs_cons. simpl. exact Hl1.
      - rewrite runs_app, runs_cons. rewrite !elem_of_app. right. left. left. }
    destruct Hfiled as (_ & Hdup & Hall & Hno).
    split; [|split; [|exact (conj Hus' Hvis')]].
    + exists (g1 ++ (f, v :: o :: r) :: g2). split.
      * split; [|split; [|split]].
        -- unfold listOk. rewrite Hvs'. unfold HullState.getList. rewrite Has'.
           rewrite runs_app, runs_cons. simpl. exact Hl3.
        -- rewrite map_app in *. exact Hdup.
        -- rewrite map_app in Hdup. simpl in Hdup.
           apply NoDup_app in Hdup as (_ & Hd1 & Hd2). apply NoDup_cons in Hd2 as [Hd2 _].
           apply Forall_app in Hall as [Ha1 Ha2]. apply Forall_cons in Ha2 as [Hg Ha2].
           apply Forall_app. split; [|apply Forall_cons; split].
           ++ rewrite Forall_forall in *. intros g Hg1. apply Hold; auto.
              ** apply elem_of_app. auto.
              ** intros E. apply (Hd1 f); [|left].
                 apply list_elem_of_fmap. exists g. auto.
           ++ destruct Hg as (_ & G2 & _ & G4). simpl in *.
              split; [discriminate|]. split; [rewrite Hvis'; exact G2|].
              split; [exact Houtf|]. simpl.
              intros x Hx. apply elem_of_cons in Hx as [->|Hx]; [exact Hffv|].
              unfold namesFace. rewrite Hffx; [apply G4, Hx|].
              intros ->. apply Hv. apply elem_of_app. right.
              change (v ∈ (o :: r) ++ runs g2). apply elem_of_app. left. exact Hx.
           ++ rewrite Forall_forall in *. intros g Hg2. apply Hold; auto.
              ** apply elem_of_app. right. right. exact Hg2.
              ** intros E. apply Hd2. apply list_elem_of_fmap. exists g. auto.
        -- intros f' Hf'. rewrite map_app in Hf'. simpl in Hf'.
           assert (f' <> f).
           { intros ->. apply Hf'. apply elem_of_app. right. left. }
           rewrite Hout' by assumption. apply Hno. rewrite map_app. exact Hf'.
      * intros x. rewrite !runs_app, !runs_cons, !elem_of_app, !elem_of_cons. tauto.
    + eapply nodesKept_trans; [|apply K4].
      eapply nodesKept_trans; [|exact K3].
      eapply nodesKept_weaken; [|exact K1].
      intros x Hx. apply list_elem_of_singleton in Hx. subst. left.
  - (* the face has no group: the vertex starts one at the end *)
    pose proof (filed_no_group _ _ _ Hfiled Hfcs) as Hnew.
    destruct (vertexListAppend_ok Assigned s1 (runs gs) v) as (s3' & Hrun & Hl3); auto.
    destruct (run_agrees _ _ _ _ _ _ H3 Hrun) as [_ ->].
    assert (K3 : nodesKept (v :: runs gs) s1 s3).
    { eapply vertexListAppend_kept; [exact Hl1|exact H3]. }
    destruct Hfiled as (_ & Hdup & Hall & Hno).
    split; [|split; [|exact (conj Hus' Hvis')]].
    + exists (gs ++ [(f, [v])]). split.
      * split; [|split; [|split]].
        -- unfold listOk. rewrite Hvs'. unfold HullState.getList. rewrite Has'.
           rewrite runs_app. exact Hl3.
        -- rewrite map_app. apply NoDup_app. split; [exact Hdup|]. split.
           ++ intros x Hx Hx'. apply list_elem_of_singleton in Hx'. subst. contradiction.
           ++ apply NoDup_singleton.
        -- apply Forall_app. split.
           ++ rewrite Forall_forall in *. intros g Hg. apply Hold; auto.
              intros E. apply Hnew. apply list_elem_of_fmap. exists g. auto.
           ++ apply Forall_cons. split; [|constructor].
              split; [discriminate|]. split; [rewrite Hvis'; exact Hvis|].
              split; [exact Houtf|]. simpl.
              intros x Hx. apply list_elem_of_singleton in Hx. subst. exact Hffv.
        -- intros f' Hf'. rewrite map_app in Hf'. simpl in Hf'.
           assert (f' <> f).
           { intros ->. apply Hf'. apply elem_of_app. right. left. }
           rewrite Hout' by assumption. apply Hno. intros Hin. apply Hf'.
           apply elem_of_app. auto.
      * intros x. rewrite runs_app, elem_of_app.
        change (runs [(f, [v])]) with [v]. rewrite list_elem_of_singleton. tauto.
    + eapply nodesKept_trans; [|apply K4].
      eapply nodesKept_trans; [|exact K3].
      eapply nodesKept_weaken; [|exact K1].
      intros x Hx. apply list_elem_of_singleton in Hx. subst. left.
Qed.

Lemma namesFace_node s x nd f :
  HullState.vertices s !! x = Some nd -> namesFace s x f <-> VertexNode.face nd = Some f.
Proof.
  intros Hnd. unfold namesFace, faceFields. rewrite list_lookup_fmap, Hnd. simpl.
  split; congruence.
Qed.

(** The group a filed vertex of the assigned list belongs to. *)
Lemma filed_member s gs v f :
  filed s gs -> v ∈ runs gs -> namesFace s v f ->
  exists g1 r1 r2 g2, gs = g1 ++ (f, r1 ++ v :: r2) :: g2.
Proof.
  intros (_ & _ & Hall & _) Hv Hf.
  apply elem_of_runs in Hv as (f' & r & Hg & Hv).
  rewrite Forall_forall in Hall. destruct (Hall _ Hg) as (_ & _ & _ & Hm). simpl in Hm.
  specialize (Hm _ Hv). unfold namesFace in *. assert (f' = f) by congruence. subst f'.
  apply list_elem_of_split in Hg as (g1 & g2 & ->).
  apply list_elem_of_split in Hv as (r1 & r2 & ->). eauto.
Qed.

Lemma members_other s g f x :
  Forall (runOk s) g -> f ∉ map fst g -> x ∈ runs g -> ~ namesFace s x f.
Proof.
  intros Hall Hf Hx Hfx.
  apply elem_of_runs in Hx as (f' & r & Hg & Hx).
  rewrite Forall_forall in Hall. destruct (Hall _ Hg) as (_ & _ & _ & Hm). simpl in Hm.
  specialize (Hm _ Hx). unfold namesFace in *. assert (f' = f) by congruence. subst f'.
  apply Hf. apply list_elem_of_fmap. exists (f, r). auto.
Qed.

Lemma runs_regroup f r : runs (regroup f r) = r.
Proof. destruct r; [reflexivity|]. unfold regroup, runs. simpl. rewrite app_nil_r. reflexivity. Qed.

Lemma regroup_nonempty f r : r <> [] -> regroup f r = [(f, r)].
Proof. destruct r; [contradiction|reflexivity]. Qed.

(** One group changes its members, the others stay. *)
Lemma filed_replace s s' g1 f r g2 r' :
  filed s (g1 ++ (f, r) :: g2) ->
  listOk s' Assigned (runs g1 ++ r' ++ runs g2) ->
  (forall f', isVisible s' f' = isVisible s f') ->
  (forall f', f' <> f -> outsideOf s' f' = outsideOf s f') ->
  outsideOf s' f = head r' ->
  (forall x, x ∈ runs g1 ++ r' ++ runs g2 -> faceFields s' !! x = faceFields s !! x) ->
  (forall x, x ∈ r' -> x ∈ r) ->
  filed s' (g1 ++ regroup f r' ++ g2).
Proof.
  intros (_ & Hdup & Hall & Hno) Hl Hvis Hout Houtf Hff Hsub.
  rewrite map_app in Hdup. simpl in Hdup.
  pose proof Hdup as Hdup0.
  apply NoDup_app in Hdup as (Hd1 & Hd12 & Hd2). apply NoDup_cons in Hd2 as [Hf2 Hd2].
  assert (Hf1 : f ∉ map fst g1) by (intros Hin; apply (Hd12 f Hin); left).
  apply Forall_app in Hall as [Ha1 Ha2]. apply Forall_cons in Ha2 as [Hg Ha2].
  assert (Hkeep : forall g, Forall (runOk s) g -> f ∉ map fst g ->
                    (forall x, x ∈ runs g -> x ∈ runs g1 ++ r' ++ runs g2) ->
                    Forall (runOk s') g).
  { intros g Hag Hfg Hin. rewrite Forall_forall in *. intros [gf gr] Hgg.
    eapply runOk_frame; [apply Hag, Hgg|apply Hvis| |].
    - apply Hout. simpl. intros ->. apply Hfg. apply list_elem_of_fmap.
      exists (f, gr). auto.
    - simpl. intros x Hx. apply Hff, Hin. apply elem_of_runs. eauto. }
  split; [|split; [|split]].
  - rewrite !runs_app, runs_regroup. exact Hl.
  - rewrite !map_app. apply NoDup_app. split; [exact Hd1|]. split.
    + intros x Hx Hx'. apply elem_of_app in Hx' as [Hx'|Hx'].
      * destruct r'; simpl in Hx'; [inversion Hx'|].
        apply list_elem_of_singleton in Hx'. subst x. contradiction.
      * apply (Hd12 x Hx). right. exact Hx'.
    + apply NoDup_app. split; [destruct r'; simpl; [constructor|apply NoDup_singleton]|].
      split; [|exact Hd2].
      intros x Hx Hx'. destruct r'; simpl in Hx; [inversion Hx|].
      apply list_elem_of_singleton in Hx. subst x. contradiction.
  - apply Forall_app. split; [|apply Forall_app; split].
    + apply Hkeep; auto. intros x Hx. apply elem_of_app. auto.
    + destruct (decide (r' = [])) as [->|Hne]; [constructor|].
      rewrite regroup_nonempty by exact Hne. apply Forall_cons. split; [|constructor].
      destruct Hg as (_ & G2 & _ & G4). simpl in *.
      split; [exact Hne|]. split; [rewrite Hvis; exact G2|].
      split; [exact Houtf|]. simpl. intros x Hx. unfold namesFace.
      rewrite Hff; [apply G4, Hsub, Hx|]. rewrite !elem_of_app. auto.
    + apply Hkeep; auto. intros x Hx. rewrite !elem_of_app. auto.
  - intros f' Hf'. destruct (decide (f' = f)) as [->|Hne].
    + rewrite Houtf. destruct r'; [reflexivity|].
      exfalso. apply Hf'. rewrite !map_app. rewrite !elem_of_app. right. left. left.
    + rewrite Hout by exact Hne. apply Hno. intros Hin. apply Hf'.
      rewrite !map_app in *. simpl in Hin.
      rewrite !elem_of_app. apply elem_of_app in Hin as [Hin|Hin]; [auto|].
      apply elem_of_cons in Hin as [->|Hin]; [contradiction|auto].
Qed.

Lemma filed_face_outside s f fc :
  HullState.faceStore s !! f = Some fc -> outsideOf s f = Face.outside fc.
Proof. intros H. unfold outsideOf. rewrite H. reflexivity. Qed.

Lemma removeVertexFromFace_filed v f s u s' gs :
  filed s gs -> v ∈ runs gs -> namesFace s v f ->
  removeVertexFromFace v f s = Ok (u, s') ->
  (exists gs', filed s' gs' /\ forall x, x ∈ runs gs' -> x ∈ runs gs) /\
  HullState.unassigned s' = HullState.unassigned s /\
  (forall f', isVisible s' f' = isVisible s f').
Proof.
  intros Hfiled Hv Hfv H.
  destruct (filed_member _ _ _ _ Hfiled Hv Hfv) as (g1 & r1 & r2 & g2 & ->).
  assert (E : runs (g1 ++ (f, r1 ++ v :: r2) :: g2)
              = (runs g1 ++ r1) ++ v :: (r2 ++ runs g2)).
  { rewrite runs_app, runs_cons, <- !app_assoc. reflexivity. }
  pose proof Hfiled as (Hl & Hdup & Hall & Hno).
  rewrite E in Hl. pose proof Hl as (Hnd & _ & _ & Hseg).
  apply segment_app in Hseg as [_ Hseg].
  destruct (segment_first_node _ _ _ _ _ Hseg) as (nv & Hnv & _ & Hnx).
  rewrite map_app in Hdup. simpl in Hdup.
  apply NoDup_app in Hdup as (_ & _ & Hd2). apply NoDup_cons in Hd2 as [Hf2 _].
  apply Forall_app in Hall as [_ Ha2]. apply Forall_cons in Ha2 as [Hg Ha2].
  destruct Hg as (_ & _ & Hhd & Hmem). simpl in Hhd, Hmem.
  unfold removeVertexFromFace in H.
  apply bind_Ok in H as (fc & s0 & Hg & H). apply getFace_Ok in Hg as [Hfc <-].
  apply bind_Ok in H as (u1 & s1 & H1 & H2).
  rewrite (filed_face_outside _ _ _ Hfc) in Hhd.
  assert (S1 : HullState.vertices s1 = HullState.vertices s /\
               HullState.assigned s1 = HullState.assigned s /\
               HullState.unassigned s1 = HullState.unassigned s /\
               (forall f', isVisible s1 f' = isVisible s f') /\
               (forall f', f' <> f -> outsideOf s1 f' = outsideOf s f') /\
               outsideOf s1 f = head (r1 ++ r2)).
  { assert (Hupd : forall o u1 s1, updFace f (Face.set_outside o) s = Ok (u1, s1) ->
              HullState.vertices s1 = HullState.vertices s /\
              HullState.assigned s1 = HullState.assigned s /\
              HullState.unassigned s1 = HullState.unassigned s /\
              (forall f', isVisible s1 f' = isVisible s f') /\
              (forall f', f' <> f -> outsideOf s1 f' = outsideOf s f') /\
              outsideOf s1 f = o).
    { intros o u0 s0 Hu. apply updFace_Ok in Hu as (fc0 & Hfc0 & ->).
      repeat split.
      - intros f'. apply isVisible_updFace_same; auto.
      - intros f' Hne. apply outsideOf_updFace_ne, Hne.
      - erewrite outsideOf_updFace_eq by exact Hfc0. reflexivity. }
    destruct r1 as [|h r1']; simpl in Hhd.
    - rewrite bool_decide_eq_true_2 in H1 by exact Hhd.
      apply bind_Ok in H1 as (vx & s0 & Hg & H1). apply getVertex_Ok in Hg as [Hvx <-].
      assert (vx = nv) by congruence. subst vx. rewrite Hnx in H1.
      destruct r2 as [|n r2']; simpl in H1 |- *.
      + destruct (runs g2) as [|n rest] eqn:Eg2; simpl in H1.
        * apply Hupd in H1. exact H1.
        * apply bind_Ok in H1 as (nn & s0 & Hg & H1). apply getVertex_Ok in Hg as [Hnn <-].
          rewrite bool_decide_eq_false_2 in H1; [apply Hupd in H1; exact H1|].
          intros Hface. apply (members_other s g2 f n Ha2 Hf2).
          -- rewrite Eg2. left.
          -- eapply namesFace_node; eauto.
      + apply bind_Ok in H1 as (nn & s0 & Hg & H1). apply getVertex_Ok in Hg as [Hnn <-].
        rewrite bool_decide_eq_true_2 in H1; [apply Hupd in H1; exact H1|].
        eapply namesFace_node; [exact Hnn|]. apply Hmem. right. left.
    - rewrite bool_decide_eq_false_2 in H1.
      + apply ret_Ok in H1 as [_ <-]. repeat split. unfold outsideOf. rewrite Hfc.
        simpl. exact Hhd.
      + rewrite Hhd. intros [= ->].
        apply NoDup_app in Hnd as (_ & Hdis & _). apply (Hdis v); [|left].
        apply elem_of_app. right. left. }
  destruct S1 as (Hvs1 & Has1 & Hus1 & Hvis1 & Hout1 & Houtf1).
  assert (Hl1 : listOk s1 Assigned ((runs g1 ++ r1) ++ v :: (r2 ++ runs g2))).
  { unfold listOk in *. unfold HullState.getList in *. rewrite Hvs1, Has1. exact Hl. }
  destruct (vertexListRemove_ok Assigned s1 _ _ _ Hl1) as (s2 & Hrun & Hl2).
  destruct (run_agrees _ _ _ _ _ _ H2 Hrun) as [_ ->].
  destruct (links_vertexListRemove _ _ _ _ _ H2) as (Hff & _ & Hun & Hfs & _).
  simpl in Hun.
  assert (Hvis' : forall f', isVisible s' f' = isVisible s f').
  { intros f'. rewrite <- Hvis1. unfold isVisible. rewrite Hfs. reflexivity. }
  split; [|split; [congruence|exact Hvis']].
  exists (g1 ++ regroup f (r1 ++ r2) ++ g2). split.
  - eapply filed_replace; [exact Hfiled| | | | | |].
    + rewrite <- !app_assoc in Hl2. rewrite <- app_assoc. exact Hl2.
    + exact Hvis'.
    + intros f' Hne. rewrite <- Hout1 by exact Hne. unfold outsideOf. rewrite Hfs. reflexivity.
    + rewrite <- Houtf1. unfold outsideOf. rewrite Hfs. reflexivity.
    + intros x _. rewrite Hff. unfold faceFields. rewrite Hvs1. reflexivity.
    + intros x. rewrite !elem_of_app, elem_of_cons. tauto.
  - intros x. rewrite E, !runs_app, runs_regroup, !elem_of_app, elem_of_cons, !elem_of_app.
    tauto.
Qed.

Lemma filed_frame s s' gs :
  filed s gs -> listOk s' Assigned (runs gs) ->
  (forall x, x ∈ runs gs -> faceFields s' !! x = faceFields s !! x) ->
  (forall f, f ∈ map fst gs -> isVisible s' f = isVisible s f) ->
  (forall f, outsideOf s' f = outsideOf s f) ->
  filed s' gs.
Proof.
  intros (_ & Hdup & Hall & Hno) Hl Hff Hvis Hout.
  split; [exact Hl|]. split; [exact Hdup|]. split.
  - rewrite Forall_forall in *. intros [gf gr] Hg.
    eapply runOk_frame; [apply Hall, Hg| |apply Hout|].
    + apply Hvis. apply list_elem_of_fmap. exists (gf, gr). auto.
    + simpl. intros x Hx. apply Hff. apply elem_of_runs. eauto.
  - intros f Hf. rewrite Hout. apply Hno, Hf.
Qed.

Lemma same_store_visible s s' :
  HullState.faceStore s' = HullState.faceStore s -> forall f, isVisible s' f = isVisible s f.
Proof. intros H f. unfold isVisible. rewrite H. reflexivity. Qed.

Lemma same_store_outside s s' :
  HullState.faceStore s' = HullState.faceStore s -> forall f, outsideOf s' f = outsideOf s f.
Proof. intros H f. unfold outsideOf. rewrite H. reflexivity. Qed.

(** The walk to the end of a face's run stops at the last of the run. *)
Lemma findRunEnd_spec s f run : forall fuel p n start e s',
  segment (HullState.vertices s) p run n ->
  head run = Some start ->
  (forall x, x ∈ run -> namesFace s x f) ->
  (forall y, n = Some y -> ~ namesFace s y f) ->
  findRunEnd fuel f start s = Ok (e, s') -> s' = s /\ last run = Some e.
Proof.
  induction run as [|x rest IH]; intros fuel p n start e s' Hseg Hhd Hmem Hn H;
    [discriminate|].
  injection Hhd as ->. simpl in Hseg. destruct Hseg as (nd & Hnd & _ & Hnx & Hseg).
  assert (H0 : bind (getVertex start)
                 (fun nd => match VertexNode.next nd with
                            | None => ret start
                            | Some n =>
                                bind (getVertex n) (fun nn =>
                                  if bool_decide (VertexNode.face nn = Some f)
                                  then match fuel with
                                       | O => outOfFuel
                                       | S fuel' => findRunEnd fuel' f n
                                       end
                                  else ret start)
                            end) s = Ok (e, s')).
  { destruct fuel; exact H. }
  clear H. apply bind_Ok in H0 as (nd0 & s0 & Hg & H). apply getVertex_Ok in Hg as [Hnd0 <-].
  assert (nd0 = nd) by congruence. subst nd0. rewrite Hnx in H.
  destruct rest as [|z rest']; simpl in H.
  - destruct n as [y|].
    + apply bind_Ok in H as (nn & s0 & Hg & H). apply getVertex_Ok in Hg as [Hnn <-].
      rewrite bool_decide_eq_false_2 in H.
      * apply ret_Ok in H as [<- <-]. auto.
      * intros Hface. apply (Hn y eq_refl). eapply namesFace_node; eauto.
    + apply ret_Ok in H as [<- <-]. auto.
  - apply bind_Ok in H as (nn & s0 & Hg & H). apply getVertex_Ok in Hg as [Hnn <-].
    rewrite bool_decide_eq_true_2 in H.
    + destruct fuel as [|fuel']; [discriminate|].
      destruct (IH fuel' (Some start) n z e s' Hseg eq_refl) as [-> Hlast]; auto.
      intros y Hy. apply Hmem. right. exact Hy.
    + eapply namesFace_node; [exact Hnn|]. apply Hmem. right. left.
Qed.

Lemma findEndOfChain_mono fuel : forall fuel' v s r,
  fuel <= fuel' -> findEndOfChain fuel v s = Ok r -> findEndOfChain fuel' v s = Ok r.
Proof.
  induction fuel as [|fuel IH]; intros fuel' v s [r s'] Hle H.
  - simpl in H. apply bind_Ok in H as (nd & s0 & Hg & H).
    pose proof Hg as Hg'. apply getVertex_Ok in Hg' as [Hnd <-].
    destruct (VertexNode.next nd) eqn:Hn; [discriminate|].
    destruct fuel'; simpl; rewrite (bind_getVertex _ _ _ _ Hnd), Hn; exact H.
  - destruct fuel' as [|fuel']; [lia|]. simpl in H |- *.
    apply bind_Ok in H as (nd & s0 & Hg & H).
    pose proof Hg as Hg'. apply getVertex_Ok in Hg' as [Hnd <-].
    rewrite (bind_getVertex _ _ _ _ Hnd).
    destruct (VertexNode.next nd) eqn:Hn; [|exact H].
    apply IH; [lia|exact H].
Qed.

Lemma vertexListAppendChain_mono fuel fuel' w v s r :
  fuel <= fuel' -> vertexListAppendChain fuel w v s = Ok r ->
  vertexListAppendChain fuel' w v s = Ok r.
Proof.
  intros Hle H. destruct r as [u s']. unfold vertexListAppendChain in *.
  apply bind_Ok in H as (l & s0 & Hg & H). rewrite (bind_run _ _ _ _ _ Hg).
  apply bind_Ok in H as (u1 & s1 & H1 & H). rewrite (bind_run _ _ _ _ _ H1).
  apply bind_Ok in H as (l' & s2 & Hg2 & H). rewrite (bind_run _ _ _ _ _ Hg2).
  apply bind_Ok in H as (u2 & s3 & H2 & H). rewrite (bind_run _ _ _ _ _ H2).
  apply bind_Ok in H as (c & s4 & H3 & H4).
  rewrite (bind_run _ _ _ _ _ (findEndOfChain_mono _ _ _ _ _ Hle H3)). exact H4.
Qed.

Lemma faceFields_kept_links s s' x g u :
  (forall nd, VertexNode.face (g nd) = VertexNode.face nd) ->
  updVertex x g s = Ok (u, s') -> faceFields s' = faceFields s.
Proof. intros Hg H. eapply faceFields_updVertex; eauto. Qed.

(** [removeAllVerticesFromFace] cuts the group of the face out of the
    assigned list and hands it over as a chain of its own. *)
Lemma removeAllVerticesFromFace_moves fuel f s fv s' gs us :
  triaged s gs us -> removeAllVerticesFromFace fuel f s = Ok (fv, s') ->
  (forall f', isVisible s' f' = isVisible s f') /\
  outsideOf s' f = None /\
  HullState.edgeStore s' = HullState.edgeStore s /\
  match fv with
  | None => s' = s /\ f ∉ map fst gs
  | Some start =>
      exists g1 run g2,
        gs = g1 ++ (f, run) :: g2 /\ head run = Some start /\
        filed s' (g1 ++ g2) /\ listOk s' Unassigned us /\
        segment (HullState.vertices s') None run None /\ NoDup run /\
        (forall x, x ∈ run -> (x ∉ runs (g1 ++ g2)) /\ (x ∉ us))
  end.
Proof.
  intros (Hfiled & Hlu & Hdis) Hrem. unfold removeAllVerticesFromFace in Hrem.
  apply bind_Ok in Hrem as (fc & s0 & Hg & Hrem). apply getFace_Ok in Hg as [Hfc <-].
  pose proof (filed_face_outside _ _ _ Hfc) as Hout.
  destruct (Face.outside fc) as [start|] eqn:Ho.
  2:{ apply ret_Ok in Hrem as [<- <-]. split; [auto|]. split; [exact Hout|].
      split; [reflexivity|]. split; [reflexivity|]. eapply filed_no_group; eauto. }
  destruct (filed_group _ _ _ _ Hfiled Hout) as (g1 & r & g2 & ->).
  remember (start :: r) as run eqn:Erun.
  assert (Hhead : head run = Some start) by (subst run; reflexivity).
  assert (E : runs (g1 ++ (f, run) :: g2) = runs g1 ++ run ++ runs g2).
  { rewrite runs_app, runs_cons. reflexivity. }
  pose proof Hfiled as (Hl & Hdup & Hall & Hno).
  rewrite E in Hl. pose proof Hl as (Hnd & _ & _ & Hseg).
  apply segment_app in Hseg as [_ Hseg]. apply segment_app in Hseg as [Hmid _].
  rewrite map_app in Hdup. simpl in Hdup.
  apply NoDup_app in Hdup as (_ & _ & Hd2). apply NoDup_cons in Hd2 as [Hf2 _].
  apply Forall_app in Hall as [_ Ha2]. apply Forall_cons in Ha2 as [Hg Ha2].
  destruct Hg as (_ & _ & _ & Hmem). simpl in Hmem.
  apply NoDup_app in Hnd as (Hnd1 & Hd1 & Hnd2).
  apply NoDup_app in Hnd2 as (Hndr & Hd2 & Hnd2).
  assert (Hrun_out : forall x, x ∈ run -> x ∉ runs g1 ++ runs g2).
  { intros x Hx Hin. apply elem_of_app in Hin as [Hin|Hin].
    - apply (Hd1 x Hin). apply elem_of_app. auto.
    - apply (Hd2 x Hx Hin). }
  assert (Hus_out : forall x, x ∈ us -> (x ∉ runs g1 ++ runs g2) /\ (x ∉ run)).
  { intros x Hx. specialize (Hdis x Hx). rewrite E in Hdis.
    rewrite !elem_of_app in *. tauto. }
  apply bind_Ok in Hrem as (end_ & s0 & Hend & Hrem).
  eapply findRunEnd_spec in Hend as [-> Hlast]; [|exact Hmid|exact Hhead|exact Hmem|].
  2:{ intros y Hy. apply (members_other s g2 f y Ha2 Hf2).
      apply firstOr_None_in. exact Hy. }
  apply bind_Ok in Hrem as (u1 & s1 & H1 & Hrem).
  destruct (vertexListRemoveSubList_ok Assigned s (runs g1) run (runs g2) start end_ Hl
              Hhead Hlast) as (s1' & Hrun1 & Hl1).
  destruct (run_agrees _ _ _ _ _ _ H1 Hrun1) as [_ ->].
  pose proof (vertexListRemoveSubList_kept _ _ _ _ _ _ _ _ _ Hl Hhead Hlast H1) as K1.
  destruct (links_vertexListRemoveSubList _ _ _ _ _ _ H1) as (Hff1 & _ & Hun1 & Hfs1 & _).
  simpl in Hun1.
  assert (Hmid1 : segment (HullState.vertices s1) (lastOr (runs g1) None) run
                    (firstOr (runs g2) None)).
  { eapply segment_frame; [|exact Hmid]. intros x Hx. apply K1, Hrun_out, Hx. }
  apply bind_Ok in Hrem as (u2 & s2 & H2 & Hrem).
  apply bind_Ok in Hrem as (u3 & s3 & H3 & Hrem).
  apply bind_Ok in Hrem as (u4 & s4 & H4 & Hrem). apply ret_Ok in Hrem as [<- <-].
  pose proof H2 as H2'. apply updVertex_Ok in H2' as (n2 & Hn2 & Es2).
  pose proof H3 as H3'. apply updVertex_Ok in H3' as (n3 & Hn3 & Es3).
  assert (Hmid2 : segment (HullState.vertices s2) None run (firstOr (runs g2) None)).
  { subst s2. cbn [HullState.vertices HullState.set_vertices].
    rewrite Erun in Hmid1, Hndr |- *. eapply segment_set_prev; eauto. }
  apply last_snoc_inv in Hlast as [m' Hm'].
  assert (Hmid3 : segment (HullState.vertices s3) None run None).
  { subst s3. cbn [HullState.vertices HullState.set_vertices].
    rewrite Hm' in Hmid2, Hndr |- *. eapply segment_set_next; eauto. }
  assert (Hstart : start ∈ run) by (rewrite Erun; left).
  assert (Hend : end_ ∈ run) by (rewrite Hm'; apply elem_of_app; right; left).
  assert (K3 : nodesKept run s1 s3).
  { eapply nodesKept_trans;
      [eapply nodesKept_updVertex; [exact Hstart|exact H2]
      |eapply nodesKept_updVertex; [exact Hend|exact H3]]. }
  assert (Hff3 : faceFields s3 = faceFields s).
  { transitivity (faceFields s2).
    { eapply faceFields_kept_links; [|exact H3]. reflexivity. }
    transitivity (faceFields s1); [|exact Hff1].
    eapply faceFields_kept_links; [|exact H2]. reflexivity. }
  assert (Hfs3 : HullState.faceStore s3 = HullState.faceStore s).
  { subst s3 s2. simpl. exact Hfs1. }
  assert (Hlists3 : HullState.assigned s3 = HullState.assigned s1 /\
                    HullState.unassigned s3 = HullState.unassigned s).
  { subst s3 s2. simpl. auto. }
  destruct Hlists3 as [Has3 Hus3].
  assert (Hl3 : listOk s3 Assigned (runs g1 ++ runs g2)).
  { eapply listOk_frame; [exact Hl1|exact K3| |exact Has3].
    intros x Hx Hin. apply (Hrun_out x Hin Hx). }
  assert (Hlu3 : listOk s3 Unassigned us).
  { eapply (listOk_frame run s1); [|exact K3| |].
    - eapply listOk_frame; [exact Hlu|exact K1| |exact Hun1].
      intros x Hx. apply Hus_out, Hx.
    - intros x Hx. apply Hus_out, Hx.
    - simpl. rewrite Hus3. symmetry. exact Hun1. }
  apply updFace_Ok in H4 as (fc4 & Hfc4 & Es4).
  assert (fc4 = fc) by congruence. subst fc4.
  assert (Hvis4 : forall f', isVisible s4 f' = isVisible s f').
  { intros f'. subst s4. rewrite isVisible_updFace_same by (auto; reflexivity).
    apply same_store_visible, Hfs3. }
  assert (Hfiled4 : filed s4 (g1 ++ g2)).
  { change (g1 ++ g2) with (g1 ++ regroup f [] ++ g2).
    eapply filed_replace; [exact Hfiled| | | | | |].
    - subst s4. exact Hl3.
    - exact Hvis4.
    - intros f' Hne. subst s4. rewrite outsideOf_updFace_ne by exact Hne.
      apply same_store_outside, Hfs3.
    - subst s4. erewrite outsideOf_updFace_eq by exact Hfc4. reflexivity.
    - intros x _. subst s4. change (faceFields s3 !! x = faceFields s !! x).
      rewrite Hff3. reflexivity.
    - intros x Hx. inversion Hx. }
  assert (Hlu4 : listOk s4 Unassigned us) by (subst s4; exact Hlu3).
  assert (Hmid4 : segment (HullState.vertices s4) None run None) by (subst s4; exact Hmid3).
  assert (Houtf4 : outsideOf s4 f = None).
  { subst s4. erewrite outsideOf_updFace_eq by exact Hfc4. reflexivity. }
  split; [exact Hvis4|]. split; [exact Houtf4|]. split.
  { subst s4 s3 s2. simpl. exact (proj1 (proj2 (proj2 (proj2 (proj2
      (links_vertexListRemoveSubList _ _ _ _ _ _ H1)))))). }
  exists g1, run, g2. split; [reflexivity|]. split; [exact Hhead|].
  split; [exact Hfiled4|]. split; [exact Hlu4|]. split; [exact Hmid4|].
  split; [exact Hndr|].
  intros x Hx. split.
  - rewrite runs_app. apply Hrun_out, Hx.
  - intros Hin. destruct (Hus_out x Hin) as [_ Hno']. exact (Hno' Hx).
Qed.

(** Without an absorbing face, [deleteFaceVertices] moves the whole
    group of the face, in its order, to the end of the unassigned list. *)
Lemma deleteFaceVertices_moves fuel f s u s' gs us :
  triaged s gs us -> deleteFaceVertices fuel f None s = Ok (u, s') ->
  (forall f', isVisible s' f' = isVisible s f') /\
  outsideOf s' f = None /\
  HullState.edgeStore s' = HullState.edgeStore s /\
  (((f ∉ map fst gs) /\ s' = s) \/
   (exists g1 run g2, gs = g1 ++ (f, run) :: g2 /\ triaged s' (g1 ++ g2) (us ++ run))).
Proof.
  intros Htri H. unfold deleteFaceVertices in H.
  apply bind_Ok in H as (fv & s4 & Hrem & H).
  destruct (removeAllVerticesFromFace_moves _ _ _ _ _ _ _ Htri Hrem)
    as (Hvis4 & Houtf4 & He4 & Hfv).
  destruct fv as [start|].
  2:{ destruct Hfv as [-> Hno]. apply ret_Ok in H as [_ <-].
      split; [auto|]. split; [exact Houtf4|]. split; [reflexivity|]. left. auto. }
  destruct Hfv as (g1 & run & g2 & -> & Hhead & Hfiled4 & Hlu4 & Hmid4 & Hndr & Hout).
  apply (vertexListAppendChain_mono _ (fuel + length run)) in H; [|lia].
  destruct (vertexListAppendChain_ok (fuel + length run) Unassigned s4 us run None start)
    as (s5 & Hrun5 & Hlu5); auto.
  { apply NoDup_app. split; [destruct Hlu4 as (Hn & _); exact Hn|]. split; [|exact Hndr].
    intros x Hx Hin. destruct (Hout x Hin) as [_ Hno]. exact (Hno Hx). }
  { lia. }
  destruct (run_agrees _ _ _ _ _ _ H Hrun5) as [_ ->].
  pose proof (vertexListAppendChain_kept _ _ _ _ _ _ _ Hlu4 H) as K5.
  destruct (links_vertexListAppendChain _ _ _ _ _ _ H) as (Hff5 & _ & Has5 & Hfs5 & He5 & _).
  simpl in Has5.
  assert (Hstart : start ∈ run).
  { destruct run as [|x run']; [discriminate|]. injection Hhead as ->. left. }
  split; [|split; [|split]].
  - intros f'. rewrite <- Hvis4. apply same_store_visible, Hfs5.
  - rewrite <- Houtf4. apply same_store_outside, Hfs5.
  - congruence.
  - right. exists g1, run, g2. split; [reflexivity|].
    split; [|split; [exact Hlu5|]].
    + eapply filed_frame; [exact Hfiled4| | | |].
      * eapply listOk_frame; [destruct Hfiled4 as (Hl4 & _); exact Hl4|exact K5| |exact Has5].
        intros x Hx Hin.
        apply elem_of_cons in Hin as [->|Hin].
        -- destruct (Hout start Hstart) as [Hno _]. exact (Hno Hx).
        -- pose proof Htri as (_ & _ & Hdis). apply (Hdis x Hin).
           rewrite runs_app, runs_cons, !elem_of_app. rewrite runs_app, elem_of_app in Hx.
           tauto.
      * intros x _. rewrite Hff5. reflexivity.
      * intros f' _. apply same_store_visible, Hfs5.
      * apply same_store_outside, Hfs5.
    + intros x Hx. apply elem_of_app in Hx as [Hx|Hx].
      * pose proof Htri as (_ & _ & Hdis). intros Hin. apply (Hdis x Hx).
        rewrite runs_app, runs_cons, !elem_of_app. rewrite runs_app, elem_of_app in Hin.
        tauto.
      * apply Hout, Hx.
Qed.

Lemma deleteFaceVertices_triaged fuel f s u s' gs us :
  triaged s gs us -> deleteFaceVertices fuel f None s = Ok (u, s') ->
  (exists gs' us', triaged s' gs' us') /\
  (forall f', isVisible s' f' = isVisible s f') /\
  outsideOf s' f = None.
Proof.
  intros Ht H.
  destruct (deleteFaceVertices_moves _ _ _ _ _ _ _ Ht H) as (Hvis & Hout & _ & Hcase).
  split; [|split; [exact Hvis|exact Hout]].
  destruct Hcase as [[_ ->]|(g1 & run & g2 & -> & Ht')]; eauto.
Qed.

(** *** The walk over the visible faces *)

Lemma keepsTriage_refl s : keepsTriage s s.
Proof. intros H. exact H. Qed.

Lemma keepsTriage_trans s1 s2 s3 :
  keepsTriage s1 s2 -> keepsTriage s2 s3 -> keepsTriage s1 s3.
Proof. intros H1 H2 H. apply H2, H1, H. Qed.

Lemma respects_read R {A} (m : M A) :
  (forall s, R s s) -> respects unchanged m -> respects R m.
Proof. intros Hrefl Hm s a s' H. apply Hm in H. red in H. subst s'. apply Hrefl. Qed.

(** A face that has given up its outside vertices can be marked. *)
Lemma triaged_mark s gs us f k u s' :
  triaged s gs us -> outsideOf s f = None ->
  updFace f (Face.set_mark k) s = Ok (u, s') -> triaged s' gs us.
Proof.
  intros (Hfiled & Hlu & Hdis) Hout H.
  apply updFace_Ok in H as (fc & Hfc & ->).
  pose proof (filed_no_group _ _ _ Hfiled Hout) as Hf.
  split; [|split; [exact Hlu|exact Hdis]].
  eapply filed_frame; [exact Hfiled| | | |].
  - destruct Hfiled as (Hl & _). exact Hl.
  - intros x _. reflexivity.
  - intros f' Hf'. unfold isVisible. simpl.
    rewrite list_lookup_insert_ne; [reflexivity|]. intros ->. contradiction.
  - intros f'. unfold outsideOf. simpl.
    destruct (decide (f' = f)) as [->|Hne].
    + rewrite list_lookup_insert_eq by (eapply lookup_lt_Some; eauto).
      rewrite Hfc. reflexivity.
    + rewrite list_lookup_insert_ne by congruence. reflexivity.
Qed.

Lemma triage_delete_and_mark fuel f k :
  respects keepsTriage (deleteFaceVertices fuel f None ;; updFace f (Face.set_mark k)).
Proof.
  intros s u s' H (gs & us & Ht).
  apply bind_Ok in H as (u1 & s1 & H1 & H2).
  destruct (deleteFaceVertices_triaged _ _ _ _ _ _ _ Ht H1) as ((gs1 & us1 & Ht1) & _ & Hout).
  exists gs1, us1. eapply triaged_mark; eauto.
Qed.

Lemma horizon_triaged fuel :
  (forall eye cross face hz, respects keepsTriage (computeHorizon fuel eye cross face hz)) /\
  (forall eye se e hz, respects keepsTriage (horizonLoop fuel eye se e hz)).
Proof.
  pose proof keepsTriage_refl as Hrefl.
  pose proof keepsTriage_trans as Htrans.
  pose proof (fun f i => respects_read keepsTriage _ Hrefl (read_faceGetEdge f i)) as Hge.
  induction fuel as [|fuel [IHA IHB]]; split.
  - intros eye cross face hz s r s' H. discriminate H.
  - intros eye se e hz s r s' H. discriminate H.
  - intros eye cross face hz. rewrite computeHorizon_S.
    intros s r s' H. rewrite <- bind_assoc in H. revert s r s' H.
    change (respects keepsTriage
              (bind (bind (deleteFaceVertices fuel face None)
                          (fun _ => updFace face (Face.set_mark DELETED)))
                    (fun _ =>
                       bind (match cross with
                             | None => bind (faceGetEdge face 0) (fun oe => orRaise oe)
                             | Some ce => bind (getEdge ce)
                                            (fun cd => orRaise (HalfEdge.next cd))
                             end)
                            (fun edge => horizonLoop fuel eye edge edge hz)))).
    apply respects_bind; [assumption|apply triage_delete_and_mark|].
    walk_by ltac:(solve [eauto]).
  - intros eye se e hz. rewrite horizonLoop_S.
    walk_by ltac:(solve [eauto]).
Qed.

(** *** Building faces leaves the conflict lists alone *)

Lemma filesKept_refl s : filesKept s s.
Proof. repeat split; auto. Qed.

Lemma filesKept_trans s1 s2 s3 : filesKept s1 s2 -> filesKept s2 s3 -> filesKept s1 s3.
Proof.
  intros (A1 & A2 & A3 & A4 & A5) (B1 & B2 & B3 & B4 & B5).
  split; [congruence|]. split; [congruence|]. split; [congruence|]. split.
  - intros f. rewrite B4. apply A4.
  - intros f Hf. apply B5, A5, Hf.
Qed.

Lemma filesKept_updEdge e g : respects filesKept (updEdge e g).
Proof. apply respects_updEdge. intros s ed _. repeat split; auto. Qed.

Lemma filesKept_updFace f g :
  (forall fc, faceShape (g fc) = faceShape fc) -> respects filesKept (updFace f g).
Proof.
  intros Hg. apply respects_updFace. intros s fc Hfc.
  specialize (Hg fc). unfold faceShape in Hg. injection Hg as Hm _ Ho.
  repeat split.
  - intros f'. unfold outsideOf. simpl. destruct (decide (f' = f)) as [->|Hne].
    + rewrite list_lookup_insert_eq by (eapply lookup_lt_Some; eauto).
      rewrite Hfc. exact Ho.
    + rewrite list_lookup_insert_ne by congruence. reflexivity.
  - intros f'. rewrite isVisible_updFace_same by auto. auto.
Qed.

Lemma filesKept_faceCreate a b c : respects filesKept (faceCreate a b c).
Proof.
  intros s r s' H. rewrite faceCreate_run in H. injection H as _ <-.
  unfold faceCreated. repeat split.
  - intros f. unfold outsideOf. simpl.
    destruct (decide (f < length (HullState.faceStore s))) as [Hlt|Hge].
    + rewrite lookup_app_l by exact Hlt. reflexivity.
    + rewrite lookup_app_r by lia.
      rewrite (lookup_ge_None_2 (HullState.faceStore s) f) by lia.
      destruct (f - length (HullState.faceStore s)) as [|k]; reflexivity.
  - intros f. unfold isVisible. simpl.
    destruct (HullState.faceStore s !! f) as [fc|] eqn:Hfc; [|discriminate].
    rewrite lookup_app_l by (eapply lookup_lt_Some; eauto). rewrite Hfc. auto.
Qed.

Ltac files_leaf :=
  first
    [ apply filesKept_updEdge
    | apply filesKept_updFace; intros; apply faceShape_faceGeometry
    | apply filesKept_faceCreate
    | apply respects_modify; intros [? ? ? ? ? ? ? ? ?]; repeat split; auto
    | apply respects_read; [apply filesKept_refl|]; solve [eauto]
    | solve [eauto] ].

Ltac files_walk :=
  pose proof filesKept_refl as Hrefl;
  pose proof filesKept_trans as Htrans;
  walk_by files_leaf.

Lemma filesKept_halfEdgeSetTwin e t : respects filesKept (halfEdgeSetTwin e t).
Proof. unfold halfEdgeSetTwin. files_walk. Qed.

Lemma filesKept_faceCompute f : respects filesKept (faceCompute f).
Proof.
  unfold faceCompute.
  pose proof read_halfEdgeTail. pose proof read_halfEdgeHead. files_walk.
Qed.

Lemma filesKept_addAdjoiningFace eye h : respects filesKept (addAdjoiningFace eye h).
Proof.
  unfold addAdjoiningFace.
  pose proof read_halfEdgeTail. pose proof read_halfEdgeHead. pose proof read_faceGetEdge.
  pose proof filesKept_faceCompute. pose proof filesKept_halfEdgeSetTwin.
  files_walk.
Qed.

Lemma filesKept_addNewFacesLoop eye hz : forall first prev,
  respects filesKept (addNewFacesLoop eye hz first prev).
Proof.
  pose proof filesKept_addAdjoiningFace. pose proof filesKept_halfEdgeSetTwin.
  induction hz as [|h rest IH]; intros first prev; simpl; files_walk.
Qed.

Lemma filesKept_addNewFaces eye hz : respects filesKept (addNewFaces eye hz).
Proof.
  unfold addNewFaces.
  pose proof filesKept_addNewFacesLoop. pose proof filesKept_halfEdgeSetTwin.
  files_walk.
Qed.

Lemma filesKept_triaged s s' gs us :
  filesKept s s' -> triaged s gs us -> triaged s' gs us.
Proof.
  intros (Hv & Ha & Hu & Ho & Hvis) (Hfiled & Hlu & Hdis).
  split; [|split; [|exact Hdis]].
  - eapply filed_frame; [exact Hfiled| | | |exact Ho].
    + destruct Hfiled as (Hl & _). unfold listOk in *. simpl in *. rewrite Hv, Ha. exact Hl.
    + intros x _. unfold faceFields. rewrite Hv. reflexivity.
    + intros f Hf. destruct Hfiled as (_ & _ & Hall & _).
      apply list_elem_of_fmap in Hf as ([gf gr] & -> & Hg).
      rewrite Forall_forall in Hall. destruct (Hall _ Hg) as (_ & Hvf & _). simpl in *.
      rewrite Hvf. apply Hvis, Hvf.
  - unfold listOk in *. simpl in *. rewrite Hv, Hu. exact Hlu.
Qed.

(** *** Re-filing the unassigned vertices *)

Lemma firstOr_None_head (xs : list ref) : firstOr xs None = head xs.
Proof. destruct xs; reflexivity. Qed.

(** One round of the re-triage loop. *)
Lemma resolveVertex_step nf v rest p s gs nx s1 :
  filed s gs -> segment (HullState.vertices s) p (v :: rest) None ->
  NoDup (v :: rest) -> (forall x, x ∈ v :: rest -> x ∉ runs gs) ->
  resolveVertex nf v s = Ok (nx, s1) ->
  nx = head rest /\
  exists gs1, filed s1 gs1 /\
    segment (HullState.vertices s1) (Some v) rest None /\
    (forall x, x ∈ rest -> x ∉ runs gs1) /\
    (forall x, x ∈ runs gs1 -> x = v \/ x ∈ runs gs).
Proof.
  intros Hfiled Hseg Hnd Hdis Hres.
  unfold resolveVertex in Hres.
  apply bind_Ok in Hres as (vx & s0 & Hg & Hres). apply getVertex_Ok in Hg as [Hvx <-].
  apply bind_Ok in Hres as (tol & s0 & Hg & Hres). apply gets_Ok in Hg as [<- <-].
  apply bind_Ok in Hres as (mf & s0 & Hscan & Hres).
  apply scanNewFaces_inv in Hscan as (-> & m' & sc & rs & _ & _ & _ & _ & Hr).
  apply bind_Ok in Hres as (u1 & s2 & Hadd & Hres). apply ret_Ok in Hres as [<- <-].
  simpl in Hseg. destruct Hseg as (nd & Hnd' & _ & Hnx & Hrest).
  assert (vx = nd) by congruence. subst vx. rewrite Hnx, firstOr_None_head.
  split; [reflexivity|].
  apply NoDup_cons in Hnd as [Hv Hnd].
  destruct mf as [f|].
  - destruct Hr as [[Hr _]|(f' & Hr & _ & Hvis & _)]; [discriminate|].
    injection Hr as <-.
    assert (Hv' : v ∉ runs gs) by (apply Hdis; left).
    destruct (addVertexToFace_filed v f s u1 s2 gs Hfiled Hv' Hvis Hadd)
      as ((gs2 & Hf2 & Hin) & K & _).
    exists gs2. split; [exact Hf2|]. split; [|split].
    + eapply segment_frame; [|exact Hrest]. intros x Hx. apply K.
      intros Hbad. apply elem_of_cons in Hbad as [->|Hbad]; [contradiction|].
      apply (Hdis x); [right; exact Hx|exact Hbad].
    + intros x Hx Hbad. apply Hin in Hbad as [->|Hbad]; [contradiction|].
      apply (Hdis x); [right; exact Hx|exact Hbad].
    + intros x Hx. apply Hin, Hx.
  - apply ret_Ok in Hadd as [_ <-].
    exists gs. split; [exact Hfiled|]. split; [exact Hrest|]. split.
    + intros x Hx. apply Hdis. right. exact Hx.
    + auto.
Qed.

Lemma resolveLoop_census newFaces fuel : forall cur rest p s gs u s',
  filed s gs -> cur = head rest -> segment (HullState.vertices s) p rest None ->
  NoDup rest -> (forall x, x ∈ rest -> x ∉ runs gs) ->
  resolveLoop fuel newFaces cur s = Ok (u, s') ->
  exists gs', filed s' gs' /\ forall x, x ∈ runs gs' -> x ∈ runs gs ++ rest.
Proof.
  induction fuel as [|fuel IH]; intros cur rest p s gs u s' Hfiled Hcur Hseg Hnd Hdis H.
  - destruct cur as [v|]; [discriminate|]. apply ret_Ok in H as [_ <-].
    exists gs. split; [exact Hfiled|]. intros x Hx. apply elem_of_app. auto.
  - destruct cur as [v|].
    2:{ apply ret_Ok in H as [_ <-].
        exists gs. split; [exact Hfiled|]. intros x Hx. apply elem_of_app. auto. }
    destruct rest as [|v' rest']; [discriminate|]. injection Hcur as <-.
    simpl in H. apply bind_Ok in H as (nv & s1 & Hres & Hloop).
    destruct (resolveVertex_step _ _ _ _ _ _ _ _ Hfiled Hseg Hnd Hdis Hres)
      as (-> & gs1 & Hf1 & Hseg1 & Hdis1 & Hin1).
    apply NoDup_cons in Hnd as [Hv Hnd].
    destruct (IH (head rest') rest' (Some v) s1 gs1 u s' Hf1 eq_refl Hseg1 Hnd Hdis1 Hloop)
      as (gs' & Hf' & Hin').
    exists gs'. split; [exact Hf'|].
    intros x Hx. apply Hin' in Hx. rewrite elem_of_app in Hx.
    rewrite elem_of_app, elem_of_cons.
    destruct Hx as [Hx|Hx]; [|auto]. apply Hin1 in Hx. tauto.
Qed.

Lemma resolveLoop_filed newFaces fuel : forall cur rest p s gs u s',
  filed s gs -> cur = head rest -> segment (HullState.vertices s) p rest None ->
  NoDup rest -> (forall x, x ∈ rest -> x ∉ runs gs) ->
  resolveLoop fuel newFaces cur s = Ok (u, s') -> exists gs', filed s' gs'.
Proof.
  intros cur rest p s gs u s' Hfiled Hcur Hseg Hnd Hdis H.
  destruct (resolveLoop_census _ _ _ _ _ _ _ _ _ Hfiled Hcur Hseg Hnd Hdis H)
    as (gs' & Hf & _).
  eauto.
Qed.

Lemma resolveUnassignedPoints_filed fuel newFaces s gs us u s' :
  triaged s gs us -> resolveUnassignedPoints fuel newFaces s = Ok (u, s') ->
  exists gs', filed s' gs'.
Proof.
  intros (Hfiled & (Hnd & Hh & _ & Hseg) & Hdis) H. unfold resolveUnassignedPoints in H.
  apply bind_Ok in H as (un & s0 & Hg & H). apply gets_Ok in Hg as [<- <-].
  destruct (vertexListIsEmpty (HullState.unassigned s)).
  - apply ret_Ok in H as [_ <-]. eauto.
  - eapply resolveLoop_filed; eauto.
Qed.

(** *** One insertion, and the choice of the next eye vertex *)

Lemma addVertexToHull_filed fuel v s u s' gs :
  filed s gs -> v ∈ runs gs -> addVertexToHull fuel v s = Ok (u, s') ->
  exists gs', filed s' gs'.
Proof.
  intros Hfiled Hv H. unfold addVertexToHull in H.
  apply bind_Ok in H as (u1 & s1 & H1 & H).
  unfold vertexListClear in H1. apply modify_Ok in H1.
  assert (Hf1 : filed s1 gs).
  { subst s1. eapply filed_frame; [exact Hfiled| | | |]; try (intros; reflexivity).
    destruct Hfiled as (Hl & _). exact Hl. }
  assert (Hu1 : HullState.unassigned s1 = VertexList.mk None None) by (subst s1; reflexivity).
  assert (Hv1 : HullState.vertices s1 = HullState.vertices s) by (subst s1; reflexivity).
  clear H1.
  apply bind_Ok in H as (ev & s0 & Hg & H). apply getVertex_Ok in Hg as [Hev <-].
  apply bind_Ok in H as (face & s0 & Hg & H). apply orRaise_Ok in Hg as [Hface <-].
  apply bind_Ok in H as (u2 & s2 & H2 & H).
  assert (Hfu : namesFace s1 v face) by (eapply namesFace_node; eauto).
  destruct (removeVertexFromFace_filed _ _ _ _ _ _ Hf1 Hv Hfu H2)
    as ((gs2 & Hf2 & _) & Hu2 & _).
  assert (Ht2 : triaged s2 gs2 []).
  { split; [exact Hf2|]. split.
    - unfold listOk, wellFormed. simpl. rewrite Hu2, Hu1. repeat split. constructor.
    - intros x Hx. inversion Hx. }
  apply bind_Ok in H as (ev2 & s0 & Hg & H). apply getVertex_Ok in Hg as [Hev2 <-].
  apply bind_Ok in H as (face2 & s0 & Hg & H). apply orRaise_Ok in Hg as [Hface2 <-].
  apply bind_Ok in H as (hz & s3 & H3 & H).
  destruct (horizon_triaged fuel) as [Hhz _].
  destruct (Hhz _ _ _ _ _ _ _ H3 (ex_intro _ gs2 (ex_intro _ [] Ht2))) as (gs3 & us3 & Ht3).
  apply bind_Ok in H as (u4 & s4 & H4 & H).
  apply filesKept_addNewFaces in H4.
  pose proof (filesKept_triaged _ _ _ _ H4 Ht3) as Ht4.
  apply bind_Ok in H as (nf & s0 & Hg & H). apply gets_Ok in Hg as [<- <-].
  eapply resolveUnassignedPoints_filed; eauto.
Qed.

Lemma eyeLoop_spec fuel f : forall cur d ev s r s',
  eyeLoop fuel f cur d ev s = Ok (r, s') ->
  s' = s /\ (r = ev \/ exists v, r = Some v /\ namesFace s v f).
Proof.
  induction fuel as [|fuel IH]; intros cur d ev s r s' H.
  - destruct cur as [v|]; simpl in H; [|apply ret_Ok in H as [<- <-]; auto].
    apply bind_Ok in H as (vx & s0 & Hg & H). apply getVertex_Ok in Hg as [Hvx <-].
    destruct (bool_decide (VertexNode.face vx = Some f)); [discriminate|].
    apply ret_Ok in H as [<- <-]. auto.
  - destruct cur as [v|]; simpl in H; [|apply ret_Ok in H as [<- <-]; auto].
    apply bind_Ok in H as (vx & s0 & Hg & H). apply getVertex_Ok in Hg as [Hvx <-].
    destruct (bool_decide (VertexNode.face vx = Some f)) eqn:Hface;
      [|apply ret_Ok in H as [<- <-]; auto].
    apply bool_decide_eq_true_1 in Hface.
    apply bind_Ok in H as (pts & s0 & Hg & H). apply gets_Ok in Hg as [<- <-].
    apply bind_Ok in H as (fc & s0 & Hg & H). apply getFace_Ok in Hg as [Hfc <-].
    apply bind_Ok in H as (dist & s0 & Hg & H). apply orRaise_Ok in Hg as [Hd <-].
    destruct (d <? dist)%float; apply IH in H as [-> Hr]; (split; [reflexivity|]).
    + destruct Hr as [->|Hr]; [|right; exact Hr].
      right. exists v. split; [reflexivity|]. eapply namesFace_node; eauto.
    + exact Hr.
Qed.

(** Walking [next] from a member of the assigned list stays in the list. *)
Lemma eyeLoop_member fuel f xs : forall cur d ev s r s',
  listOk s Assigned xs ->
  (forall v, cur = Some v -> v ∈ xs) ->
  eyeLoop fuel f cur d ev s = Ok (r, s') ->
  r = ev \/ exists v, r = Some v /\ v ∈ xs.
Proof.
  induction fuel as [|fuel IH]; intros cur d ev s r s' Hl Hcur H.
  - destruct cur as [v|]; simpl in H; [|apply ret_Ok in H as [<- <-]; auto].
    apply bind_Ok in H as (vx & s0 & Hg & H). apply getVertex_Ok in Hg as [Hvx <-].
    destruct (bool_decide (VertexNode.face vx = Some f)); [discriminate|].
    apply ret_Ok in H as [<- <-]. auto.
  - destruct cur as [v|]; simpl in H; [|apply ret_Ok in H as [<- <-]; auto].
    apply bind_Ok in H as (vx & s0 & Hg & H). apply getVertex_Ok in Hg as [Hvx <-].
    destruct (bool_decide (VertexNode.face vx = Some f)) eqn:Hface;
      [|apply ret_Ok in H as [<- <-]; auto].
    apply bind_Ok in H as (pts & s0 & Hg & H). apply gets_Ok in Hg as [<- <-].
    apply bind_Ok in H as (fc & s0 & Hg & H). apply getFace_Ok in Hg as [Hfc <-].
    apply bind_Ok in H as (dist & s0 & Hg & H). apply orRaise_Ok in Hg as [Hd <-].
    assert (Hnext : forall y, VertexNode.next vx = Some y -> y ∈ xs).
    { intros y Hy. destruct Hl as (_ & _ & _ & Hseg).
      destruct (segment_next_in _ _ _ _ _ _ _ Hseg (Hcur v eq_refl) Hvx Hy) as [Hin|Hbad];
        [exact Hin|discriminate]. }
    destruct (d <? dist)%float; eapply IH in H; eauto.
    destruct H as [->|Hr]; [|right; exact Hr].
    right. exists v. split; [reflexivity|]. apply Hcur. reflexivity.
Qed.

Lemma nextVertexToAdd_spec fuel s gs v s' :
  filed s gs -> nextVertexToAdd fuel s = Ok (Some v, s') ->
  s' = s /\ v ∈ runs gs /\ onVisible s v.
Proof.
  intros Hfiled H. unfold nextVertexToAdd in H.
  apply bind_Ok in H as (asg & s0 & Hg & H). apply gets_Ok in Hg as [<- <-].
  destruct (VertexList.head (HullState.assigned s)) as [h|] eqn:Hh;
    [|apply ret_Ok in H as [Hbad _]; discriminate].
  apply bind_Ok in H as (hd & s0 & Hg & H). apply getVertex_Ok in Hg as [Hhd <-].
  apply bind_Ok in H as (f & s0 & Hg & H). apply orRaise_Ok in Hg as [Hf <-].
  apply bind_Ok in H as (fc & s0 & Hg & H). apply getFace_Ok in Hg as [Hfc <-].
  pose proof Hfiled as (Hl & _ & Hall & _).
  assert (Hhin : h ∈ runs gs).
  { destruct Hl as (_ & Hhead & _). simpl in Hhead. rewrite Hh in Hhead.
    destruct (runs gs); [discriminate|]. injection Hhead as ->. left. }
  assert (Hfh : namesFace s h f) by (eapply namesFace_node; eauto).
  destruct (filed_member _ _ _ _ Hfiled Hhin Hfh) as (g1 & r1 & r2 & g2 & Egs).
  assert (Hvis : isVisible s f = true).
  { rewrite Egs in Hall. apply Forall_app in Hall as [_ Hall].
    apply Forall_cons in Hall as [(_ & Hvis & _) _]. exact Hvis. }
  pose proof (eyeLoop_spec _ _ _ _ _ _ _ _ H) as [-> Hr].
  split; [reflexivity|].
  destruct Hr as [Hr|(v' & Hr & Hfv)]; [discriminate|]. injection Hr as <-.
  split.
  - eapply eyeLoop_member in H; [| exact Hl |].
    + destruct H as [H|(v' & Hr & Hin)]; [discriminate|]. injection Hr as <-. exact Hin.
    + intros o Ho. rewrite <- (filed_face_outside _ _ _ Hfc) in Ho.
      destruct (filed_group _ _ _ _ Hfiled Ho) as (h1 & r & h2 & ->).
      rewrite runs_app, runs_cons, !elem_of_app. right. left. left.
  - unfold namesFace, faceFields in Hfv. rewrite list_lookup_fmap in Hfv.
    destruct (HullState.vertices s !! v) as [nd|] eqn:Hnd; [|discriminate].
    simpl in Hfv. injection Hfv as Hfv. exists nd, f. auto.
Qed.

(** *** The seed hull *)

Lemma sameMesh_allVisible s s' : sameMesh s s' -> allVisible s -> allVisible s'.
Proof.
  intros (_ & H & _) Hall f fc' Hfc'. apply (map_lookup_eq _ _ _ f) in H.
  rewrite Hfc' in H. destruct (HullState.faceStore s !! f) as [fc|] eqn:Hfc; [|discriminate].
  simpl in H. injection H as -> _ _ _. eapply Hall; eauto.
Qed.

Lemma assignRemaining_filed v0 v1 v2 v3 idxs : forall s gs u s',
  allVisible s -> filed s gs -> NoDup idxs -> (forall x, x ∈ idxs -> x ∉ runs gs) ->
  assignRemaining v0 v1 v2 v3 idxs s = Ok (u, s') -> exists gs', filed s' gs'.
Proof.
  induction idxs as [|v rest IH]; intros s gs u s' Hvis Hfiled Hnd Hdis H; simpl in H.
  - apply ret_Ok in H as [_ <-]. eauto.
  - apply bind_Ok in H as (u1 & s1 & H1 & H).
    apply NoDup_cons in Hnd as [Hv Hnd].
    assert (Hstep : exists gs1, filed s1 gs1 /\ allVisible s1 /\
                      forall x, x ∈ rest -> x ∉ runs gs1).
    { destruct (bool_decide (v ≠ v0) && bool_decide (v ≠ v1) && bool_decide (v ≠ v2)
                && bool_decide (v ≠ v3)).
      2:{ apply ret_Ok in H1 as [_ <-]. exists gs.
          split; [exact Hfiled|]. split; [exact Hvis|].
          intros x Hx. apply Hdis. right. exact Hx. }
      pose proof (mesh_assignVertex _ _ _ _ H1) as Hmesh.
      unfold assignVertex in H1.
      apply bind_Ok in H1 as (tol & s0 & Hg & H1). apply gets_Ok in Hg as [<- <-].
      apply bind_Ok in H1 as (fs & s0 & Hg & H1). apply gets_Ok in Hg as [<- <-].
      apply bind_Ok in H1 as (nd & s0 & Hg & H1). apply getVertex_Ok in Hg as [Hnode <-].
      apply bind_Ok in H1 as (mf & s0 & Hfar & H1).
      apply farthestFace_inv in Hfar as (-> & m' & _ & _ & Hr).
      destruct mf as [f|].
      - destruct Hr as [[Hr _]|(f' & Hr & _ & Hd & _)]; [discriminate|].
        injection Hr as <-.
        assert (Hvf : isVisible s f = true).
        { unfold distanceTo in Hd. unfold isVisible.
          destruct (HullState.faceStore s !! f) as [fc|] eqn:Hfc; [|discriminate].
          apply bool_decide_eq_true_2. eapply Hvis; eauto. }
        assert (Hv' : v ∉ runs gs) by (apply Hdis; left).
        destruct (addVertexToFace_filed v f s u1 s1 gs Hfiled Hv' Hvf H1)
          as ((gs1 & Hf1 & Hin) & _).
        exists gs1. split; [exact Hf1|]. split.
        + eapply sameMesh_allVisible; eauto.
        + intros x Hx Hbad. apply Hin in Hbad as [->|Hbad]; [contradiction|].
          apply (Hdis x); [right; exact Hx|exact Hbad].
      - apply ret_Ok in H1 as [_ <-]. exists gs.
        split; [exact Hfiled|]. split; [exact Hvis|].
        intros x Hx. apply Hdis. right. exact Hx. }
    destruct Hstep as (gs1 & Hf1 & Hvis1 & Hdis1).
    eapply IH; eauto.
Qed.

Lemma computeInitialHull_filed points s0 :
  computeInitialHull (createHullState points) = Ok (tt, s0) -> exists gs, filed s0 gs.
Proof.
  intros H. apply computeInitialHull_inv in H.
  assert (Hempty : forall s, HullState.assigned s = createVertexList ->
                     (forall f, outsideOf s f = None) -> filed s []).
  { intros s Ha Ho. split; [|split; [constructor|split; [constructor|intros; apply Ho]]].
    unfold listOk, wellFormed. simpl. rewrite Ha. repeat split. constructor. }
  destruct H as [(ex & ->)|(v0 & v1 & v2 & v3 & ts & sB & _ & _ & Hsk & _ & Ha & _ & _ & _ & _ & Hrun)].
  - exists []. apply Hempty; reflexivity.
  - assert (Hshape : forall f fc, HullState.faceStore sB !! f = Some fc ->
                       Face.mark fc = VISIBLE /\ Face.outside fc = None).
    { intros f fc Hfc.
      assert (Hl : faceSkeleton sB !! f = Some (faceShape fc)).
      { unfold faceSkeleton. rewrite list_lookup_fmap, Hfc. reflexivity. }
      rewrite Hsk in Hl. unfold faceShape in Hl.
      destruct f as [|[|[|[|f]]]]; simpl in Hl; try discriminate;
        injection Hl as <- _ <-; auto. }
    eapply (assignRemaining_filed _ _ _ _ _ sB []); [| | | |exact Hrun].
    + intros f fc Hfc. apply (Hshape f fc Hfc).
    + apply Hempty; [exact Ha|]. intros f. unfold outsideOf.
      destruct (HullState.faceStore sB !! f) as [fc|] eqn:Hfc; [|reflexivity].
      apply (Hshape f fc Hfc).
    + apply NoDup_seq.
    + intros x _ Hbad. inversion Hbad.
Qed.

(** *** The whole run *)

Lemma storesKept_refl s : storesKept s s.
Proof. split; reflexivity. Qed.

Lemma storesKept_trans s1 s2 s3 : storesKept s1 s2 -> storesKept s2 s3 -> storesKept s1 s3.
Proof. intros [A1 A2] [B1 B2]. split; congruence. Qed.

Ltac stores_walk :=
  pose proof storesKept_refl as Hrefl;
  pose proof storesKept_trans as Htrans;
  walk_by ltac:(first [ apply respects_modify; intros [? ? ? ? ? ? ? ? ?]; split; reflexivity
                      | solve [eauto] ]).

Lemma stores_activeFaces faces : respects storesKept (activeFaces faces).
Proof. induction faces; simpl; stores_walk. Qed.

Lemma stores_reindexFaces : respects storesKept reindexFaces.
Proof. unfold reindexFaces. pose proof stores_activeFaces. stores_walk. Qed.

Lemma stores_triangleIndices faces : respects storesKept (triangleIndices faces).
Proof. induction faces; simpl; stores_walk. Qed.

Lemma stores_getTriangleIndices : respects storesKept getTriangleIndices.
Proof. unfold getTriangleIndices. pose proof stores_triangleIndices. stores_walk. Qed.

Lemma storesKept_mesh s s' :
  storesKept s s' -> meshShape s /\ twinsLinked s -> meshShape s' /\ twinsLinked s'.
Proof.
  intros [He Hf] [Hshape Hlinked]. unfold meshShape, twinsLinked, isVisible in *.
  rewrite He, Hf. auto.
Qed.

Lemma underConstruction_inv points s :
  underConstruction points s ->
  (meshShape s /\ twinsLinked s) /\ exists gs, filed s gs.
Proof.
  induction 1 as [s Hseed|fuel fuel' s v s1 s' _ [[Hshape Hlinked] [gs Hfiled]] Hnext Hadd].
  - split; [apply (computeInitialHull_links _ _ Hseed)|].
    apply (computeInitialHull_filed _ _ Hseed).
  - destruct (nextVertexToAdd_spec _ _ _ _ _ Hfiled Hnext) as (-> & Hv & Hvis).
    split.
    + eapply addVertexToHull_mesh; eauto.
    + eapply addVertexToHull_filed; eauto.
Qed.

Lemma nextVertexToAdd_same fuel s r s' : nextVertexToAdd fuel s = Ok (r, s') -> s' = s.
Proof.
  intros Hn. unfold nextVertexToAdd in Hn.
  apply bind_Ok in Hn as (asg & s4 & Hg & Hn). apply gets_Ok in Hg as [<- <-].
  destruct (VertexList.head (HullState.assigned s)) as [h|];
    [|apply ret_Ok in Hn as [_ <-]; reflexivity].
  apply bind_Ok in Hn as (hd & s4 & Hg & Hn). apply getVertex_Ok in Hg as [_ <-].
  apply bind_Ok in Hn as (f & s4 & Hg & Hn). apply orRaise_Ok in Hg as [_ <-].
  apply bind_Ok in Hn as (fc & s4 & Hg & Hn). apply getFace_Ok in Hg as [_ <-].
  apply eyeLoop_spec in Hn as [-> _]. reflexivity.
Qed.

Lemma insertionLoop_reaches points fuel : forall cur s0 s u s',
  underConstruction points s0 ->
  (cur = None /\ s = s0 \/ exists fuel0 v, cur = Some v /\
                                         nextVertexToAdd fuel0 s0 = Ok (Some v, s)) ->
  insertionLoop fuel cur s = Ok (u, s') -> exists s1, underConstruction points s1 /\ s' = s1.
Proof.
  induction fuel as [|fuel IH]; intros cur s0 s u s' Huc Hcur H.
  - destruct cur as [v|]; [discriminate|]. apply ret_Ok in H as [_ <-].
    destruct Hcur as [[_ ->]|(fuel0 & v & Hbad & _)]; [eauto|discriminate].
  - destruct cur as [v|].
    + destruct Hcur as [[Hbad _]|(fuel0 & v' & Hv & Hnext)]; [discriminate|].
      injection Hv as <-. simpl in H.
      apply bind_Ok in H as ([] & s2 & Hadd & H).
      apply bind_Ok in H as (cur' & s3 & Hnext' & H).
      pose proof (uc_step _ _ _ _ _ _ _ Huc Hnext Hadd) as Huc2.
      destruct cur' as [v'|].
      * eapply (IH (Some v') s2); eauto.
      * pose proof (nextVertexToAdd_same _ _ _ _ Hnext') as ->.
        eapply (IH None s2); eauto.
    + apply ret_Ok in H as [_ <-].
      destruct Hcur as [[_ ->]|(fuel0 & v & Hbad & _)]; [eauto|discriminate].
Qed.

Lemma runHull_reaches fuel points r s :
  runHull fuel points = Ok (r, s) ->
  exists s1, underConstruction points s1 /\ storesKept s1 s.
Proof.
  unfold runHull, buildHull. intros H.
  apply bind_Ok in H as (u & s4 & H & Htri).
  apply bind_Ok in H as ([] & s1 & Hseed & H).
  apply bind_Ok in H as (cur & s2 & Hnext & H).
  apply bind_Ok in H as (u3 & s3 & Hloop & Hre).
  pose proof (uc_seed _ _ Hseed) as Huc.
  pose proof (nextVertexToAdd_same _ _ _ _ Hnext) as ->.
  destruct (insertionLoop_reaches points fuel cur s1 s1 u3 s3 Huc) as (s5 & Huc5 & ->); auto.
  { destruct cur as [v|]; [right; eauto|left; auto]. }
  exists s5. split; [exact Huc5|].
  eapply storesKept_trans; [eapply stores_reindexFaces|eapply stores_getTriangleIndices]; eauto.
Qed.

(** C7, amended. [faceCreate] makes a face with exactly three fresh
    half-edges in a closed next/prev cycle of three, and in every mesh
    each half-edge lies on such a cycle, whose members are exactly the
    half-edges of its face. [halfEdgeSetTwin] makes its two arguments
    each other's twin. Between the rounds of the insertion loop, that is
    after the seed hull is built and after every call of
    [addVertexToHull] for the vertex [nextVertexToAdd] answered, and in
    the state [quickhull3] ends with, the half-edges come in such cycles
    and every half-edge of a VISIBLE face has a twin, on a VISIBLE face,
    whose twin is the half-edge itself. Half-edges of DELETED faces are
    not covered: their twins are left as they were. *)
Theorem faces_are_cycles_and_visible_twins_are_linked :
  (forall a b c s,
     let k := length (HullState.faceStore s) in
     let e := length (HullState.edgeStore s) in
     exists s', faceCreate a b c s = Ok (k, s') /\
       length (HullState.edgeStore s') = e + 3 /\
       (forall x, x < e -> HullState.edgeStore s' !! x = HullState.edgeStore s !! x) /\
       edgeOf s' k = Some e /\
       nextOf s' e = Some (e + 1) /\ nextOf s' (e + 1) = Some (e + 2) /\
       nextOf s' (e + 2) = Some e /\
       prevOf s' (e + 1) = Some e /\ prevOf s' (e + 2) = Some (e + 1) /\
       prevOf s' e = Some (e + 2) /\
       faceOf s' e = Some k /\ faceOf s' (e + 1) = Some k /\ faceOf s' (e + 2) = Some k /\
       twinOf s' e = None /\ twinOf s' (e + 1) = None /\ twinOf s' (e + 2) = None /\
       (meshShape s -> meshShape s')) /\
  (forall s e, meshShape s -> e < length (HullState.edgeStore s) ->
     exists f e1 e2,
       nextOf s e = Some e1 /\ nextOf s e1 = Some e2 /\ nextOf s e2 = Some e /\
       prevOf s e1 = Some e /\ prevOf s e2 = Some e1 /\ prevOf s e = Some e2 /\
       e1 <> e /\ e2 <> e /\ e1 <> e2 /\
       edgeOf s f = Some (3 * f) /\
       forall x, faceOf s x = Some f <-> x = e \/ x = e1 \/ x = e2) /\
  (forall e t s u s', halfEdgeSetTwin e t s = Ok (u, s') ->
     twinOf s' e = Some t /\ twinOf s' t = Some e) /\
  (forall points s, underConstruction points s -> meshShape s /\ twinsLinked s) /\
  (forall fuel points r s, runHull fuel points = Ok (r, s) ->
     meshShape s /\ twinsLinked s).
Proof.
  split; [exact faceCreate_cycle|].
  split; [exact meshShape_cycle|].
  split.
  { intros e t s u s' H. apply halfEdgeSetTwin_spec in H as (H1 & H2 & _). auto. }
  split.
  { intros points s H. apply (underConstruction_inv _ _ H). }
  intros fuel points r s H.
  destruct (runHull_reaches _ _ _ _ H) as (s1 & Huc & Hkept).
  eapply storesKept_mesh; [exact Hkept|]. apply (underConstruction_inv _ _ Huc).
Qed.

Lemma faces_are_cycles_and_visible_twins_are_linked_witness :
  underConstruction octahedron octahedronStep /\
  (meshShape octahedronStep /\ twinsLinked octahedronStep) /\
  exists r s, runHull 100 octahedron = Ok (r, s) /\ meshShape s /\ twinsLinked s.
Proof.
  destruct faces_are_cycles_and_visible_twins_are_linked
    as (_ & _ & _ & Hrun & Hend).
  assert (H0 : computeInitialHull (createHullState octahedron) = Ok (tt, octahedronSeed))
    by (vm_compute; reflexivity).
  assert (H1 : nextVertexToAdd 100 octahedronSeed = Ok (Some 4, octahedronSeed))
    by (vm_compute; reflexivity).
  assert (H2 : addVertexToHull 100 4 octahedronSeed = Ok (tt, octahedronStep))
    by (vm_compute; reflexivity).
  assert (Huc : underConstruction octahedron octahedronStep).
  { eapply uc_step; [apply uc_seed; exact H0|exact H1|exact H2]. }
  split; [exact Huc|]. split; [exact (Hrun _ _ Huc)|].
  destruct (runHull 100 octahedron) as [[r s]| |] eqn:E.
  - exists r, s. split; [reflexivity|]. exact (Hend _ _ _ _ E).
  - vm_compute in E. discriminate E.
  - vm_compute in E. discriminate E.
Defined.

(* ====================================================================== *)
(** * Further properties of the hull construction *)

(** ** Walking around a face *)

Lemma meshShape_edge_at s k j :
  meshShape s -> k < length (HullState.faceStore s) -> j < 3 ->
  exists ed, HullState.edgeStore s !! (3 * k + j) = Some ed /\
    HalfEdge.face ed = k /\
    HalfEdge.next ed = Some (3 * k + (j + 1) mod 3) /\
    HalfEdge.prev ed = Some (3 * k + (j + 2) mod 3).
Proof.
  intros (Hlen & _ & Hedges) Hk Hj.
  destruct (HullState.edgeStore s !! (3 * k + j)) as [ed|] eqn:He.
  - exists ed. split; [reflexivity|]. apply (Hedges k j ed Hj He).
  - apply lookup_ge_None in He. lia.
Qed.

Lemma bind_orRaise_Some {A B} (a : A) (k : A -> M B) s :
  bind (orRaise (Some a)) k s = k a s.
Proof. reflexivity. Qed.

Lemma walkNext_mesh s k n : forall j,
  meshShape s -> k < length (HullState.faceStore s) -> j < 3 ->
  walkNext n (Some (3 * k + j)) s = Ok (Some (3 * k + (j + n) mod 3), s).
Proof.
  induction n as [|n IH]; intros j Hshape Hk Hj; cbn [walkNext].
  - rewrite Nat.add_0_r, Nat.mod_small by exact Hj. reflexivity.
  - destruct (meshShape_edge_at s k j Hshape Hk Hj) as (ed & He & _ & Hnext & _).
    rewrite bind_orRaise_Some. rewrite (bind_run _ _ _ _ _ (getEdge_run _ _ _ He)). rewrite Hnext.
    rewrite IH by (auto; apply Nat.mod_upper_bound; lia).
    replace (((j + 1) mod 3 + n) mod 3) with ((j + S n) mod 3); [reflexivity|].
    rewrite Nat.Div0.add_mod_idemp_l. f_equal. lia.
Qed.

Lemma walkPrev_mesh s k n : forall j,
  meshShape s -> k < length (HullState.faceStore s) -> j < 3 ->
  walkPrev n (Some (3 * k + j)) s = Ok (Some (3 * k + (j + 2 * n) mod 3), s).
Proof.
  induction n as [|n IH]; intros j Hshape Hk Hj; cbn [walkPrev].
  - rewrite Nat.mul_0_r, Nat.add_0_r, Nat.mod_small by exact Hj. reflexivity.
  - destruct (meshShape_edge_at s k j Hshape Hk Hj) as (ed & He & _ & _ & Hprev).
    rewrite bind_orRaise_Some. rewrite (bind_run _ _ _ _ _ (getEdge_run _ _ _ He)). rewrite Hprev.
    rewrite IH by (auto; apply Nat.mod_upper_bound; lia).
    replace (((j + 2) mod 3 + 2 * n) mod 3) with ((j + 2 * S n) mod 3); [reflexivity|].
    rewrite Nat.Div0.add_mod_idemp_l. f_equal. lia.
Qed.

Lemma cyclic_position (i : Z) :
  Z.to_nat (i mod 3) = ((Z.to_nat i) + 2 * Z.to_nat (- i)) mod 3.
Proof.
  destruct (Z.le_gt_cases 0 i) as [Hi|Hi].
  - assert (E : Z.to_nat (- i) = 0) by lia. rewrite E, Nat.mul_0_r, Nat.add_0_r.
    rewrite Z2Nat.inj_mod by lia. reflexivity.
  - assert (E : Z.to_nat i = 0) by lia. rewrite E, Nat.add_0_l.
    replace (i mod 3)%Z with ((2 * (- i)) mod 3)%Z.
    + rewrite Z2Nat.inj_mod, Z2Nat.inj_mul by lia. reflexivity.
    + replace i with (2 * (- i) + (i) * 3)%Z at 2 by lia.
      rewrite Z.mod_add by lia. reflexivity.
Qed.

(** ** The vertex nodes keep their place and their index *)

Lemma sameIndices_refl s : sameIndices s s.
Proof. reflexivity. Qed.

Lemma sameIndices_trans s1 s2 s3 : sameIndices s1 s2 -> sameIndices s2 s3 -> sameIndices s1 s3.
Proof. unfold sameIndices. congruence. Qed.

Create HintDb idx.

Ltac idx_leaf :=
  first
    [ apply respects_updVertex; intros; unfold sameIndices; simpl;
      eapply map_insert_same; [eassumption|reflexivity]
    | apply respects_updEdge; intros; reflexivity
    | apply respects_updFace; intros; reflexivity
    | apply respects_modify; intros [? ? ? ? ? ? ? ? ?];
      try (match goal with |- context [HullState.setList ?w _ _] => destruct w end);
      reflexivity
    | solve [eauto with idx] ].

Ltac idx_walk :=
  pose proof sameIndices_refl as Hrefl;
  pose proof sameIndices_trans as Htrans;
  walk_by idx_leaf.

Lemma idx_vertexListClear w : respects sameIndices (vertexListClear w).
Proof. unfold vertexListClear. idx_walk. Qed.
Lemma idx_vertexListAppend w v : respects sameIndices (vertexListAppend w v).
Proof. unfold vertexListAppend, getList, setHead, setTail. idx_walk. Qed.
Lemma idx_findEndOfChain fuel v : respects sameIndices (findEndOfChain fuel v).
Proof. revert v. induction fuel; simpl; idx_walk. Qed.
#[local] Hint Resolve idx_vertexListClear idx_vertexListAppend idx_findEndOfChain : idx.
Lemma idx_vertexListAppendChain fuel w v : respects sameIndices (vertexListAppendChain fuel w v).
Proof. unfold vertexListAppendChain, getList, setHead, setTail. idx_walk. Qed.
Lemma idx_vertexListInsertBefore w t v : respects sameIndices (vertexListInsertBefore w t v).
Proof. unfold vertexListInsertBefore, setHead, setTail. idx_walk. Qed.
Lemma idx_vertexListRemove w v : respects sameIndices (vertexListRemove w v).
Proof. unfold vertexListRemove, setHead, setTail. idx_walk. Qed.
Lemma idx_vertexListRemoveSubList w a b : respects sameIndices (vertexListRemoveSubList w a b).
Proof. unfold vertexListRemoveSubList, setHead, setTail. idx_walk. Qed.
#[local] Hint Resolve idx_vertexListAppendChain idx_vertexListInsertBefore
  idx_vertexListRemove idx_vertexListRemoveSubList : idx.
Lemma idx_createHalfEdge v f : respects sameIndices (createHalfEdge v f).
Proof. unfold createHalfEdge. idx_walk. Qed.
Lemma idx_halfEdgeHead e : respects sameIndices (halfEdgeHead e).
Proof. unfold halfEdgeHead. idx_walk. Qed.
Lemma idx_halfEdgeTail e : respects sameIndices (halfEdgeTail e).
Proof. unfold halfEdgeTail. idx_walk. Qed.
Lemma idx_halfEdgeSetTwin e t : respects sameIndices (halfEdgeSetTwin e t).
Proof. unfold halfEdgeSetTwin. idx_walk. Qed.
#[local] Hint Resolve idx_createHalfEdge idx_halfEdgeHead idx_halfEdgeTail
  idx_halfEdgeSetTwin : idx.
Lemma idx_faceCreate a b c : respects sameIndices (faceCreate a b c).
Proof. unfold faceCreate. idx_walk. Qed.
Lemma idx_walkNext i e : respects sameIndices (walkNext i e).
Proof. revert e. induction i; simpl; idx_walk. Qed.
Lemma idx_walkPrev i e : respects sameIndices (walkPrev i e).
Proof. revert e. induction i; simpl; idx_walk. Qed.
#[local] Hint Resolve idx_faceCreate idx_walkNext idx_walkPrev : idx.
Lemma idx_faceGetEdge f i : respects sameIndices (faceGetEdge f i).
Proof. unfold faceGetEdge. idx_walk. Qed.
#[local] Hint Resolve idx_faceGetEdge : idx.
Lemma idx_faceCompute f : respects sameIndices (faceCompute f).
Proof. unfold faceCompute. idx_walk. Qed.
Lemma idx_computeExtremes : respects sameIndices computeExtremes.
Proof. unfold computeExtremes. idx_walk. Qed.
Lemma idx_addVertexToFace v f : respects sameIndices (addVertexToFace v f).
Proof. unfold addVertexToFace. idx_walk. Qed.
Lemma idx_farthestFace vi faces d mf : respects sameIndices (farthestFace vi faces d mf).
Proof. revert d mf. induction faces; simpl; idx_walk. Qed.
#[local] Hint Resolve idx_faceCompute idx_computeExtremes idx_addVertexToFace
  idx_farthestFace : idx.
Lemma idx_assignVertex v : respects sameIndices (assignVertex v).
Proof. unfold assignVertex. idx_walk. Qed.
#[local] Hint Resolve idx_assignVertex : idx.
Lemma idx_assignRemaining v0 v1 v2 v3 idxs :
  respects sameIndices (assignRemaining v0 v1 v2 v3 idxs).
Proof. induction idxs; simpl; idx_walk. Qed.
Lemma idx_twinEdges f1 i1 f2 i2 : respects sameIndices (twinEdges f1 i1 f2 i2).
Proof. unfold twinEdges. idx_walk. Qed.
#[local] Hint Resolve idx_assignRemaining idx_twinEdges : idx.
Lemma idx_twinOutward faces idxs : respects sameIndices (twinOutward faces idxs).
Proof. induction idxs; simpl; idx_walk. Qed.
Lemma idx_twinInward faces idxs : respects sameIndices (twinInward faces idxs).
Proof. induction idxs; simpl; idx_walk. Qed.
Lemma idx_addFacesToHull faces : respects sameIndices (addFacesToHull faces).
Proof. induction faces; simpl; idx_walk. Qed.
#[local] Hint Resolve idx_twinOutward idx_twinInward idx_addFacesToHull : idx.
Lemma idx_computeInitialHull : respects sameIndices computeInitialHull.
Proof. unfold computeInitialHull. idx_walk. Qed.
Lemma idx_removeVertexFromFace v f : respects sameIndices (removeVertexFromFace v f).
Proof. unfold removeVertexFromFace. idx_walk. Qed.
Lemma idx_findRunEnd fuel f v : respects sameIndices (findRunEnd fuel f v).
Proof. revert v. induction fuel; simpl; idx_walk. Qed.
#[local] Hint Resolve idx_computeInitialHull idx_removeVertexFromFace idx_findRunEnd : idx.
Lemma idx_removeAllVerticesFromFace fuel f :
  respects sameIndices (removeAllVerticesFromFace fuel f).
Proof. unfold removeAllVerticesFromFace. idx_walk. Qed.
Lemma idx_absorbVertex af v : respects sameIndices (absorbVertex af v).
Proof. unfold absorbVertex. idx_walk. Qed.
#[local] Hint Resolve idx_removeAllVerticesFromFace idx_absorbVertex : idx.
Lemma idx_absorbLoop fuel af v : respects sameIndices (absorbLoop fuel af v).
Proof. revert v. induction fuel; destruct v; simpl; idx_walk. Qed.
#[local] Hint Resolve idx_absorbLoop : idx.
Lemma idx_deleteFaceVertices fuel f af : respects sameIndices (deleteFaceVertices fuel f af).
Proof. unfold deleteFaceVertices. idx_walk. Qed.
Lemma idx_scanNewFaces vi faces d mf : respects sameIndices (scanNewFaces vi faces d mf).
Proof. revert d mf. induction faces; simpl; idx_walk. Qed.
#[local] Hint Resolve idx_deleteFaceVertices idx_scanNewFaces : idx.
Lemma idx_resolveVertex nf v : respects sameIndices (resolveVertex nf v).
Proof. unfold resolveVertex. idx_walk. Qed.
#[local] Hint Resolve idx_resolveVertex : idx.
Lemma idx_resolveLoop fuel nf v : respects sameIndices (resolveLoop fuel nf v).
Proof. revert v. induction fuel; destruct v; simpl; idx_walk. Qed.
#[local] Hint Resolve idx_resolveLoop : idx.
Lemma idx_resolveUnassignedPoints fuel nf :
  respects sameIndices (resolveUnassignedPoints fuel nf).
Proof. unfold resolveUnassignedPoints. idx_walk. Qed.
Lemma idx_eyeLoop fuel f : forall cur d ev, respects sameIndices (eyeLoop fuel f cur d ev).
Proof. induction fuel; destruct cur; simpl; idx_walk. Qed.
#[local] Hint Resolve idx_resolveUnassignedPoints idx_eyeLoop : idx.
Lemma idx_nextVertexToAdd fuel : respects sameIndices (nextVertexToAdd fuel).
Proof. unfold nextVertexToAdd. idx_walk. Qed.
Lemma idx_horizon fuel :
  (forall eye cross face hz, respects sameIndices (computeHorizon fuel eye cross face hz)) /\
  (forall eye se e hz, respects sameIndices (horizonLoop fuel eye se e hz)).
Proof.
  induction fuel as [|fuel [IHA IHB]]; split.
  - intros eye cross face hz s r s' H. discriminate H.
  - intros eye se e hz s r s' H. discriminate H.
  - intros eye cross face hz. rewrite computeHorizon_S. idx_walk.
  - intros eye se e hz. rewrite horizonLoop_S. idx_walk.
Qed.
Lemma idx_computeHorizon fuel eye cross face hz :
  respects sameIndices (computeHorizon fuel eye cross face hz).
Proof. apply idx_horizon. Qed.
Lemma idx_addAdjoiningFace eye h : respects sameIndices (addAdjoiningFace eye h).
Proof. unfold addAdjoiningFace. idx_walk. Qed.
#[local] Hint Resolve idx_nextVertexToAdd idx_computeHorizon idx_addAdjoiningFace : idx.
Lemma idx_addNewFacesLoop eye hz : forall first prev,
  respects sameIndices (addNewFacesLoop eye hz first prev).
Proof. induction hz; intros first prev; simpl; idx_walk. Qed.
#[local] Hint Resolve idx_addNewFacesLoop : idx.
Lemma idx_addNewFaces eye hz : respects sameIndices (addNewFaces eye hz).
Proof. unfold addNewFaces. idx_walk. Qed.
#[local] Hint Resolve idx_addNewFaces : idx.
Lemma idx_addVertexToHull fuel v : respects sameIndices (addVertexToHull fuel v).
Proof. unfold addVertexToHull. idx_walk. Qed.
Lemma idx_activeFaces faces : respects sameIndices (activeFaces faces).
Proof. induction faces; simpl; idx_walk. Qed.
#[local] Hint Resolve idx_addVertexToHull idx_activeFaces : idx.
Lemma idx_reindexFaces : respects sameIndices reindexFaces.
Proof. unfold reindexFaces. idx_walk. Qed.
Lemma idx_triangleIndices faces : respects sameIndices (triangleIndices faces).
Proof. induction faces; simpl; idx_walk. Qed.
#[local] Hint Resolve idx_reindexFaces idx_triangleIndices : idx.
Lemma idx_getTriangleIndices : respects sameIndices getTriangleIndices.
Proof. unfold getTriangleIndices. idx_walk. Qed.
Lemma idx_insertionLoop fuel : forall v, respects sameIndices (insertionLoop fuel v).
Proof. induction fuel; destruct v; simpl; idx_walk. Qed.
#[local] Hint Resolve idx_getTriangleIndices idx_insertionLoop : idx.
Lemma idx_buildHull fuel : respects sameIndices (buildHull fuel).
Proof. unfold buildHull. idx_walk. Qed.

Lemma indexed_lookup s n v nd :
  map VertexNode.index (HullState.vertices s) = seq 0 n ->
  HullState.vertices s !! v = Some nd -> VertexNode.index nd = v /\ v < n.
Proof.
  intros Hidx Hnd.
  assert (H : map VertexNode.index (HullState.vertices s) !! v = Some (VertexNode.index nd)).
  { rewrite list_lookup_fmap, Hnd. reflexivity. }
  rewrite Hidx in H. apply lookup_seq in H. simpl in H. lia.
Qed.

Lemma triangleIndices_shape n faces : forall s r s',
  map VertexNode.index (HullState.vertices s) = seq 0 n ->
  triangleIndices faces s = Ok (r, s') ->
  s' = s /\ (exists k, length r = 3 * k) /\ Forall (fun i => i < n) r.
Proof.
  induction faces as [|f rest IH]; intros s r s' Hidx H; simpl in H.
  - apply ret_Ok in H as [<- <-]. split; [reflexivity|]. split; [exists 0; reflexivity|constructor].
  - apply bind_Ok in H as (fc & s0 & Hg & H). apply getFace_Ok in Hg as [Hfc <-].
    apply bind_Ok in H as (tri & s1 & Htri & H).
    apply bind_Ok in H as (more & s2 & Hmore & H). apply ret_Ok in H as [<- <-].
    assert (T : s1 = s /\ (tri = [] \/ exists a b c, tri = [a; b; c] /\ a < n /\ b < n /\ c < n)).
    { destruct (Face.edge fc) as [e|]; [|apply ret_Ok in Htri as [<- <-]; auto].
      destruct (bool_decide (Face.mark fc = VISIBLE)); [|apply ret_Ok in Htri as [<- <-]; auto].
      apply bind_Ok in Htri as (ed & s0 & Hg & Htri). apply getEdge_Ok in Hg as [_ <-].
      apply bind_Ok in Htri as (v0 & s0 & Hg & Htri). apply getVertex_Ok in Hg as [Hv0 <-].
      apply bind_Ok in Htri as (en & s0 & Hg & Htri). apply orRaise_Ok in Hg as [_ <-].
      apply bind_Ok in Htri as (nd & s0 & Hg & Htri). apply getEdge_Ok in Hg as [_ <-].
      apply bind_Ok in Htri as (v1 & s0 & Hg & Htri). apply getVertex_Ok in Hg as [Hv1 <-].
      apply bind_Ok in Htri as (ep & s0 & Hg & Htri). apply orRaise_Ok in Hg as [_ <-].
      apply bind_Ok in Htri as (pd & s0 & Hg & Htri). apply getEdge_Ok in Hg as [_ <-].
      apply bind_Ok in Htri as (v2 & s0 & Hg & Htri). apply getVertex_Ok in Hg as [Hv2 <-].
      apply ret_Ok in Htri as [<- <-]. split; [reflexivity|]. right.
      destruct (indexed_lookup _ _ _ _ Hidx Hv0) as [-> ?].
      destruct (indexed_lookup _ _ _ _ Hidx Hv1) as [-> ?].
      destruct (indexed_lookup _ _ _ _ Hidx Hv2) as [-> ?].
      eauto 10. }
    destruct T as [-> T].
    destruct (IH _ _ _ Hidx Hmore) as (-> & (k & Hk) & Hall).
    split; [reflexivity|].
    destruct T as [->|(a & b & c & -> & Ha & Hb & Hc)]; simpl.
    + split; [exists k; exact Hk|exact Hall].
    + split; [exists (S k); rewrite Hk; lia|]. repeat constructor; auto.
Qed.

Lemma runHull_indices fuel points r s :
  runHull fuel points = Ok (r, s) ->
  map VertexNode.index (HullState.vertices s) = seq 0 (vertexCount (length points)).
Proof.
  unfold runHull. intros H.
  assert (E : sameIndices (createHullState points) s).
  { revert H. match goal with |- ?m _ = _ -> _ => change (m (createHullState points) = Ok (r, s) -> sameIndices (createHullState points) s) end.
    intros H. apply bind_Ok in H as (u & s1 & H1 & H2).
    eapply sameIndices_trans; [eapply idx_buildHull|eapply idx_getTriangleIndices]; eauto. }
  red in E. rewrite E. simpl. rewrite map_map. simpl. apply map_id.
Qed.

(** ** Re-indexing and the output *)

Lemma activeFaces_filter faces : forall s act s',
  activeFaces faces s = Ok (act, s') ->
  s' = s /\ act = filter (fun f => isVisible s f = true) faces.
Proof.
  induction faces as [|f rest IH]; intros s act s' H; simpl in H.
  - apply ret_Ok in H as [<- <-]. auto.
  - apply bind_Ok in H as (fc & s0 & Hg & H). apply getFace_Ok in Hg as [Hfc <-].
    apply bind_Ok in H as (act' & s1 & Hact & H). apply ret_Ok in H as [<- <-].
    destruct (IH _ _ _ Hact) as [-> ->]. split; [reflexivity|].
    rewrite filter_cons. rewrite (isVisible_intro _ _ _ Hfc).
    destruct (bool_decide (Face.mark fc = VISIBLE)) eqn:E.
    + rewrite decide_True by reflexivity. reflexivity.
    + rewrite decide_False by discriminate. reflexivity.
Qed.

Lemma activeFaces_total faces : forall s,
  (forall f, f ∈ faces -> is_Some (HullState.faceStore s !! f)) ->
  activeFaces faces s = Ok (filter (fun f => isVisible s f = true) faces, s).
Proof.
  induction faces as [|f rest IH]; intros s Hall; simpl; [reflexivity|].
  destruct (Hall f ltac:(left)) as [fc Hfc].
  rewrite (bind_run _ _ _ _ _ (getFace_run _ _ _ Hfc)).
  rewrite (bind_run _ _ _ _ _ (IH s ltac:(intros g Hg; apply Hall; right; exact Hg))).
  rewrite filter_cons, (isVisible_intro _ _ _ Hfc).
  destruct (bool_decide (Face.mark fc = VISIBLE)) eqn:E.
  - rewrite decide_True by reflexivity. reflexivity.
  - rewrite decide_False by discriminate. reflexivity.
Qed.

Lemma triangleIndices_same faces : forall s r s',
  triangleIndices faces s = Ok (r, s') -> s' = s.
Proof.
  assert (H : respects unchanged (triangleIndices faces)).
  { induction faces; simpl; read_walk. }
  intros s r s' Hrun. apply H in Hrun. exact Hrun.
Qed.

Lemma triangleIndices_count faces : forall s r s',
  meshShape s -> Forall (fun f => isVisible s f = true) faces ->
  triangleIndices faces s = Ok (r, s') -> length r = 3 * length faces.
Proof.
  induction faces as [|f rest IH]; intros s r s' Hshape Hvis H; simpl in H.
  - apply ret_Ok in H as [<- _]. reflexivity.
  - apply Forall_cons in Hvis as [Hf Hvis].
    apply bind_Ok in H as (fc & s0 & Hg & H). apply getFace_Ok in Hg as [Hfc <-].
    apply bind_Ok in H as (tri & s1 & Htri & H).
    apply bind_Ok in H as (more & s2 & Hmore & H). apply ret_Ok in H as [<- <-].
    pose proof Hshape as (_ & Hedge & _). rewrite (Hedge _ _ Hfc) in Htri.
    rewrite (isVisible_intro _ _ _ Hfc) in Hf. rewrite Hf in Htri.
    apply bind_Ok in Htri as (ed & s0 & Hg & Htri). apply getEdge_Ok in Hg as [_ <-].
    apply bind_Ok in Htri as (v0 & s0 & Hg & Htri). apply getVertex_Ok in Hg as [Hv0 <-].
    apply bind_Ok in Htri as (en & s0 & Hg & Htri). apply orRaise_Ok in Hg as [_ <-].
    apply bind_Ok in Htri as (nd & s0 & Hg & Htri). apply getEdge_Ok in Hg as [_ <-].
    apply bind_Ok in Htri as (v1 & s0 & Hg & Htri). apply getVertex_Ok in Hg as [Hv1 <-].
    apply bind_Ok in Htri as (ep & s0 & Hg & Htri). apply orRaise_Ok in Hg as [_ <-].
    apply bind_Ok in Htri as (pd & s0 & Hg & Htri). apply getEdge_Ok in Hg as [_ <-].
    apply bind_Ok in Htri as (v2 & s0 & Hg & Htri). apply getVertex_Ok in Hg as [Hv2 <-].
    apply ret_Ok in Htri as [<- <-].
    rewrite length_app, (IH _ _ _ Hshape Hvis Hmore). simpl. lia.
Qed.

Lemma runHull_end fuel points r s :
  runHull fuel points = Ok (r, s) ->
  exists s3, underConstruction points s3 /\
    s = HullState.set_faces (filter (fun f => isVisible s3 f = true) (HullState.faces s3)) s3 /\
    triangleIndices (HullState.faces s) s = Ok (r, s).
Proof.
  unfold runHull, buildHull. intros H.
  apply bind_Ok in H as (u & s4 & H & Htri).
  apply bind_Ok in H as ([] & s1 & Hseed & H).
  apply bind_Ok in H as (cur & s2 & Hnext & H).
  apply bind_Ok in H as (u3 & s3 & Hloop & Hre).
  pose proof (uc_seed _ _ Hseed) as Huc.
  pose proof (nextVertexToAdd_same _ _ _ _ Hnext) as ->.
  destruct (insertionLoop_reaches points fuel cur s1 s1 u3 s3 Huc) as (s5 & Huc5 & ->); auto.
  { destruct cur as [v|]; [right; eauto|left; auto]. }
  exists s5. split; [exact Huc5|].
  unfold reindexFaces in Hre.
  apply bind_Ok in Hre as (fs & s0 & Hg & Hre). apply gets_Ok in Hg as [<- <-].
  apply bind_Ok in Hre as (act & s0 & Hact & Hre). apply activeFaces_filter in Hact as [-> ->].
  apply modify_Ok in Hre. subst s4.
  unfold getTriangleIndices in Htri.
  apply bind_Ok in Htri as (fs & s0 & Hg & Htri). apply gets_Ok in Hg as [<- <-].
  assert (s = HullState.set_faces
                (filter (fun f => isVisible s5 f = true) (HullState.faces s5)) s5).
  { apply (triangleIndices_same _ _ _ _ Htri). }
  subst s. auto.
Qed.

(** X1. What [quickhull3] returns is a list of triangles over the input
    points: its length is a multiple of three and every entry is the
    index of an input point. In the state the run ends with, [faces]
    holds VISIBLE faces only, and the output has one triangle for each
    of them. *)
Theorem output_is_one_triangle_per_kept_face :
  (forall fuel points r, quickhull3 fuel points = Ok r ->
     (exists k, length r = 3 * k) /\
     Forall (fun i => i < vertexCount (length points)) r) /\
  (forall fuel points r s, runHull fuel points = Ok (r, s) ->
     Forall (fun f => isVisible s f = true) (HullState.faces s) /\
     length r = 3 * length (HullState.faces s) /\
     Forall (fun i => i < vertexCount (length points)) r).
Proof.
  assert (Hrun : forall fuel points r s, runHull fuel points = Ok (r, s) ->
     Forall (fun f => isVisible s f = true) (HullState.faces s) /\
     length r = 3 * length (HullState.faces s) /\
     Forall (fun i => i < vertexCount (length points)) r).
  { intros fuel points r s H.
    pose proof (runHull_indices _ _ _ _ H) as Hidx.
    destruct (runHull_end _ _ _ _ H) as (s3 & Huc & Es & Htri).
    destruct (underConstruction_inv _ _ Huc) as [[Hshape _] _].
    assert (Hshape' : meshShape s) by (subst s; exact Hshape).
    assert (Hvis : Forall (fun f => isVisible s f = true) (HullState.faces s)).
    { rewrite Es. simpl. apply Forall_forall. intros f Hf.
      apply list_elem_of_filter in Hf as [Hf _]. exact Hf. }
    split; [exact Hvis|]. split.
    - eapply triangleIndices_count; eauto.
    - eapply triangleIndices_shape; eauto. }
  split; [|exact Hrun].
  intros fuel points r H. unfold quickhull3 in H.
  destruct (length points <? 12).
  - injection H as <-. split; [exists 0; reflexivity|constructor].
  - destruct (runHull fuel points) as [[r' s]| |] eqn:E; try discriminate.
    injection H as <-. destruct (Hrun _ _ _ _ E) as (_ & Hlen & Hall).
    split; [eauto|exact Hall].
Qed.

Lemma output_is_one_triangle_per_kept_face_witness :
  exists r s, runHull 100 octahedron = Ok (r, s) /\
    quickhull3 100 octahedron = Ok r /\
    length r = 3 * length (HullState.faces s) /\
    Forall (fun i => i < 6) r.
Proof.
  destruct output_is_one_triangle_per_kept_face as [_ Hrun].
  destruct (runHull 100 octahedron) as [[r s]| |] eqn:E.
  - exists r, s. split; [reflexivity|].
    split; [unfold quickhull3; rewrite E; reflexivity|].
    destruct (Hrun _ _ _ _ E) as (_ & Hlen & Hall). split; [exact Hlen|exact Hall].
  - vm_compute in E. discriminate E.
  - vm_compute in E. discriminate E.
Defined.

(** X2. [reindexFaces] keeps of [faces] exactly the faces marked VISIBLE,
    in their order, and changes nothing else; run again, it changes
    nothing. *)
Theorem reindexFaces_keeps_the_visible_faces s :
  (forall f, f ∈ HullState.faces s -> is_Some (HullState.faceStore s !! f)) ->
  let s' := HullState.set_faces
              (filter (fun f => isVisible s f = true) (HullState.faces s)) s in
  reindexFaces s = Ok (tt, s') /\ reindexFaces s' = Ok (tt, s').
Proof.
  intros Hall s'.
  assert (H1 : reindexFaces s = Ok (tt, s')).
  { unfold reindexFaces. rewrite bind_gets.
    rewrite (bind_run _ _ _ _ _ (activeFaces_total _ _ Hall)). reflexivity. }
  split; [exact H1|].
  assert (Hall' : forall f, f ∈ HullState.faces s' ->
                    is_Some (HullState.faceStore s' !! f)).
  { intros f Hf. subst s'. simpl in *. apply list_elem_of_filter in Hf as [_ Hf].
    apply Hall, Hf. }
  unfold reindexFaces. rewrite bind_gets.
  rewrite (bind_run _ _ _ _ _ (activeFaces_total _ s' Hall')).
  unfold modify. f_equal. f_equal. subst s'. simpl. unfold HullState.set_faces. simpl.
  f_equal. apply list_filter_filter_l. intros f Hf. exact Hf.
Qed.

Lemma reindexFaces_keeps_the_visible_faces_witness :
  HullState.faces octahedronStep = [0; 1; 2; 3; 4; 5; 6] /\
  reindexFaces octahedronStep
  = Ok (tt, HullState.set_faces [0; 2; 3; 4; 5; 6] octahedronStep).
Proof.
  split; [vm_compute; reflexivity|].
  assert (Hall : forall f, f ∈ HullState.faces octahedronStep ->
                   is_Some (HullState.faceStore octahedronStep !! f)).
  { assert (E : HullState.faces octahedronStep = [0; 1; 2; 3; 4; 5; 6])
      by (vm_compute; reflexivity).
    rewrite E. intros f Hf.
    repeat (apply elem_of_cons in Hf as [->|Hf]; [eexists; vm_compute; reflexivity|]).
    inversion Hf. }
  destruct (reindexFaces_keeps_the_visible_faces octahedronStep Hall) as [H _].
  rewrite H. vm_compute. reflexivity.
Defined.

(** X3. On a mesh, [faceGetEdge face i] answers the half-edge at place
    [i] modulo 3 of the face's cycle, for every integer [i]: it walks
    [next] for a positive [i] and [prev] for a negative one, and leaves
    the state alone. For a face without an edge it answers [undefined]. *)
Theorem faceGetEdge_is_cyclic :
  (forall s f (i : Z), meshShape s -> f < length (HullState.faceStore s) ->
     faceGetEdge f i s = Ok (Some (3 * f + Z.to_nat (i mod 3)), s)) /\
  (forall s f fc (i : Z), HullState.faceStore s !! f = Some fc -> Face.edge fc = None ->
     faceGetEdge f i s = Ok (None, s)).
Proof.
  split.
  - intros s f i Hshape Hf.
    destruct (HullState.faceStore s !! f) as [fc|] eqn:Hfc;
      [|apply lookup_ge_None in Hfc; lia].
    pose proof Hshape as (_ & Hedge & _).
    unfold faceGetEdge. rewrite (bind_run _ _ _ _ _ (getFace_run _ _ _ Hfc)).
    rewrite (Hedge _ _ Hfc).
    replace (3 * f) with (3 * f + 0) at 1 by lia.
    rewrite (bind_run _ _ _ _ _ (walkNext_mesh s f _ 0 Hshape Hf ltac:(lia))).
    rewrite walkPrev_mesh by (auto; apply Nat.mod_upper_bound; lia).
    rewrite cyclic_position. rewrite Nat.add_0_l, Nat.Div0.add_mod_idemp_l. reflexivity.
  - intros s f fc i Hfc He. unfold faceGetEdge.
    rewrite (bind_run _ _ _ _ _ (getFace_run _ _ _ Hfc)). rewrite He. reflexivity.
Qed.

Lemma faceGetEdge_is_cyclic_witness :
  faceGetEdge 1 (-1) octahedronSeed = Ok (Some 5, octahedronSeed) /\
  faceGetEdge 1 7 octahedronSeed = Ok (Some 4, octahedronSeed).
Proof.
  destruct faceGetEdge_is_cyclic as [H _].
  assert (H0 : computeInitialHull (createHullState octahedron) = Ok (tt, octahedronSeed))
    by (vm_compute; reflexivity).
  destruct (computeInitialHull_links _ _ H0) as [Hshape _].
  assert (Hf : 1 < length (HullState.faceStore octahedronSeed)) by (vm_compute; lia).
  split.
  - exact (H octahedronSeed 1 (-1)%Z Hshape Hf).
  - exact (H octahedronSeed 1 7%Z Hshape Hf).
Defined.

(** ** The horizon *)

Lemma meshShape_edge_face s h hd :
  meshShape s -> HullState.edgeStore s !! h = Some hd ->
  exists j, j < 3 /\ h = 3 * HalfEdge.face hd + j.
Proof.
  intros (_ & _ & Hedges) Hh.
  pose proof (Nat.div_mod_eq h 3) as E.
  assert (Hj : h mod 3 < 3) by (apply Nat.mod_upper_bound; lia).
  rewrite E in Hh. destruct (Hedges _ _ _ Hj Hh) as (Hf & _).
  exists (h mod 3). split; [exact Hj|]. rewrite Hf. exact E.
Qed.

(** X4. On a mesh, [computeHorizon] started from a face only turns faces
    from VISIBLE to DELETED: the start face, and otherwise only faces
    that see the eye point above the tolerance. The horizon it answers
    has no half-edge twice and is exactly the border of what it deleted:
    a half-edge of a face deleted by the walk is on the horizon exactly
    when its twin lies on a face that is still VISIBLE, and over that
    face the eye point is not above the tolerance. *)
Theorem horizon_is_the_border_of_the_deleted_faces fuel eye face s hz s' :
  meshShape s ->
  computeHorizon fuel eye None face [] s = Ok (hz, s') ->
  HullState.edgeStore s' = HullState.edgeStore s /\
  (forall g, isVisible s' g = true -> isVisible s g = true) /\
  isVisible s' face = false /\
  (forall g, isVisible s g = true -> isVisible s' g = false ->
     g = face \/ seesEye s eye g = true) /\
  NoDup hz /\
  (forall h, h ∈ hz -> exists hd t td,
     HullState.edgeStore s !! h = Some hd /\ isVisible s' (HalfEdge.face hd) = false /\
     HalfEdge.twin hd = Some t /\ HullState.edgeStore s !! t = Some td /\
     isVisible s' (HalfEdge.face td) = true /\
     seesEye s eye (HalfEdge.face td) = false) /\
  (forall h hd t td,
     HullState.edgeStore s !! h = Some hd ->
     isVisible s (HalfEdge.face hd) = true -> isVisible s' (HalfEdge.face hd) = false ->
     HalfEdge.twin hd = Some t -> HullState.edgeStore s !! t = Some td ->
     isVisible s' (HalfEdge.face td) = true -> h ∈ hz).
Proof.
  intros Hshape H.
  destruct (horizon_sweep fuel) as [HA _].
  destruct (HA eye None face [] s hz s' Hshape I H)
    as (new & -> & ((He & _ & _ & _ & Hdrop) & Hnd & Hpushed & Hgone) & Hface & _).
  simpl. split; [exact He|]. split; [exact Hdrop|]. split; [exact Hface|].
  split; [|split; [exact Hnd|split]].
  - intros g Hg Hg'. destruct (Hgone g Hg Hg') as [[<-|Hsee] _]; auto.
  - intros h Hh. destruct (Hpushed h Hh) as [(hd & t & td & P) _]. eauto 10.
  - intros h hd t td Hh Hv Hv' Ht Htd Hvt.
    destruct (meshShape_edge_face _ _ _ Hshape Hh) as (j & Hj & ->).
    destruct (Hgone _ Hv Hv') as [_ Hex].
    destruct (Hex j Hj) as (ed & t' & td' & Hed & Ht' & Htd' & [Hbad|Hin]);
      [|exact Hin].
    rewrite He in Hed, Htd'.
    assert (ed = hd) by congruence. subst ed.
    assert (t' = t) by congruence. subst t'.
    assert (td' = td) by congruence. subst td'. congruence.
Qed.

Lemma horizon_is_the_border_of_the_deleted_faces_witness :
  exists s', computeHorizon 100 4 None 1 [] octahedronSeed = Ok ([3; 4; 5], s') /\
    isVisible s' 1 = false /\ NoDup [3; 4; 5].
Proof.
  assert (H0 : computeInitialHull (createHullState octahedron) = Ok (tt, octahedronSeed))
    by (vm_compute; reflexivity).
  destruct (computeInitialHull_links _ _ H0) as [Hshape _].
  destruct (computeHorizon 100 4 None 1 [] octahedronSeed) as [[hz s']| |] eqn:E.
  - assert (Ehz : hz = [3; 4; 5]).
    { vm_compute in E. injection E as <- _. reflexivity. }
    subst hz. exists s'. split; [reflexivity|].
    destruct (horizon_is_the_border_of_the_deleted_faces _ _ _ _ _ _ Hshape E)
      as (_ & _ & Hface & _ & Hnd & _).
    split; [exact Hface|exact Hnd].
  - vm_compute in E. discriminate E.
  - vm_compute in E. discriminate E.
Defined.

(** ** The faces built over the horizon *)

Lemma sameShape_refl s : sameShape s s.
Proof. repeat split. Qed.

Lemma sameShape_trans s1 s2 s3 : sameShape s1 s2 -> sameShape s2 s3 -> sameShape s1 s3.
Proof. intros (A1 & A2 & A3 & A4) (B1 & B2 & B3 & B4). repeat split; congruence. Qed.

Ltac shape_leaf :=
  first
    [ apply respects_updEdge; intros; repeat split;
      unfold edgeSkeleton; simpl; eapply map_insert_same; eauto
    | apply respects_updFace; intros; repeat split;
      unfold faceSkeleton; simpl; eapply map_insert_same; eauto using faceShape_faceGeometry
    | apply respects_read; [apply sameShape_refl|]; solve [eauto]
    | solve [eauto] ].

Ltac shape_walk :=
  pose proof sameShape_refl as Hrefl;
  pose proof sameShape_trans as Htrans;
  walk_by shape_leaf.

Lemma shape_halfEdgeSetTwin e t : respects sameShape (halfEdgeSetTwin e t).
Proof. unfold halfEdgeSetTwin. shape_walk. Qed.

Lemma shape_faceCompute f : respects sameShape (faceCompute f).
Proof.
  unfold faceCompute. pose proof read_halfEdgeTail. pose proof read_halfEdgeHead. shape_walk.
Qed.

Lemma halfEdgeHead_Ok e s hv s' :
  halfEdgeHead e s = Ok (hv, s') -> s' = s /\ headOf s e = Some hv.
Proof.
  unfold halfEdgeHead, headOf. intros H.
  apply bind_Ok in H as (ed & s0 & Hg & H). apply getEdge_Ok in Hg as [He <-].
  apply ret_Ok in H as [<- <-]. rewrite He. auto.
Qed.

Lemma halfEdgeTail_Ok e s tl s' :
  halfEdgeTail e s = Ok (Some tl, s') -> s' = s /\ tailOf s e = Some tl.
Proof.
  unfold halfEdgeTail, tailOf. intros H.
  apply bind_Ok in H as (ed & s0 & Hg & H). apply getEdge_Ok in Hg as [He <-].
  destruct (HalfEdge.prev ed) as [p|] eqn:Hp.
  - apply bind_Ok in H as (pd & s1 & Hg & H). apply getEdge_Ok in Hg as [Hpd <-].
    apply ret_Ok in H as [[= <-] <-]. split; [reflexivity|].
    rewrite He. simpl. rewrite Hp. simpl. rewrite Hpd. reflexivity.
  - apply ret_Ok in H as [Hbad _]. discriminate.
Qed.

Lemma edgeSkeleton_lookup s e ed :
  HullState.edgeStore s !! e = Some ed -> edgeSkeleton s !! e = Some (edgeShape ed).
Proof. intros H. unfold edgeSkeleton. rewrite list_lookup_fmap, H. reflexivity. Qed.

Lemma headOf_grows s s' X e v :
  edgeSkeleton s' = edgeSkeleton s ++ X -> headOf s e = Some v -> headOf s' e = Some v.
Proof.
  unfold headOf. intros Hsk H.
  destruct (HullState.edgeStore s !! e) as [ed|] eqn:He; [|discriminate]. simpl in H.
  injection H as <-.
  pose proof (edgeSkeleton_lookup _ _ _ He) as L.
  assert (L' : edgeSkeleton s' !! e = Some (edgeShape ed)).
  { rewrite Hsk. apply lookup_app_l_Some. exact L. }
  destruct ed as [v p n t f]. apply skeleton_edge in L' as (ed' & He' & Hv' & _).
  rewrite He'. simpl. rewrite Hv'. reflexivity.
Qed.

Lemma tailOf_grows s s' X e v :
  edgeSkeleton s' = edgeSkeleton s ++ X -> tailOf s e = Some v -> tailOf s' e = Some v.
Proof.
  unfold tailOf. intros Hsk H.
  destruct (HullState.edgeStore s !! e) as [ed|] eqn:He; [|discriminate]. simpl in H.
  destruct (HalfEdge.prev ed) as [p|] eqn:Hp; [|discriminate]. simpl in H.
  destruct (HullState.edgeStore s !! p) as [pd|] eqn:Hpd; [|discriminate]. simpl in H.
  injection H as <-.
  assert (L' : edgeSkeleton s' !! e = Some (edgeShape ed)).
  { rewrite Hsk. apply lookup_app_l_Some. apply edgeSkeleton_lookup, He. }
  assert (Lp : edgeSkeleton s' !! p = Some (edgeShape pd)).
  { rewrite Hsk. apply lookup_app_l_Some. apply edgeSkeleton_lookup, Hpd. }
  destruct ed as [v p0 n t f]. simpl in Hp. subst p0.
  apply skeleton_edge in L' as (ed' & He' & _ & Hp' & _).
  destruct pd as [pv pp pn pt pf].
  apply skeleton_edge in Lp as (pd' & Hpd' & Hv' & _).
  rewrite He'. simpl. rewrite Hp'. simpl. rewrite Hpd'. simpl. rewrite Hv'. reflexivity.
Qed.

Lemma addAdjoiningFace_census eye h s side s' :
  addAdjoiningFace eye h s = Ok (side, s') ->
  let n := length (HullState.edgeStore s) in
  let k := length (HullState.faceStore s) in
  exists tl hv, tailOf s h = Some tl /\ headOf s h = Some hv /\
    side = n /\
    edgeSkeleton s' = edgeSkeleton s ++ fanShape eye n k [(tl, hv)] /\
    faceSkeleton s' = faceSkeleton s ++ [(VISIBLE, Some n, None)] /\
    HullState.faces s' = HullState.faces s ++ [k] /\
    HullState.newFaces s' = HullState.newFaces s /\
    (exists sd, HullState.edgeStore s' !! n = Some sd /\ HalfEdge.face sd = k /\
                HalfEdge.next sd = Some (n + 1)).
Proof.
  intros H n k. unfold addAdjoiningFace in H.
  apply bind_Ok in H as (ot & s0 & Hg & H).
  apply bind_Ok in H as (hv & s1 & Hg1 & H).
  apply bind_Ok in H as (tl & s2 & Hg2 & H). apply orRaise_Ok in Hg2 as [-> <-].
  apply halfEdgeTail_Ok in Hg as [-> Htl].
  apply halfEdgeHead_Ok in Hg1 as [-> Hhv].
  rewrite (bind_run _ _ _ _ _ (faceCreate_run _ _ _ _)) in H. fold k in H.
  apply bind_Ok in H as (u & s2 & Hcomp & H). apply shape_faceCompute in Hcomp.
  apply bind_Ok in H as (u' & s3 & Hm & H). apply modify_Ok in Hm.
  set (s1 := faceCreated eye tl hv s) in *.
  assert (E1 : edgeSkeleton s1 = edgeSkeleton s ++ fanShape eye n k [(tl, hv)]).
  { unfold s1, faceCreated, edgeSkeleton. simpl. rewrite map_app. reflexivity. }
  assert (F1 : faceSkeleton s1 = faceSkeleton s ++ [(VISIBLE, Some n, None)]).
  { unfold s1, faceCreated, faceSkeleton. simpl. rewrite map_app. reflexivity. }
  assert (L1 : HullState.faces s1 = HullState.faces s /\
               HullState.newFaces s1 = HullState.newFaces s) by (split; reflexivity).
  destruct L1 as [L1 N1].
  destruct Hcomp as (E2 & F2 & L2 & N2).
  assert (S3 : edgeSkeleton s3 = edgeSkeleton s2 /\ faceSkeleton s3 = faceSkeleton s2 /\
               HullState.faces s3 = HullState.faces s2 ++ [k] /\
               HullState.newFaces s3 = HullState.newFaces s2).
  { subst s3. repeat split. }
  destruct S3 as (E3 & F3 & L3 & N3). clear Hm.
  apply bind_Ok in H as (oe & s4 & Hg & H).
  apply read_faceGetEdge in Hg. red in Hg. subst s4.
  apply bind_Ok in H as (he & s4 & Hg & H). apply getEdge_Ok in Hg as [_ <-].
  apply bind_Ok in H as (e & s4 & Hg & H). apply orRaise_Ok in Hg as [_ <-].
  apply bind_Ok in H as (tw & s4 & Hg & H). apply orRaise_Ok in Hg as [_ <-].
  apply bind_Ok in H as (u4 & s4 & Hset & H). apply shape_halfEdgeSetTwin in Hset.
  destruct Hset as (E4 & F4 & L4 & N4).
  apply bind_Ok in H as (o0 & s5 & Hg & H).
  apply faceGetEdge_zero in Hg as (-> & fc & Hfc & ->).
  apply orRaise_Ok in H as [Hside <-].
  assert (Fk : faceSkeleton s4 !! k = Some (VISIBLE, Some n, None)).
  { rewrite F4, F3, F2, F1. apply list_lookup_middle.
    unfold k, faceSkeleton. rewrite length_map. reflexivity. }
  apply skeleton_face in Fk as (fc' & Hfc' & _ & Hedge & _).
  assert (fc' = fc) by congruence. subst fc'. rewrite Hedge in Hside. injection Hside as <-.
  assert (En : edgeSkeleton s4 !! n = Some (eye, Some (n + 2), Some (n + 1), k)).
  { rewrite E4, E3, E2, E1. simpl. apply list_lookup_middle.
    unfold n, edgeSkeleton. rewrite length_map. reflexivity. }
  apply skeleton_edge in En as (sd & Hsd & _ & _ & Hnext & Hfsd).
  exists tl, hv. split; [exact Htl|]. split; [exact Hhv|]. split; [reflexivity|].
  split; [congruence|]. split; [congruence|]. split; [congruence|]. split; [congruence|].
  exists sd. auto.
Qed.

Lemma fanFaces_S n m : fanFaces n (S m) = (VISIBLE, Some n, None) :: fanFaces (n + 3) m.
Proof.
  unfold fanFaces. cbn [seq map]. rewrite Nat.mul_0_r, Nat.add_0_r. f_equal.
  rewrite <- seq_shift, map_map. apply map_ext. intros i.
  replace (n + 3 * S i) with (n + 3 + 3 * i) by lia. reflexivity.
Qed.

Lemma length_edgeSkeleton s : length (edgeSkeleton s) = length (HullState.edgeStore s).
Proof. apply length_map. Qed.

Lemma length_faceSkeleton s : length (faceSkeleton s) = length (HullState.faceStore s).
Proof. apply length_map. Qed.

Lemma addNewFacesLoop_census eye hz : forall first prev s fp s',
  addNewFacesLoop eye hz first prev s = Ok (fp, s') ->
  let n := length (HullState.edgeStore s) in
  let k := length (HullState.faceStore s) in
  exists corners,
    Forall2 (fun h c => tailOf s' h = Some c.1 /\ headOf s' h = Some c.2) hz corners /\
    edgeSkeleton s' = edgeSkeleton s ++ fanShape eye n k corners /\
    faceSkeleton s' = faceSkeleton s ++ fanFaces n (length hz) /\
    HullState.faces s' = HullState.faces s ++ seq k (length hz) /\
    HullState.newFaces s' = HullState.newFaces s ++ seq k (length hz) /\
    (hz = [] -> fp = (first, prev)).
Proof.
  induction hz as [|h rest IH]; intros first prev s fp s' H; cbv zeta; simpl in H.
  - apply ret_Ok in H as [<- <-]. exists []. simpl. rewrite !app_nil_r.
    split; [constructor|]. repeat split; auto.
  - apply bind_Ok in H as (side & s1 & Hadj & H).
    destruct (addAdjoiningFace_census _ _ _ _ _ Hadj)
      as (tl & hv & Htl & Hhv & -> & E1 & F1 & L1 & N1 & sd & Hsd & Hfsd & _).
    set (n := length (HullState.edgeStore s)) in *.
    set (k := length (HullState.faceStore s)) in *.
    apply bind_Ok in H as (sd' & s0 & Hg & H). apply getEdge_Ok in Hg as [Hsd' <-].
    assert (sd' = sd) by congruence. subst sd'.
    apply bind_Ok in H as (first' & s2 & Hfirst & H).
    assert (S2 : sameShape s1 s2).
    { destruct first as [f0|].
      - apply bind_Ok in Hfirst as (sn & s0 & Hg & Hfirst). apply orRaise_Ok in Hg as [_ <-].
        apply bind_Ok in Hfirst as (pv & s0 & Hg & Hfirst). apply orRaise_Ok in Hg as [_ <-].
        apply bind_Ok in Hfirst as (u & s3 & Hset & Hfirst).
        apply ret_Ok in Hfirst as [_ <-]. apply shape_halfEdgeSetTwin in Hset. exact Hset.
      - apply ret_Ok in Hfirst as [_ <-]. apply sameShape_refl. }
    destruct S2 as (E2 & F2 & L2 & N2).
    apply bind_Ok in H as (u & s3 & Hm & H). apply modify_Ok in Hm.
    assert (S3 : edgeSkeleton s3 = edgeSkeleton s2 /\ faceSkeleton s3 = faceSkeleton s2 /\
                 HullState.faces s3 = HullState.faces s2 /\
                 HullState.newFaces s3 = HullState.newFaces s2 ++ [k]).
    { subst s3. rewrite Hfsd. repeat split. }
    destruct S3 as (E3 & F3 & L3 & N3). clear Hm.
    assert (En : length (HullState.edgeStore s3) = n + 3).
    { rewrite <- length_edgeSkeleton, E3, E2, E1, length_app, length_edgeSkeleton. reflexivity. }
    assert (Fk : length (HullState.faceStore s3) = S k).
    { rewrite <- length_faceSkeleton, F3, F2, F1, length_app, length_faceSkeleton.
      simpl. lia. }
    destruct (IH _ _ _ _ _ H) as (corners & Hc & E4 & F4 & L4 & N4 & _).
    cbv zeta in *.
    rewrite En in E4, F4. rewrite Fk in E4, L4, N4.
    exists ((tl, hv) :: corners).
    assert (E' : edgeSkeleton s' = edgeSkeleton s ++ fanShape eye n k ((tl, hv) :: corners)).
    { rewrite E4, E3, E2, E1. rewrite <- app_assoc. reflexivity. }
    split; [|split; [exact E'|split; [|split; [|split]]]].
    + constructor; [|exact Hc]. simpl. split.
      * eapply tailOf_grows; eauto.
      * eapply headOf_grows; eauto.
    + rewrite F4, F3, F2, F1, <- app_assoc. simpl. rewrite fanFaces_S. reflexivity.
    + rewrite L4, L3, L2, L1, <- app_assoc. reflexivity.
    + rewrite N4, N3, N2, N1, <- app_assoc. reflexivity.
    + discriminate.
Qed.

Lemma fanShape_lookup eye corners : forall n k i tl hv,
  corners !! i = Some (tl, hv) ->
  fanShape eye n k corners !! (3 * i)
    = Some (eye, Some (n + 3 * i + 2), Some (n + 3 * i + 1), k + i) /\
  fanShape eye n k corners !! (3 * i + 1)
    = Some (tl, Some (n + 3 * i), Some (n + 3 * i + 2), k + i) /\
  fanShape eye n k corners !! (3 * i + 2)
    = Some (hv, Some (n + 3 * i + 1), Some (n + 3 * i), k + i).
Proof.
  induction corners as [|[tl0 hv0] rest IH]; intros n k i tl hv H; [discriminate|].
  destruct i as [|i].
  - injection H as -> ->. cbn [fanShape]. rewrite Nat.mul_0_r, !Nat.add_0_r.
    repeat split.
  - cbn [fanShape]. simpl in H. destruct (IH (n + 3) (S k) i tl hv H) as (H0 & H1 & H2).
    replace (3 * S i) with (3 + 3 * i) by lia.
    replace (n + (3 + 3 * i)) with (n + 3 + 3 * i) by lia.
    replace (k + S i) with (S k + i) by lia.
    split; [exact H0|]. split; [exact H1|exact H2].
Qed.

Lemma fanShape_length eye corners : forall n k,
  length (fanShape eye n k corners) = 3 * length corners.
Proof.
  induction corners as [|[a b] c IH]; intros n k; [reflexivity|].
  cbn [fanShape]. rewrite length_app, IH. simpl. lia.
Qed.

Lemma skeleton_accessors s e v p n f :
  edgeSkeleton s !! e = Some (v, p, n, f) ->
  headOf s e = Some v /\ prevOf s e = p /\ nextOf s e = n /\ faceOf s e = Some f.
Proof.
  intros H. apply skeleton_edge in H as (ed & He & <- & <- & <- & <-).
  unfold headOf, prevOf, nextOf, faceOf. rewrite He. repeat split.
Qed.

Lemma Forall2_lookup_corner {A B} (P : A -> B -> Prop) (l : list A) (l' : list B) i x :
  Forall2 P l l' -> l !! i = Some x -> exists y, l' !! i = Some y /\ P x y.
Proof. intros H Hx. eapply Forall2_lookup_l in H; eauto. Qed.

(** X5. [addNewFaces] needs a horizon that is not empty. Over each of
    its half-edges [h], in order, it makes one fresh VISIBLE face with no
    outside vertex, of three fresh half-edges in a cycle: the first ends
    at the eye vertex, the second at the tail of [h], the third at the
    head of [h], so the third runs along [h]. [newFaces] is exactly
    these faces, [faces] gets them at its end, and the faces and
    half-edges that were there keep their shape. *)
Theorem new_faces_form_a_fan_over_the_horizon eye hz s u s' :
  addNewFaces eye hz s = Ok (u, s') ->
  let n := length (HullState.edgeStore s) in
  let k := length (HullState.faceStore s) in
  hz <> [] /\
  HullState.newFaces s' = seq k (length hz) /\
  HullState.faces s' = HullState.faces s ++ seq k (length hz) /\
  length (HullState.faceStore s') = k + length hz /\
  length (HullState.edgeStore s') = n + 3 * length hz /\
  (forall f, f < k -> faceSkeleton s' !! f = faceSkeleton s !! f) /\
  (forall e, e < n -> edgeSkeleton s' !! e = edgeSkeleton s !! e) /\
  (forall i h, hz !! i = Some h ->
     let f := k + i in
     let e := n + 3 * i in
     markOf s' f = Some VISIBLE /\ outsideOf s' f = None /\ edgeOf s' f = Some e /\
     faceOf s' e = Some f /\ faceOf s' (e + 1) = Some f /\ faceOf s' (e + 2) = Some f /\
     nextOf s' e = Some (e + 1) /\ nextOf s' (e + 1) = Some (e + 2) /\
     nextOf s' (e + 2) = Some e /\
     headOf s' e = Some eye /\
     (exists tl hv, tailOf s' h = Some tl /\ headOf s' h = Some hv /\
        headOf s' (e + 1) = Some tl /\ headOf s' (e + 2) = Some hv)).
Proof.
  intros H. cbv zeta. unfold addNewFaces in H.
  apply bind_Ok in H as (u0 & s0 & Hm & H). apply modify_Ok in Hm.
  apply bind_Ok in H as ([first prev] & s1 & Hloop & H).
  destruct (addNewFacesLoop_census _ _ _ _ _ _ _ Hloop)
    as (corners & Hc & E1 & F1 & L1 & N1 & Hnil).
  cbv zeta in *.
  assert (S0 : HullState.edgeStore s0 = HullState.edgeStore s /\
               HullState.faceStore s0 = HullState.faceStore s /\
               HullState.faces s0 = HullState.faces s /\ HullState.newFaces s0 = []).
  { subst s0. repeat split. }
  destruct S0 as (E0 & F0 & L0 & N0). clear Hm.
  unfold edgeSkeleton at 2 in E1. unfold faceSkeleton at 2 in F1.
  rewrite E0, F0 in *. rewrite L0 in L1. rewrite N0 in N1. simpl in N1.
  fold (edgeSkeleton s) in E1. fold (faceSkeleton s) in F1.
  set (n := length (HullState.edgeStore s)) in *.
  set (k := length (HullState.faceStore s)) in *.
  apply bind_Ok in H as (f0 & s2 & Hg & H). apply orRaise_Ok in Hg as [Hfirst <-].
  assert (Hne : hz <> []).
  { intros ->. specialize (Hnil eq_refl). injection Hnil as -> _. discriminate. }
  apply bind_Ok in H as (fd & s2 & Hg & H). apply getEdge_Ok in Hg as [_ <-].
  apply bind_Ok in H as (fn & s2 & Hg & H). apply orRaise_Ok in Hg as [_ <-].
  apply bind_Ok in H as (pv & s2 & Hg & H). apply orRaise_Ok in Hg as [_ <-].
  apply shape_halfEdgeSetTwin in H. destruct H as (E2 & F2 & L2 & N2).
  assert (HE : forall e v, headOf s1 e = Some v -> headOf s' e = Some v).
  { intros e v. apply (headOf_grows s1 s' []). rewrite app_nil_r. exact E2. }
  assert (HT : forall e v, tailOf s1 e = Some v -> tailOf s' e = Some v).
  { intros e v. apply (tailOf_grows s1 s' []). rewrite app_nil_r. exact E2. }
  rewrite <- E2 in E1. rewrite <- F2 in F1. rewrite <- L2 in L1. rewrite <- N2 in N1.
  assert (Hlc : length corners = length hz) by (symmetry; eapply Forall2_length; eauto).
  pose proof (fanShape_length eye corners n k) as Hfan.
  split; [exact Hne|]. split; [exact N1|]. split; [exact L1|]. split.
  { rewrite <- length_faceSkeleton, F1, length_app, length_faceSkeleton.
    unfold fanFaces. rewrite length_map, length_seq. reflexivity. }
  split.
  { rewrite <- length_edgeSkeleton, E1, length_app, length_edgeSkeleton, Hfan, Hlc.
    reflexivity. }
  split.
  { intros f Hf. rewrite F1. apply lookup_app_l. rewrite length_faceSkeleton. exact Hf. }
  split.
  { intros e He. rewrite E1. apply lookup_app_l. rewrite length_edgeSkeleton. exact He. }
  intros i h Hh.
  destruct (Forall2_lookup_corner _ _ _ _ _ Hc Hh) as ([tl hv] & Hci & Htl & Hhv).
  simpl in Htl, Hhv.
  destruct (fanShape_lookup eye corners n k i tl hv Hci) as (A0 & A1 & A2).
  assert (B : forall j sh, fanShape eye n k corners !! (3 * i + j) = Some sh ->
                edgeSkeleton s' !! (n + 3 * i + j) = Some sh).
  { intros j sh Hsh. rewrite E1.
    rewrite lookup_app_r by (rewrite length_edgeSkeleton; fold n; lia).
    rewrite length_edgeSkeleton. fold n.
    replace (n + 3 * i + j - n) with (3 * i + j) by lia. exact Hsh. }
  replace (3 * i) with (3 * i + 0) in A0 by lia.
  apply B in A0. apply B in A1. apply B in A2. rewrite !Nat.add_0_r in A0.
  apply skeleton_accessors in A0 as (H0 & _ & N0' & Q0).
  apply skeleton_accessors in A1 as (H1 & _ & N1' & Q1).
  apply skeleton_accessors in A2 as (H2 & _ & N2' & Q2).
  assert (Fi : faceSkeleton s' !! (k + i) = Some (VISIBLE, Some (n + 3 * i), None)).
  { rewrite F1.
    rewrite lookup_app_r by (rewrite length_faceSkeleton; fold k; lia).
    rewrite length_faceSkeleton. fold k. replace (k + i - k) with i by lia.
    unfold fanFaces. rewrite list_lookup_fmap.
    rewrite lookup_seq_lt by (apply lookup_lt_Some in Hh; exact Hh). reflexivity. }
  apply skeleton_face in Fi as (fc & Hfc & Hmark & Hedge & Hout).
  split; [unfold markOf; rewrite Hfc; simpl; rewrite Hmark; reflexivity|].
  split; [unfold outsideOf; rewrite Hfc; exact Hout|].
  split; [unfold edgeOf; rewrite Hfc; exact Hedge|].
  split; [exact Q0|]. split; [exact Q1|]. split; [exact Q2|].
  split; [exact N0'|]. split; [rewrite N1'; f_equal; lia|]. split; [exact N2'|].
  split; [exact H0|].
  exists tl, hv. auto.
Qed.

Lemma new_faces_form_a_fan_over_the_horizon_witness :
  exists s', addNewFaces 4 [3; 4; 5] octahedronOpened = Ok (tt, s') /\
    HullState.newFaces s' = [4; 5; 6] /\
    length (HullState.faceStore s') = 7 /\ length (HullState.edgeStore s') = 21 /\
    headOf s' 12 = Some 4.
Proof.
  destruct (addNewFaces 4 [3; 4; 5] octahedronOpened) as [[[] s']| |] eqn:E;
    [|vm_compute in E; discriminate E..].
  exists s'. split; [reflexivity|].
  destruct (new_faces_form_a_fan_over_the_horizon _ _ _ _ _ E)
    as (_ & H2 & _ & H4 & H5 & _ & _ & Hfan).
  split; [rewrite H2; vm_compute; reflexivity|].
  split; [rewrite H4; vm_compute; reflexivity|].
  split; [rewrite H5; vm_compute; reflexivity|].
  destruct (Hfan 0 3 eq_refl) as (_ & _ & _ & _ & _ & _ & _ & _ & _ & Hh & _).
  exact Hh.
Defined.

(** ** The choice of the eye vertex *)

Lemma eyeLoop_scan f s run : forall fuel p n cur d ev r s',
  segment (HullState.vertices s) p run n ->
  cur = firstOr run n ->
  (forall x, x ∈ run -> namesFace s x f) ->
  (forall y, n = Some y -> ~ namesFace s y f) ->
  eyeLoop fuel f cur d ev s = Ok (r, s') ->
  s' = s /\
  exists m', (d = m' \/ (d <? m')%float = true) /\
    Forall (fun x => exists dx, vertexDistance s f x = Some dx /\ (m' <? dx)%float = false) run /\
    ((r = ev /\ m' = d) \/
     (exists v, r = Some v /\ v ∈ run /\ vertexDistance s f v = Some m' /\
                (d <? m')%float = true)).
Proof.
  induction run as [|x rest IH]; intros fuel p n cur d ev r s' Hseg Hcur Hmem Hn H.
  - simpl in Hcur. subst cur.
    assert (E : r = ev /\ s' = s).
    { destruct n as [y|].
      - assert (H0 : bind (getVertex y) (fun vx =>
                       if bool_decide (VertexNode.face vx = Some f) then
                         match fuel with
                         | O => outOfFuel
                         | S fuel' =>
                             points <- gets HullState.points ;;
                             fc <- getFace f ;;
                             distance <- orRaise (faceDistanceToPoint fc points (VertexNode.index vx)) ;;
                             if (d <? distance)%float
                             then eyeLoop fuel' f (VertexNode.next vx) distance (Some y)
                             else eyeLoop fuel' f (VertexNode.next vx) d ev
                         end
                       else ret ev) s = Ok (r, s')).
        { destruct fuel; exact H. }
        apply bind_Ok in H0 as (vx & s0 & Hg & H0). apply getVertex_Ok in Hg as [Hvx <-].
        rewrite bool_decide_eq_false_2 in H0.
        + apply ret_Ok in H0 as [<- <-]. auto.
        + intros Hface. apply (Hn y eq_refl). eapply namesFace_node; eauto.
      - destruct fuel; apply ret_Ok in H as [<- <-]; auto. }
    destruct E as [-> ->]. split; [reflexivity|]. exists d. split; [auto|].
    split; [constructor|left; auto].
  - simpl in Hcur. subst cur. simpl in Hseg. destruct Hseg as (nd & Hnd & _ & Hnx & Hseg).
    destruct fuel as [|fuel].
    { simpl in H. apply bind_Ok in H as (vx & s0 & Hg & H). apply getVertex_Ok in Hg as [Hvx <-].
      rewrite bool_decide_eq_true_2 in H; [discriminate|].
      eapply namesFace_node; [exact Hvx|]. apply Hmem. left. }
    simpl in H.
    apply bind_Ok in H as (vx & s0 & Hg & H). apply getVertex_Ok in Hg as [Hvx <-].
    assert (vx = nd) by congruence. subst vx.
    rewrite bool_decide_eq_true_2 in H
      by (eapply namesFace_node; [exact Hnd|]; apply Hmem; left).
    apply bind_Ok in H as (pts & s0 & Hg & H). apply gets_Ok in Hg as [<- <-].
    apply bind_Ok in H as (fc & s0 & Hg & H). apply getFace_Ok in Hg as [Hfc <-].
    apply bind_Ok in H as (dist & s0 & Hg & H). apply orRaise_Ok in Hg as [Hd <-].
    assert (Hdist : vertexDistance s f x = Some dist).
    { unfold vertexDistance. rewrite Hnd. simpl. eapply distanceTo_intro; eauto. }
    rewrite Hnx in H.
    assert (Hmem' : forall y, y ∈ rest -> namesFace s y f)
      by (intros y Hy; apply Hmem; right; exact Hy).
    destruct (d <? dist)%float eqn:Hlt.
    + destruct (IH fuel (Some x) n _ dist (Some x) r s' Hseg eq_refl Hmem' Hn H)
        as (-> & m' & Hmm & Hall & Hr).
      split; [reflexivity|]. exists m'. split; [right; eapply ltb_weak_trans; eauto|].
      split.
      * constructor; [|exact Hall]. exists dist. split; [exact Hdist|].
        apply ltb_asym_eq. exact Hmm.
      * right. destruct Hr as [[-> ->]|(v & -> & Hin & Hdv & Hlt')].
        -- exists x. repeat split; auto. left.
        -- exists v. repeat split; auto; [right; exact Hin|].
           eapply ltb_trans; eauto.
    + destruct (IH fuel (Some x) n _ d ev r s' Hseg eq_refl Hmem' Hn H)
        as (-> & m' & Hmm & Hall & Hr).
      split; [reflexivity|]. exists m'. split; [exact Hmm|]. split.
      * constructor; [|exact Hall]. exists dist. split; [exact Hdist|].
        eapply not_ltb_mono; eauto.
      * destruct Hr as [[-> ->]|(v & -> & Hin & Hdv & Hlt')]; [left; auto|].
        right. exists v. repeat split; auto. right. exact Hin.
Qed.

Lemma nextVertexToAdd_first_group fuel s gs r s' :
  filed s gs -> nextVertexToAdd fuel s = Ok (r, s') ->
  s' = s /\
  match gs with
  | [] => r = None
  | (f, run) :: _ =>
      match r with
      | Some v =>
          v ∈ run /\
          exists d, vertexDistance s f v = Some d /\ (0 <? d)%float = true /\
            Forall (fun x => exists dx, vertexDistance s f x = Some dx /\
                                        (d <? dx)%float = false) run
      | None =>
          Forall (fun x => exists dx, vertexDistance s f x = Some dx /\
                                      (0 <? dx)%float = false) run
      end
  end.
Proof.
  intros Hfiled H. pose proof (nextVertexToAdd_same _ _ _ _ H) as ->.
  split; [reflexivity|].
  pose proof Hfiled as ((_ & Hhead & _ & Hseg) & Hdup & Hall & _).
  unfold nextVertexToAdd in H.
  apply bind_Ok in H as (asg & s0 & Hg & H). apply gets_Ok in Hg as [<- <-].
  simpl in Hhead.
  destruct gs as [|[f run] rest].
  { simpl in Hhead. rewrite Hhead in H. apply ret_Ok in H as [<- _]. reflexivity. }
  apply Forall_cons in Hall as [(Hne & _ & Hout & Hmem) Hall]. simpl in Hne, Hout, Hmem.
  rewrite runs_cons in Hhead, Hseg.
  destruct run as [|h run]; [contradiction|].
  simpl in Hhead. rewrite Hhead in H.
  apply bind_Ok in H as (hd & s0 & Hg & H). apply getVertex_Ok in Hg as [Hhd <-].
  apply bind_Ok in H as (f' & s0 & Hg & H). apply orRaise_Ok in Hg as [Hf <-].
  assert (f' = f).
  { assert (Hn : namesFace s h f) by (apply Hmem; left).
    apply (namesFace_node _ _ _ _ Hhd) in Hn. congruence. }
  subst f'.
  apply bind_Ok in H as (fc & s0 & Hg & H). apply getFace_Ok in Hg as [Hfc <-].
  assert (Ho : Face.outside fc = Some h).
  { unfold outsideOf in Hout. rewrite Hfc in Hout. exact Hout. }
  rewrite Ho in H.
  apply segment_app in Hseg as [Hseg _].
  apply NoDup_cons in Hdup as [Hfresh _]. simpl in Hfresh.
  eapply eyeLoop_scan in H; [|exact Hseg|reflexivity|exact Hmem|].
  2:{ intros y Hy. apply (members_other _ _ _ _ Hall Hfresh).
      destruct (runs rest); [discriminate|]. injection Hy as ->. left. }
  destruct H as (_ & m' & Hmm & Hrun & Hr).
  destruct Hr as [[-> ->]|(v & -> & Hin & Hdv & Hlt)].
  - exact Hrun.
  - split; [exact Hin|]. exists m'. auto.
Qed.

(** X6. [nextVertexToAdd] reads the state and changes nothing.  With the
    assigned list grouped by face, it answers nothing for the empty list;
    otherwise it looks at the group of the first face only: its answer is
    a vertex of that group whose distance over the face is positive and
    not exceeded by any vertex of the group, and it answers nothing only
    if no vertex of that group is at a positive distance, whatever the
    other groups hold. *)
Theorem nextVertexToAdd_takes_the_farthest_of_the_first_group fuel s gs r s' :
  filed s gs -> nextVertexToAdd fuel s = Ok (r, s') ->
  s' = s /\
  match gs with
  | [] => r = None
  | (f, run) :: _ =>
      match r with
      | Some v =>
          v ∈ run /\
          exists d, vertexDistance s f v = Some d /\ (0 <? d)%float = true /\
            Forall (fun x => exists dx, vertexDistance s f x = Some dx /\
                                        (d <? dx)%float = false) run
      | None =>
          Forall (fun x => exists dx, vertexDistance s f x = Some dx /\
                                      (0 <? dx)%float = false) run
      end
  end.
Proof. apply nextVertexToAdd_first_group. Qed.

Lemma nextVertexToAdd_takes_the_farthest_of_the_first_group_witness :
  exists gs, filed octahedronSeed gs /\
    nextVertexToAdd 100 octahedronSeed = Ok (Some 4, octahedronSeed) /\
    match gs with
    | [] => False
    | (f, run) :: _ =>
        4 ∈ run /\
        exists d, vertexDistance octahedronSeed f 4 = Some d /\ (0 <? d)%float = true /\
          Forall (fun x => exists dx, vertexDistance octahedronSeed f x = Some dx /\
                                      (d <? dx)%float = false) run
    end.
Proof.
  destruct (computeInitialHull_filed octahedron octahedronSeed) as [gs Hgs];
    [vm_compute; reflexivity|].
  exists gs. split; [exact Hgs|].
  assert (E : nextVertexToAdd 100 octahedronSeed = Ok (Some 4, octahedronSeed))
    by (vm_compute; reflexivity).
  split; [exact E|].
  pose proof (nextVertexToAdd_takes_the_farthest_of_the_first_group
                100 octahedronSeed gs (Some 4) octahedronSeed Hgs E) as [_ H].
  destruct gs as [|[f run] rest]; [discriminate|exact H].
Defined.

(** X7. Between the rounds of the insertion loop the assigned list is
    well formed and kept in groups, one per face with outside vertices:
    the vertices filed under a face stand next to each other, the face is
    VISIBLE and its [outside] is the first of them, and a face without a
    group has no outside vertex. *)
Theorem assigned_list_stays_grouped_by_face points s :
  underConstruction points s -> exists gs, filed s gs.
Proof. intros H. apply underConstruction_inv in H as [_ H]. exact H. Qed.

Lemma assigned_list_stays_grouped_by_face_witness :
  underConstruction octahedron octahedronStep /\ exists gs, filed octahedronStep gs.
Proof.
  assert (H0 : computeInitialHull (createHullState octahedron) = Ok (tt, octahedronSeed))
    by (vm_compute; reflexivity).
  assert (H1 : nextVertexToAdd 100 octahedronSeed = Ok (Some 4, octahedronSeed))
    by (vm_compute; reflexivity).
  assert (H2 : addVertexToHull 100 4 octahedronSeed = Ok (tt, octahedronStep))
    by (vm_compute; reflexivity).
  assert (Huc : underConstruction octahedron octahedronStep).
  { eapply uc_step; [apply uc_seed; exact H0|exact H1|exact H2]. }
  split; [exact Huc|]. exact (assigned_list_stays_grouped_by_face _ _ Huc).
Defined.

(** ** The sign of the tolerance *)

Lemma binary_round_aux_sign prec emax sx mx ex lx :
  match binary_round_aux prec emax sx mx ex lx with
  | S754_zero s | S754_infinity s | S754_finite s _ _ => s = sx
  | S754_nan => True
  end.
Proof.
  unfold binary_round_aux.
  destruct (shr_fexp prec emax mx ex lx) as [mrs' e'].
  destruct (shr_fexp prec emax _ e' loc_Exact) as [mrs'' e''].
  destruct (shr_m mrs''); [reflexivity| |exact I].
  destruct (e'' <=? emax - prec)%Z; reflexivity.
Qed.

Lemma unsigned_abs x : unsigned (abs x).
Proof. unfold unsigned. rewrite abs_spec. destruct (Prim2SF x); simpl; auto. Qed.

Lemma unsigned_math_max a b : unsigned a -> unsigned b -> unsigned (math_max a b).
Proof. unfold math_max. destruct (a <? b)%float; auto. Qed.

Lemma unsigned_add a b : unsigned a -> unsigned b -> unsigned (a + b)%float.
Proof.
  unfold unsigned. rewrite add_spec. unfold SF64add.
  destruct (Prim2SF a) as [sa|sa| |sa ma ea], (Prim2SF b) as [sb|sb| |sb mb eb];
    simpl; intros Ha Hb; subst; simpl; auto.
  unfold binary_round.
  destruct (shl_align _ _ _) as [mz ez].
  apply binary_round_aux_sign.
Qed.

Lemma unsigned_mul a b : unsigned a -> unsigned b -> unsigned (a * b)%float.
Proof.
  unfold unsigned. rewrite mul_spec. unfold SF64mul.
  destruct (Prim2SF a) as [sa|sa| |sa ma ea], (Prim2SF b) as [sb|sb| |sb mb eb];
    simpl; intros Ha Hb; subst; simpl; auto.
  apply (binary_round_aux_sign prec emax false).
Qed.

Lemma unsigned_toleranceOf mn mx : unsigned (toleranceOf mn mx).
Proof.
  unfold toleranceOf.
  apply unsigned_mul; [vm_compute; reflexivity|].
  repeat apply unsigned_add; apply unsigned_math_max; apply unsigned_abs.
Qed.

(** Above an unsigned float means above zero. *)
Lemma above_unsigned t d : unsigned t -> (t <? d)%float = true -> (0 <? d)%float = true.
Proof.
  unfold unsigned. rewrite !ltb_spec.
  replace (Prim2SF 0) with (S754_zero false) by reflexivity.
  unfold SFltb.
  destruct (Prim2SF t) as [st|st| |st mt et], (Prim2SF d) as [sd|sd| |sd md ed];
    simpl; intros Ht; subst; simpl; try congruence; destruct sd; simpl; congruence.
Qed.

(** ** Filed vertices lie above their face *)

Lemma planesKept_refl s : planesKept s s.
Proof. repeat split. eauto. Qed.

Lemma planesKept_trans s1 s2 s3 : planesKept s1 s2 -> planesKept s2 s3 -> planesKept s1 s3.
Proof.
  intros (A1 & A2 & A3 & A4) (B1 & B2 & B3 & B4).
  split; [congruence|]. split; [congruence|]. split; [congruence|].
  intros f fc Hfc. destruct (A4 _ _ Hfc) as (fc1 & H1 & E1).
  destruct (B4 _ _ H1) as (fc2 & H2 & E2). exists fc2. split; [exact H2|congruence].
Qed.

Lemma keepsAbove_refl s : keepsAbove s s.
Proof. intros H. exact H. Qed.

Lemma keepsAbove_trans s1 s2 s3 : keepsAbove s1 s2 -> keepsAbove s2 s3 -> keepsAbove s1 s3.
Proof. unfold keepsAbove. auto. Qed.

Lemma planeOf_fields fc fc' p : planeFields fc' = planeFields fc -> planeOf fc' p = planeOf fc p.
Proof. unfold planeFields, planeOf. intros [= -> ->]. reflexivity. Qed.

Lemma planesKept_distance s s' f vi d :
  planesKept s s' -> distanceTo s f vi = Some d -> distanceTo s' f vi = Some d.
Proof.
  intros (Hp & _ & _ & Hf) Hd. unfold distanceTo in *.
  destruct (HullState.faceStore s !! f) as [fc|] eqn:Hfc; [|discriminate].
  destruct (Hf _ _ Hfc) as (fc' & -> & E). simpl in *. rewrite Hp.
  unfold faceDistanceToPoint in *.
  destruct (point3 (HullState.points s) (vi * 3)) as [p|]; [|discriminate].
  simpl in *. rewrite (planeOf_fields _ _ _ E). exact Hd.
Qed.

Lemma planesKept_above s s' : planesKept s s' -> keepsAbove s s'.
Proof.
  intros Hk Habove v nd' f Hnd' Hface.
  pose proof Hk as (_ & Htol & Hvs & _).
  assert (H : map filing (HullState.vertices s') !! v = Some (filing nd'))
    by (rewrite list_lookup_fmap, Hnd'; reflexivity).
  rewrite Hvs, list_lookup_fmap in H.
  destruct (HullState.vertices s !! v) as [nd|] eqn:Hnd; [|discriminate].
  simpl in H. injection H as Hf Hi.
  destruct (Habove v nd f Hnd) as (d & Hd & Hlt); [congruence|].
  exists d. rewrite <- Hi, Htol. split; [|exact Hlt].
  eapply planesKept_distance; eauto.
Qed.

Lemma respects_weaken (R R' : HullState.t -> HullState.t -> Prop) {A} (m : M A) :
  (forall s s', R s s' -> R' s s') -> respects R m -> respects R' m.
Proof. intros HR Hm s a s' H. apply HR. eapply Hm. exact H. Qed.

Lemma planesKept_updVertex s v nd g :
  HullState.vertices s !! v = Some nd -> filing (g nd) = filing nd ->
  planesKept s (HullState.set_vertices (<[v := g nd]> (HullState.vertices s)) s).
Proof.
  intros Hnd Hg. destruct s as [pts tol fs nfs asg un vs fst est]. simpl in *.
  repeat split; simpl; eauto. eapply map_insert_same; eauto.
Qed.

Lemma planesKept_updEdge s x :
  planesKept s (HullState.set_edgeStore x s).
Proof. destruct s. repeat split; simpl; eauto. Qed.

Lemma planesKept_updFace s f fc g :
  HullState.faceStore s !! f = Some fc -> planeFields (g fc) = planeFields fc ->
  planesKept s (HullState.set_faceStore (<[f := g fc]> (HullState.faceStore s)) s).
Proof.
  intros Hfc Hg. destruct s as [pts tol fs nfs asg un vs fst est]. simpl in *.
  repeat split; simpl. intros f' fc' Hf'.
  destruct (decide (f' = f)) as [->|Hne].
  - exists (g fc). rewrite list_lookup_insert_eq by (eapply lookup_lt_Some; eauto).
    split; [reflexivity|congruence].
  - exists fc'. rewrite list_lookup_insert_ne by auto. auto.
Qed.

Create HintDb pk.

Ltac pk_leaf :=
  first
    [ apply respects_updVertex; intros; apply planesKept_updVertex; [eassumption|reflexivity]
    | apply respects_updEdge; intros; apply planesKept_updEdge
    | apply respects_updFace; intros; apply planesKept_updFace; [eassumption|reflexivity]
    | apply respects_modify; intros [? ? ? ? ? ? ? ? ?];
      try (match goal with |- context [HullState.setList ?w _ _] => destruct w end);
      repeat split; solve [eauto]
    | solve [eauto with pk] ].

Ltac pk_walk :=
  pose proof planesKept_refl as Hrefl;
  pose proof planesKept_trans as Htrans;
  walk_by pk_leaf.

Lemma pk_vertexListClear w : respects planesKept (vertexListClear w).
Proof. unfold vertexListClear. pk_walk. Qed.
Lemma pk_vertexListAppend w v : respects planesKept (vertexListAppend w v).
Proof. unfold vertexListAppend, getList, setHead, setTail. pk_walk. Qed.
Lemma pk_findEndOfChain fuel v : respects planesKept (findEndOfChain fuel v).
Proof. revert v. induction fuel; simpl; pk_walk. Qed.
#[local] Hint Resolve pk_vertexListClear pk_vertexListAppend pk_findEndOfChain : pk.
Lemma pk_vertexListAppendChain fuel w v : respects planesKept (vertexListAppendChain fuel w v).
Proof. unfold vertexListAppendChain, getList, setHead, setTail. pk_walk. Qed.
Lemma pk_vertexListInsertBefore w t v : respects planesKept (vertexListInsertBefore w t v).
Proof. unfold vertexListInsertBefore, setHead, setTail. pk_walk. Qed.
Lemma pk_vertexListRemove w v : respects planesKept (vertexListRemove w v).
Proof. unfold vertexListRemove, setHead, setTail. pk_walk. Qed.
Lemma pk_vertexListRemoveSubList w a b : respects planesKept (vertexListRemoveSubList w a b).
Proof. unfold vertexListRemoveSubList, setHead, setTail. pk_walk. Qed.
#[local] Hint Resolve pk_vertexListAppendChain pk_vertexListInsertBefore
  pk_vertexListRemove pk_vertexListRemoveSubList : pk.
Lemma pk_halfEdgeHead e : respects planesKept (halfEdgeHead e).
Proof. unfold halfEdgeHead. pk_walk. Qed.
Lemma pk_halfEdgeTail e : respects planesKept (halfEdgeTail e).
Proof. unfold halfEdgeTail. pk_walk. Qed.
Lemma pk_halfEdgeSetTwin e t : respects planesKept (halfEdgeSetTwin e t).
Proof. unfold halfEdgeSetTwin. pk_walk. Qed.
#[local] Hint Resolve pk_halfEdgeHead pk_halfEdgeTail pk_halfEdgeSetTwin : pk.
Lemma pk_faceCreate a b c : respects planesKept (faceCreate a b c).
Proof.
  intros s r s' H. rewrite faceCreate_run in H. injection H as _ <-.
  unfold faceCreated. destruct s as [pts tol fs nfs asg un vs fst est]. simpl.
  repeat split; simpl. intros f fc Hfc. exists fc.
  rewrite lookup_app_l by (eapply lookup_lt_Some; eauto). auto.
Qed.
Lemma pk_walkNext i e : respects planesKept (walkNext i e).
Proof. revert e. induction i; simpl; pk_walk. Qed.
Lemma pk_walkPrev i e : respects planesKept (walkPrev i e).
Proof. revert e. induction i; simpl; pk_walk. Qed.
#[local] Hint Resolve pk_faceCreate pk_walkNext pk_walkPrev : pk.
Lemma pk_faceGetEdge f i : respects planesKept (faceGetEdge f i).
Proof. unfold faceGetEdge. pk_walk. Qed.
Lemma pk_removeVertexFromFace v f : respects planesKept (removeVertexFromFace v f).
Proof. unfold removeVertexFromFace. pk_walk. Qed.
Lemma pk_findRunEnd fuel f v : respects planesKept (findRunEnd fuel f v).
Proof. revert v. induction fuel; simpl; pk_walk. Qed.
#[local] Hint Resolve pk_faceGetEdge pk_removeVertexFromFace pk_findRunEnd : pk.
Lemma pk_removeAllVerticesFromFace fuel f :
  respects planesKept (removeAllVerticesFromFace fuel f).
Proof. unfold removeAllVerticesFromFace. pk_walk. Qed.
Lemma pk_farthestFace vi faces d mf : respects planesKept (farthestFace vi faces d mf).
Proof. revert d mf. induction faces; simpl; pk_walk. Qed.
Lemma pk_scanNewFaces vi faces d mf : respects planesKept (scanNewFaces vi faces d mf).
Proof. revert d mf. induction faces; simpl; pk_walk. Qed.
#[local] Hint Resolve pk_removeAllVerticesFromFace pk_farthestFace pk_scanNewFaces : pk.

Create HintDb above.

Ltac above_leaf :=
  first
    [ apply (respects_weaken planesKept); [exact planesKept_above|]; solve [pk_leaf]
    | solve [eauto with above] ].

Ltac above_walk :=
  pose proof keepsAbove_refl as Hrefl;
  pose proof keepsAbove_trans as Htrans;
  walk_by above_leaf.

(** Filing a vertex that was found above the tolerance. *)
Lemma addVertexToFace_above v f s u s' nd d :
  HullState.vertices s !! v = Some nd ->
  distanceTo s f (VertexNode.index nd) = Some d ->
  (HullState.tolerance s <? d)%float = true ->
  addVertexToFace v f s = Ok (u, s') -> keepsAbove s s'.
Proof.
  intros Hnd Hd Hlt H Habove. unfold addVertexToFace in H.
  apply bind_Ok in H as (u0 & s1 & Hset & H).
  apply updVertex_Ok in Hset as (nd0 & Hnd0 & ->).
  assert (nd0 = nd) by congruence. subst nd0.
  match type of H with ?m ?s1 = _ =>
    assert (Hk : respects planesKept m) by (clear; pk_walk);
    apply Hk in H end.
  apply (planesKept_above _ _ H). clear H Hk.
  intros x nx g Hx Hg. simpl in Hx.
  destruct (decide (x = v)) as [->|Hne].
  - rewrite list_lookup_insert_eq in Hx by (eapply lookup_lt_Some; eauto).
    injection Hx as <-. simpl in Hg. injection Hg as <-.
    exists d. split; [|exact Hlt]. exact Hd.
  - rewrite list_lookup_insert_ne in Hx by auto.
    destruct (Habove x nx g Hx Hg) as (dx & Hdx & Hltx). exists dx. auto.
Qed.

Lemma above_assignVertex v : respects keepsAbove (assignVertex v).
Proof.
  intros s u s' H.
  apply assignVertex_inv in H as (nd & r & Hnd & Hscan & Hr).
  apply farthestFace_inv in Hscan as (_ & m' & Hmm & Hall & Hres).
  destruct r as [f|]; [|subst s'; apply keepsAbove_refl].
  destruct Hres as [[Hbad _]|(f' & [= <-] & Hin & Hd & Hlt)]; [discriminate|].
  eapply addVertexToFace_above; eauto.
Qed.

Lemma above_absorbVertex af v : respects keepsAbove (absorbVertex af v).
Proof.
  intros s nx s' H.
  apply absorbVertex_inv in H as (nd & d & Hnd & _ & Hd & Hr).
  destruct (HullState.tolerance s <? d)%float eqn:Hlt.
  - eapply addVertexToFace_above; eauto.
  - apply planesKept_above. eapply pk_vertexListAppend; eauto.
Qed.

Lemma above_resolveVertex nf v : respects keepsAbove (resolveVertex nf v).
Proof.
  intros s nx s' H.
  apply resolveVertex_inv in H as (nd & r & Hnd & _ & Hscan & Hr).
  apply scanNewFaces_inv in Hscan
    as (_ & m' & scanned & rest & _ & _ & Hmm & _ & Hres).
  destruct r as [f|]; [|subst s'; apply keepsAbove_refl].
  destruct Hres as [[Hbad _]|(f' & [= <-] & _ & _ & Hd & Hlt)]; [discriminate|].
  eapply addVertexToFace_above; eauto.
Qed.
#[local] Hint Resolve above_assignVertex above_absorbVertex above_resolveVertex : above.

Lemma above_assignRemaining v0 v1 v2 v3 idxs :
  respects keepsAbove (assignRemaining v0 v1 v2 v3 idxs).
Proof. induction idxs; simpl; above_walk. Qed.
Lemma above_absorbLoop fuel af v : respects keepsAbove (absorbLoop fuel af v).
Proof. revert v. induction fuel; destruct v; simpl; above_walk. Qed.
Lemma above_resolveLoop fuel nf v : respects keepsAbove (resolveLoop fuel nf v).
Proof. revert v. induction fuel; destruct v; simpl; above_walk. Qed.
#[local] Hint Resolve above_assignRemaining above_absorbLoop above_resolveLoop : above.
Lemma above_deleteFaceVertices fuel f af : respects keepsAbove (deleteFaceVertices fuel f af).
Proof. unfold deleteFaceVertices. above_walk. Qed.
Lemma above_resolveUnassignedPoints fuel nf :
  respects keepsAbove (resolveUnassignedPoints fuel nf).
Proof. unfold resolveUnassignedPoints. above_walk. Qed.
#[local] Hint Resolve above_deleteFaceVertices above_resolveUnassignedPoints : above.
Lemma above_horizon fuel :
  (forall eye cross face hz, respects keepsAbove (computeHorizon fuel eye cross face hz)) /\
  (forall eye se e hz, respects keepsAbove (horizonLoop fuel eye se e hz)).
Proof.
  induction fuel as [|fuel [IHA IHB]]; split.
  - intros eye cross face hz s r s' H. discriminate H.
  - intros eye se e hz s r s' H. discriminate H.
  - intros eye cross face hz. rewrite computeHorizon_S. above_walk.
  - intros eye se e hz. rewrite horizonLoop_S. above_walk.
Qed.
Lemma above_computeHorizon fuel eye cross face hz :
  respects keepsAbove (computeHorizon fuel eye cross face hz).
Proof. apply above_horizon. Qed.
#[local] Hint Resolve above_computeHorizon : above.

(** Computing the plane of a face nothing is filed under. *)
Lemma faceCompute_above f s u s' :
  faceCompute f s = Ok (u, s') -> filedAbove s ->
  (forall v nd, HullState.vertices s !! v = Some nd -> VertexNode.face nd <> Some f) ->
  filedAbove s'.
Proof.
  intros H Habove Hfresh.
  apply faceCompute_inv in H
    as (fc & a & b & c & na & nb & nc & pa & pb & pc & Hfc & _ & _ & _ & _ & _ & _ & _ & ->).
  intros v nd g Hnd Hg. simpl in Hnd.
  destruct (Habove v nd g Hnd Hg) as (d & Hd & Hlt). exists d. split; [|exact Hlt].
  unfold distanceTo in *. simpl.
  rewrite list_lookup_insert_ne; [exact Hd|].
  intros <-. exact (Hfresh v nd Hnd Hg).
Qed.

Lemma filedAbove_face s v nd f :
  filedAbove s -> HullState.vertices s !! v = Some nd -> VertexNode.face nd = Some f ->
  f < length (HullState.faceStore s).
Proof.
  intros Habove Hnd Hf. destruct (Habove v nd f Hnd Hf) as (d & Hd & _).
  unfold distanceTo in Hd.
  destruct (HullState.faceStore s !! f) as [fc|] eqn:Hfc; [|discriminate].
  eapply lookup_lt_Some; eauto.
Qed.

Lemma above_addAdjoiningFace eye h : respects keepsAbove (addAdjoiningFace eye h).
Proof.
  intros s r s' H Habove. unfold addAdjoiningFace in H.
  apply bind_Ok in H as (ot & s0 & H0 & H).
  apply (pk_halfEdgeTail h) in H0. apply planesKept_above in H0. apply H0 in Habove.
  clear H0. revert s0 Habove H. intros s0 Habove H.
  apply bind_Ok in H as (hd & s1 & H1 & H).
  apply (pk_halfEdgeHead h) in H1. apply planesKept_above in H1. apply H1 in Habove.
  clear H1.
  apply bind_Ok in H as (tl & s2 & Hg & H). apply orRaise_Ok in Hg as [_ <-].
  apply bind_Ok in H as (face & s2 & Hcreate & H).
  pose proof Hcreate as Hpk. apply pk_faceCreate in Hpk.
  rewrite faceCreate_run in Hcreate. injection Hcreate as <- <-.
  apply bind_Ok in H as (u & s3 & Hcompute & H).
  assert (Habove3 : filedAbove s3).
  { eapply faceCompute_above; [exact Hcompute|exact (planesKept_above _ _ Hpk Habove)|].
    intros v nd Hnd Hf. unfold faceCreated in Hnd.
    destruct s1 as [pts tol fs nfs asg un vs fst est]; simpl in *.
    pose proof (filedAbove_face _ _ _ _ Habove Hnd Hf) as Hlt. simpl in Hlt. lia. }
  match type of H with ?m ?s3 = _ =>
    assert (Hk : respects keepsAbove m) by (clear; above_walk);
    exact (Hk _ _ _ H Habove3) end.
Qed.
#[local] Hint Resolve above_addAdjoiningFace : above.
Lemma above_addNewFacesLoop eye hz : forall first prev,
  respects keepsAbove (addNewFacesLoop eye hz first prev).
Proof. induction hz; intros first prev; simpl; above_walk. Qed.
#[local] Hint Resolve above_addNewFacesLoop : above.
Lemma above_addNewFaces eye hz : respects keepsAbove (addNewFaces eye hz).
Proof. unfold addNewFaces. above_walk. Qed.
#[local] Hint Resolve above_addNewFaces : above.
Lemma above_addVertexToHull fuel v : respects keepsAbove (addVertexToHull fuel v).
Proof. unfold addVertexToHull. above_walk. Qed.

Lemma seedVertices_unfiled points v nd :
  seedVertices points !! v = Some nd -> VertexNode.face nd = None.
Proof.
  unfold seedVertices. rewrite list_lookup_fmap.
  destruct (seq 0 (vertexCount (length points)) !! v); [|discriminate].
  simpl. intros [= <-]. reflexivity.
Qed.

Lemma computeInitialHull_above points s :
  computeInitialHull (createHullState points) = Ok (tt, s) ->
  filedAbove s /\ unsigned (HullState.tolerance s).
Proof.
  intros H. split.
  - apply computeInitialHull_inv in H as [(ex & ->)|H].
    + intros v nd f Hnd Hf. simpl in Hnd.
      apply seedVertices_unfiled in Hnd. congruence.
    + destruct H as (v0 & v1 & v2 & v3 & ts & sB & _ & _ & _ & Hvs & _ & _ & _ & _ & _ & Hrem).
      eapply above_assignRemaining; [exact Hrem|].
      intros v nd f Hnd Hf. rewrite Hvs in Hnd.
      apply seedVertices_unfiled in Hnd. congruence.
  - eapply (computeInitialHull_after_extremes HullState.tolerance) in H
      as (ex & s1 & He & ->); try (intros; reflexivity).
    apply computeExtremes_inv in He as ->. apply unsigned_toleranceOf.
Qed.

Lemma underConstruction_above points s :
  underConstruction points s -> filedAbove s /\ unsigned (HullState.tolerance s).
Proof.
  induction 1 as [s Hseed|fuel fuel' s v s1 s' _ [Habove Htol] Hnext Hadd].
  - apply (computeInitialHull_above _ _ Hseed).
  - pose proof (nextVertexToAdd_same _ _ _ _ Hnext) as ->. split.
    + eapply above_addVertexToHull; eauto.
    + erewrite (preserves_addVertexToHull HullState.tolerance); eauto; intros; reflexivity.
Qed.

Lemma createVertexList_eta (l : VertexList.t) :
  VertexList.head l = None -> VertexList.tail l = None -> l = createVertexList.
Proof. destruct l as [h t]. simpl. intros -> ->. reflexivity. Qed.

(** With the assigned list grouped, filed vertices above their face and
    the tolerance not negative, [nextVertexToAdd] finds a vertex unless
    the list is empty. *)
Lemma nextVertexToAdd_none fuel s gs s' :
  filed s gs -> filedAbove s -> unsigned (HullState.tolerance s) ->
  nextVertexToAdd fuel s = Ok (None, s') -> HullState.assigned s = createVertexList.
Proof.
  intros Hfiled Habove Htol H.
  pose proof Hfiled as ((_ & Hhead & Htail & _) & _ & Hall & _).
  pose proof (nextVertexToAdd_first_group _ _ _ _ _ Hfiled H)
    as [_ Hr].
  destruct gs as [|[f run] rest].
  - simpl in Hhead, Htail. apply createVertexList_eta; assumption.
  - exfalso. apply Forall_cons in Hall as [(Hne & _ & _ & Hmem) _]. simpl in *.
    destruct run as [|x run]; [contradiction|].
    apply Forall_cons in Hr as [(dx & Hdx & Hnot) _].
    unfold vertexDistance in Hdx.
    destruct (HullState.vertices s !! x) as [nd|] eqn:Hnd; [|discriminate]. simpl in Hdx.
    assert (Hf : VertexNode.face nd = Some f).
    { apply (namesFace_node _ _ _ _ Hnd). apply Hmem. left. }
    destruct (Habove x nd f Hnd Hf) as (d & Hd & Hlt).
    assert (d = dx) by congruence. subst d.
    rewrite (above_unsigned _ _ Htol Hlt) in Hnot. discriminate.
Qed.

Lemma insertionLoop_stops points fuel : forall cur s0 s u s',
  underConstruction points s0 ->
  (exists fuel0, nextVertexToAdd fuel0 s0 = Ok (cur, s)) ->
  insertionLoop fuel cur s = Ok (u, s') ->
  underConstruction points s' /\ exists fuel1, nextVertexToAdd fuel1 s' = Ok (None, s').
Proof.
  induction fuel as [|fuel IH]; intros cur s0 s u s' Huc [fuel0 Hcur] H.
  - destruct cur as [v|]; [discriminate|]. apply ret_Ok in H as [_ <-].
    pose proof (nextVertexToAdd_same _ _ _ _ Hcur) as ->. eauto.
  - destruct cur as [v|].
    + simpl in H.
      apply bind_Ok in H as ([] & s2 & Hadd & H).
      apply bind_Ok in H as (cur' & s3 & Hnext' & H).
      pose proof (uc_step _ _ _ _ _ _ _ Huc Hcur Hadd) as Huc2.
      eapply (IH cur' s2); eauto.
    + apply ret_Ok in H as [_ <-].
      pose proof (nextVertexToAdd_same _ _ _ _ Hcur) as ->. eauto.
Qed.

Lemma runHull_stops fuel points r s :
  runHull fuel points = Ok (r, s) ->
  exists s3 fuel1, underConstruction points s3 /\
    nextVertexToAdd fuel1 s3 = Ok (None, s3) /\
    HullState.assigned s = HullState.assigned s3.
Proof.
  unfold runHull, buildHull. intros H.
  apply bind_Ok in H as (u & s4 & H & Htri).
  apply bind_Ok in H as ([] & s1 & Hseed & H).
  apply bind_Ok in H as (cur & s2 & Hnext & H).
  apply bind_Ok in H as (u3 & s3 & Hloop & Hre).
  pose proof (uc_seed _ _ Hseed) as Huc.
  destruct (insertionLoop_stops points fuel cur s1 s2 u3 s3 Huc (ex_intro _ fuel Hnext) Hloop)
    as (Huc3 & fuel1 & Hstop).
  exists s3, fuel1. split; [exact Huc3|]. split; [exact Hstop|].
  unfold reindexFaces in Hre.
  apply bind_Ok in Hre as (fs & s0 & Hg & Hre). apply gets_Ok in Hg as [<- <-].
  apply bind_Ok in Hre as (act & s0 & Hact & Hre). apply activeFaces_filter in Hact as [-> ->].
  apply modify_Ok in Hre. subst s4.
  unfold getTriangleIndices in Htri.
  apply bind_Ok in Htri as (fs & s0 & Hg & Htri). apply gets_Ok in Hg as [<- <-].
  rewrite (triangleIndices_same _ _ _ _ Htri). reflexivity.
Qed.

(** X8. Between the rounds of the insertion loop, every vertex node that
    names a face in its [face] field lies above the plane of that face
    by more than the tolerance, and the tolerance is not negative, so
    the distance is positive. This holds for the vertices waiting in
    the assigned list, and as well for a vertex that has left the list:
    its [face] field is never cleared, and the plane of a face does not
    change once a vertex is filed under it. *)
Theorem filed_vertices_lie_above_their_face points s :
  underConstruction points s ->
  unsigned (HullState.tolerance s) /\
  (HullState.tolerance s <? 0)%float = false /\
  forall v nd f, HullState.vertices s !! v = Some nd -> VertexNode.face nd = Some f ->
    exists d, distanceTo s f (VertexNode.index nd) = Some d /\
              (HullState.tolerance s <? d)%float = true /\ (0 <? d)%float = true.
Proof.
  intros H. apply underConstruction_above in H as [Habove Htol].
  split; [exact Htol|]. split.
  - destruct (HullState.tolerance s <? 0)%float eqn:E; [|reflexivity].
    pose proof (above_unsigned _ _ Htol E) as Hbad. rewrite ltb_irrefl in Hbad. discriminate.
  - intros v nd f Hnd Hf. destruct (Habove v nd f Hnd Hf) as (d & Hd & Hlt).
    exists d. split; [exact Hd|]. split; [exact Hlt|]. eapply above_unsigned; eauto.
Qed.

Lemma filed_vertices_lie_above_their_face_witness :
  underConstruction octahedron octahedronStep /\
  (HullState.tolerance octahedronStep <? 0)%float = false /\
  exists d, distanceTo octahedronStep 0 5 = Some d /\ (0 <? d)%float = true.
Proof.
  assert (H0 : computeInitialHull (createHullState octahedron) = Ok (tt, octahedronSeed))
    by (vm_compute; reflexivity).
  assert (H1 : nextVertexToAdd 100 octahedronSeed = Ok (Some 4, octahedronSeed))
    by (vm_compute; reflexivity).
  assert (H2 : addVertexToHull 100 4 octahedronSeed = Ok (tt, octahedronStep))
    by (vm_compute; reflexivity).
  assert (Huc : underConstruction octahedron octahedronStep).
  { eapply uc_step; [apply uc_seed; exact H0|exact H1|exact H2]. }
  split; [exact Huc|].
  destruct (filed_vertices_lie_above_their_face _ _ Huc) as (_ & Htol & Hall).
  split; [exact Htol|].
  destruct (HullState.vertices octahedronStep !! 5) as [nd|] eqn:Hnd;
    [|vm_compute in Hnd; discriminate Hnd].
  assert (Hf : VertexNode.face nd = Some 0 /\ VertexNode.index nd = 5).
  { vm_compute in Hnd. injection Hnd as <-. split; reflexivity. }
  destruct Hf as [Hf Hi].
  destruct (Hall 5 nd 0 Hnd Hf) as (d & Hd & _ & Hpos).
  exists d. rewrite Hi in Hd. auto.
Defined.

(** X9. The insertion loop of [quickhull3] stops only when no vertex is
    waiting: between its rounds, [nextVertexToAdd] answers nothing only
    if the assigned list is empty, and in the state the run ends with
    the assigned list is empty. *)
Theorem insertion_stops_only_when_nothing_waits :
  (forall fuel points s s', underConstruction points s ->
     nextVertexToAdd fuel s = Ok (None, s') ->
     HullState.assigned s = createVertexList) /\
  (forall fuel points r s, runHull fuel points = Ok (r, s) ->
     HullState.assigned s = createVertexList).
Proof.
  assert (Hstop : forall fuel points s s', underConstruction points s ->
            nextVertexToAdd fuel s = Ok (None, s') ->
            HullState.assigned s = createVertexList).
  { intros fuel points s s' Huc Hnone.
    destruct (underConstruction_inv _ _ Huc) as [_ [gs Hfiled]].
    destruct (underConstruction_above _ _ Huc) as [Habove Htol].
    eapply nextVertexToAdd_none; eauto. }
  split; [exact Hstop|].
  intros fuel points r s H.
  apply runHull_stops in H as (s3 & fuel1 & Huc & Hnone & ->).
  eapply Hstop; eauto.
Qed.

Lemma insertion_stops_only_when_nothing_waits_witness :
  exists r s, runHull 100 octahedron = Ok (r, s) /\
              HullState.assigned s = createVertexList.
Proof.
  destruct insertion_stops_only_when_nothing_waits as [_ Hend].
  destruct (runHull 100 octahedron) as [[r s]| |] eqn:E.
  - exists r, s. split; [reflexivity|]. exact (Hend _ _ _ _ E).
  - vm_compute in E. discriminate E.
  - vm_compute in E. discriminate E.
Defined.

(** ** Running out of fuel *)

Lemma finishes_bind {A B} (m : M A) (k : A -> M B) s :
  finishes m s -> (forall a s', m s = Ok (a, s') -> finishes (k a) s') ->
  finishes (bind m k) s.
Proof.
  unfold finishes, bind. intros Hm Hk.
  destruct (m s) as [[a s']| |]; [apply Hk; reflexivity|discriminate|contradiction].
Qed.

Lemma finishes_Ok {A} (m : M A) s r : m s = Ok r -> finishes m s.
Proof. unfold finishes. intros ->. discriminate. Qed.

Lemma ends_bind {A B} (m : M A) (k : A -> M B) :
  ends m -> (forall a, ends (k a)) -> ends (bind m k).
Proof. intros Hm Hk s. apply finishes_bind; [apply Hm|]. intros a s' _. apply Hk. Qed.

Lemma ends_ret {A} (a : A) : ends (ret a).
Proof. intros s. discriminate. Qed.
Lemma ends_gets {A} (g : HullState.t -> A) : ends (gets g).
Proof. intros s. discriminate. Qed.
Lemma ends_modify g : ends (modify g).
Proof. intros s. discriminate. Qed.
Lemma ends_raise {A} : ends (@raise A).
Proof. intros s. discriminate. Qed.
Lemma ends_orRaise {A} (o : option A) : ends (orRaise o).
Proof. intros s. destruct o; discriminate. Qed.

Create HintDb ends.
#[local] Hint Resolve ends_ret ends_gets ends_modify ends_raise ends_orRaise : ends.

Ltac ends_walk :=
  repeat (intros;
    match goal with
    | |- ends (bind _ _) => apply ends_bind
    | |- ends (match ?x with _ => _ end) => destruct x
    | |- ends (if ?x then _ else _) => destruct x
    | |- ends (let '(_, _) := ?x in _) => destruct x
    | |- ends _ => solve [eauto with ends]
    end).

Ltac ends_now :=
  intros;
  match goal with
  | |- finishes ?m ?s => let He := fresh in assert (He : ends m) by ends_walk; exact (He s)
  end.

Lemma ends_getVertex v : ends (getVertex v).
Proof. unfold getVertex. ends_walk. Qed.
Lemma ends_getEdge e : ends (getEdge e).
Proof. unfold getEdge. ends_walk. Qed.
Lemma ends_getFace f : ends (getFace f).
Proof. unfold getFace. ends_walk. Qed.
#[local] Hint Resolve ends_getVertex ends_getEdge ends_getFace : ends.
Lemma ends_updVertex v g : ends (updVertex v g).
Proof. unfold updVertex. ends_walk. Qed.
Lemma ends_updEdge e g : ends (updEdge e g).
Proof. unfold updEdge. ends_walk. Qed.
Lemma ends_updFace f g : ends (updFace f g).
Proof. unfold updFace. ends_walk. Qed.
#[local] Hint Resolve ends_updVertex ends_updEdge ends_updFace : ends.
Lemma ends_vertexListClear w : ends (vertexListClear w).
Proof. unfold vertexListClear. ends_walk. Qed.
Lemma ends_vertexListAppend w v : ends (vertexListAppend w v).
Proof. unfold vertexListAppend, getList, setHead, setTail. ends_walk. Qed.
Lemma ends_vertexListInsertBefore w t v : ends (vertexListInsertBefore w t v).
Proof. unfold vertexListInsertBefore, setHead, setTail. ends_walk. Qed.
Lemma ends_vertexListRemove w v : ends (vertexListRemove w v).
Proof. unfold vertexListRemove, setHead, setTail. ends_walk. Qed.
Lemma ends_vertexListRemoveSubList w a b : ends (vertexListRemoveSubList w a b).
Proof. unfold vertexListRemoveSubList, setHead, setTail. ends_walk. Qed.
#[local] Hint Resolve ends_vertexListClear ends_vertexListAppend ends_vertexListInsertBefore
  ends_vertexListRemove ends_vertexListRemoveSubList : ends.
Lemma ends_createHalfEdge v f : ends (createHalfEdge v f).
Proof. unfold createHalfEdge. ends_walk. Qed.
Lemma ends_halfEdgeHead e : ends (halfEdgeHead e).
Proof. unfold halfEdgeHead. ends_walk. Qed.
Lemma ends_halfEdgeTail e : ends (halfEdgeTail e).
Proof. unfold halfEdgeTail. ends_walk. Qed.
Lemma ends_halfEdgeSetTwin e t : ends (halfEdgeSetTwin e t).
Proof. unfold halfEdgeSetTwin. ends_walk. Qed.
#[local] Hint Resolve ends_createHalfEdge ends_halfEdgeHead ends_halfEdgeTail
  ends_halfEdgeSetTwin : ends.
Lemma ends_faceCreate a b c : ends (faceCreate a b c).
Proof. unfold faceCreate. ends_walk. Qed.
Lemma ends_walkNext i : forall e, ends (walkNext i e).
Proof. induction i; simpl; ends_walk. Qed.
Lemma ends_walkPrev i : forall e, ends (walkPrev i e).
Proof. induction i; simpl; ends_walk. Qed.
#[local] Hint Resolve ends_faceCreate ends_walkNext ends_walkPrev : ends.
Lemma ends_faceGetEdge f i : ends (faceGetEdge f i).
Proof. unfold faceGetEdge. ends_walk. Qed.
#[local] Hint Resolve ends_faceGetEdge : ends.
Lemma ends_faceCompute f : ends (faceCompute f).
Proof. unfold faceCompute. ends_walk. Qed.
Lemma ends_computeExtremes : ends computeExtremes.
Proof. unfold computeExtremes. ends_walk. Qed.
Lemma ends_addVertexToFace v f : ends (addVertexToFace v f).
Proof. unfold addVertexToFace. ends_walk. Qed.
Lemma ends_farthestFace vi faces : forall d mf, ends (farthestFace vi faces d mf).
Proof. induction faces; simpl; ends_walk. Qed.
#[local] Hint Resolve ends_faceCompute ends_computeExtremes ends_addVertexToFace
  ends_farthestFace : ends.
Lemma ends_assignVertex v : ends (assignVertex v).
Proof. unfold assignVertex. ends_walk. Qed.
#[local] Hint Resolve ends_assignVertex : ends.
Lemma ends_assignRemaining v0 v1 v2 v3 idxs : ends (assignRemaining v0 v1 v2 v3 idxs).
Proof. induction idxs; simpl; ends_walk. Qed.
Lemma ends_twinEdges f1 i1 f2 i2 : ends (twinEdges f1 i1 f2 i2).
Proof. unfold twinEdges. ends_walk. Qed.
#[local] Hint Resolve ends_assignRemaining ends_twinEdges : ends.
Lemma ends_twinOutward faces idxs : ends (twinOutward faces idxs).
Proof. induction idxs; simpl; ends_walk. Qed.
Lemma ends_twinInward faces idxs : ends (twinInward faces idxs).
Proof. induction idxs; simpl; ends_walk. Qed.
Lemma ends_addFacesToHull faces : ends (addFacesToHull faces).
Proof. induction faces; simpl; ends_walk. Qed.
#[local] Hint Resolve ends_twinOutward ends_twinInward ends_addFacesToHull : ends.
Lemma ends_computeInitialHull : ends computeInitialHull.
Proof. unfold computeInitialHull. ends_walk. Qed.
Lemma ends_removeVertexFromFace v f : ends (removeVertexFromFace v f).
Proof. unfold removeVertexFromFace. ends_walk. Qed.
Lemma ends_scanNewFaces vi faces : forall d mf, ends (scanNewFaces vi faces d mf).
Proof. induction faces; simpl; ends_walk. Qed.
#[local] Hint Resolve ends_computeInitialHull ends_removeVertexFromFace ends_scanNewFaces : ends.
Lemma ends_resolveVertex nf v : ends (resolveVertex nf v).
Proof. unfold resolveVertex. ends_walk. Qed.
Lemma ends_addAdjoiningFace eye h : ends (addAdjoiningFace eye h).
Proof. unfold addAdjoiningFace. ends_walk. Qed.
#[local] Hint Resolve ends_resolveVertex ends_addAdjoiningFace : ends.
Lemma ends_addNewFacesLoop eye hz : forall first prev, ends (addNewFacesLoop eye hz first prev).
Proof. induction hz; intros first prev; simpl; ends_walk. Qed.
#[local] Hint Resolve ends_addNewFacesLoop : ends.
Lemma ends_addNewFaces eye hz : ends (addNewFaces eye hz).
Proof. unfold addNewFaces. ends_walk. Qed.
Lemma ends_activeFaces faces : ends (activeFaces faces).
Proof. induction faces; simpl; ends_walk. Qed.
#[local] Hint Resolve ends_addNewFaces ends_activeFaces : ends.
Lemma ends_reindexFaces : ends reindexFaces.
Proof. unfold reindexFaces. ends_walk. Qed.
Lemma ends_triangleIndices faces : ends (triangleIndices faces).
Proof. induction faces; simpl; ends_walk. Qed.
#[local] Hint Resolve ends_reindexFaces ends_triangleIndices : ends.
Lemma ends_getTriangleIndices : ends getTriangleIndices.
Proof. unfold getTriangleIndices. ends_walk. Qed.

(** *** The loops over the vertex lists *)

Lemma NoDup_bounded_length (xs : list nat) n :
  NoDup xs -> (forall x, x ∈ xs -> x < n) -> length xs <= n.
Proof.
  intros Hnd Hlt.
  assert (H : xs ⊆+ seq 0 n).
  { apply NoDup_submseteq; [exact Hnd|].
    intros x Hx. apply elem_of_seq. specialize (Hlt x Hx). lia. }
  apply submseteq_length in H. rewrite length_seq in H. exact H.
Qed.

Lemma segment_bounded vs xs p n :
  NoDup xs -> segment vs p xs n -> length xs <= length vs.
Proof.
  intros Hnd Hseg. apply NoDup_bounded_length; [exact Hnd|].
  intros x Hx. destruct (segment_lookup _ _ _ _ _ Hseg Hx) as [nd Hnd'].
  eapply lookup_lt_Some; eauto.
Qed.

Lemma listOk_bounded s w xs : listOk s w xs -> length xs <= length (HullState.vertices s).
Proof. intros (Hnd & _ & _ & Hseg). eapply segment_bounded; eauto. Qed.

Lemma findRunEnd_finishes s f run : forall fuel p n start,
  segment (HullState.vertices s) p run n ->
  head run = Some start ->
  (forall x, x ∈ run -> namesFace s x f) ->
  (forall y, n = Some y -> ~ namesFace s y f) ->
  length run <= S fuel ->
  finishes (findRunEnd fuel f start) s.
Proof.
  induction run as [|x rest IH]; intros fuel p n start Hseg Hhd Hmem Hn Hlen;
    [discriminate|].
  injection Hhd as ->. simpl in Hseg. destruct Hseg as (nd & Hnd & _ & Hnx & Hseg).
  assert (E : findRunEnd fuel f start =
              bind (getVertex start)
                 (fun nd => match VertexNode.next nd with
                            | None => ret start
                            | Some n =>
                                bind (getVertex n) (fun nn =>
                                  if bool_decide (VertexNode.face nn = Some f)
                                  then match fuel with
                                       | O => outOfFuel
                                       | S fuel' => findRunEnd fuel' f n
                                       end
                                  else ret start)
                            end)).
  { destruct fuel; reflexivity. }
  rewrite E. clear E.
  apply finishes_bind; [apply ends_getVertex|]. intros nd0 s0 Hg.
  apply getVertex_Ok in Hg as [Hnd0 <-].
  assert (nd0 = nd) by congruence. subst nd0. rewrite Hnx.
  destruct rest as [|z rest']; simpl.
  - destruct n as [y|]; [|apply ends_ret].
    apply finishes_bind; [apply ends_getVertex|]. intros nn s0 Hg.
    apply getVertex_Ok in Hg as [Hnn <-].
    rewrite bool_decide_eq_false_2; [apply ends_ret|].
    intros Hface. apply (Hn y eq_refl). eapply namesFace_node; eauto.
  - apply finishes_bind; [apply ends_getVertex|]. intros nn s0 Hg.
    apply getVertex_Ok in Hg as [Hnn <-].
    destruct (bool_decide (VertexNode.face nn = Some f)); [|apply ends_ret].
    destruct fuel as [|fuel']; [simpl in Hlen; lia|].
    eapply (IH fuel' (Some start) n z Hseg eq_refl); eauto.
    + intros y Hy. apply Hmem. right. exact Hy.
    + simpl in Hlen |- *. lia.
Qed.

Lemma eyeLoop_finishes f s run : forall fuel p n cur d ev,
  segment (HullState.vertices s) p run n ->
  cur = firstOr run n ->
  (forall y, n = Some y -> ~ namesFace s y f) ->
  length run <= fuel ->
  finishes (eyeLoop fuel f cur d ev) s.
Proof.
  induction run as [|x rest IH]; intros fuel p n cur d ev Hseg Hcur Hn Hlen.
  - simpl in Hcur. subst cur. destruct n as [y|].
    + assert (E : eyeLoop fuel f (Some y) d ev =
                  bind (getVertex y) (fun vx =>
                    if bool_decide (VertexNode.face vx = Some f) then
                      match fuel with
                      | O => outOfFuel
                      | S fuel' =>
                          points <- gets HullState.points ;;
                          fc <- getFace f ;;
                          distance <- orRaise (faceDistanceToPoint fc points
                                                 (VertexNode.index vx)) ;;
                          if (d <? distance)%float
                          then eyeLoop fuel' f (VertexNode.next vx) distance (Some y)
                          else eyeLoop fuel' f (VertexNode.next vx) d ev
                      end
                    else ret ev)).
      { destruct fuel; reflexivity. }
      rewrite E. apply finishes_bind; [apply ends_getVertex|]. intros vx s0 Hg.
      apply getVertex_Ok in Hg as [Hvx <-].
      rewrite bool_decide_eq_false_2; [apply ends_ret|].
      intros Hface. apply (Hn y eq_refl). eapply namesFace_node; eauto.
    + destruct fuel; apply ends_ret.
  - simpl in Hcur. subst cur. simpl in Hseg. destruct Hseg as (nd & Hnd & _ & Hnx & Hseg).
    destruct fuel as [|fuel]; [simpl in Hlen; lia|]. simpl.
    apply finishes_bind; [apply ends_getVertex|]. intros vx s0 Hg.
    apply getVertex_Ok in Hg as [Hvx <-].
    assert (vx = nd) by congruence. subst vx.
    destruct (bool_decide (VertexNode.face nd = Some f)); [|apply ends_ret].
    apply finishes_bind; [apply ends_gets|]. intros pts s0 Hg. apply gets_Ok in Hg as [<- <-].
    apply finishes_bind; [apply ends_getFace|]. intros fc s0 Hg.
    apply getFace_Ok in Hg as [_ <-].
    apply finishes_bind; [apply ends_orRaise|]. intros dist s0 Hg.
    apply orRaise_Ok in Hg as [_ <-].
    rewrite Hnx. simpl in Hlen.
    destruct (d <? dist)%float; eapply IH; eauto; lia.
Qed.

Lemma nextVertexToAdd_finishes fuel s gs :
  filed s gs -> length (HullState.vertices s) <= fuel -> finishes (nextVertexToAdd fuel) s.
Proof.
  intros Hfiled Hfuel.
  pose proof Hfiled as (Hl & Hdup & Hall & _).
  pose proof (listOk_bounded _ _ _ Hl) as Hlen.
  destruct Hl as (Hnd & Hhead & _ & Hseg). simpl in Hhead.
  unfold nextVertexToAdd.
  apply finishes_bind; [apply ends_gets|]. intros asg s0 Hg. apply gets_Ok in Hg as [<- <-].
  destruct (VertexList.head (HullState.assigned s)) as [h|] eqn:Hh; [|apply ends_ret].
  apply finishes_bind; [apply ends_getVertex|]. intros hd s0 Hg.
  apply getVertex_Ok in Hg as [Hhd <-].
  apply finishes_bind; [apply ends_orRaise|]. intros f' s0 Hg.
  apply orRaise_Ok in Hg as [Hf <-].
  apply finishes_bind; [apply ends_getFace|]. intros fc s0 Hg.
  apply getFace_Ok in Hg as [Hfc <-].
  destruct gs as [|[f run] rest]; [simpl in Hhead; congruence|].
  apply Forall_cons in Hall as [(Hne & _ & Hout & Hmem) Hall]. simpl in Hne, Hout, Hmem.
  rewrite runs_cons in Hhead, Hseg, Hlen.
  destruct run as [|h' run]; [contradiction|].
  simpl in Hhead. injection Hhead as <-.
  assert (f' = f).
  { assert (Hnm : namesFace s h f) by (apply Hmem; left).
    apply (namesFace_node _ _ _ _ Hhd) in Hnm. congruence. }
  subst f'.
  assert (Ho : Face.outside fc = Some h).
  { unfold outsideOf in Hout. rewrite Hfc in Hout. exact Hout. }
  rewrite Ho.
  apply segment_app in Hseg as [Hseg _].
  apply NoDup_cons in Hdup as [Hfresh _]. simpl in Hfresh.
  eapply eyeLoop_finishes; [exact Hseg|reflexivity| |].
  - intros y Hy. apply (members_other _ _ _ _ Hall Hfresh).
    destruct (runs rest); [discriminate|]. injection Hy as ->. left.
  - rewrite length_app in Hlen. lia.
Qed.

(** *** Emptying a face *)

Lemma deleteFaceVertices_finishes fuel f s gs us :
  triaged s gs us -> length (HullState.vertices s) <= S fuel ->
  finishes (deleteFaceVertices fuel f None) s.
Proof.
  intros Htri Hfuel. unfold deleteFaceVertices.
  apply finishes_bind.
  - (* the run of the face is found *)
    unfold removeAllVerticesFromFace.
    apply finishes_bind; [apply ends_getFace|]. intros fc s0 Hg.
    apply getFace_Ok in Hg as [Hfc <-].
    pose proof Htri as (Hfiled & _).
    pose proof (filed_face_outside _ _ _ Hfc) as Hout.
    destruct (Face.outside fc) as [start|] eqn:Ho; [|apply ends_ret].
    apply finishes_bind; [|ends_now].
    destruct (filed_group _ _ _ _ Hfiled Hout) as (g1 & r & g2 & ->).
    pose proof Hfiled as (Hl & Hdup & Hall & _).
    rewrite runs_app, runs_cons in Hl.
    pose proof (listOk_bounded _ _ _ Hl) as Hlen.
    destruct Hl as (_ & _ & _ & Hseg).
    apply segment_app in Hseg as [_ Hseg]. apply segment_app in Hseg as [Hmid _].
    rewrite map_app in Hdup. simpl in Hdup.
    apply NoDup_app in Hdup as (_ & _ & Hd2). apply NoDup_cons in Hd2 as [Hf2 _].
    apply Forall_app in Hall as [_ Ha2]. apply Forall_cons in Ha2 as [Hg Ha2].
    destruct Hg as (_ & _ & _ & Hmem). simpl in Hmem.
    eapply findRunEnd_finishes; [exact Hmid|reflexivity|exact Hmem| |].
    + intros y Hy. apply (members_other s g2 f y Ha2 Hf2).
      apply firstOr_None_in. exact Hy.
    + rewrite !length_app in Hlen. lia.
  - intros fv s4 Hrem.
    destruct (removeAllVerticesFromFace_moves _ _ _ _ _ _ _ Htri Hrem)
      as (_ & _ & _ & Hfv).
    destruct fv as [start|]; [|apply ends_ret].
    destruct Hfv as (g1 & run & g2 & -> & Hhead & Hfiled4 & Hlu4 & Hmid4 & Hndr & Hout).
    assert (Hlen : length run <= S fuel).
    { pose proof (segment_bounded _ _ _ _ Hndr Hmid4) as Hb.
      assert (length (HullState.vertices s4) = length (HullState.vertices s)).
      { apply idx_removeAllVerticesFromFace in Hrem. unfold sameIndices in Hrem.
        apply (f_equal length) in Hrem. rewrite !length_map in Hrem. exact Hrem. }
      lia. }
    destruct (vertexListAppendChain_ok fuel Unassigned s4 us run None start)
      as (s5 & Hrun5 & _); auto.
    { apply NoDup_app. split; [destruct Hlu4 as (Hn & _); exact Hn|]. split; [|exact Hndr].
      intros x Hx Hin. destruct (Hout x Hin) as [_ Hno]. exact (Hno Hx). }
    eapply finishes_Ok; eauto.
Qed.

(** *** The walk over the visible faces *)

Lemma filter_length_le {A} (P Q : A -> Prop) `{!forall x, Decision (P x)}
    `{!forall x, Decision (Q x)} (l : list A) :
  (forall x, x ∈ l -> P x -> Q x) -> length (filter P l) <= length (filter Q l).
Proof.
  induction l as [|a l IH]; intros Hsub; [reflexivity|].
  rewrite !filter_cons.
  assert (IH' : length (filter P l) <= length (filter Q l)).
  { apply IH. intros x Hx. apply Hsub. right. exact Hx. }
  destruct (decide (P a)) as [Hp|Hp], (decide (Q a)) as [Hq|Hq]; simpl; try lia.
  exfalso. apply Hq, Hsub; [left|exact Hp].
Qed.

Lemma filter_length_lt {A} (P Q : A -> Prop) `{!forall x, Decision (P x)}
    `{!forall x, Decision (Q x)} (l : list A) a :
  (forall x, x ∈ l -> P x -> Q x) -> a ∈ l -> Q a -> ~ P a ->
  length (filter P l) < length (filter Q l).
Proof.
  induction l as [|b l IH]; intros Hsub Ha Hq Hp; [inversion Ha|].
  rewrite !filter_cons.
  assert (Hle : length (filter P l) <= length (filter Q l)).
  { apply filter_length_le. intros x Hx. apply Hsub. right. exact Hx. }
  apply elem_of_cons in Ha as [<-|Ha].
  - rewrite decide_False by exact Hp. rewrite decide_True by exact Hq. simpl. lia.
  - assert (IH' : length (filter P l) < length (filter Q l)).
    { apply IH; auto. intros x Hx. apply Hsub. right. exact Hx. }
    destruct (decide (P b)) as [Hpb|Hpb], (decide (Q b)) as [Hqb|Hqb]; simpl; try lia.
    exfalso. apply Hqb, Hsub; [left|exact Hpb].
Qed.

Lemma isVisible_lt s f : isVisible s f = true -> f < length (HullState.faceStore s).
Proof.
  unfold isVisible. destruct (HullState.faceStore s !! f) as [fc|] eqn:Hfc; [|discriminate].
  intros _. eapply lookup_lt_Some; eauto.
Qed.

Lemma marksDrop_length s s' :
  marksDrop s s' -> length (HullState.faceStore s') = length (HullState.faceStore s).
Proof.
  intros (_ & Hg & _). apply (f_equal length) in Hg. rewrite !length_map in Hg. exact Hg.
Qed.

Lemma marksDrop_count s s' : marksDrop s s' -> visibleCount s' <= visibleCount s.
Proof.
  intros D. unfold visibleCount. rewrite (marksDrop_length _ _ D).
  apply filter_length_le. intros f _. destruct D as (_ & _ & _ & _ & V). apply V.
Qed.

Lemma marksDrop_count_lt s s' f :
  marksDrop s s' -> isVisible s f = true -> isVisible s' f = false ->
  visibleCount s' < visibleCount s.
Proof.
  intros D H1 H2. unfold visibleCount. rewrite (marksDrop_length _ _ D).
  apply (filter_length_lt _ _ _ f).
  - intros g _. destruct D as (_ & _ & _ & _ & V). apply V.
  - apply elem_of_seq. pose proof (isVisible_lt _ _ H1). lia.
  - exact H1.
  - congruence.
Qed.

Lemma visibleCount_pos s f : isVisible s f = true -> 0 < visibleCount s.
Proof.
  intros H. unfold visibleCount.
  assert (Hin : f ∈ filter (fun f => isVisible s f = true)
                         (seq 0 (length (HullState.faceStore s)))).
  { apply list_elem_of_filter. split; [exact H|].
    apply elem_of_seq. pose proof (isVisible_lt _ _ H). lia. }
  destruct (filter _ _); [inversion Hin|simpl; lia].
Qed.

Lemma sameIndices_length s s' :
  sameIndices s s' -> length (HullState.vertices s') = length (HullState.vertices s).
Proof.
  unfold sameIndices. intros H. apply (f_equal length) in H.
  rewrite !length_map in H. exact H.
Qed.

Lemma horizon_finishes N fuel :
  (forall eye cross face hz s k,
     meshShape s -> (exists gs us, triaged s gs us) ->
     length (HullState.vertices s) <= N ->
     match cross with
     | Some ce => exists j, j < 3 /\ ce = 3 * face + j
     | None => True
     end ->
     visibleCount s <= (if isVisible s face then S k else k) ->
     N + 4 * k + 4 <= fuel ->
     finishes (computeHorizon fuel eye cross face hz) s) /\
  (forall eye f i r hz s k,
     meshShape s -> (exists gs us, triaged s gs us) ->
     length (HullState.vertices s) <= N ->
     isVisible s f = false -> i < 3 -> 1 <= r <= 3 ->
     visibleCount s <= k ->
     N + 4 * k + r <= fuel ->
     finishes (horizonLoop fuel eye (3 * f + (i + r) mod 3) (3 * f + i) hz) s).
Proof.
  induction fuel as [|fuel [IHA IHB]]; split.
  - intros; lia.
  - intros; lia.
  - (* computeHorizon *)
    intros eye cross face hz s k Hshape (gs & us & Htri) Hlen Hcross Hcount Hfuel.
    rewrite computeHorizon_S.
    apply finishes_bind.
    { eapply deleteFaceVertices_finishes; [exact Htri|lia]. }
    intros u1 sa Hdel.
    destruct (deleteFaceVertices_triaged _ _ _ _ _ _ _ Htri Hdel)
      as ((gsa & usa & Htria) & _ & Houta).
    pose proof (sameIndices_length _ _ (idx_deleteFaceVertices _ _ _ _ _ _ Hdel)) as Hlena.
    apply mesh_deleteFaceVertices in Hdel.
    apply finishes_bind; [apply ends_updFace|]. intros u2 sb Hmark.
    pose proof (triaged_mark _ _ _ _ _ _ _ Htria Houta Hmark) as Htrib.
    unfold updFace in Hmark.
    apply bind_Ok in Hmark as (fc & sa' & Hg & Hm). apply getFace_Ok in Hg as [Hfc <-].
    apply modify_Ok in Hm.
    assert (Hlenb : length (HullState.vertices sb) = length (HullState.vertices sa))
      by (subst sb; reflexivity).
    assert (Dab : marksDrop sa sb) by (subst sb; apply marksDrop_mark_deleted, Hfc).
    assert (D0 : marksDrop s sb)
      by (eapply marksDrop_trans; [apply sameMesh_marksDrop, Hdel|exact Dab]).
    assert (Hshape' : meshShape sb) by (eapply marksDrop_meshShape; eauto).
    assert (Hgone : isVisible sb face = false).
    { subst sb. rewrite (isVisible_mark_deleted _ _ _ _ Hfc).
      rewrite bool_decide_eq_true_2 by reflexivity. reflexivity. }
    assert (Hcountb : visibleCount sb <= k).
    { destruct (isVisible s face) eqn:Hv.
      - pose proof (marksDrop_count_lt _ _ _ D0 Hv Hgone). lia.
      - pose proof (marksDrop_count _ _ D0). lia. }
    apply finishes_bind.
    { destruct cross; ends_now. }
    intros edge sb' Hedge.
    assert (Hstart : exists i0, i0 < 3 /\ edge = 3 * face + i0 /\ sb' = sb).
    { pose proof Hshape' as (S1 & S2 & S3). destruct cross as [ce|].
      - destruct Hcross as (j & Hj & ->).
        apply bind_Ok in Hedge as (cd & s0 & Hg & Hedge). apply getEdge_Ok in Hg as [Hcd <-].
        apply orRaise_Ok in Hedge as [Hn <-].
        destruct (S3 _ _ _ Hj Hcd) as (_ & Hnext & _).
        exists ((j + 1) mod 3). split; [apply Nat.mod_upper_bound; lia|].
        split; [congruence|reflexivity].
      - apply bind_Ok in Hedge as (oe & s0 & Hg & Hedge).
        apply faceGetEdge_zero in Hg as (-> & fc' & Hfc' & ->).
        apply orRaise_Ok in Hedge as [He <-].
        apply S2 in Hfc'. exists 0. split; [lia|].
        split; [|reflexivity]. assert (Some edge = Some (3 * face)) by congruence.
        assert (edge = 3 * face) by congruence. lia. }
    destruct Hstart as (i0 & Hi0 & -> & ->).
    assert (Hmod : (i0 + 3) mod 3 = i0).
    { clear - Hi0. destruct i0 as [|[|[|i0]]]; try lia; reflexivity. }
    rewrite <- Hmod at 1.
    eapply IHB; eauto; lia.
  - (* horizonLoop *)
    intros eye f i r hz s k Hshape Htri Hlen Hgone Hi Hr Hcount Hfuel.
    rewrite horizonLoop_S.
    destruct (mod3_cases i r Hi Hr) as (Hstop & Hstart & Hi0 & Hstep).
    apply finishes_bind; [apply ends_getEdge|]. intros ed s0 Hg.
    apply getEdge_Ok in Hg as [Hed <-].
    apply finishes_bind; [apply ends_orRaise|]. intros t s0 Hg.
    apply orRaise_Ok in Hg as [Htw <-].
    apply finishes_bind; [apply ends_getEdge|]. intros td s0 Hg.
    apply getEdge_Ok in Hg as [Htd <-].
    apply finishes_bind; [apply ends_getFace|]. intros opp s0 Hg.
    apply getFace_Ok in Hg as [Hopp <-].
    pose proof Hshape as (S1 & S2 & S3).
    destruct (S3 _ _ _ Hi Hed) as (_ & Hnext & _).
    set (g := HalfEdge.face td) in *.
    destruct (meshShape_edge _ _ _ Hshape Htd) as (j & Hj & Ht & _). fold g in Ht.
    apply finishes_bind.
    { destruct (bool_decide (Face.mark opp = VISIBLE)) eqn:Hvis; [|apply ends_ret].
      apply bool_decide_eq_true in Hvis.
      assert (Hgvis : isVisible s g = true).
      { unfold isVisible. rewrite Hopp. apply bool_decide_eq_true. exact Hvis. }
      apply finishes_bind; [apply ends_gets|]. intros pts s0 Hg.
      apply gets_Ok in Hg as [<- <-].
      apply finishes_bind; [apply ends_gets|]. intros tol s0 Hg.
      apply gets_Ok in Hg as [<- <-].
      apply finishes_bind; [apply ends_orRaise|]. intros d s0 Hg.
      apply orRaise_Ok in Hg as [Hd <-].
      destruct (HullState.tolerance s <? d)%float; [|apply ends_ret].
      pose proof (visibleCount_pos _ _ Hgvis) as Hpos.
      eapply (IHA eye (Some t) g hz s (k - 1)); eauto.
      - rewrite Hgvis. lia.
      - lia. }
    intros hz1 s1 Hpart.
    assert (Hstep1 : marksDrop s s1 /\ (exists gs1 us1, triaged s1 gs1 us1) /\
                     length (HullState.vertices s1) = length (HullState.vertices s)).
    { destruct (bool_decide (Face.mark opp = VISIBLE)) eqn:Hvis.
      2:{ apply ret_Ok in Hpart as [_ <-]. split; [apply marksDrop_refl|]. auto. }
      apply bind_Ok in Hpart as (pts & s0 & Hg & Hpart). apply gets_Ok in Hg as [<- <-].
      apply bind_Ok in Hpart as (tol & s0 & Hg & Hpart). apply gets_Ok in Hg as [<- <-].
      apply bind_Ok in Hpart as (d & s0 & Hg & Hpart). apply orRaise_Ok in Hg as [Hd <-].
      destruct (HullState.tolerance s <? d)%float.
      2:{ apply ret_Ok in Hpart as [_ <-]. split; [apply marksDrop_refl|]. auto. }
      split; [|split].
      - destruct (horizon_sweep fuel) as [HA _].
        apply HA in Hpart as (new1 & _ & (D & _) & _); eauto.
      - destruct (horizon_triaged fuel) as [HA _]. eapply HA; eauto.
      - apply sameIndices_length. eapply idx_computeHorizon; eauto. }
    destruct Hstep1 as (D1 & Htri1 & Hlen1).
    pose proof D1 as (E1 & _ & _ & _ & V1).
    apply finishes_bind; [apply ends_getEdge|]. intros ed' s0 Hg.
    apply getEdge_Ok in Hg as [Hed' <-].
    rewrite E1, Hed in Hed'. injection Hed' as <-.
    apply finishes_bind; [apply ends_orRaise|]. intros next s0 Hg.
    apply orRaise_Ok in Hg as [Hn <-].
    assert (Hnx : next = 3 * f + (i + 1) mod 3) by congruence. subst next. clear Hn.
    destruct (bool_decide (3 * f + (i + 1) mod 3 = 3 * f + (i + r) mod 3)) eqn:Hend;
      [apply ends_ret|].
    apply bool_decide_eq_false in Hend.
    assert (Hr1 : r <> 1) by (intros ->; apply Hend; reflexivity).
    assert (Hi' : (i + 1) mod 3 < 3) by (apply Nat.mod_upper_bound; lia).
    rewrite <- Hstart.
    eapply (IHB eye f ((i + 1) mod 3) (r - 1) hz1 s1 k); eauto; try lia.
    + eapply marksDrop_meshShape; eauto.
    + destruct (isVisible s1 f) eqn:Ev; [|reflexivity]. apply V1 in Ev. congruence.
    + pose proof (marksDrop_count _ _ D1). lia.
Qed.

(** *** The vertices that wait *)

Lemma keepsCensus_refl s : keepsCensus s s.
Proof. intros gs us H. exists gs, us. auto. Qed.

Lemma keepsCensus_trans s1 s2 s3 :
  keepsCensus s1 s2 -> keepsCensus s2 s3 -> keepsCensus s1 s3.
Proof.
  intros H12 H23 gs us H. destruct (H12 _ _ H) as (gs2 & us2 & H2 & Hin2).
  destruct (H23 _ _ H2) as (gs3 & us3 & H3 & Hin3). exists gs3, us3. auto.
Qed.

Lemma census_delete_and_mark fuel f k :
  respects keepsCensus (deleteFaceVertices fuel f None ;; updFace f (Face.set_mark k)).
Proof.
  intros s u s' H gs us Ht.
  apply bind_Ok in H as (u1 & s1 & H1 & H2).
  destruct (deleteFaceVertices_moves _ _ _ _ _ _ _ Ht H1) as (_ & Hout & _ & Hcase).
  destruct Hcase as [[_ ->]|(g1 & run & g2 & -> & Ht1)].
  - exists gs, us. split; [eapply triaged_mark; eauto|auto].
  - exists (g1 ++ g2), (us ++ run). split; [eapply triaged_mark; eauto|].
    intros x. rewrite !runs_app, runs_cons, !elem_of_app. tauto.
Qed.

Lemma horizon_census fuel :
  (forall eye cross face hz, respects keepsCensus (computeHorizon fuel eye cross face hz)) /\
  (forall eye se e hz, respects keepsCensus (horizonLoop fuel eye se e hz)).
Proof.
  pose proof keepsCensus_refl as Hrefl.
  pose proof keepsCensus_trans as Htrans.
  pose proof (fun f i => respects_read keepsCensus _ Hrefl (read_faceGetEdge f i)) as Hge.
  induction fuel as [|fuel [IHA IHB]]; split.
  - intros eye cross face hz s r s' H. discriminate H.
  - intros eye se e hz s r s' H. discriminate H.
  - intros eye cross face hz. rewrite computeHorizon_S.
    intros s r s' H. rewrite <- bind_assoc in H. revert s r s' H.
    change (respects keepsCensus
              (bind (bind (deleteFaceVertices fuel face None)
                          (fun _ => updFace face (Face.set_mark DELETED)))
                    (fun _ =>
                       bind (match cross with
                             | None => bind (faceGetEdge face 0) (fun oe => orRaise oe)
                             | Some ce => bind (getEdge ce)
                                            (fun cd => orRaise (HalfEdge.next cd))
                             end)
                            (fun edge => horizonLoop fuel eye edge edge hz)))).
    apply respects_bind; [assumption|apply census_delete_and_mark|].
    walk_by ltac:(solve [eauto]).
  - intros eye se e hz. rewrite horizonLoop_S.
    walk_by ltac:(solve [eauto]).
Qed.

Lemma resolveLoop_finishes newFaces fuel : forall cur rest p s gs,
  filed s gs -> cur = head rest -> segment (HullState.vertices s) p rest None ->
  NoDup rest -> (forall x, x ∈ rest -> x ∉ runs gs) ->
  length rest <= fuel ->
  finishes (resolveLoop fuel newFaces cur) s.
Proof.
  induction fuel as [|fuel IH]; intros cur rest p s gs Hfiled Hcur Hseg Hnd Hdis Hlen.
  - destruct rest; [|simpl in Hlen; lia]. subst cur. apply ends_ret.
  - destruct cur as [v|]; [|apply ends_ret].
    destruct rest as [|v' rest']; [discriminate|]. injection Hcur as <-.
    simpl. apply finishes_bind; [apply ends_resolveVertex|]. intros nv s1 Hres.
    destruct (resolveVertex_step _ _ _ _ _ _ _ _ Hfiled Hseg Hnd Hdis Hres)
      as (-> & gs1 & Hf1 & Hseg1 & Hdis1 & Hin1).
    apply NoDup_cons in Hnd as [Hv Hnd].
    eapply (IH (head rest') rest' (Some v) s1 gs1); eauto. simpl in Hlen. lia.
Qed.

Lemma resolveUnassignedPoints_census fuel newFaces s gs us u s' :
  triaged s gs us -> resolveUnassignedPoints fuel newFaces s = Ok (u, s') ->
  exists gs', filed s' gs' /\ forall x, x ∈ runs gs' -> x ∈ runs gs ++ us.
Proof.
  intros (Hfiled & (Hnd & Hh & _ & Hseg) & Hdis) H. unfold resolveUnassignedPoints in H.
  apply bind_Ok in H as (un & s0 & Hg & H). apply gets_Ok in Hg as [<- <-].
  destruct (vertexListIsEmpty (HullState.unassigned s)).
  - apply ret_Ok in H as [_ <-].
    exists gs. split; [exact Hfiled|]. intros x Hx. apply elem_of_app. auto.
  - eapply resolveLoop_census; eauto.
Qed.

Lemma resolveUnassignedPoints_finishes fuel newFaces s gs us :
  triaged s gs us -> length (HullState.vertices s) <= fuel ->
  finishes (resolveUnassignedPoints fuel newFaces) s.
Proof.
  intros (Hfiled & Hlu & Hdis) Hfuel.
  pose proof (listOk_bounded _ _ _ Hlu) as Hlen.
  destruct Hlu as (Hnd & Hh & _ & Hseg).
  unfold resolveUnassignedPoints.
  apply finishes_bind; [apply ends_gets|]. intros un s0 Hg. apply gets_Ok in Hg as [<- <-].
  destruct (vertexListIsEmpty (HullState.unassigned s)); [apply ends_ret|].
  eapply resolveLoop_finishes; eauto. lia.
Qed.

(** *** One round of the insertion loop *)

(** The links of the nodes tell what a list holds. *)
Lemma segment_unique vs xs : forall p q ys,
  segment vs p xs None -> segment vs q ys None -> head xs = head ys -> xs = ys.
Proof.
  induction xs as [|x xs IH]; intros p q ys Hx Hy Hh.
  - destruct ys; [reflexivity|discriminate].
  - destruct ys as [|y ys]; [discriminate|]. injection Hh as <-.
    simpl in Hx, Hy.
    destruct Hx as (nd & Hnd & _ & Hnx & Hx), Hy as (nd' & Hnd' & _ & Hny & Hy).
    assert (nd' = nd) by congruence. subst nd'.
    f_equal. eapply IH; eauto.
    rewrite <- !firstOr_None_head. congruence.
Qed.

Lemma listOk_unique s w xs ys : listOk s w xs -> listOk s w ys -> xs = ys.
Proof.
  intros (_ & Hh & _ & Hs) (_ & Hh' & _ & Hs').
  eapply segment_unique; eauto. congruence.
Qed.

Lemma removeVertexFromFace_drops v f s u s' gs :
  filed s gs -> v ∈ runs gs -> namesFace s v f ->
  removeVertexFromFace v f s = Ok (u, s') ->
  exists gs', filed s' gs' /\ (forall x, x ∈ runs gs' -> x ∈ runs gs /\ x <> v) /\
    HullState.unassigned s' = HullState.unassigned s.
Proof.
  intros Hfiled Hv Hfv H.
  destruct (removeVertexFromFace_filed _ _ _ _ _ _ Hfiled Hv Hfv H)
    as ((gs' & Hf' & Hin) & Hun & _).
  exists gs'. split; [exact Hf'|]. split; [|exact Hun].
  intros x Hx. split; [apply Hin, Hx|]. intros ->.
  (* the list after the removal, from the list operation itself *)
  unfold removeVertexFromFace in H.
  apply bind_Ok in H as (fc & s0 & Hg & H). apply getFace_Ok in Hg as [_ <-].
  apply bind_Ok in H as (u1 & s1 & H1 & H2).
  assert (K : HullState.vertices s1 = HullState.vertices s /\
              HullState.assigned s1 = HullState.assigned s).
  { revert H1.
    match goal with |- ?m s = _ -> _ =>
      enough (Hk : respects (fun a b => HullState.vertices b = HullState.vertices a /\
                                         HullState.assigned b = HullState.assigned a) m)
        by (intros H1; exact (Hk _ _ _ H1)) end.
    assert (Hrefl : forall a : HullState.t,
               HullState.vertices a = HullState.vertices a /\
               HullState.assigned a = HullState.assigned a) by (intros; split; reflexivity).
    assert (Htrans : forall a b c : HullState.t,
               HullState.vertices b = HullState.vertices a /\
               HullState.assigned b = HullState.assigned a ->
               HullState.vertices c = HullState.vertices b /\
               HullState.assigned c = HullState.assigned b ->
               HullState.vertices c = HullState.vertices a /\
               HullState.assigned c = HullState.assigned a)
      by (intros a b c [? ?] [? ?]; split; congruence).
    walk_by ltac:(apply respects_updFace; intros; split; reflexivity). }
  destruct K as [Kv Ka].
  pose proof Hfiled as (Hl & _).
  apply list_elem_of_split in Hv as (pre & post & E).
  rewrite E in Hl.
  assert (Hl1 : listOk s1 Assigned (pre ++ v :: post)).
  { unfold listOk in *. unfold HullState.getList in *. rewrite Kv, Ka. exact Hl. }
  destruct (vertexListRemove_ok Assigned s1 _ _ _ Hl1) as (s2 & Hrun & Hl2).
  destruct (run_agrees _ _ _ _ _ _ H2 Hrun) as [_ ->].
  destruct Hf' as (Hl' & _).
  pose proof (listOk_unique _ _ _ _ Hl' Hl2) as E'.
  rewrite E' in Hx.
  destruct Hl1 as (Hnd & _).
  apply NoDup_app in Hnd as (_ & Hdis & Hnd). apply NoDup_cons in Hnd as [Hpost _].
  apply elem_of_app in Hx as [Hx|Hx]; [|contradiction].
  apply (Hdis v Hx). left.
Qed.

Lemma addNewFaces_faceCount eye hz s u s' :
  addNewFaces eye hz s = Ok (u, s') ->
  length (HullState.faceStore s') = length (HullState.faceStore s) + length hz.
Proof.
  intros H. unfold addNewFaces in H.
  apply bind_Ok in H as (u0 & s0 & Hm & H). apply modify_Ok in Hm.
  apply bind_Ok in H as ([first prev] & s1 & Hloop & H).
  destruct (addNewFacesLoop_census _ _ _ _ _ _ _ Hloop) as (corners & _ & _ & F1 & _).
  cbv zeta in F1.
  apply bind_Ok in H as (f0 & s2 & Hg & H). apply orRaise_Ok in Hg as [_ <-].
  apply bind_Ok in H as (fd & s2 & Hg & H). apply getEdge_Ok in Hg as [_ <-].
  apply bind_Ok in H as (fn & s2 & Hg & H). apply orRaise_Ok in Hg as [_ <-].
  apply bind_Ok in H as (pv & s2 & Hg & H). apply orRaise_Ok in Hg as [_ <-].
  apply shape_halfEdgeSetTwin in H. destruct H as (_ & F2 & _).
  apply (f_equal length) in F1, F2.
  rewrite length_app, !length_faceSkeleton in F1. rewrite !length_faceSkeleton in F2.
  unfold fanFaces in F1. rewrite length_map, length_seq in F1.
  subst s0. simpl in F1. lia.
Qed.

Lemma sameMesh_length s s' :
  sameMesh s s' -> length (HullState.faceStore s') = length (HullState.faceStore s).
Proof.
  intros (_ & H & _). apply (f_equal length) in H. rewrite !length_map in H. exact H.
Qed.

Lemma visibleCount_le s : visibleCount s <= length (HullState.faceStore s).
Proof.
  unfold visibleCount.
  etransitivity; [apply length_filter|]. rewrite length_seq. reflexivity.
Qed.

(** The hull is opened: the unassigned list is cleared and the eye
    vertex leaves the assigned list. *)
Lemma round_opened v s gs u1 s1 ev face u2 s2 :
  meshShape s -> filed s gs -> v ∈ runs gs ->
  vertexListClear Unassigned s = Ok (u1, s1) ->
  HullState.vertices s1 !! v = Some ev -> VertexNode.face ev = Some face ->
  removeVertexFromFace v face s1 = Ok (u2, s2) ->
  meshShape s2 /\ sameMesh s s2 /\
  length (HullState.vertices s2) = length (HullState.vertices s) /\
  (forall ev2, HullState.vertices s2 !! v = Some ev2 -> VertexNode.face ev2 = Some face) /\
  exists gs2, triaged s2 gs2 [] /\ forall x, x ∈ runs gs2 -> x ∈ runs gs /\ x <> v.
Proof.
  intros Hshape Hfiled Hv H1 Hev Hface H2.
  pose proof (sameIndices_length _ _ (idx_vertexListClear _ _ _ _ H1)) as L1.
  pose proof (sameIndices_length _ _ (idx_removeVertexFromFace _ _ _ _ _ H2)) as L2.
  pose proof (mesh_vertexListClear _ _ _ _ H1) as M1.
  pose proof (mesh_removeVertexFromFace _ _ _ _ _ H2) as M2.
  pose proof (faceFields_removeVertexFromFace _ _ _ _ _ H2) as Hff.
  unfold vertexListClear in H1. apply modify_Ok in H1.
  assert (Hf1 : filed s1 gs).
  { subst s1. eapply filed_frame; [exact Hfiled| | | |]; try (intros; reflexivity).
    destruct Hfiled as (Hl & _). exact Hl. }
  assert (Hu1 : HullState.unassigned s1 = VertexList.mk None None) by (subst s1; reflexivity).
  assert (Hfu : namesFace s1 v face) by (eapply namesFace_node; eauto).
  destruct (removeVertexFromFace_drops _ _ _ _ _ _ Hf1 Hv Hfu H2) as (gs2 & Hf2 & Hin & Hu2).
  assert (M02 : sameMesh s s2) by (eapply sameMesh_trans; eauto).
  split; [eapply marksDrop_meshShape; [apply sameMesh_marksDrop|]; eauto|].
  split; [exact M02|]. split; [lia|]. split.
  - intros ev2 Hev2. rewrite <- Hface. eapply (faceFields_lookup s1 s2); eauto.
  - exists gs2. split; [|exact Hin].
    split; [exact Hf2|]. split.
    + unfold listOk, wellFormed. simpl. rewrite Hu2, Hu1. repeat split. constructor.
    + intros x Hx. inversion Hx.
Qed.

(** The horizon is found. *)
Lemma round_horizon fuel eye face s gs hz s' :
  meshShape s -> triaged s gs [] ->
  computeHorizon fuel eye None face [] s = Ok (hz, s') ->
  marksDrop s s' /\
  length (HullState.vertices s') = length (HullState.vertices s) /\
  length hz <= 3 * length (HullState.faceStore s) /\
  exists gs' us', triaged s' gs' us' /\ forall x, x ∈ runs gs' ++ us' -> x ∈ runs gs.
Proof.
  intros Hshape Htri H.
  pose proof (sameIndices_length _ _ (idx_computeHorizon _ _ _ _ _ _ _ _ H)) as L.
  destruct (horizon_census fuel) as [HC _].
  destruct (HC _ _ _ _ _ _ _ H _ _ Htri) as (gs' & us' & Ht' & Hin).
  destruct (horizon_sweep fuel) as [HA _].
  apply HA in H as (new & Hnew & (D & Hnd & Hp & _) & _); [|exact Hshape|exact I].
  simpl in Hnew. subst new.
  split; [exact D|]. split; [exact L|]. split.
  - destruct Hshape as (Hlen & _). rewrite <- Hlen.
    apply NoDup_bounded_length; [exact Hnd|].
    intros h Hh. destruct (Hp h Hh) as [(hd & t & td & A1 & _) _].
    eapply lookup_lt_Some; eauto.
  - exists gs', us'. split; [exact Ht'|].
    intros x Hx. apply Hin in Hx. rewrite app_nil_r in Hx. exact Hx.
Qed.

Lemma addVertexToHull_shrinks fuel v s gs u s' :
  meshShape s -> filed s gs -> v ∈ runs gs ->
  addVertexToHull fuel v s = Ok (u, s') ->
  (exists gs', filed s' gs' /\ forall x, x ∈ runs gs' -> x ∈ runs gs /\ x <> v) /\
  length (HullState.vertices s') = length (HullState.vertices s) /\
  length (HullState.faceStore s') <= 4 * length (HullState.faceStore s).
Proof.
  intros Hshape Hfiled Hv H. unfold addVertexToHull in H.
  apply bind_Ok in H as (u1 & s1 & H1 & H).
  apply bind_Ok in H as (ev & s0 & Hg & H). apply getVertex_Ok in Hg as [Hev <-].
  apply bind_Ok in H as (face & s0 & Hg & H). apply orRaise_Ok in Hg as [Hface <-].
  apply bind_Ok in H as (u2 & s2 & H2 & H).
  destruct (round_opened _ _ _ _ _ _ _ _ _ Hshape Hfiled Hv H1 Hev Hface H2)
    as (Hshape2 & M2 & L2 & Hface2 & gs2 & Ht2 & Hin2).
  apply bind_Ok in H as (ev2 & s0 & Hg & H). apply getVertex_Ok in Hg as [Hev2 <-].
  apply bind_Ok in H as (face2 & s0 & Hg & H). apply orRaise_Ok in Hg as [Hf2 <-].
  apply bind_Ok in H as (hz & s3 & H3 & H).
  destruct (round_horizon _ _ _ _ _ _ _ Hshape2 Ht2 H3)
    as (D3 & L3 & Hhz & gs3 & us3 & Ht3 & Hin3).
  apply bind_Ok in H as (u4 & s4 & H4 & H).
  pose proof (addNewFaces_faceCount _ _ _ _ _ H4) as F4.
  pose proof (sameIndices_length _ _ (idx_addNewFaces _ _ _ _ _ H4)) as L4.
  apply filesKept_addNewFaces in H4.
  pose proof (filesKept_triaged _ _ _ _ H4 Ht3) as Ht4.
  apply bind_Ok in H as (nf & s0 & Hg & H). apply gets_Ok in Hg as [<- <-].
  pose proof (sameIndices_length _ _ (idx_resolveUnassignedPoints _ _ _ _ _ H)) as L5.
  pose proof (sameMesh_length _ _ (mesh_resolveUnassignedPoints _ _ _ _ _ H)) as F5.
  destruct (resolveUnassignedPoints_census _ _ _ _ _ _ _ Ht4 H) as (gs' & Hf' & Hin').
  split; [|split].
  - exists gs'. split; [exact Hf'|]. intros x Hx. apply Hin2, Hin3, Hin', Hx.
  - lia.
  - pose proof (marksDrop_length _ _ D3) as F3.
    pose proof (sameMesh_length _ _ M2) as F2. lia.
Qed.

Lemma addVertexToHull_finishes N fuel v s gs :
  meshShape s -> filed s gs -> v ∈ runs gs ->
  length (HullState.vertices s) <= N ->
  N + 4 * length (HullState.faceStore s) + 4 <= fuel ->
  finishes (addVertexToHull fuel v) s.
Proof.
  intros Hshape Hfiled Hv Hlen Hfuel. unfold addVertexToHull.
  apply finishes_bind; [apply ends_vertexListClear|]. intros u1 s1 H1.
  apply finishes_bind; [apply ends_getVertex|]. intros ev s0 Hg.
  apply getVertex_Ok in Hg as [Hev <-].
  apply finishes_bind; [apply ends_orRaise|]. intros face s0 Hg.
  apply orRaise_Ok in Hg as [Hface <-].
  apply finishes_bind; [apply ends_removeVertexFromFace|]. intros u2 s2 H2.
  destruct (round_opened _ _ _ _ _ _ _ _ _ Hshape Hfiled Hv H1 Hev Hface H2)
    as (Hshape2 & M2 & L2 & Hface2 & gs2 & Ht2 & Hin2).
  pose proof (sameMesh_length _ _ M2) as F2.
  apply finishes_bind; [apply ends_getVertex|]. intros ev2 s0 Hg.
  apply getVertex_Ok in Hg as [Hev2 <-].
  apply finishes_bind; [apply ends_orRaise|]. intros face2 s0 Hg.
  apply orRaise_Ok in Hg as [Hf2 <-].
  apply finishes_bind.
  { destruct (horizon_finishes N fuel) as [HA _].
    eapply (HA _ None face2 [] s2 (length (HullState.faceStore s))); eauto.
    - lia.
    - pose proof (visibleCount_le s2). destruct (isVisible s2 face2); lia. }
  intros hz s3 H3.
  destruct (round_horizon _ _ _ _ _ _ _ Hshape2 Ht2 H3)
    as (D3 & L3 & Hhz & gs3 & us3 & Ht3 & Hin3).
  apply finishes_bind; [apply ends_addNewFaces|]. intros u4 s4 H4.
  pose proof (sameIndices_length _ _ (idx_addNewFaces _ _ _ _ _ H4)) as L4.
  apply filesKept_addNewFaces in H4.
  pose proof (filesKept_triaged _ _ _ _ H4 Ht3) as Ht4.
  apply finishes_bind; [apply ends_gets|]. intros nf s0 Hg. apply gets_Ok in Hg as [<- <-].
  eapply resolveUnassignedPoints_finishes; [exact Ht4|]. lia.
Qed.

(** *** The whole run *)

Lemma NoDup_subset_length (xs ys : list nat) :
  NoDup xs -> (forall x, x ∈ xs -> x ∈ ys) -> length xs <= length ys.
Proof. intros Hnd Hin. apply submseteq_length, NoDup_submseteq; auto. Qed.

Lemma shrinks_length (xs ys : list nat) v :
  NoDup xs -> v ∈ ys -> (forall x, x ∈ xs -> x ∈ ys /\ x <> v) -> length xs < length ys.
Proof.
  intros Hnd Hv Hin.
  apply list_elem_of_split in Hv as (pre & post & ->).
  assert (H : length xs <= length (pre ++ post)).
  { apply NoDup_subset_length; [exact Hnd|].
    intros x Hx. destruct (Hin x Hx) as [Hy Hne].
    rewrite elem_of_app, elem_of_cons in Hy. rewrite elem_of_app. tauto. }
  rewrite !length_app in *. simpl. lia.
Qed.

Lemma insertionLoop_finishes N : forall a fuel cur s gs,
  meshShape s -> twinsLinked s -> filed s gs ->
  length (HullState.vertices s) <= N ->
  length (runs gs) <= a ->
  (forall v, cur = Some v -> v ∈ runs gs /\ onVisible s v) ->
  a + N + 4 * (4 ^ a * length (HullState.faceStore s)) + 4 <= fuel ->
  finishes (insertionLoop fuel cur) s.
Proof.
  induction a as [|a IH]; intros fuel cur s gs Hshape Hlinked Hfiled Hlen Ha Hcur Hfuel.
  - destruct cur as [v|]; [|destruct fuel; apply ends_ret].
    destruct (Hcur v eq_refl) as [Hv _]. destruct (runs gs); [inversion Hv|simpl in Ha; lia].
  - destruct cur as [v|]; [|destruct fuel; apply ends_ret].
    destruct (Hcur v eq_refl) as [Hv Hvis].
    destruct fuel as [|fuel]; [lia|]. cbn [insertionLoop].
    assert (Hpow : 4 ^ S a = 4 * 4 ^ a) by (rewrite Nat.pow_succ_r'; reflexivity).
    assert (Hp1 : 1 <= 4 ^ a) by (apply Nat.neq_0_lt_0, Nat.pow_nonzero; lia).
    apply finishes_bind.
    { eapply (addVertexToHull_finishes N); eauto. rewrite Hpow in Hfuel. nia. }
    intros u s1 Hadd.
    destruct (addVertexToHull_shrinks _ _ _ _ _ _ Hshape Hfiled Hv Hadd)
      as ((gs1 & Hf1 & Hin1) & L1 & F1).
    destruct (addVertexToHull_mesh _ _ _ _ _ Hshape Hlinked Hvis Hadd) as [Hshape1 Hlinked1].
    assert (Hlt : length (runs gs1) < length (runs gs)).
    { eapply shrinks_length; [|exact Hv|exact Hin1]. destruct Hf1 as ((Hnd & _) & _). exact Hnd. }
    apply finishes_bind.
    { eapply nextVertexToAdd_finishes; [exact Hf1|]. rewrite Hpow in Hfuel. nia. }
    intros cur' s2 Hnext.
    pose proof (nextVertexToAdd_same _ _ _ _ Hnext) as ->.
    eapply (IH fuel cur' s1 gs1); eauto; try lia.
    + intros v' ->. destruct (nextVertexToAdd_spec _ _ _ _ _ Hf1 Hnext) as (_ & Hv' & Hvis').
      auto.
    + rewrite Hpow in Hfuel. nia.
Qed.

Lemma computeInitialHull_faceCount points s :
  computeInitialHull (createHullState points) = Ok (tt, s) ->
  length (HullState.faceStore s) <= 4 /\
  length (HullState.vertices s) = vertexCount (length points).
Proof.
  intros H. split.
  - apply computeInitialHull_inv in H as [(ex & ->)|H]; [simpl; lia|].
    destruct H as (v0 & v1 & v2 & v3 & ts & sB & _ & _ & Hfs & _ & _ & _ & _ & _ & _ & Hrem).
    apply mesh_assignRemaining in Hrem. apply sameMesh_length in Hrem.
    apply (f_equal length) in Hfs. rewrite length_faceSkeleton in Hfs. simpl in Hfs. lia.
  - apply idx_computeInitialHull in H. apply sameIndices_length in H.
    rewrite H. unfold createHullState. simpl. rewrite length_map, length_seq. reflexivity.
Qed.

Lemma runHull_finishes fuel points :
  enoughFuel points <= fuel -> runHull fuel points <> OutOfFuel.
Proof.
  intros Hfuel. unfold runHull, buildHull.
  change (finishes (bind (bind computeInitialHull
                      (fun _ => bind (nextVertexToAdd fuel)
                         (fun vertex => bind (insertionLoop fuel vertex)
                                          (fun _ => reindexFaces))))
                    (fun _ => getTriangleIndices)) (createHullState points)).
  set (n := vertexCount (length points)) in *.
  assert (Hp1 : 1 <= 4 ^ n) by (apply Nat.neq_0_lt_0, Nat.pow_nonzero; lia).
  unfold enoughFuel in Hfuel. fold n in Hfuel. cbv zeta in Hfuel.
  apply finishes_bind; [|intros; apply ends_getTriangleIndices].
  apply finishes_bind; [apply ends_computeInitialHull|]. intros [] s0 Hseed.
  destruct (computeInitialHull_faceCount _ _ Hseed) as [F0 L0]. fold n in L0.
  destruct (computeInitialHull_links _ _ Hseed) as [Hshape Hlinked].
  destruct (computeInitialHull_filed _ _ Hseed) as [gs Hfiled].
  pose proof Hfiled as (Hl & _). apply listOk_bounded in Hl.
  apply finishes_bind.
  { eapply nextVertexToAdd_finishes; [exact Hfiled|]. lia. }
  intros cur s1 Hnext.
  pose proof (nextVertexToAdd_same _ _ _ _ Hnext) as ->.
  apply finishes_bind; [|intros; apply ends_reindexFaces].
  eapply (insertionLoop_finishes n n fuel cur s0 gs); eauto; try lia.
  - intros v ->. destruct (nextVertexToAdd_spec _ _ _ _ _ Hfiled Hnext) as (_ & Hv & Hvis).
    auto.
  - nia.
Qed.

(** X10. Without an absorbing face, [deleteFaceVertices] leaves a face
    without outside vertices alone, and otherwise cuts the whole group of
    the face out of the assigned list and puts it, in its order, at the
    end of the unassigned list; the other groups stay as they are, the
    face ends with no outside vertex, and no mark and no half-edge
    changes. *)
Theorem deleteFaceVertices_moves_the_group_to_unassigned fuel f s u s' gs us :
  triaged s gs us -> deleteFaceVertices fuel f None s = Ok (u, s') ->
  (forall f', isVisible s' f' = isVisible s f') /\
  outsideOf s' f = None /\
  HullState.edgeStore s' = HullState.edgeStore s /\
  (((f ∉ map fst gs) /\ s' = s) \/
   (exists g1 run g2, gs = g1 ++ (f, run) :: g2 /\ triaged s' (g1 ++ g2) (us ++ run))).
Proof. apply deleteFaceVertices_moves. Qed.

Lemma deleteFaceVertices_moves_the_group_to_unassigned_witness :
  exists gs s', triaged octahedronSeed gs [] /\
    deleteFaceVertices 100 1 None octahedronSeed = Ok (tt, s') /\
    outsideOf s' 1 = None /\
    exists g1 run g2, gs = g1 ++ (1, run) :: g2 /\ triaged s' (g1 ++ g2) run.
Proof.
  destruct (computeInitialHull_filed octahedron octahedronSeed) as [gs Hgs];
    [vm_compute; reflexivity|].
  assert (Ht : triaged octahedronSeed gs []).
  { split; [exact Hgs|]. split.
    - unfold listOk, wellFormed. repeat split. constructor.
    - intros x Hx. inversion Hx. }
  destruct (deleteFaceVertices 100 1 None octahedronSeed) as [[[] s']| |] eqn:E;
    [|vm_compute in E; discriminate E..].
  exists gs, s'. split; [exact Ht|]. split; [reflexivity|].
  destruct (deleteFaceVertices_moves_the_group_to_unassigned _ _ _ _ _ _ _ Ht E)
    as (_ & Hout & _ & Hcase).
  split; [exact Hout|].
  destruct Hcase as [[_ Hsame]|Hmoved]; [|exact Hmoved].
  exfalso. subst s'. vm_compute in Hout. discriminate Hout.
Defined.

(** X11. A round of the insertion loop takes the eye vertex out of the
    assigned list for good and brings no vertex in: the vertices that
    wait after the round waited before it, the eye vertex is not among
    them, so the list gets shorter in every round. The vertex nodes
    stay as many, and the face store grows at most fourfold. *)
Theorem a_round_shortens_the_assigned_list points fuel fuel' s v s1 s' xs xs' :
  underConstruction points s ->
  nextVertexToAdd fuel s = Ok (Some v, s1) ->
  addVertexToHull fuel' v s1 = Ok (tt, s') ->
  listOk s Assigned xs -> listOk s' Assigned xs' ->
  v ∈ xs /\ (forall x, x ∈ xs' -> x ∈ xs /\ x <> v) /\ length xs' < length xs /\
  length (HullState.vertices s') = length (HullState.vertices s) /\
  length (HullState.faceStore s') <= 4 * length (HullState.faceStore s).
Proof.
  intros Huc Hnext Hadd Hxs Hxs'.
  destruct (underConstruction_inv _ _ Huc) as [[Hshape _] [gs Hfiled]].
  destruct (nextVertexToAdd_spec _ _ _ _ _ Hfiled Hnext) as (-> & Hv & _).
  destruct (addVertexToHull_shrinks _ _ _ _ _ _ Hshape Hfiled Hv Hadd)
    as ((gs' & Hf' & Hin) & L & F).
  pose proof Hfiled as (Hl & _). pose proof Hf' as (Hl' & _).
  rewrite (listOk_unique _ _ _ _ Hxs Hl), (listOk_unique _ _ _ _ Hxs' Hl').
  split; [exact Hv|]. split; [exact Hin|]. split; [|split; [exact L|exact F]].
  eapply shrinks_length; [|exact Hv|exact Hin]. destruct Hl' as (Hnd & _). exact Hnd.
Qed.

Lemma a_round_shortens_the_assigned_list_witness :
  exists xs xs', listOk octahedronSeed Assigned xs /\ listOk octahedronStep Assigned xs' /\
    4 ∈ xs /\ length xs' < length xs.
Proof.
  assert (H0 : computeInitialHull (createHullState octahedron) = Ok (tt, octahedronSeed))
    by (vm_compute; reflexivity).
  assert (H1 : nextVertexToAdd 100 octahedronSeed = Ok (Some 4, octahedronSeed))
    by (vm_compute; reflexivity).
  assert (H2 : addVertexToHull 100 4 octahedronSeed = Ok (tt, octahedronStep))
    by (vm_compute; reflexivity).
  pose proof (uc_seed _ _ H0) as Huc.
  pose proof (uc_step _ _ _ _ _ _ _ Huc H1 H2) as Huc'.
  destruct (underConstruction_inv _ _ Huc) as [_ [gs (Hl & _)]].
  destruct (underConstruction_inv _ _ Huc') as [_ [gs' (Hl' & _)]].
  exists (runs gs), (runs gs'). split; [exact Hl|]. split; [exact Hl'|].
  destruct (a_round_shortens_the_assigned_list _ _ _ _ _ _ _ _ _ Huc H1 H2 Hl Hl')
    as (Hv & _ & Hlt & _).
  auto.
Defined.

(** X12. [quickhull3] terminates on every input. The fuel of the model
    only bounds its loops; with [enoughFuel points] or more, no loop of
    the run is cut short: the loops over the vertex lists, the do-while
    loop and the recursion of [computeHorizon] and the insertion loop of
    [quickhull3] all come to an end, and the call returns or raises. *)
Theorem quickhull3_terminates points fuel :
  enoughFuel points <= fuel ->
  quickhull3 fuel points <> OutOfFuel /\ runHull fuel points <> OutOfFuel.
Proof.
  intros Hfuel. pose proof (runHull_finishes _ _ Hfuel) as Hrun.
  split; [|exact Hrun].
  unfold quickhull3. destruct (length points <? 12); [discriminate|].
  destruct (runHull fuel points) as [[r s]| |]; [discriminate|discriminate|contradiction].
Qed.

Lemma quickhull3_terminates_witness :
  enoughFuel octahedron <= enoughFuel octahedron /\
  quickhull3 (enoughFuel octahedron) octahedron <> OutOfFuel.
Proof.
  split; [lia|]. apply (quickhull3_terminates octahedron (enoughFuel octahedron)). lia.
Defined.

(** ** The orientation of the seed hull *)

Lemma computeInitialHull_wired points s0 :
  computeInitialHull (createHullState points) = Ok (tt, s0) ->
  HullState.edgeStore s0 = [] \/
  exists v0 v1 v2 v3,
    (edgeSkeleton s0 = trianglesShape 0 (seedOutward v0 v1 v2 v3) /\
     map HalfEdge.twin (HullState.edgeStore s0) = outwardTwins) \/
    (edgeSkeleton s0 = trianglesShape 0 (seedInward v0 v1 v2 v3) /\
     map HalfEdge.twin (HullState.edgeStore s0) = inwardTwins).
Proof.
  unfold computeInitialHull. intros H.
  apply bind_Ok in H as (ex & s1 & Hex & H).
  apply computeExtremes_inv in Hex. subst s1.
  set (s1 := HullState.set_tolerance _ _) in *.
  apply bind_Ok in H as (pts & s2 & H1 & H). apply gets_Ok in H1 as [<- <-].
  apply bind_Ok in H as (vs & s2 & H1 & H). apply gets_Ok in H1 as [<- <-].
  apply bind_Ok in H as (index & s2 & H1 & H). apply orRaise_Ok in H1 as [Hsep <-].
  apply bind_Ok in H as (ov2 & s2 & H1 & H). apply orRaise_Ok in H1 as [Hv2 <-].
  destruct ov2 as [v2|]; [|apply ret_Ok in H as [_ <-]; left; reflexivity].
  apply bind_Ok in H as (n0 & s2 & H1 & H). apply getVertex_Ok in H1 as [Hn0 <-].
  apply bind_Ok in H as (n1 & s2 & H1 & H). apply getVertex_Ok in H1 as [Hn1 <-].
  apply bind_Ok in H as (n2 & s2 & H1 & H). apply getVertex_Ok in H1 as [Hn2 <-].
  apply bind_Ok in H as ([normal offset] & s2 & H1 & H).
  apply orRaise_Ok in H1 as [Hplane <-].
  apply bind_Ok in H as (ov3 & s2 & H1 & H). apply orRaise_Ok in H1 as [Hv3 <-].
  destruct ov3 as [v3|]; [|apply ret_Ok in H as [_ <-]; left; reflexivity].
  apply bind_Ok in H as (n3 & s2 & H1 & H). apply getVertex_Ok in H1 as [Hn3 <-].
  apply bind_Ok in H as (d3 & s2 & H1 & H). apply orRaise_Ok in H1 as [Hd3 <-].
  apply bind_Ok in H as (faces & sT & Hbuild & H).
  apply bind_Ok in H as (u & sB & Hadd & Hassign).
  apply mesh_assignRemaining in Hassign. destruct Hassign as (HE0 & _).
  set (v0 := get3 index (minVertices ex)) in *.
  set (v1 := get3 index (maxVertices ex)) in *.
  right. exists v0, v1, v2, v3.
  pose proof (addFacesToHull_edges _ _ _ _ Hadd) as HE.
  assert (Hfs1 : HullState.faceStore s1 = []) by reflexivity.
  unfold edgeSkeleton. rewrite HE0. fold (edgeSkeleton sB).
  destruct (d3 <? 0)%float.
  - left.
    pose proof (seed_build_run twinOutward _ _ _ _ _ _ _ _ _ _ _ _ _ _ _ Hfs1 Hbuild)
      as [u' Hrun].
    apply twinOutward_links in Hrun; [|reflexivity|reflexivity].
    eapply (seed_faces_built twinOutward) with (points := points) in Hbuild
      as (B1 & _);
      [| reflexivity | reflexivity | reflexivity | reflexivity | reflexivity
       | apply seed_twinOutward | apply faceStore_twinOutward | exact Hadd].
    split; [exact B1|]. rewrite HE. exact Hrun.
  - right.
    pose proof (seed_build_run twinInward _ _ _ _ _ _ _ _ _ _ _ _ _ _ _ Hfs1 Hbuild)
      as [u' Hrun].
    apply twinInward_links in Hrun; [|reflexivity|reflexivity].
    eapply (seed_faces_built twinInward) with (points := points) in Hbuild
      as (B1 & _);
      [| reflexivity | reflexivity | reflexivity | reflexivity | reflexivity
       | apply seed_twinInward | apply faceStore_twinInward | exact Hadd].
    split; [exact B1|]. rewrite HE. exact Hrun.
Qed.

Lemma twinOf_lookup s e ot :
  map HalfEdge.twin (HullState.edgeStore s) !! e = Some ot -> twinOf s e = ot.
Proof.
  rewrite list_lookup_fmap. unfold twinOf.
  destruct (HullState.edgeStore s !! e); simpl; congruence.
Qed.

Lemma tailOf_prev s e : tailOf s e = p ← prevOf s e; headOf s p.
Proof.
  unfold tailOf, prevOf, headOf.
  destruct (HullState.edgeStore s !! e) as [ed|]; [|reflexivity]. simpl.
  destruct (HalfEdge.prev ed); reflexivity.
Qed.

(** What a consistently oriented pair of twins looks like. *)
Lemma oriented_pair s sk tw e t v p n f v' p' n' f' wp wn wf wp' wn' wf' :
  edgeSkeleton s = sk -> map HalfEdge.twin (HullState.edgeStore s) = tw ->
  tw !! e = Some (Some t) -> tw !! t = Some (Some e) ->
  sk !! e = Some (v, Some p, n, f) -> sk !! t = Some (v', Some p', n', f') ->
  sk !! p = Some (v', wp, wn, wf) -> sk !! p' = Some (v, wp', wn', wf') -> f <> f' ->
  exists t, twinOf s e = Some t /\ twinOf s t = Some e /\
    faceOf s t <> faceOf s e /\
    is_Some (headOf s e) /\ headOf s t = tailOf s e /\ tailOf s t = headOf s e.
Proof.
  intros <- <- Ht Ht' He Ht2 Hp Hp' Hne.
  apply twinOf_lookup in Ht, Ht'.
  apply skeleton_accessors in He as (He1 & He2 & _ & He4).
  apply skeleton_accessors in Ht2 as (Ht1 & Ht2 & _ & Ht4).
  apply skeleton_accessors in Hp as (Hp1 & _).
  apply skeleton_accessors in Hp' as (Hp1' & _).
  exists t. split; [exact Ht|]. split; [exact Ht'|].
  split; [rewrite He4, Ht4; congruence|].
  split; [rewrite He1; eauto|].
  rewrite !tailOf_prev, He2, Ht2. simpl. rewrite He1, Ht1, Hp1, Hp1'. auto.
Qed.

(** X13. The seed hull is empty or a tetrahedron of four faces and
    twelve half-edges, and then it is a closed, consistently oriented
    surface, whichever of the two windings was built: every half-edge
    has a twin on another face, the twin's twin is the half-edge, and
    the twin joins the same two vertices in the opposite direction. *)
Theorem seed_hull_is_consistently_oriented points s :
  computeInitialHull (createHullState points) = Ok (tt, s) ->
  (length (HullState.edgeStore s) = 0 \/ length (HullState.edgeStore s) = 12) /\
  forall e, e < length (HullState.edgeStore s) ->
    exists t, twinOf s e = Some t /\ twinOf s t = Some e /\
      faceOf s t <> faceOf s e /\
      is_Some (headOf s e) /\ headOf s t = tailOf s e /\ tailOf s t = headOf s e.
Proof.
  intros H. apply computeInitialHull_wired in H as [E|(v0 & v1 & v2 & v3 & H)].
  { rewrite E. split; [left; reflexivity|]. simpl. intros e He. lia. }
  assert (L : length (HullState.edgeStore s) = 12).
  { destruct H as [[Hsk _]|[Hsk _]]; apply (f_equal length) in Hsk;
      rewrite length_edgeSkeleton in Hsk; exact Hsk. }
  split; [right; exact L|]. rewrite L. intros e He.
  destruct H as [[Hsk Htw]|[Hsk Htw]];
    do 12 (destruct e as [|e];
           [eapply (oriented_pair s _ _ _ _ _ _ _ _ _ _ _ _ _ _ _ _ _ _ Hsk Htw);
              [reflexivity|reflexivity|reflexivity|reflexivity|reflexivity|reflexivity|lia]|]);
    lia.
Qed.

Lemma seed_hull_is_consistently_oriented_witness :
  length (HullState.edgeStore octahedronSeed) = 12 /\
  exists t, twinOf octahedronSeed 0 = Some t /\ twinOf octahedronSeed t = Some 0 /\
    headOf octahedronSeed t = tailOf octahedronSeed 0.
Proof.
  assert (H0 : computeInitialHull (createHullState octahedron) = Ok (tt, octahedronSeed))
    by (vm_compute; reflexivity).
  destruct (seed_hull_is_consistently_oriented _ _ H0) as [_ Hall].
  assert (L : length (HullState.edgeStore octahedronSeed) = 12) by (vm_compute; reflexivity).
  split; [exact L|].
  destruct (Hall 0) as (t & H1 & H2 & _ & _ & H3 & _); [rewrite L; lia|].
  exists t. auto.
Defined.

(** ** Faces without area *)

Lemma zeroOrNan_mul_zero x : zeroOrNan (0 * x)%float.
Proof.
  unfold zeroOrNan. rewrite mul_spec. unfold SF64mul.
  replace (Prim2SF 0) with (S754_zero false) by reflexivity.
  destruct (Prim2SF x); exact I.
Qed.

Lemma zeroOrNan_add a b : zeroOrNan a -> zeroOrNan b -> zeroOrNan (a + b)%float.
Proof.
  unfold zeroOrNan. rewrite add_spec. unfold SF64add.
  destruct (Prim2SF a) as [[]|[]| |[] ? ?], (Prim2SF b) as [[]|[]| |[] ? ?];
    simpl; tauto.
Qed.

Lemma zeroOrNan_sub a b : zeroOrNan a -> zeroOrNan b -> zeroOrNan (a - b)%float.
Proof.
  unfold zeroOrNan. rewrite sub_spec. unfold SF64sub.
  destruct (Prim2SF a) as [[]|[]| |[] ? ?], (Prim2SF b) as [[]|[]| |[] ? ?];
    simpl; tauto.
Qed.

Lemma not_above_unsigned t d : unsigned t -> zeroOrNan d -> (t <? d)%float = false.
Proof.
  unfold unsigned, zeroOrNan. rewrite ltb_spec. unfold SFltb.
  destruct (Prim2SF t) as [st|st| |st mt et], (Prim2SF d) as [sd|sd| |sd md ed];
    simpl; intros Ht Hd; subst; try contradiction; reflexivity.
Qed.

Lemma faceGeometry_degenerate fc pa pb pc :
  (EPSILON <? edgeCrossLength pa pb pc)%float = false ->
  Face.normal (faceGeometry fc pa pb pc) = Face.normal fc /\
  (Face.normal fc = zero3 -> forall p, zeroOrNan (planeOf (faceGeometry fc pa pb pc) p)).
Proof.
  destruct pa as [[ax ay] az], pb as [[bx b_y] bz], pc as [[cx cy] cz].
  unfold edgeCrossLength, length3, cross3, sub3, faceGeometry. intros ->.
  destruct (Face.normal fc) as [[n0 n1] n2] eqn:Hn.
  split; [reflexivity|].
  intros [= -> -> ->] [[x y] z]. unfold planeOf. simpl.
  apply zeroOrNan_sub; repeat apply zeroOrNan_add; apply zeroOrNan_mul_zero.
Qed.

(** X14. A face whose corners span a cross product no longer than
    EPSILON gets no normal from [faceCompute]: the normal stays as
    [createFace] made it, the zero vector, and not a default direction;
    the other faces are not touched. The signed distance of any point to
    such a face is a zero or NaN, so it is above no tolerance that is not
    negative: no vertex is ever filed under the face, and no eye point
    sees it. *)
Theorem degenerate_face_attracts_no_point f s u s' :
  faceCompute f s = Ok (u, s') ->
  exists fc a b c pa pb pc,
    HullState.faceStore s !! f = Some fc /\ cornersOf s f = Some (a, b, c) /\
    (na ← HullState.vertices s !! a; point3 (HullState.points s) (VertexNode.index na * 3))
      = Some pa /\
    (nb ← HullState.vertices s !! b; point3 (HullState.points s) (VertexNode.index nb * 3))
      = Some pb /\
    (nc ← HullState.vertices s !! c; point3 (HullState.points s) (VertexNode.index nc * 3))
      = Some pc /\
    (forall g, g <> f -> HullState.faceStore s' !! g = HullState.faceStore s !! g) /\
    ((EPSILON <? edgeCrossLength pa pb pc)%float = false -> Face.normal fc = zero3 ->
     (exists fc', HullState.faceStore s' !! f = Some fc' /\ Face.normal fc' = zero3) /\
     forall vi d tol, unsigned tol -> distanceTo s' f vi = Some d ->
       zeroOrNan d /\ (tol <? d)%float = false).
Proof.
  intros H.
  apply faceCompute_inv in H
    as (fc & a & b & c & na & nb & nc & pa & pb & pc &
        Hfc & Hc & Hna & Hnb & Hnc & Hpa & Hpb & Hpc & ->).
  exists fc, a, b, c, pa, pb, pc.
  split; [exact Hfc|]. split; [exact Hc|].
  rewrite Hna, Hnb, Hnc. simpl.
  split; [exact Hpa|]. split; [exact Hpb|]. split; [exact Hpc|]. split.
  - intros g Hg. simpl. apply list_lookup_insert_ne. congruence.
  - intros Hflat Hzero.
    destruct (faceGeometry_degenerate fc pa pb pc Hflat) as [Hn Hd].
    assert (Hl : <[f := faceGeometry fc pa pb pc]> (HullState.faceStore s) !! f
                 = Some (faceGeometry fc pa pb pc))
      by (apply list_lookup_insert_eq; eapply lookup_lt_Some; eauto).
    split.
    + exists (faceGeometry fc pa pb pc). split; [exact Hl|congruence].
    + intros vi d tol Htol Hdist. unfold distanceTo in Hdist. simpl in Hdist.
      rewrite Hl in Hdist. simpl in Hdist. unfold faceDistanceToPoint in Hdist.
      destruct (point3 (HullState.points s) (vi * 3)) as [p|]; [|discriminate].
      simpl in Hdist. injection Hdist as <-.
      pose proof (Hd Hzero p) as Hz. split; [exact Hz|].
      apply not_above_unsigned; assumption.
Qed.

Lemma degenerate_face_attracts_no_point_witness :
  exists s', faceCompute 0 flatFace = Ok (tt, s') /\
    (exists fc', HullState.faceStore s' !! 0 = Some fc' /\ Face.normal fc' = zero3) /\
    forall vi d, distanceTo s' 0 vi = Some d -> (0 <? d)%float = false.
Proof.
  destruct (faceCompute 0 flatFace) as [[[] s']| |] eqn:E;
    [|vm_compute in E; discriminate E..].
  exists s'. split; [reflexivity|].
  destruct (degenerate_face_attracts_no_point _ _ _ _ E)
    as (fc & a & b & c & pa & pb & pc & Hfc & Hc & Hpa & Hpb & Hpc & _ & Hflat).
  vm_compute in Hfc. injection Hfc as <-.
  vm_compute in Hc. injection Hc as <- <- <-.
  vm_compute in Hpa. injection Hpa as <-.
  vm_compute in Hpb. injection Hpb as <-.
  vm_compute in Hpc. injection Hpc as <-.
  destruct Hflat as [Hn Hd]; [vm_compute; reflexivity|reflexivity|].
  split; [exact Hn|].
  intros vi d Hdist. apply (Hd vi d 0%float); [vm_compute; reflexivity|exact Hdist].
Defined.

(** ** The list of faces *)

Lemma facesKept_refl s : facesKept s s.
Proof. split; reflexivity. Qed.

Lemma facesKept_trans s1 s2 s3 : facesKept s1 s2 -> facesKept s2 s3 -> facesKept s1 s3.
Proof. intros [A1 A2] [B1 B2]. split; congruence. Qed.

Create HintDb fk.

Ltac fk_leaf :=
  first
    [ apply respects_updVertex; intros; split; reflexivity
    | apply respects_updEdge; intros; split; reflexivity
    | apply respects_updFace; intros; split; [reflexivity|simpl; apply length_insert]
    | apply respects_modify; intros [? ? ? ? ? ? ? ? ?];
      try (match goal with |- context [HullState.setList ?w _ _] => destruct w end);
      split; reflexivity
    | solve [eauto with fk] ].

Ltac fk_walk :=
  pose proof facesKept_refl as Hrefl;
  pose proof facesKept_trans as Htrans;
  walk_by fk_leaf.

Lemma fk_vertexListClear w : respects facesKept (vertexListClear w).
Proof. unfold vertexListClear. fk_walk. Qed.
Lemma fk_vertexListAppend w v : respects facesKept (vertexListAppend w v).
Proof. unfold vertexListAppend, getList, setHead, setTail. fk_walk. Qed.
Lemma fk_findEndOfChain fuel v : respects facesKept (findEndOfChain fuel v).
Proof. revert v. induction fuel; simpl; fk_walk. Qed.
#[local] Hint Resolve fk_vertexListClear fk_vertexListAppend fk_findEndOfChain : fk.
Lemma fk_vertexListAppendChain fuel w v : respects facesKept (vertexListAppendChain fuel w v).
Proof. unfold vertexListAppendChain, getList, setHead, setTail. fk_walk. Qed.
Lemma fk_vertexListInsertBefore w t v : respects facesKept (vertexListInsertBefore w t v).
Proof. unfold vertexListInsertBefore, setHead, setTail. fk_walk. Qed.
Lemma fk_vertexListRemove w v : respects facesKept (vertexListRemove w v).
Proof. unfold vertexListRemove, setHead, setTail. fk_walk. Qed.
Lemma fk_vertexListRemoveSubList w a b : respects facesKept (vertexListRemoveSubList w a b).
Proof. unfold vertexListRemoveSubList, setHead, setTail. fk_walk. Qed.
#[local] Hint Resolve fk_vertexListAppendChain fk_vertexListInsertBefore
  fk_vertexListRemove fk_vertexListRemoveSubList : fk.
Lemma fk_walkNext i e : respects facesKept (walkNext i e).
Proof. revert e. induction i; simpl; fk_walk. Qed.
Lemma fk_walkPrev i e : respects facesKept (walkPrev i e).
Proof. revert e. induction i; simpl; fk_walk. Qed.
#[local] Hint Resolve fk_walkNext fk_walkPrev : fk.
Lemma fk_faceGetEdge f i : respects facesKept (faceGetEdge f i).
Proof. unfold faceGetEdge. fk_walk. Qed.
Lemma fk_addVertexToFace v f : respects facesKept (addVertexToFace v f).
Proof. unfold addVertexToFace. fk_walk. Qed.
Lemma fk_farthestFace vi faces d mf : respects facesKept (farthestFace vi faces d mf).
Proof. revert d mf. induction faces; simpl; fk_walk. Qed.
#[local] Hint Resolve fk_faceGetEdge fk_addVertexToFace fk_farthestFace : fk.
Lemma fk_assignVertex v : respects facesKept (assignVertex v).
Proof. unfold assignVertex. fk_walk. Qed.
#[local] Hint Resolve fk_assignVertex : fk.
Lemma fk_assignRemaining v0 v1 v2 v3 idxs :
  respects facesKept (assignRemaining v0 v1 v2 v3 idxs).
Proof. induction idxs; simpl; fk_walk. Qed.
Lemma fk_removeVertexFromFace v f : respects facesKept (removeVertexFromFace v f).
Proof. unfold removeVertexFromFace. fk_walk. Qed.
Lemma fk_findRunEnd fuel f v : respects facesKept (findRunEnd fuel f v).
Proof. revert v. induction fuel; simpl; fk_walk. Qed.
#[local] Hint Resolve fk_assignRemaining fk_removeVertexFromFace fk_findRunEnd : fk.
Lemma fk_removeAllVerticesFromFace fuel f :
  respects facesKept (removeAllVerticesFromFace fuel f).
Proof. unfold removeAllVerticesFromFace. fk_walk. Qed.
Lemma fk_absorbVertex af v : respects facesKept (absorbVertex af v).
Proof. unfold absorbVertex. fk_walk. Qed.
#[local] Hint Resolve fk_removeAllVerticesFromFace fk_absorbVertex : fk.
Lemma fk_absorbLoop fuel af v : respects facesKept (absorbLoop fuel af v).
Proof. revert v. induction fuel; destruct v; simpl; fk_walk. Qed.
#[local] Hint Resolve fk_absorbLoop : fk.
Lemma fk_deleteFaceVertices fuel f af : respects facesKept (deleteFaceVertices fuel f af).
Proof. unfold deleteFaceVertices. fk_walk. Qed.
Lemma fk_scanNewFaces vi faces d mf : respects facesKept (scanNewFaces vi faces d mf).
Proof. revert d mf. induction faces; simpl; fk_walk. Qed.
#[local] Hint Resolve fk_deleteFaceVertices fk_scanNewFaces : fk.
Lemma fk_resolveVertex nf v : respects facesKept (resolveVertex nf v).
Proof. unfold resolveVertex. fk_walk. Qed.
#[local] Hint Resolve fk_resolveVertex : fk.
Lemma fk_resolveLoop fuel nf v : respects facesKept (resolveLoop fuel nf v).
Proof. revert v. induction fuel; destruct v; simpl; fk_walk. Qed.
#[local] Hint Resolve fk_resolveLoop : fk.
Lemma fk_resolveUnassignedPoints fuel nf :
  respects facesKept (resolveUnassignedPoints fuel nf).
Proof. unfold resolveUnassignedPoints. fk_walk. Qed.
Lemma fk_horizon fuel :
  (forall eye cross face hz, respects facesKept (computeHorizon fuel eye cross face hz)) /\
  (forall eye se e hz, respects facesKept (horizonLoop fuel eye se e hz)).
Proof.
  induction fuel as [|fuel [IHA IHB]]; split.
  - intros eye cross face hz s r s' H. discriminate H.
  - intros eye se e hz s r s' H. discriminate H.
  - intros eye cross face hz. rewrite computeHorizon_S. fk_walk.
  - intros eye se e hz. rewrite horizonLoop_S. fk_walk.
Qed.
Lemma fk_computeHorizon fuel eye cross face hz :
  respects facesKept (computeHorizon fuel eye cross face hz).
Proof. apply fk_horizon. Qed.

Lemma addNewFaces_faces eye hz s u s' :
  addNewFaces eye hz s = Ok (u, s') ->
  HullState.faces s' = HullState.faces s ++ seq (length (HullState.faceStore s)) (length hz).
Proof.
  intros H. unfold addNewFaces in H.
  apply bind_Ok in H as (u0 & s0 & Hm & H). apply modify_Ok in Hm.
  apply bind_Ok in H as ([first prev] & s1 & Hloop & H).
  destruct (addNewFacesLoop_census _ _ _ _ _ _ _ Hloop) as (corners & _ & _ & _ & L1 & _).
  cbv zeta in L1.
  apply bind_Ok in H as (f0 & s2 & Hg & H). apply orRaise_Ok in Hg as [_ <-].
  apply bind_Ok in H as (fd & s2 & Hg & H). apply getEdge_Ok in Hg as [_ <-].
  apply bind_Ok in H as (fn & s2 & Hg & H). apply orRaise_Ok in Hg as [_ <-].
  apply bind_Ok in H as (pv & s2 & Hg & H). apply orRaise_Ok in Hg as [_ <-].
  apply shape_halfEdgeSetTwin in H. destruct H as (_ & _ & L2 & _).
  rewrite L2, L1. subst s0. reflexivity.
Qed.

Lemma addVertexToHull_faces fuel v s u s' :
  HullState.faces s = seq 0 (length (HullState.faceStore s)) ->
  addVertexToHull fuel v s = Ok (u, s') ->
  HullState.faces s' = seq 0 (length (HullState.faceStore s')).
Proof.
  intros Hall H. unfold addVertexToHull in H.
  apply bind_Ok in H as (u1 & s1 & H1 & H). apply fk_vertexListClear in H1.
  apply bind_Ok in H as (ev & s0 & Hg & H). apply getVertex_Ok in Hg as [_ <-].
  apply bind_Ok in H as (face & s0 & Hg & H). apply orRaise_Ok in Hg as [_ <-].
  apply bind_Ok in H as (u2 & s2 & H2 & H). apply fk_removeVertexFromFace in H2.
  apply bind_Ok in H as (ev2 & s0 & Hg & H). apply getVertex_Ok in Hg as [_ <-].
  apply bind_Ok in H as (face2 & s0 & Hg & H). apply orRaise_Ok in Hg as [_ <-].
  apply bind_Ok in H as (hz & s3 & H3 & H). apply fk_computeHorizon in H3.
  apply bind_Ok in H as (u4 & s4 & H4 & H).
  pose proof (addNewFaces_faces _ _ _ _ _ H4) as F4.
  pose proof (addNewFaces_faceCount _ _ _ _ _ H4) as L4.
  apply bind_Ok in H as (nf & s0 & Hg & H). apply gets_Ok in Hg as [<- <-].
  apply fk_resolveUnassignedPoints in H.
  destruct H1 as [A1 B1], H2 as [A2 B2], H3 as [A3 B3], H as [A5 B5].
  rewrite A5, B5, F4, L4, A3, A2, A1, Hall, B3, B2, B1.
  rewrite seq_app. reflexivity.
Qed.

Lemma underConstruction_faces points s :
  underConstruction points s ->
  HullState.faces s = seq 0 (length (HullState.faceStore s)).
Proof.
  induction 1 as [s Hseed|fuel fuel' s v s1 s' _ IH Hnext Hadd].
  - apply computeInitialHull_inv in Hseed as [(ex & ->)|H]; [reflexivity|].
    destruct H as (v0 & v1 & v2 & v3 & ts & sB & _ & _ & Hfs & _ & _ & _ & Hf & _ & _ & Hrem).
    apply fk_assignRemaining in Hrem as [A B]. rewrite A, B, Hf.
    apply (f_equal length) in Hfs. rewrite length_faceSkeleton in Hfs. rewrite Hfs.
    reflexivity.
  - pose proof (nextVertexToAdd_same _ _ _ _ Hnext) as ->.
    eapply addVertexToHull_faces; eauto.
Qed.

(** X15. Between the rounds of the insertion loop, [faces] lists every
    face that was ever made, in the order of making, each once, deleted
    ones included. In the state [quickhull3] ends with, [faces] is
    exactly the faces still marked VISIBLE, in the order of making and
    each once, and the output has one triangle for each of them: no face
    that survived is left out and none comes twice. *)
Theorem output_lists_every_surviving_face_once :
  (forall points s, underConstruction points s ->
     HullState.faces s = seq 0 (length (HullState.faceStore s))) /\
  (forall fuel points r s, runHull fuel points = Ok (r, s) ->
     HullState.faces s = filter (fun f => isVisible s f = true)
                                (seq 0 (length (HullState.faceStore s))) /\
     NoDup (HullState.faces s) /\
     length r = 3 * visibleCount s).
Proof.
  split; [exact underConstruction_faces|].
  intros fuel points r s H.
  destruct (runHull_end _ _ _ _ H) as (s3 & Huc & Es & Htri).
  pose proof (underConstruction_faces _ _ Huc) as Hall.
  destruct (underConstruction_inv _ _ Huc) as [[Hshape _] _].
  assert (E : HullState.faces s = filter (fun f => isVisible s f = true)
                                         (seq 0 (length (HullState.faceStore s)))).
  { rewrite Es. simpl. rewrite Hall. reflexivity. }
  split; [exact E|]. split.
  - rewrite E. apply NoDup_filter, NoDup_seq.
  - assert (Hshape' : meshShape s) by (subst s; exact Hshape).
    assert (Hvis : Forall (fun f => isVisible s f = true) (HullState.faces s)).
    { rewrite E. apply Forall_forall. intros f Hf.
      apply list_elem_of_filter in Hf as [Hf _]. exact Hf. }
    rewrite (triangleIndices_count _ _ _ _ Hshape' Hvis Htri).
    unfold visibleCount. rewrite <- E. reflexivity.
Qed.

Lemma output_lists_every_surviving_face_once_witness :
  exists r s, runHull 100 octahedron = Ok (r, s) /\
    HullState.faces s = [2; 3; 4; 5; 7; 8; 9; 10] /\ length r = 24.
Proof.
  destruct output_lists_every_surviving_face_once as [_ Hend].
  destruct (runHull 100 octahedron) as [[r s]| |] eqn:E;
    [|vm_compute in E; discriminate E..].
  exists r, s. split; [reflexivity|].
  destruct (Hend _ _ _ _ E) as (Hf & _ & Hlen).
  assert (Es : s = stateOf (runHull 100 octahedron)) by (rewrite E; reflexivity).
  split.
  - rewrite Hf, Es. vm_compute. reflexivity.
  - rewrite Hlen, Es. vm_compute. reflexivity.
Defined.

(** ** The geometry kernel *)

Lemma unsigned_square x : unsigned (x * x)%float.
Proof.
  unfold unsigned. rewrite mul_spec. unfold SF64mul.
  destruct (Prim2SF x) as [s|s| |s m e]; simpl; try (destruct s; reflexivity); [exact I|].
  pose proof (binary_round_aux_sign prec emax (xorb s s) (Z.pos (m * m)) (e + e) loc_Exact)
    as H.
  destruct (binary_round_aux _ _ _ _ _ _); simpl in *; try exact I;
    subst; destruct s; reflexivity.
Qed.

Lemma unsigned_div a b : unsigned a -> unsigned b -> unsigned (a / b)%float.
Proof.
  unfold unsigned. rewrite div_spec. unfold SF64div.
  destruct (Prim2SF a) as [sa|sa| |sa ma ea], (Prim2SF b) as [sb|sb| |sb mb eb];
    simpl; intros Ha Hb; subst; simpl; auto.
  destruct (SFdiv_core_binary _ _ _ _ _ _) as [[mz ez] lz].
  apply (binary_round_aux_sign prec emax false).
Qed.

Lemma unsigned_not_negative x : unsigned x -> (x <? 0)%float = false.
Proof.
  intros H. destruct (x <? 0)%float eqn:E; [|reflexivity].
  pose proof (above_unsigned _ _ H E) as Hbad. rewrite ltb_irrefl in Hbad. discriminate.
Qed.

Lemma zeroOrNan_add_opp a : zeroOrNan (a + - a)%float.
Proof.
  unfold zeroOrNan. rewrite add_spec, opp_spec. unfold SF64add.
  destruct (Prim2SF a) as [[]|[]| |s m e]; simpl; try exact I.
  assert (E : (cond_Zopp s (Z.pos (fst (shl_align m e (IntDef.Z.min e e)))) +
               cond_Zopp (negb s) (Z.pos (fst (shl_align m e (IntDef.Z.min e e)))))%Z = 0%Z).
  { destruct s; simpl; lia. }
  rewrite E. exact I.
Qed.

(** X16. The geometry kernel keeps to the signs one expects. The
    squared distance that [distanceToLineSquared] answers is never
    negative (it is NaN at worst), for a line of two distinct points and
    for two points that coincide alike. The plane that [computePlane]
    answers for a triangle that is not degenerate passes through its
    first vertex exactly: [distanceToPlane] of that vertex is a zero, or
    NaN, and no rounding residue. *)
Theorem kernel_signs :
  (forall points idx v0 v1 d,
     distanceToLineSquared points idx v0 v1 = Some d ->
     unsigned d /\ (d <? 0)%float = false) /\
  (forall points v0 v1 v2 p0 p1 p2 normal offset,
     point3 points (v0 * 3) = Some p0 -> point3 points (v1 * 3) = Some p1 ->
     point3 points (v2 * 3) = Some p2 ->
     (edgeCrossLength p0 p1 p2 <? EPSILON)%float = false ->
     computePlane points v0 v1 v2 = Some (normal, offset) ->
     exists d, distanceToPlane points v0 normal offset = Some d /\ zeroOrNan d).
Proof.
  split.
  - intros points idx v0 v1 d H.
    assert (Hu : unsigned d); [|split; [exact Hu|apply unsigned_not_negative, Hu]].
    unfold distanceToLineSquared in H.
    destruct (point3 points (idx * 3)) as [[[px py] pz]|]; [|discriminate].
    destruct (point3 points (v0 * 3)) as [[[ax ay] az]|]; [|discriminate].
    destruct (point3 points (v1 * 3)) as [[[bx b_y] bz]|]; [|discriminate].
    simpl in H.
    destruct (_ <? EPSILON)%float; injection H as <-.
    + repeat apply unsigned_add; apply unsigned_square.
    + apply unsigned_div; repeat apply unsigned_add; apply unsigned_square.
  - intros points v0 v1 v2 [[p0x p0y] p0z] [[p1x p1y] p1z] [[p2x p2y] p2z] normal offset
      H0 H1 H2 Hlen H.
    unfold computePlane in H. rewrite H0, H1, H2 in H. simpl in H.
    unfold edgeCrossLength, length3, cross3, sub3 in Hlen. rewrite Hlen in H.
    injection H as <- <-.
    unfold distanceToPlane. rewrite H0. simpl.
    eexists. split; [reflexivity|]. apply zeroOrNan_add_opp.
Qed.

Lemma kernel_signs_witness :
  (exists d, distanceToLineSquared octahedron 2 0 1 = Some d /\ (d <? 0)%float = false) /\
  (exists normal offset d,
     computePlane octahedron 0 2 4 = Some (normal, offset) /\
     distanceToPlane octahedron 0 normal offset = Some d /\ zeroOrNan d).
Proof.
  destruct kernel_signs as [Hline Hplane]. split.
  - destruct (distanceToLineSquared octahedron 2 0 1) as [d|] eqn:E;
      [|vm_compute in E; discriminate E].
    exists d. split; [reflexivity|]. apply (Hline _ _ _ _ _ E).
  - destruct (computePlane octahedron 0 2 4) as [[normal offset]|] eqn:E;
      [|vm_compute in E; discriminate E].
    destruct (point3 octahedron (0 * 3)) as [p0|] eqn:E0; [|vm_compute in E0; discriminate E0].
    destruct (point3 octahedron (2 * 3)) as [p1|] eqn:E1; [|vm_compute in E1; discriminate E1].
    destruct (point3 octahedron (4 * 3)) as [p2|] eqn:E2; [|vm_compute in E2; discriminate E2].
    assert (Hlen : (edgeCrossLength p0 p1 p2 <? EPSILON)%float = false).
    { vm_compute in E0, E1, E2. injection E0 as <-. injection E1 as <-. injection E2 as <-.
      vm_compute. reflexivity. }
    destruct (Hplane _ _ _ _ _ _ _ _ _ E0 E1 E2 Hlen E) as (d & Hd & Hz).
    exists normal, offset, d. auto.
Defined.

(** ** The re-triage in full (C3) *)

Lemma SFeqb_ltb_r m x y : SFeqb x y = true -> SFltb m x = SFltb m y.
Proof.
  unfold SFeqb, SFltb.
  destruct m as [[]|[]| |[] m0 e0], x as [[]|[]| |[] m1 e1], y as [[]|[]| |[] m2 e2];
    simpl; try congruence;
    fold (Pos.compare m1 m2);
    destruct (Z.compare_spec e1 e2); try congruence; subst;
    destruct (Pos.compare_spec m1 m2); simpl; try congruence; subst; reflexivity.
Qed.

Lemma eqb_ltb_r (m x y : float) : (x =? y)%float = true -> (m <? x)%float = (m <? y)%float.
Proof. rewrite FloatAxioms.eqb_spec, !ltb_spec. apply SFeqb_ltb_r. Qed.

Lemma SFltb_eqb_refl m x : SFltb m x = true -> SFeqb x x = true.
Proof.
  unfold SFeqb, SFltb.
  destruct m as [[]|[]| |[] m0 e0], x as [[]|[]| |[] m1 e1]; simpl; try congruence;
    intros _; rewrite Z.compare_refl, Pos.compare_cont_refl; reflexivity.
Qed.

Lemma ltb_eqb_refl (m x : float) : (m <? x)%float = true -> (x =? x)%float = true.
Proof. rewrite FloatAxioms.eqb_spec, ltb_spec. apply SFltb_eqb_refl. Qed.

(** *** The scan of the re-triage against its description *)

Lemma greatestSeen_snoc s i front g m :
  greatestSeen s i (front ++ [g]) m =
  match seenDistance s i g with
  | Some d => if (greatestSeen s i front m <? d)%float then d else greatestSeen s i front m
  | None => greatestSeen s i front m
  end.
Proof. unfold greatestSeen. rewrite fold_left_app. reflexivity. Qed.

Lemma greatestSeen_grows s i faces : forall m,
  m = greatestSeen s i faces m \/ (m <? greatestSeen s i faces m)%float = true.
Proof.
  induction faces as [|g rest IH] using rev_ind; intros m; [left; reflexivity|].
  rewrite greatestSeen_snoc.
  destruct (seenDistance s i g) as [d|]; [|apply IH].
  destruct (greatestSeen s i rest m <? d)%float eqn:E; [|apply IH].
  right. destruct (IH m) as [Heq|H]; [rewrite <- Heq in E; exact E|].
  eapply ltb_trans; eauto.
Qed.

Lemma greatestSeen_bound s i faces m : forall g d,
  g ∈ faces -> seenDistance s i g = Some d ->
  (greatestSeen s i faces m <? d)%float = false.
Proof.
  induction faces as [|x rest IH] using rev_ind; intros g d Hg Hd; [inversion Hg|].
  rewrite greatestSeen_snoc.
  apply elem_of_app in Hg as [Hg|Hg].
  - specialize (IH g d Hg Hd).
    destruct (seenDistance s i x) as [dx|]; [|exact IH].
    destruct (greatestSeen s i rest m <? dx)%float eqn:E; [|exact IH].
    eapply not_ltb_mono; [right; exact E|exact IH].
  - apply list_elem_of_singleton in Hg. subst x. rewrite Hd.
    destruct (greatestSeen s i rest m <? d)%float eqn:E; [apply ltb_irrefl|exact E].
Qed.

Lemma greatestSeen_attained s i faces m :
  greatestSeen s i faces m = m \/
  exists g, g ∈ faces /\ seenDistance s i g = Some (greatestSeen s i faces m).
Proof.
  induction faces as [|x rest IH] using rev_ind; [left; reflexivity|].
  rewrite greatestSeen_snoc.
  destruct (seenDistance s i x) as [dx|] eqn:Hx.
  - destruct (greatestSeen s i rest m <? dx)%float.
    + right. exists x. split; [apply elem_of_app; right; constructor|exact Hx].
    + destruct IH as [IH|(g & Hg & Hd)]; [left; exact IH|].
      right. exists g. split; [apply elem_of_app; left; exact Hg|exact Hd].
  - destruct IH as [IH|(g & Hg & Hd)]; [left; exact IH|].
    right. exists g. split; [apply elem_of_app; left; exact Hg|exact Hd].
Qed.

Lemma find_snoc {A} (P : A -> bool) (l : list A) (x : A) :
  List.find P (l ++ [x]) =
  match List.find P l with Some y => Some y | None => if P x then Some x else None end.
Proof.
  induction l as [|y l IH]; simpl; [reflexivity|].
  destruct (P y); [reflexivity|exact IH].
Qed.

Lemma find_none_iff {A} (P : A -> bool) (l : list A) :
  (forall x, x ∈ l -> P x = false) -> List.find P l = None.
Proof.
  induction l as [|y l IH]; intros H; simpl; [reflexivity|].
  rewrite (H y) by constructor. apply IH. intros x Hx. apply H. right. exact Hx.
Qed.

Lemma find_same {A} (P Q : A -> bool) (l : list A) :
  (forall x, P x = Q x) -> List.find P l = List.find Q l.
Proof.
  intros H. induction l as [|y l IH]; simpl; [reflexivity|]. rewrite H, IH. reflexivity.
Qed.

Lemma find_some_elem {A} (P : A -> bool) (l : list A) x :
  x ∈ l -> P x = true -> exists y, List.find P l = Some y.
Proof.
  induction l as [|y l IH]; intros Hx HP; [inversion Hx|]. simpl.
  destruct (P y) eqn:E; [eauto|].
  apply elem_of_cons in Hx as [->|Hx]; [congruence|]. apply IH; assumption.
Qed.

(** A face that takes the greatest distance seen upwards is the first
    one seen at the new greatest distance. *)
Lemma firstSeenAt_new s i front g d :
  seenDistance s i g = Some d ->
  (greatestSeen s i front (HullState.tolerance s) <? d)%float = true ->
  firstSeenAt s i (front ++ [g]) d = Some g.
Proof.
  intros Hd Hlt. unfold firstSeenAt.
  assert (Htol : (HullState.tolerance s <? d)%float = true).
  { destruct (greatestSeen_grows s i front (HullState.tolerance s)) as [Heq|H];
      [rewrite <- Heq in Hlt; exact Hlt|eapply ltb_trans; eauto]. }
  rewrite Htol, find_snoc, find_none_iff.
  - unfold seenAt at 1. rewrite Hd, (ltb_eqb_refl _ _ Hlt). reflexivity.
  - intros x Hx. unfold seenAt. destruct (seenDistance s i x) as [dx|] eqn:Ex; [|reflexivity].
    destruct (dx =? d)%float eqn:E; [|reflexivity].
    pose proof (greatestSeen_bound s i front (HullState.tolerance s) x dx Hx Ex) as Hb.
    rewrite (eqb_ltb_r _ _ _ E) in Hb. congruence.
Qed.

(** A face that leaves the greatest distance seen as it is changes
    nothing about the first face seen at it. *)
Lemma firstSeenAt_keep s i front g :
  let m := greatestSeen s i front (HullState.tolerance s) in
  firstSeenAt s i (front ++ [g]) m = firstSeenAt s i front m.
Proof.
  intros m. unfold firstSeenAt.
  destruct (HullState.tolerance s <? m)%float eqn:Htol; [|reflexivity].
  rewrite find_snoc.
  destruct (greatestSeen_attained s i front (HullState.tolerance s)) as [E|(x & Hx & Hd)].
  - fold m in E. rewrite E, ltb_irrefl in Htol. discriminate.
  - fold m in Hd.
    destruct (find_some_elem (seenAt s i m) front x Hx) as [y ->]; [|reflexivity].
    unfold seenAt. rewrite Hd. eapply ltb_eqb_refl. exact Htol.
Qed.

Lemma seenDistance_intro s g fc i d :
  HullState.faceStore s !! g = Some fc -> Face.mark fc = VISIBLE ->
  faceDistanceToPoint fc (HullState.points s) i = Some d ->
  seenDistance s i g = Some d.
Proof.
  intros Hf Hm Hd. unfold seenDistance, isVisible, distanceTo. rewrite Hf. simpl.
  rewrite bool_decide_eq_true_2 by exact Hm. exact Hd.
Qed.

Lemma seenDistance_hidden s g fc i :
  HullState.faceStore s !! g = Some fc -> Face.mark fc <> VISIBLE ->
  seenDistance s i g = None /\ isVisible s g = false.
Proof.
  intros Hf Hm. unfold seenDistance, isVisible. rewrite Hf.
  rewrite bool_decide_eq_false_2 by exact Hm. auto.
Qed.

(** The scan of step 6e answers the face its description names, and
    leaves the state as it is. *)
Lemma scanNewFaces_spec i : forall rest front m mf s r s',
  m = greatestSeen s i front (HullState.tolerance s) ->
  mf = firstSeenAt s i front m ->
  scanNewFaces i rest m mf s = Ok (r, s') ->
  s' = s /\
  r = firstSeenAt s i (scannedFaces s i front rest)
        (greatestSeen s i (scannedFaces s i front rest) (HullState.tolerance s)).
Proof.
  induction rest as [|g rest IH]; intros front m mf s r s' Hm Hmf H; simpl in H.
  - apply ret_Ok in H as [<- <-]. split; [reflexivity|]. simpl. subst. reflexivity.
  - apply bind_Ok in H as (fc & s0 & Hg & H). apply getFace_Ok in Hg as [Hf <-].
    simpl.
    destruct (bool_decide (Face.mark fc = VISIBLE)) eqn:Hmark.
    + apply bool_decide_eq_true_1 in Hmark.
      apply bind_Ok in H as (pts & s0 & Hg & H). apply gets_Ok in Hg as [<- <-].
      apply bind_Ok in H as (tol & s0 & Hg & H). apply gets_Ok in Hg as [<- <-].
      apply bind_Ok in H as (dist & s0 & Hg & H). apply orRaise_Ok in Hg as [Hd <-].
      pose proof (seenDistance_intro _ _ _ _ _ Hf Hmark Hd) as Hseen.
      assert (Hvis : isVisible s g = true).
      { unfold isVisible. rewrite Hf. apply bool_decide_eq_true_2, Hmark. }
      rewrite Hvis. simpl.
      rewrite (greatestSeen_snoc s i front g), Hseen. rewrite <- Hm.
      destruct (m <? dist)%float eqn:Hlt.
      * assert (Hfirst : firstSeenAt s i (front ++ [g]) dist = Some g).
        { apply firstSeenAt_new; [exact Hseen|]. rewrite <- Hm. exact Hlt. }
        destruct (1000 * HullState.tolerance s <? dist)%float eqn:Hbrk.
        -- apply ret_Ok in H as [<- <-]. split; [reflexivity|].
           rewrite greatestSeen_snoc, Hseen, <- Hm, Hlt. symmetry. exact Hfirst.
        -- eapply IH; [| |exact H].
           ++ rewrite greatestSeen_snoc, Hseen, <- Hm, Hlt. reflexivity.
           ++ symmetry. exact Hfirst.
      * pose proof (firstSeenAt_keep s i front g) as Hkeep. simpl in Hkeep.
        rewrite <- Hm, <- Hmf in Hkeep.
        destruct (1000 * HullState.tolerance s <? m)%float eqn:Hbrk.
        -- apply ret_Ok in H as [<- <-]. split; [reflexivity|].
           rewrite greatestSeen_snoc, Hseen, <- Hm, Hlt. symmetry. exact Hkeep.
        -- eapply IH; [| |exact H].
           ++ rewrite greatestSeen_snoc, Hseen, <- Hm, Hlt. reflexivity.
           ++ symmetry. exact Hkeep.
    + apply bool_decide_eq_false_1 in Hmark.
      destruct (seenDistance_hidden s g fc i Hf Hmark) as [Hseen Hvis].
      rewrite Hvis. simpl.
      pose proof (firstSeenAt_keep s i front g) as Hkeep. simpl in Hkeep.
      rewrite <- Hm, <- Hmf in Hkeep.
      eapply IH; [| |exact H].
      * rewrite greatestSeen_snoc, Hseen. exact Hm.
      * symmetry. exact Hkeep.
Qed.

(** *** What the re-triage leaves as it is *)

Lemma sameScan_refl s : sameScan s s.
Proof. repeat split. Qed.

Lemma sameScan_sym s s' : sameScan s s' -> sameScan s' s.
Proof. intros (A1 & A2 & A3 & A4). repeat split; congruence. Qed.

Lemma sameScan_trans s1 s2 s3 : sameScan s1 s2 -> sameScan s2 s3 -> sameScan s1 s3.
Proof. intros (A1 & A2 & A3 & A4) (B1 & B2 & B3 & B4). repeat split; congruence. Qed.

Lemma sameScan_face s s' g fc :
  sameScan s s' -> HullState.faceStore s !! g = Some fc ->
  exists fc', HullState.faceStore s' !! g = Some fc' /\ scanFields fc' = scanFields fc.
Proof.
  intros (_ & _ & _ & Hf) Hg.
  assert (H : map scanFields (HullState.faceStore s') !! g = Some (scanFields fc))
    by (rewrite Hf, list_lookup_fmap, Hg; reflexivity).
  rewrite list_lookup_fmap in H.
  destruct (HullState.faceStore s' !! g) as [fc'|]; [|discriminate].
  exists fc'. split; [reflexivity|]. simpl in H. congruence.
Qed.

Lemma sameScan_none s s' g :
  sameScan s s' -> HullState.faceStore s !! g = None -> HullState.faceStore s' !! g = None.
Proof.
  intros (_ & _ & _ & Hf) Hg.
  assert (H : map scanFields (HullState.faceStore s') !! g = None)
    by (rewrite Hf, list_lookup_fmap, Hg; reflexivity).
  rewrite list_lookup_fmap in H.
  destruct (HullState.faceStore s' !! g); [discriminate|reflexivity].
Qed.

Lemma sameScan_seen s s' i g : sameScan s s' -> seenDistance s' i g = seenDistance s i g.
Proof.
  intros Hs. pose proof Hs as (Hp & _). unfold seenDistance, isVisible, distanceTo.
  destruct (HullState.faceStore s !! g) as [fc|] eqn:Hg.
  - destruct (sameScan_face _ _ _ _ Hs Hg) as (fc' & -> & E).
    unfold scanFields in E. injection E as En Ec Em. simpl. rewrite Em, Hp.
    destruct (bool_decide (Face.mark fc = VISIBLE)); [|reflexivity].
    unfold faceDistanceToPoint, planeOf. rewrite En, Ec. reflexivity.
  - rewrite (sameScan_none _ _ _ Hs Hg). reflexivity.
Qed.

Lemma sameScan_visible s s' g : sameScan s s' -> isVisible s' g = isVisible s g.
Proof.
  intros Hs. unfold isVisible.
  destruct (HullState.faceStore s !! g) as [fc|] eqn:Hg.
  - destruct (sameScan_face _ _ _ _ Hs Hg) as (fc' & -> & E).
    unfold scanFields in E. injection E as _ _ Em. rewrite Em. reflexivity.
  - rewrite (sameScan_none _ _ _ Hs Hg). reflexivity.
Qed.

Lemma sameScan_greatestSeen s s' i faces :
  sameScan s s' -> forall m, greatestSeen s' i faces m = greatestSeen s i faces m.
Proof.
  intros Hs. induction faces as [|g rest IH] using rev_ind; intros m; [reflexivity|].
  rewrite !greatestSeen_snoc, (sameScan_seen _ _ _ _ Hs), IH. reflexivity.
Qed.

Lemma sameScan_scannedFaces s s' i :
  sameScan s s' -> forall faces front,
  scannedFaces s' i front faces = scannedFaces s i front faces.
Proof.
  intros Hs. pose proof Hs as (_ & Ht & _).
  induction faces as [|g rest IH]; intros front; simpl; [reflexivity|].
  rewrite (sameScan_visible _ _ _ Hs), (sameScan_greatestSeen _ _ _ _ Hs), Ht, IH.
  reflexivity.
Qed.

Lemma sameScan_retriageFace s s' i nf :
  sameScan s s' -> retriageFace s' i nf = retriageFace s i nf.
Proof.
  intros Hs. pose proof Hs as (_ & Ht & _). unfold retriageFace, firstSeenAt.
  rewrite (sameScan_scannedFaces _ _ _ Hs), (sameScan_greatestSeen _ _ _ _ Hs), Ht.
  destruct (HullState.tolerance s <? _)%float; [|reflexivity].
  apply find_same. intros g. unfold seenAt. rewrite (sameScan_seen _ _ _ _ Hs). reflexivity.
Qed.

Lemma sameScan_index s s' v nd :
  sameScan s s' -> HullState.vertices s !! v = Some nd ->
  exists nd', HullState.vertices s' !! v = Some nd' /\ VertexNode.index nd' = VertexNode.index nd.
Proof.
  intros (_ & _ & Hv & _) Hnd.
  assert (H : map VertexNode.index (HullState.vertices s') !! v = Some (VertexNode.index nd))
    by (rewrite Hv, list_lookup_fmap, Hnd; reflexivity).
  rewrite list_lookup_fmap in H.
  destruct (HullState.vertices s' !! v) as [nd'|]; [|discriminate].
  exists nd'. split; [reflexivity|]. simpl in H. congruence.
Qed.

Lemma sameScan_updVertex s v nd g :
  HullState.vertices s !! v = Some nd -> VertexNode.index (g nd) = VertexNode.index nd ->
  sameScan s (HullState.set_vertices (<[v := g nd]> (HullState.vertices s)) s).
Proof.
  intros Hnd Hg. destruct s as [pts tol fs nfs asg un vs fst est]. simpl in *.
  repeat split; simpl. eapply map_insert_same; eauto.
Qed.

Lemma sameScan_updFace s f fc g :
  HullState.faceStore s !! f = Some fc -> scanFields (g fc) = scanFields fc ->
  sameScan s (HullState.set_faceStore (<[f := g fc]> (HullState.faceStore s)) s).
Proof.
  intros Hfc Hg. destruct s as [pts tol fs nfs asg un vs fst est]. simpl in *.
  repeat split; simpl. eapply map_insert_same; eauto.
Qed.

Ltac scan_leaf :=
  first
    [ apply respects_updVertex; intros; apply sameScan_updVertex; [eassumption|reflexivity]
    | apply respects_updFace; intros; apply sameScan_updFace; [eassumption|reflexivity]
    | apply respects_modify; intros [? ? ? ? ? ? ? ? ?];
      try (match goal with |- context [HullState.setList ?w _ _] => destruct w end);
      repeat split ].

Ltac scan_walk :=
  pose proof sameScan_refl as Hrefl;
  pose proof sameScan_trans as Htrans;
  walk_by scan_leaf.

Lemma sameScan_addVertexToFace v f : respects sameScan (addVertexToFace v f).
Proof.
  unfold addVertexToFace, vertexListAppend, vertexListInsertBefore, getList, setHead, setTail.
  scan_walk.
Qed.

(** [addVertexToFace] writes the face field of its vertex, and of no
    other. *)
Lemma addVertexToFace_faceFields v f s u s' :
  addVertexToFace v f s = Ok (u, s') ->
  forall x, x <> v -> faceFields s' !! x = faceFields s !! x.
Proof.
  unfold addVertexToFace. intros H x Hx.
  apply bind_Ok in H as (u1 & s1 & H1 & H).
  apply bind_Ok in H as (fc & s2 & H2 & H). apply getFace_Ok in H2 as [H2 <-].
  apply bind_Ok in H as (u3 & s3 & H3 & H4).
  assert (E1 : faceFields s1 !! x = faceFields s !! x).
  { unfold updVertex in H1. apply bind_Ok in H1 as (nd & s0 & Hg & Hm).
    apply getVertex_Ok in Hg as [Hg <-]. apply modify_Ok in Hm. subst s1.
    unfold faceFields. simpl.
    rewrite !list_lookup_fmap, list_lookup_insert_ne by auto. reflexivity. }
  assert (E3 : faceFields s3 = faceFields s1).
  { destruct (Face.outside fc);
      [eapply faceFields_vertexListInsertBefore | eapply faceFields_vertexListAppend];
      eauto. }
  unfold updFace in H4. apply bind_Ok in H4 as (fc' & s4 & Hg & Hm).
  apply getFace_Ok in Hg as [Hg <-]. apply modify_Ok in Hm. subst s'.
  change (faceFields s3 !! x = faceFields s !! x). rewrite E3. exact E1.
Qed.

Lemma retriageFace_visible s i nf f : retriageFace s i nf = Some f -> isVisible s f = true.
Proof.
  unfold retriageFace, firstSeenAt. intros H.
  destruct (HullState.tolerance s <? _)%float; [|discriminate].
  apply List.find_some in H as [_ H]. unfold seenAt, seenDistance in H.
  destruct (isVisible s f); [reflexivity|discriminate].
Qed.

(** One round of the re-triage: the vertex goes to the face the
    description names, or the state stays as it is. *)
Lemma resolveVertex_round nf v s nx s1 :
  resolveVertex nf v s = Ok (nx, s1) ->
  exists nd, HullState.vertices s !! v = Some nd /\ nx = VertexNode.next nd /\
    match retriageFace s (VertexNode.index nd) nf with
    | Some f => addVertexToFace v f s = Ok (tt, s1)
    | None => s1 = s
    end.
Proof.
  intros H. apply resolveVertex_inv in H as (nd & r & Hnd & Hnx & Hscan & Hr).
  exists nd. split; [exact Hnd|]. split; [exact Hnx|].
  apply (scanNewFaces_spec _ _ []) in Hscan as [_ ->]; [exact Hr|reflexivity|].
  unfold firstSeenAt. destruct (_ <? _)%float; reflexivity.
Qed.

Lemma resolveVertex_files nf v rest p s gs nx s1 :
  filed s gs -> segment (HullState.vertices s) p (v :: rest) None ->
  NoDup (v :: rest) -> (forall x, x ∈ v :: rest -> x ∉ runs gs) ->
  resolveVertex nf v s = Ok (nx, s1) ->
  sameScan s s1 /\
  (forall x, x <> v -> faceFields s1 !! x = faceFields s !! x) /\
  exists nd, HullState.vertices s !! v = Some nd /\
    match retriageFace s (VertexNode.index nd) nf with
    | Some f => namesFace s1 v f /\
                forall gs1, filed s1 gs1 -> forall x, x ∈ runs gs1 <-> x = v \/ x ∈ runs gs
    | None => s1 = s
    end.
Proof.
  intros Hfiled Hseg Hnd Hdis H.
  destruct (resolveVertex_round _ _ _ _ _ H) as (nd & Hv & _ & Hr).
  destruct (retriageFace s (VertexNode.index nd) nf) as [f|] eqn:E.
  - split; [eapply sameScan_addVertexToFace; exact Hr|].
    split; [eapply addVertexToFace_faceFields; exact Hr|].
    exists nd. split; [exact Hv|]. rewrite E. split.
    + destruct (addVertexToFace_spec _ _ _ _ _ Hr) as [(nd1 & Hnd1 & Hf) _].
      eapply namesFace_node; eauto.
    + intros gs1 Hf1.
      assert (Hv' : v ∉ runs gs) by (apply Hdis; left).
      destruct (addVertexToFace_filed v f s tt s1 gs Hfiled Hv'
                  (retriageFace_visible _ _ _ _ E) Hr) as ((gs2 & Hf2 & Hin) & _).
      destruct Hf1 as (Hl1 & _). destruct Hf2 as (Hl2 & _).
      rewrite (listOk_unique _ _ _ _ Hl1 Hl2). exact Hin.
  - subst s1. split; [apply sameScan_refl|]. split; [reflexivity|].
    exists nd. split; [exact Hv|]. rewrite E. reflexivity.
Qed.

(** The re-triage loop over the rest of the unassigned list. *)
Lemma resolveLoop_retriage newFaces fuel : forall cur rest p s gs u s',
  filed s gs -> cur = head rest -> segment (HullState.vertices s) p rest None ->
  NoDup rest -> (forall x, x ∈ rest -> x ∉ runs gs) ->
  resolveLoop fuel newFaces cur s = Ok (u, s') ->
  sameScan s s' /\
  exists gs', filed s' gs' /\
    (forall x, x ∈ runs gs ->
       x ∈ runs gs' /\ faceFields s' !! x = faceFields s !! x) /\
    (forall v nd f, v ∈ rest -> HullState.vertices s !! v = Some nd ->
       retriageFace s (VertexNode.index nd) newFaces = Some f ->
       v ∈ runs gs' /\ namesFace s' v f) /\
    (forall x, x ∈ runs gs' ->
       x ∈ runs gs \/
       (x ∈ rest /\ exists nd f, HullState.vertices s !! x = Some nd /\
                                 retriageFace s (VertexNode.index nd) newFaces = Some f)).
Proof.
  induction fuel as [|fuel IH]; intros cur rest p s gs u s' Hfiled Hcur Hseg Hnd Hdis H.
  - destruct cur as [v|]; [discriminate|]. apply ret_Ok in H as [_ <-].
    destruct rest; [|discriminate].
    split; [apply sameScan_refl|]. exists gs. split; [exact Hfiled|].
    split; [auto|]. split; [intros v nd f Hv; inversion Hv|auto].
  - destruct cur as [v|].
    2:{ apply ret_Ok in H as [_ <-]. destruct rest; [|discriminate].
        split; [apply sameScan_refl|]. exists gs. split; [exact Hfiled|].
        split; [auto|]. split; [intros v nd f Hv; inversion Hv|auto]. }
    destruct rest as [|v' rest']; [discriminate|]. injection Hcur as <-.
    simpl in H. apply bind_Ok in H as (nv & s1 & Hres & Hloop).
    destruct (resolveVertex_step _ _ _ _ _ _ _ _ Hfiled Hseg Hnd Hdis Hres)
      as (-> & gs1 & Hf1 & Hseg1 & Hdis1 & Hin1).
    destruct (resolveVertex_files _ _ _ _ _ _ _ _ Hfiled Hseg Hnd Hdis Hres)
      as (Hscan1 & Hff1 & nd & Hv & Hout).
    apply NoDup_cons in Hnd as [Hvr Hnd'].
    destruct (IH (head rest') rest' (Some v) s1 gs1 u s' Hf1 eq_refl Hseg1 Hnd' Hdis1 Hloop)
      as (Hscan' & gs' & Hf' & HA & HB & HC).
    assert (Hvgs : v ∉ runs gs) by (apply Hdis; left).
    assert (Hup : forall x, x ∈ runs gs -> x ∈ runs gs1).
    { intros x Hx. destruct (retriageFace s (VertexNode.index nd) newFaces).
      - destruct Hout as [_ Hiff]. apply (Hiff gs1 Hf1). auto.
      - subst s1. destruct Hfiled as (Hl & _). destruct Hf1 as (Hl1 & _).
        rewrite (listOk_unique _ _ _ _ Hl1 Hl). exact Hx. }
    split; [eapply sameScan_trans; eauto|].
    exists gs'. split; [exact Hf'|]. split; [|split].
    + intros x Hx. destruct (HA x (Hup x Hx)) as [Hx' E]. split; [exact Hx'|].
      rewrite E. apply Hff1. intros ->. contradiction.
    + intros w ndw f Hw Hndw Hrf. apply elem_of_cons in Hw as [->|Hw].
      * assert (ndw = nd) by congruence. subst ndw. rewrite Hrf in Hout.
        destruct Hout as [Hname Hiff].
        assert (Hv1 : v ∈ runs gs1) by (apply (Hiff gs1 Hf1); auto).
        destruct (HA v Hv1) as [Hv' E]. split; [exact Hv'|].
        unfold namesFace in *. rewrite E. exact Hname.
      * destruct (sameScan_index _ _ _ _ Hscan1 Hndw) as (nd1 & Hnd1 & Hidx).
        apply (HB w nd1 f Hw Hnd1).
        rewrite Hidx, (sameScan_retriageFace _ _ _ _ Hscan1). exact Hrf.
    + intros x Hx. apply HC in Hx as [Hx|(Hx & nd1 & f & Hnd1 & Hrf)].
      * destruct (retriageFace s (VertexNode.index nd) newFaces) as [f|] eqn:E.
        -- destruct Hout as [_ Hiff]. apply (Hiff gs1 Hf1) in Hx as [->|Hx]; [|auto].
           right. split; [left|]. eauto.
        -- subst s1. destruct Hfiled as (Hl & _). destruct Hf1 as (Hl1 & _).
           rewrite (listOk_unique _ _ _ _ Hl1 Hl) in Hx. auto.
      * right. split; [right; exact Hx|].
        destruct (sameScan_index _ _ _ _ (sameScan_sym _ _ Hscan1) Hnd1)
          as (nd0 & Hnd0 & Hidx).
        exists nd0, f. split; [exact Hnd0|].
        rewrite Hidx, <- (sameScan_retriageFace _ _ _ _ Hscan1). exact Hrf.
Qed.

(** C3, amended. In the re-triage every vertex of the unassigned list is
    compared with the new visible faces in order; the scan covers all of
    them unless the greatest distance seen goes above 1000 x tolerance,
    which ends it.  If the greatest distance seen is above the tolerance,
    the vertex is filed under the first scanned face at that distance
    ([retriageFace]): in its round it becomes the first of that face's
    outside vertices, and when the loop is over it is in the group of
    that face.  Otherwise the round leaves the state as it is and the
    vertex is in no group.  The vertices that were filed before stay in
    their groups. *)
Theorem retriage_files_under_first_farthest :
  (forall nf v s nx s', resolveVertex nf v s = Ok (nx, s') ->
     exists nd, HullState.vertices s !! v = Some nd /\
       match retriageFace s (VertexNode.index nd) nf with
       | Some f => filedUnder s' v f
       | None => s' = s
       end) /\
  (forall fuel nf s gs us u s', triaged s gs us ->
     resolveUnassignedPoints fuel nf s = Ok (u, s') ->
     exists gs', filed s' gs' /\
       (forall f r x, (f, r) ∈ gs -> x ∈ r -> exists r', (f, r') ∈ gs' /\ x ∈ r') /\
       forall v, v ∈ us ->
         exists nd, HullState.vertices s !! v = Some nd /\
           match retriageFace s (VertexNode.index nd) nf with
           | Some f => exists r, (f, r) ∈ gs' /\ v ∈ r
           | None => v ∉ runs gs'
           end).
Proof.
  split.
  - intros nf v s nx s' H.
    destruct (resolveVertex_round _ _ _ _ _ H) as (nd & Hv & _ & Hr).
    exists nd. split; [exact Hv|].
    destruct (retriageFace s (VertexNode.index nd) nf); [|exact Hr].
    eapply addVertexToFace_spec. exact Hr.
  - intros fuel nf s gs us u s' (Hfiled & (Hnd & Hh & Ht & Hseg) & Hdis) H.
    unfold resolveUnassignedPoints in H.
    apply bind_Ok in H as (un & s0 & Hg & H). apply gets_Ok in Hg as [<- <-].
    simpl in Hh. unfold vertexListIsEmpty in H.
    destruct (VertexList.head (HullState.unassigned s)) as [h|] eqn:Hhead.
    + destruct (resolveLoop_retriage nf fuel (Some h) us None s gs u s' Hfiled Hh Hseg Hnd Hdis H)
        as (_ & gs' & Hf' & HA & HB & HC).
      exists gs'. split; [exact Hf'|]. split.
      * intros f r x Hg Hx.
        assert (Hxr : x ∈ runs gs) by (apply elem_of_runs; eauto).
        destruct (HA x Hxr) as [Hx' E].
        assert (Hname : namesFace s' x f).
        { unfold namesFace. rewrite E. destruct Hfiled as (_ & _ & Hall & _).
          rewrite Forall_forall in Hall. destruct (Hall _ Hg) as (_ & _ & _ & Hm).
          apply Hm, Hx. }
        destruct (filed_member _ _ _ _ Hf' Hx' Hname) as (g1 & r1 & r2 & g2 & ->).
        exists (r1 ++ x :: r2). split.
        -- apply elem_of_app. right. left.
        -- apply elem_of_app. right. left.
      * intros v Hv.
        destruct (segment_lookup _ _ _ _ _ Hseg Hv) as [nd Hndv].
        exists nd. split; [exact Hndv|].
        destruct (retriageFace s (VertexNode.index nd) nf) as [f|] eqn:E.
        -- destruct (HB v nd f Hv Hndv E) as [Hv' Hname].
           destruct (filed_member _ _ _ _ Hf' Hv' Hname) as (g1 & r1 & r2 & g2 & ->).
           exists (r1 ++ v :: r2). split.
           ++ apply elem_of_app. right. left.
           ++ apply elem_of_app. right. left.
        -- intros Hbad. apply HC in Hbad as [Hbad|(_ & nd' & f & Hnd' & Hrf)].
           ++ exact (Hdis v Hv Hbad).
           ++ assert (nd' = nd) by congruence. subst nd'. congruence.
    + apply ret_Ok in H as [_ <-]. destruct us as [|x us]; [|discriminate].
      exists gs. split; [exact Hfiled|]. split; [eauto|].
      intros v Hv. inversion Hv.
Qed.

Lemma retriage_files_under_first_farthest_witness :
  triaged retriageState [] [5] /\
  retriageFace retriageState 5 [4; 5; 6] = Some 6 /\
  exists s', resolveUnassignedPoints 100 [4; 5; 6] retriageState = Ok (tt, s') /\
    exists gs', filed s' gs' /\ exists r, (6, r) ∈ gs' /\ 5 ∈ r.
Proof.
  assert (Ht : triaged retriageState [] [5]).
  { split; [|split].
    - split; [|split; [|split]].
      + split; [constructor|]. split; [vm_compute; reflexivity|].
        split; [vm_compute; reflexivity|exact I].
      + constructor.
      + constructor.
      + intros f _. do 7 (destruct f as [|f]; [vm_compute; reflexivity|]).
        vm_compute. reflexivity.
    - split; [|split; [|split]].
      + repeat constructor. intros H. inversion H.
      + vm_compute. reflexivity.
      + vm_compute. reflexivity.
      + exists (VertexNode.mk 5 None None (Some 0)).
        split; [vm_compute; reflexivity|]. repeat split.
    - intros x _ H. inversion H. }
  assert (Hf : retriageFace retriageState 5 [4; 5; 6] = Some 6) by (vm_compute; reflexivity).
  split; [exact Ht|]. split; [exact Hf|].
  destruct (resolveUnassignedPoints 100 [4; 5; 6] retriageState) as [[[] s']| |] eqn:E;
    [|vm_compute in E; discriminate E..].
  exists s'. split; [reflexivity|].
  destruct (proj2 retriage_files_under_first_farthest 100 [4; 5; 6] retriageState
              [] [5] tt s' Ht E) as (gs' & Hfiled & _ & Hall).
  exists gs'. split; [exact Hfiled|].
  destruct (Hall 5 ltac:(left)) as (nd & Hnd & Hr).
  assert (Hi : VertexNode.index nd = 5).
  { vm_compute in Hnd. injection Hnd as <-. reflexivity. }
  rewrite Hi, Hf in Hr. exact Hr.
Defined.

(** ** Determinism (C10) *)

(** ** Arithmetic does not tell the two zeros apart *)

Lemma sameSF_refl x : sameSF x x.
Proof. left. reflexivity. Qed.

Lemma sameNumber_refl a : sameNumber a a.
Proof. apply sameSF_refl. Qed.

Lemma sameNumber_eq a b : a = b -> sameNumber a b.
Proof. intros ->. apply sameNumber_refl. Qed.

Lemma SFeqb_same x y : SFeqb x y = true -> sameSF x y.
Proof.
  unfold SFeqb. destruct x as [[]|[]| |[] m1 e1], y as [[]|[]| |[] m2 e2];
    simpl; try discriminate; try (intros _; left; reflexivity);
    try (intros _; right; eauto; fail);
    fold (Pos.compare m1 m2);
    destruct (Z.compare_spec e1 e2); try discriminate; subst;
    destruct (Pos.compare_spec m1 m2); simpl; try discriminate; subst;
    intros _; left; reflexivity.
Qed.

Lemma eqb_sameNumber a b : (a =? b)%float = true -> sameNumber a b.
Proof. rewrite FloatAxioms.eqb_spec. apply SFeqb_same. Qed.

Ltac split_bools :=
  repeat match goal with
  | |- context [match ?b with true => _ | false => _ end] => destruct b
  end.

Lemma sameSF_add x x' y y' :
  sameSF x x' -> sameSF y y' -> sameSF (SF64add x y) (SF64add x' y').
Proof.
  unfold SF64add.
  intros [->|(s1 & s1' & -> & ->)] [->|(s2 & s2' & -> & ->)]; [left; reflexivity|..].
  - destruct x' as [[]|[]| |[] m e]; simpl; split_bools;
      try (left; reflexivity); right; eauto.
  - destruct y' as [[]|[]| |[] m e]; simpl; split_bools;
      try (left; reflexivity); right; eauto.
  - simpl. split_bools; right; eauto.
Qed.

Lemma sameSF_sub x x' y y' :
  sameSF x x' -> sameSF y y' -> sameSF (SF64sub x y) (SF64sub x' y').
Proof.
  unfold SF64sub.
  intros [->|(s1 & s1' & -> & ->)] [->|(s2 & s2' & -> & ->)]; [left; reflexivity|..].
  - destruct x' as [[]|[]| |[] m e]; simpl; split_bools;
      try (left; reflexivity); right; eauto.
  - destruct y' as [[]|[]| |[] m e]; simpl; split_bools;
      try (left; reflexivity); right; eauto.
  - simpl. split_bools; right; eauto.
Qed.

Lemma sameSF_mul x x' y y' :
  sameSF x x' -> sameSF y y' -> sameSF (SF64mul x y) (SF64mul x' y').
Proof.
  unfold SF64mul.
  intros [->|(s1 & s1' & -> & ->)] [->|(s2 & s2' & -> & ->)]; [left; reflexivity|..].
  - destruct x' as [[]|[]| |[] m e]; simpl; try (left; reflexivity); right; eauto.
  - destruct y' as [[]|[]| |[] m e]; simpl; try (left; reflexivity); right; eauto.
  - simpl. right. eauto.
Qed.

(** Division by the same divisor. *)
Lemma sameSF_div x x' y : sameSF x x' -> sameSF (SF64div x y) (SF64div x' y).
Proof.
  unfold SF64div. intros [->|(s1 & s1' & -> & ->)]; [left; reflexivity|].
  destruct y as [[]|[]| |[] m e]; simpl; try (left; reflexivity); right; eauto.
Qed.

Lemma sameSF_sqrt x x' : sameSF x x' -> sameSF (SF64sqrt x) (SF64sqrt x').
Proof.
  unfold SF64sqrt. intros [->|(s1 & s1' & -> & ->)]; [left; reflexivity|].
  simpl. right. eauto.
Qed.

Lemma sameSF_abs x x' : sameSF x x' -> sameSF (SFabs x) (SFabs x').
Proof. intros [->|(s1 & s1' & -> & ->)]; [left; reflexivity|]. simpl. right. eauto. Qed.

Lemma sameSF_opp x x' : sameSF x x' -> sameSF (SFopp x) (SFopp x').
Proof. intros [->|(s1 & s1' & -> & ->)]; [left; reflexivity|]. simpl. right. eauto. Qed.

Lemma sameSF_ltb x x' y y' : sameSF x x' -> sameSF y y' -> SFltb x y = SFltb x' y'.
Proof.
  unfold SFltb.
  intros [->|(s1 & s1' & -> & ->)] [->|(s2 & s2' & -> & ->)]; [reflexivity|..].
  - destruct x' as [[]|[]| |[] m e]; reflexivity.
  - destruct y' as [[]|[]| |[] m e]; reflexivity.
  - reflexivity.
Qed.

Lemma sameNumber_add a a' b b' :
  sameNumber a a' -> sameNumber b b' -> sameNumber (a + b) (a' + b').
Proof. unfold sameNumber. rewrite !add_spec. apply sameSF_add. Qed.

Lemma sameNumber_sub a a' b b' :
  sameNumber a a' -> sameNumber b b' -> sameNumber (a - b) (a' - b').
Proof. unfold sameNumber. rewrite !sub_spec. apply sameSF_sub. Qed.

Lemma sameNumber_mul a a' b b' :
  sameNumber a a' -> sameNumber b b' -> sameNumber (a * b) (a' * b').
Proof. unfold sameNumber. rewrite !mul_spec. apply sameSF_mul. Qed.

Lemma sameNumber_div a a' b : sameNumber a a' -> sameNumber (a / b) (a' / b).
Proof. unfold sameNumber. rewrite !div_spec. apply sameSF_div. Qed.

Lemma sameNumber_sqrt a a' : sameNumber a a' -> sameNumber (PrimFloat.sqrt a) (PrimFloat.sqrt a').
Proof. unfold sameNumber. rewrite !sqrt_spec. apply sameSF_sqrt. Qed.

Lemma sameNumber_abs a a' : sameNumber a a' -> sameNumber (abs a) (abs a').
Proof. unfold sameNumber. rewrite !abs_spec. apply sameSF_abs. Qed.

Lemma sameNumber_opp a a' : sameNumber a a' -> sameNumber (- a) (- a').
Proof. unfold sameNumber. rewrite !opp_spec. apply sameSF_opp. Qed.

Lemma sameNumber_ltb a a' b b' :
  sameNumber a a' -> sameNumber b b' -> (a <? b)%float = (a' <? b')%float.
Proof. unfold sameNumber. rewrite !ltb_spec. apply sameSF_ltb. Qed.

(** Away from zero the two numbers are one value. *)
Lemma sameNumber_above c a a' :
  (c <? 0)%float = false -> sameNumber a a' -> (c <? a)%float = true -> a = a'.
Proof.
  intros Hc [H|(s & s' & Ha & Ha')] Hlt; [apply Prim2SF_inj, H|].
  rewrite ltb_spec, Ha in Hlt. rewrite ltb_spec in Hc.
  change (Prim2SF 0) with (S754_zero false) in Hc.
  unfold SFltb in *. destruct (Prim2SF c) as [[]|[]| |[] m e]; simpl in *; congruence.
Qed.

Lemma sameNumber_not_below c a a' :
  (0 <? c)%float = true -> sameNumber a a' -> (a <? c)%float = false -> a = a'.
Proof.
  intros Hc [H|(s & s' & Ha & Ha')] Hlt; [apply Prim2SF_inj, H|].
  rewrite ltb_spec, Ha in Hlt. rewrite ltb_spec in Hc.
  change (Prim2SF 0) with (S754_zero false) in Hc.
  unfold SFltb in *. destruct (Prim2SF c) as [[]|[]| |[] m e]; simpl in *; congruence.
Qed.

Lemma sameNumber_math_max a a' b b' :
  sameNumber a a' -> sameNumber b b' -> sameNumber (math_max a b) (math_max a' b').
Proof.
  intros Ha Hb. unfold math_max. rewrite (sameNumber_ltb _ _ _ _ Ha Hb).
  destruct (a' <? b')%float; assumption.
Qed.

(** ** The geometry kernel does not tell the two zeros apart *)

Lemma obind_same {A B} (RA : A -> A -> Prop) (RB : B -> B -> Prop)
    (o o' : option A) (f g : A -> option B) :
  option_Forall2 RA o o' ->
  (forall a a', RA a a' -> option_Forall2 RB (f a) (g a')) ->
  option_Forall2 RB (o ≫= f) (o' ≫= g).
Proof. intros [a a' Ha|] Hf; simpl; [apply Hf, Ha|constructor]. Qed.

Ltac same_arith :=
  repeat first
    [ assumption
    | apply sameNumber_refl
    | apply sameNumber_add
    | apply sameNumber_sub
    | apply sameNumber_mul
    | apply sameNumber_sqrt
    | apply sameNumber_abs
    | apply sameNumber_opp
    | apply sameNumber_div ].

Lemma sameVec_refl u : sameVec u u.
Proof. repeat split; apply sameNumber_refl. Qed.

Lemma sameFace_refl f : sameFace f f.
Proof. repeat split; apply sameNumber_refl. Qed.

Lemma point3_same p q idx :
  Forall2 sameNumber p q -> option_Forall2 sameVec (point3 p idx) (point3 q idx).
Proof.
  intros H. unfold point3. rewrite Forall2_lookup in H.
  eapply obind_same; [apply H|]. intros x x' Hx.
  eapply obind_same; [apply H|]. intros y y' Hy.
  eapply obind_same; [apply H|]. intros z z' Hz.
  constructor. repeat split; assumption.
Qed.

Lemma planeOf_same fc gc p q :
  sameFace fc gc -> sameVec p q -> sameNumber (planeOf fc p) (planeOf gc q).
Proof.
  intros ((Hn0 & Hn1 & Hn2) & _ & _ & Hc & _) (Hx & Hy & Hz). unfold planeOf.
  destruct (Face.normal fc) as [[n0 n1] n2], (Face.normal gc) as [[m0 m1] m2].
  destruct p as [[x y] z], q as [[x' y'] z']. simpl in *. same_arith.
Qed.

Lemma faceDistanceToPoint_same fc gc p q i :
  sameFace fc gc -> Forall2 sameNumber p q ->
  option_Forall2 sameNumber (faceDistanceToPoint fc p i) (faceDistanceToPoint gc q i).
Proof.
  intros Hf Hp. unfold faceDistanceToPoint.
  eapply obind_same; [apply point3_same, Hp|]. intros a a' Ha.
  constructor. apply planeOf_same; assumption.
Qed.

Lemma EPSILON_not_negative : (EPSILON <? 0)%float = false.
Proof. reflexivity. Qed.

Lemma EPSILON_positive : (0 <? EPSILON)%float = true.
Proof. reflexivity. Qed.

Ltac name_length len :=
  match goal with
  | |- context [PrimFloat.sqrt ?e] =>
      lazymatch goal with
      | _ := PrimFloat.sqrt e |- _ => fail
      | _ => set (len := PrimFloat.sqrt e)
      end
  end.

Lemma faceGeometry_same fc gc pa pa' pb pb' pc pc' :
  sameFace fc gc -> sameVec pa pa' -> sameVec pb pb' -> sameVec pc pc' ->
  sameFace (faceGeometry fc pa pb pc) (faceGeometry gc pa' pb' pc').
Proof.
  intros (Hn & Hm & Ha & Hc & Ho & Hk & He) (Ax & Ay & Az) (Bx & By & Bz) (Cx & Cy & Cz).
  unfold faceGeometry.
  destruct pa as [[ax ay] az], pa' as [[ax' ay'] az'], pb as [[bx b_y] bz],
    pb' as [[bx' b_y'] bz'], pc as [[cx cy] cz], pc' as [[cx' cy'] cz']. simpl in *.
  name_length len. name_length len'.
  assert (Hlen : sameNumber len len') by (unfold len, len'; same_arith).
  pose proof (sameNumber_ltb _ _ _ _ (sameNumber_refl EPSILON) Hlen) as Hlt.
  destruct (EPSILON <? len')%float eqn:E; rewrite Hlt.
  - assert (Heq : len = len')
      by (exact (sameNumber_above EPSILON _ _ EPSILON_not_negative Hlen Hlt)).
    clearbody len len'. subst len'.
    unfold sameFace, sameVec. simpl. repeat split; same_arith.
  - clearbody len len'. destruct Hn as (Hn0 & Hn1 & Hn2).
    destruct (Face.normal fc) as [[n0 n1] n2], (Face.normal gc) as [[m0 m1] m2].
    unfold sameFace, sameVec. simpl in *. repeat split; same_arith.
Qed.

Lemma computePlane_same p q v0 v1 v2 :
  Forall2 sameNumber p q ->
  option_Forall2 samePlane (computePlane p v0 v1 v2) (computePlane q v0 v1 v2).
Proof.
  intros H. unfold computePlane.
  eapply obind_same; [apply point3_same, H|].
  intros [[x0 y0] z0] [[x0' y0'] z0'] (X0 & Y0 & Z0).
  eapply obind_same; [apply point3_same, H|].
  intros [[x1 y1] z1] [[x1' y1'] z1'] (X1 & Y1 & Z1).
  eapply obind_same; [apply point3_same, H|].
  intros [[x2 y2] z2] [[x2' y2'] z2'] (X2 & Y2 & Z2).
  simpl in *. name_length len. name_length len'.
  assert (Hlen : sameNumber len len') by (unfold len, len'; same_arith).
  pose proof (sameNumber_ltb _ _ _ _ Hlen (sameNumber_refl EPSILON)) as Hlt.
  destruct (len' <? EPSILON)%float eqn:E; rewrite Hlt.
  - constructor. apply (conj (sameVec_refl _) (sameNumber_refl _)).
  - assert (Heq : len = len')
      by (exact (sameNumber_not_below EPSILON _ _ EPSILON_positive Hlen Hlt)).
    clearbody len len'. subst len'.
    constructor. unfold samePlane, sameVec. simpl. repeat split; same_arith.
Qed.

Lemma distanceToPlane_same p q idx n n' o o' :
  Forall2 sameNumber p q -> sameVec n n' -> sameNumber o o' ->
  option_Forall2 sameNumber (distanceToPlane p idx n o) (distanceToPlane q idx n' o').
Proof.
  intros H (N0 & N1 & N2) Ho. unfold distanceToPlane.
  eapply obind_same; [apply point3_same, H|].
  intros [[x y] z] [[x' y'] z'] (X & Y & Z).
  destruct n as [[n0 n1] n2], n' as [[m0 m1] m2]. simpl in *.
  constructor. same_arith.
Qed.

Lemma distanceToLineSquared_same p q idx v0 v1 :
  Forall2 sameNumber p q ->
  option_Forall2 sameNumber (distanceToLineSquared p idx v0 v1)
    (distanceToLineSquared q idx v0 v1).
Proof.
  intros H. unfold distanceToLineSquared.
  eapply obind_same; [apply point3_same, H|].
  intros [[px py] pz] [[px' py'] pz'] (Px & Py & Pz).
  eapply obind_same; [apply point3_same, H|].
  intros [[ax ay] az] [[ax' ay'] az'] (Ax & Ay & Az).
  eapply obind_same; [apply point3_same, H|].
  intros [[bx b_y] bz] [[bx' b_y'] bz'] (Bx & By & Bz).
  simpl in *.
  match goal with |- context [(?l <? EPSILON)%float] => set (ab := l) end.
  match goal with |- context [(?l <? EPSILON)%float] =>
    lazymatch l with ab => fail | _ => set (ab' := l) end end.
  assert (Hab : sameNumber ab ab') by (unfold ab, ab'; same_arith).
  pose proof (sameNumber_ltb _ _ _ _ Hab (sameNumber_refl EPSILON)) as Hlt.
  destruct (ab' <? EPSILON)%float eqn:E; rewrite Hlt.
  - constructor. same_arith.
  - assert (Heq : ab = ab')
      by (exact (sameNumber_not_below EPSILON _ _ EPSILON_positive Hab Hlt)).
    clearbody ab ab'. subst ab'. constructor. same_arith.
Qed.

(** *** The extremes and the seed *)

Lemma get3_same j u v : sameVec u v -> sameNumber (get3 j u) (get3 j v).
Proof.
  intros (H0 & H1 & H2). destruct u as [[a b] c], v as [[a' b'] c']. simpl in *.
  destruct j as [|[|j]]; assumption.
Qed.

Lemma set3_same j x x' u v :
  sameNumber x x' -> sameVec u v -> sameVec (set3 j x u) (set3 j x' v).
Proof.
  intros Hx (H0 & H1 & H2). destruct u as [[a b] c], v as [[a' b'] c']. simpl in *.
  destruct j as [|[|j]]; repeat split; assumption.
Qed.

Lemma extremesAxis_same p q idx vertex j a b :
  Forall2 sameNumber p q -> sameExtremes a b ->
  option_Forall2 sameExtremes (extremesAxis p idx vertex j a) (extremesAxis q idx vertex j b).
Proof.
  intros H (Hmin & Hmax & Hmv & Hxv). unfold extremesAxis. rewrite Forall2_lookup in H.
  eapply obind_same; [apply H|]. intros val val' Hval. constructor.
  rewrite (sameNumber_ltb _ _ _ _ Hval (get3_same j _ _ Hmin)).
  destruct (val' <? get3 j (ex_min b))%float; simpl.
  - rewrite (sameNumber_ltb _ _ _ _ (get3_same j _ _ Hmax) Hval).
    destruct (get3 j (ex_max b) <? val')%float; unfold sameExtremes; simpl;
      rewrite ?Hmv, ?Hxv; repeat split; auto using set3_same;
      try apply set3_same; auto; try apply Hmin; try apply Hmax.
  - rewrite (sameNumber_ltb _ _ _ _ (get3_same j _ _ Hmax) Hval).
    destruct (get3 j (ex_max b) <? val')%float; unfold sameExtremes; simpl;
      rewrite ?Hmv, ?Hxv; repeat split; auto using set3_same;
      try apply set3_same; auto; try apply Hmin; try apply Hmax.
Qed.

Lemma extremesVertex_same p q vs a b i :
  Forall2 sameNumber p q -> sameExtremes a b ->
  option_Forall2 sameExtremes (extremesVertex p vs a i) (extremesVertex q vs b i).
Proof.
  intros H Hab. unfold extremesVertex.
  destruct (vs !! i) as [nd|]; simpl; [|constructor].
  eapply obind_same; [apply extremesAxis_same; eassumption|]. intros a1 b1 H1.
  eapply obind_same; [apply extremesAxis_same; eassumption|]. intros a2 b2 H2.
  apply extremesAxis_same; assumption.
Qed.

Lemma extremesLoop_same p q vs idxs : forall a b,
  Forall2 sameNumber p q -> sameExtremes a b ->
  option_Forall2 sameExtremes (extremesLoop p vs idxs a) (extremesLoop q vs idxs b).
Proof.
  induction idxs as [|i rest IH]; intros a b H Hab; simpl; [constructor; exact Hab|].
  eapply obind_same; [apply extremesVertex_same; eassumption|]. intros a1 b1 H1.
  apply IH; assumption.
Qed.

Lemma toleranceOf_same mn mn' mx mx' :
  sameVec mn mn' -> sameVec mx mx' -> sameNumber (toleranceOf mn mx) (toleranceOf mn' mx').
Proof.
  intros Hn Hx. unfold toleranceOf.
  repeat first [ apply sameNumber_refl | apply sameNumber_mul | apply sameNumber_add
               | apply sameNumber_math_max | apply sameNumber_abs | apply get3_same
               | assumption ].
Qed.

Lemma separationLoop_same p q vs a b idxs : forall m m' index,
  Forall2 sameNumber p q -> sameExtremes a b -> sameNumber m m' ->
  separationLoop p vs a idxs m index = separationLoop q vs b idxs m' index.
Proof.
  induction idxs as [|i rest IH]; intros m m' index H Hab Hm; simpl; [reflexivity|].
  pose proof Hab as (_ & _ & Hmv & Hxv). rewrite Hmv, Hxv.
  destruct (vs !! get3 i (minVertices b)) as [n0|]; simpl; [|reflexivity].
  destruct (vs !! get3 i (maxVertices b)) as [n1|]; simpl; [|reflexivity].
  pose proof H as H'. rewrite Forall2_lookup in H'.
  destruct (H' (VertexNode.index n0 * 3 + i)) as [x x' Hx|]; simpl; [|reflexivity].
  destruct (H' (VertexNode.index n1 * 3 + i)) as [y y' Hy|]; simpl; [|reflexivity].
  assert (Hd : sameNumber (abs (x - y)) (abs (x' - y'))) by same_arith.
  rewrite (sameNumber_ltb _ _ _ _ Hm Hd).
  destruct (m' <? abs (x' - y'))%float; apply IH; assumption.
Qed.

Lemma farthestFromLine_same p q vs v0 v1 idxs : forall m m' v2,
  Forall2 sameNumber p q -> sameNumber m m' ->
  farthestFromLine p vs v0 v1 idxs m v2 = farthestFromLine q vs v0 v1 idxs m' v2.
Proof.
  induction idxs as [|vertex rest IH]; intros m m' v2 H Hm; simpl; [reflexivity|].
  destruct (bool_decide (vertex ≠ v0) && bool_decide (vertex ≠ v1)); [|apply IH; assumption].
  destruct (vs !! vertex) as [nd|]; simpl; [|reflexivity].
  destruct (vs !! v0) as [n0|]; simpl; [|reflexivity].
  destruct (vs !! v1) as [n1|]; simpl; [|reflexivity].
  destruct (distanceToLineSquared_same p q (VertexNode.index nd) (VertexNode.index n0)
              (VertexNode.index n1) H) as [d d' Hd|]; simpl; [|reflexivity].
  rewrite (sameNumber_ltb _ _ _ _ Hm Hd).
  destruct (m' <? d')%float; apply IH; assumption.
Qed.

Lemma farthestFromPlane_same p q vs v0 v1 v2 n n' o o' idxs : forall m m' v3,
  Forall2 sameNumber p q -> sameVec n n' -> sameNumber o o' -> sameNumber m m' ->
  farthestFromPlane p vs v0 v1 v2 n o idxs m v3
  = farthestFromPlane q vs v0 v1 v2 n' o' idxs m' v3.
Proof.
  induction idxs as [|vertex rest IH]; intros m m' v3 H Hn Ho Hm; simpl; [reflexivity|].
  destruct (bool_decide (vertex ≠ v0) && bool_decide (vertex ≠ v1)
            && bool_decide (vertex ≠ v2)); [|apply IH; assumption].
  destruct (vs !! vertex) as [nd|]; simpl; [|reflexivity].
  destruct (distanceToPlane_same p q (VertexNode.index nd) n n' o o' H Hn Ho)
    as [d d' Hd|]; simpl; [|reflexivity].
  assert (Ha : sameNumber (abs d) (abs d')) by same_arith.
  rewrite (sameNumber_ltb _ _ _ _ Hm Ha).
  destruct (m' <? abs d')%float; apply IH; assumption.
Qed.

(** ** The construction does not tell the two zeros apart *)

Lemma agree_bind {A B} (RA : A -> A -> Prop) (RB : B -> B -> Prop)
    (m1 m2 : M A) (k1 k2 : A -> M B) :
  agree RA m1 m2 -> (forall a b, RA a b -> agree RB (k1 a) (k2 b)) ->
  agree RB (bind m1 k1) (bind m2 k2).
Proof.
  intros Hm Hk s t Hst. specialize (Hm s t Hst). unfold bind, sameOutcome in *.
  destruct (m1 s) as [[a s']| |], (m2 t) as [[b t']| |]; try contradiction; auto.
  destruct Hm as [Hab Hst']. exact (Hk a b Hab s' t' Hst').
Qed.

Lemma agree_ret {A} (RA : A -> A -> Prop) a b : RA a b -> agree RA (ret a) (ret b).
Proof. intros H s t Hst. split; assumption. Qed.

Lemma agree_ret_eq {A} (a : A) : agree eq (ret a) (ret a).
Proof. apply agree_ret. reflexivity. Qed.

Lemma agree_raise {A} (RA : A -> A -> Prop) : agree RA raise raise.
Proof. intros s t _. exact I. Qed.

Lemma agree_outOfFuel {A} (RA : A -> A -> Prop) : agree RA outOfFuel outOfFuel.
Proof. intros s t _. exact I. Qed.

Lemma agree_orRaise {A} (RA : A -> A -> Prop) o o' :
  option_Forall2 RA o o' -> agree RA (orRaise o) (orRaise o').
Proof. intros [a b H|]; [apply agree_ret, H|apply agree_raise]. Qed.

Lemma agree_orRaise_eq {A} (o : option A) : agree eq (orRaise o) (orRaise o).
Proof. destruct o; [apply agree_ret_eq|apply agree_raise]. Qed.

Lemma agree_gets {A} (RA : A -> A -> Prop) (f : HullState.t -> A) :
  (forall s t, sameRun s t -> RA (f s) (f t)) -> agree RA (gets f) (gets f).
Proof. intros H s t Hst. split; [apply H, Hst|exact Hst]. Qed.

Lemma agree_modify (f g : HullState.t -> HullState.t) :
  (forall s t, sameRun s t -> sameRun (f s) (g t)) -> agree eq (modify f) (modify g).
Proof. intros H s t Hst. split; [reflexivity|apply H, Hst]. Qed.

Lemma agree_gets_points : agree (Forall2 sameNumber) (gets HullState.points) (gets HullState.points).
Proof. apply agree_gets. intros s t H. apply H. Qed.
Lemma agree_gets_tolerance : agree sameNumber (gets HullState.tolerance) (gets HullState.tolerance).
Proof. apply agree_gets. intros s t H. apply H. Qed.
Lemma agree_gets_faces : agree eq (gets HullState.faces) (gets HullState.faces).
Proof. apply agree_gets. intros s t H. apply H. Qed.
Lemma agree_gets_newFaces : agree eq (gets HullState.newFaces) (gets HullState.newFaces).
Proof. apply agree_gets. intros s t H. apply H. Qed.
Lemma agree_gets_assigned : agree eq (gets HullState.assigned) (gets HullState.assigned).
Proof. apply agree_gets. intros s t H. apply H. Qed.
Lemma agree_gets_unassigned : agree eq (gets HullState.unassigned) (gets HullState.unassigned).
Proof. apply agree_gets. intros s t H. apply H. Qed.
Lemma agree_gets_vertices : agree eq (gets HullState.vertices) (gets HullState.vertices).
Proof. apply agree_gets. intros s t H. apply H. Qed.
Lemma agree_gets_edgeStore : agree eq (gets HullState.edgeStore) (gets HullState.edgeStore).
Proof. apply agree_gets. intros s t H. apply H. Qed.
Lemma agree_gets_faceStore :
  agree (Forall2 sameFace) (gets HullState.faceStore) (gets HullState.faceStore).
Proof. apply agree_gets. intros s t H. apply H. Qed.
Lemma agree_getList w : agree eq (getList w) (getList w).
Proof. apply agree_gets. intros s t H. destruct w; apply H. Qed.

(** Settles that a write takes like states to like states. *)
Ltac same_write :=
  let H := fresh in
  intros [? ? ? ? ? ? ? ? ?] [? ? ? ? ? ? ? ? ?] H;
  try (match goal with |- context [HullState.setList ?w _ _] => destruct w end);
  unfold sameRun in *; simpl in *;
  destruct H as (? & ? & ? & ? & ? & ? & ? & ? & ?); subst;
  repeat split; auto.

Lemma agree_getVertex v : agree eq (getVertex v) (getVertex v).
Proof.
  unfold getVertex. eapply agree_bind; [apply agree_gets_vertices|].
  intros vs ? <-. apply agree_orRaise_eq.
Qed.

Lemma agree_getEdge e : agree eq (getEdge e) (getEdge e).
Proof.
  unfold getEdge. eapply agree_bind; [apply agree_gets_edgeStore|].
  intros es ? <-. apply agree_orRaise_eq.
Qed.

Lemma agree_getFace f : agree sameFace (getFace f) (getFace f).
Proof.
  unfold getFace. eapply agree_bind; [apply agree_gets_faceStore|].
  intros fs fs' H. apply agree_orRaise. rewrite Forall2_lookup in H. apply H.
Qed.

Lemma agree_updVertex v g : agree eq (updVertex v g) (updVertex v g).
Proof.
  unfold updVertex. eapply agree_bind; [apply agree_getVertex|].
  intros nd ? <-. apply agree_modify. same_write.
Qed.

Lemma agree_updEdge e g : agree eq (updEdge e g) (updEdge e g).
Proof.
  unfold updEdge. eapply agree_bind; [apply agree_getEdge|].
  intros ed ? <-. apply agree_modify. same_write.
Qed.

Lemma agree_updFace f g g' :
  (forall a b, sameFace a b -> sameFace (g a) (g' b)) ->
  agree eq (updFace f g) (updFace f g').
Proof.
  intros Hg. unfold updFace. eapply agree_bind; [apply agree_getFace|].
  intros fc fc' Hfc. apply agree_modify. same_write.
  apply Forall2_insert; auto.
Qed.

Lemma sameFace_set_outside o a b :
  sameFace a b -> sameFace (Face.set_outside o a) (Face.set_outside o b).
Proof. unfold sameFace, sameVec. simpl. tauto. Qed.
Lemma sameFace_set_mark k a b :
  sameFace a b -> sameFace (Face.set_mark k a) (Face.set_mark k b).
Proof. unfold sameFace, sameVec. simpl. tauto. Qed.
Lemma sameFace_set_edge e a b :
  sameFace a b -> sameFace (Face.set_edge e a) (Face.set_edge e b).
Proof. unfold sameFace, sameVec. simpl. tauto. Qed.

Lemma agree_setHead w h : agree eq (setHead w h) (setHead w h).
Proof. unfold setHead. apply agree_modify. same_write. Qed.
Lemma agree_setTail w h : agree eq (setTail w h) (setTail w h).
Proof. unfold setTail. apply agree_modify. same_write. Qed.

Create HintDb agree.
#[local] Hint Resolve agree_ret_eq agree_raise agree_outOfFuel agree_orRaise_eq
  agree_gets_points agree_gets_tolerance agree_gets_faces agree_gets_newFaces
  agree_gets_assigned agree_gets_unassigned agree_gets_vertices agree_gets_edgeStore
  agree_gets_faceStore agree_getList agree_getVertex agree_getEdge agree_getFace
  agree_updVertex agree_updEdge agree_setHead agree_setTail : agree.
#[local] Hint Resolve sameFace_set_outside sameFace_set_mark sameFace_set_edge : agree.
#[local] Hint Extern 1 (agree _ (updFace _ _) (updFace _ _)) =>
  apply agree_updFace; solve [eauto with agree] : agree.
#[local] Hint Extern 1 (agree _ (modify _) (modify _)) =>
  apply agree_modify; solve [same_write] : agree.
#[local] Hint Resolve point3_same faceDistanceToPoint_same computePlane_same
  distanceToPlane_same extremesLoop_same faceGeometry_same toleranceOf_same : agree.
#[local] Hint Extern 2 (agree _ (orRaise _) (orRaise _)) =>
  apply agree_orRaise; solve [eauto with agree] : agree.

(** Uses what two like faces share. *)
Ltac use_same :=
  repeat match goal with
  | H : @eq _ ?a ?b |- _ => first [subst a | subst b]
  | H : sameFace ?a ?b |- _ =>
      let Ho := fresh "Ho" in let Hk := fresh "Hk" in let He := fresh "He" in
      pose proof (proj1 (proj2 (proj2 (proj2 (proj2 H))))) as Ho;
      pose proof (proj1 (proj2 (proj2 (proj2 (proj2 (proj2 H)))))) as Hk;
      pose proof (proj2 (proj2 (proj2 (proj2 (proj2 (proj2 H)))))) as He;
      rewrite ?Ho, ?Hk, ?He; clear Ho Hk He;
      revert H
  end; intros.

(** Walks through a program run twice. *)
Ltac agree_walk :=
  intros; use_same;
  lazymatch goal with
  | |- agree _ (bind _ _) (bind _ _) => eapply agree_bind; [agree_walk|agree_walk]
  | |- agree _ (match ?x with _ => _ end) (match ?x with _ => _ end) =>
      destruct x; agree_walk
  | |- agree _ (if (?x <? ?y)%float then _ else _) (if (?x' <? ?y')%float then _ else _) =>
      rewrite (sameNumber_ltb x x' y y') by (solve [same_arith]);
      destruct (x' <? y')%float; agree_walk
  | |- agree _ _ _ => first [solve [eauto with agree]|idtac]
  | |- _ => idtac
  end.

Lemma agree_vertexListClear w : agree eq (vertexListClear w) (vertexListClear w).
Proof. unfold vertexListClear. apply agree_modify. same_write. Qed.

Lemma agree_vertexListAppend w v : agree eq (vertexListAppend w v) (vertexListAppend w v).
Proof. unfold vertexListAppend. agree_walk. Qed.

Lemma agree_findEndOfChain fuel : forall c, agree eq (findEndOfChain fuel c) (findEndOfChain fuel c).
Proof. induction fuel as [|fuel IH]; intros c; simpl; agree_walk. Qed.
#[local] Hint Resolve agree_vertexListClear agree_vertexListAppend agree_findEndOfChain : agree.

Lemma agree_vertexListAppendChain fuel w v :
  agree eq (vertexListAppendChain fuel w v) (vertexListAppendChain fuel w v).
Proof. unfold vertexListAppendChain. agree_walk. Qed.

Lemma agree_vertexListInsertBefore w t v :
  agree eq (vertexListInsertBefore w t v) (vertexListInsertBefore w t v).
Proof. unfold vertexListInsertBefore. agree_walk. Qed.

Lemma agree_vertexListRemove w v : agree eq (vertexListRemove w v) (vertexListRemove w v).
Proof. unfold vertexListRemove. agree_walk. Qed.

Lemma agree_vertexListRemoveSubList w a b :
  agree eq (vertexListRemoveSubList w a b) (vertexListRemoveSubList w a b).
Proof. unfold vertexListRemoveSubList. agree_walk. Qed.
#[local] Hint Resolve agree_vertexListAppendChain agree_vertexListInsertBefore
  agree_vertexListRemove agree_vertexListRemoveSubList : agree.

(** *** Half-edges and faces *)

Lemma agree_createHalfEdge v f : agree eq (createHalfEdge v f) (createHalfEdge v f).
Proof. unfold createHalfEdge. agree_walk. Qed.
Lemma agree_halfEdgeHead e : agree eq (halfEdgeHead e) (halfEdgeHead e).
Proof. unfold halfEdgeHead. agree_walk. Qed.
Lemma agree_halfEdgeTail e : agree eq (halfEdgeTail e) (halfEdgeTail e).
Proof. unfold halfEdgeTail. agree_walk. Qed.
Lemma agree_halfEdgeSetTwin e t : agree eq (halfEdgeSetTwin e t) (halfEdgeSetTwin e t).
Proof. unfold halfEdgeSetTwin. agree_walk. Qed.
#[local] Hint Resolve agree_createHalfEdge agree_halfEdgeHead agree_halfEdgeTail
  agree_halfEdgeSetTwin : agree.

Lemma agree_faceCreate a b c : agree eq (faceCreate a b c) (faceCreate a b c).
Proof.
  unfold faceCreate. eapply agree_bind; [apply agree_gets_faceStore|].
  intros fs fs' Hfs. rewrite (Forall2_length _ _ _ Hfs).
  eapply agree_bind.
  - apply agree_modify. same_write. apply Forall2_app; [assumption|].
    constructor; [apply sameFace_refl|constructor].
  - agree_walk.
Qed.

Lemma agree_walkNext i : forall e, agree eq (walkNext i e) (walkNext i e).
Proof. induction i as [|i IH]; intros e; simpl; agree_walk. Qed.
Lemma agree_walkPrev i : forall e, agree eq (walkPrev i e) (walkPrev i e).
Proof. induction i as [|i IH]; intros e; simpl; agree_walk. Qed.
#[local] Hint Resolve agree_faceCreate agree_walkNext agree_walkPrev : agree.

Lemma agree_faceGetEdge f i : agree eq (faceGetEdge f i) (faceGetEdge f i).
Proof. unfold faceGetEdge. agree_walk. Qed.
#[local] Hint Resolve agree_faceGetEdge : agree.

Lemma agree_faceCompute f : agree eq (faceCompute f) (faceCompute f).
Proof. unfold faceCompute. agree_walk. Qed.
#[local] Hint Resolve agree_faceCompute : agree.

(** *** The seed tetrahedron *)

Lemma agree_computeExtremes : agree sameExtremes computeExtremes computeExtremes.
Proof.
  unfold computeExtremes.
  eapply agree_bind; [apply agree_gets_points|]. intros p q Hp.
  eapply agree_bind; [apply agree_gets_vertices|]. intros vs ? <-.
  eapply agree_bind; [apply agree_orRaise, point3_same, Hp|]. intros a a' Ha.
  eapply agree_bind.
  { apply agree_orRaise. apply extremesLoop_same; [exact Hp|]. repeat split; apply Ha. }
  intros ex ex' Hex.
  eapply agree_bind; [|intros _ _ _; apply agree_ret, Hex].
  apply agree_modify. same_write. apply toleranceOf_same; apply Hex.
Qed.

Lemma agree_addVertexToFace v f : agree eq (addVertexToFace v f) (addVertexToFace v f).
Proof. unfold addVertexToFace. agree_walk. Qed.
#[local] Hint Resolve agree_addVertexToFace : agree.

Lemma agree_farthestFace i faces : forall m m' mf,
  sameNumber m m' -> agree eq (farthestFace i faces m mf) (farthestFace i faces m' mf).
Proof.
  induction faces as [|face rest IH]; intros m m' mf Hm; simpl; [apply agree_ret_eq|].
  eapply agree_bind; [apply agree_gets_points|]. intros p q Hp.
  eapply agree_bind; [apply agree_getFace|]. intros fc gc Hfc.
  eapply agree_bind; [apply agree_orRaise, faceDistanceToPoint_same; eassumption|].
  intros d d' Hd. rewrite (sameNumber_ltb _ _ _ _ Hm Hd).
  destruct (m' <? d')%float; apply IH; assumption.
Qed.

Lemma agree_assignVertex v : agree eq (assignVertex v) (assignVertex v).
Proof.
  unfold assignVertex.
  eapply agree_bind; [apply agree_gets_tolerance|]. intros tol tol' Htol.
  eapply agree_bind; [apply agree_gets_faces|]. intros fs ? <-.
  eapply agree_bind; [apply agree_getVertex|]. intros nd ? <-.
  eapply agree_bind; [apply agree_farthestFace, Htol|]. intros mf ? <-.
  destruct mf; eauto with agree.
Qed.
#[local] Hint Resolve agree_assignVertex : agree.

Lemma agree_assignRemaining v0 v1 v2 v3 idxs :
  agree eq (assignRemaining v0 v1 v2 v3 idxs) (assignRemaining v0 v1 v2 v3 idxs).
Proof. induction idxs as [|v rest IH]; simpl; agree_walk. Qed.

Lemma agree_twinEdges f1 i1 f2 i2 : agree eq (twinEdges f1 i1 f2 i2) (twinEdges f1 i1 f2 i2).
Proof. unfold twinEdges. agree_walk. Qed.
#[local] Hint Resolve agree_assignRemaining agree_twinEdges : agree.

Lemma agree_twinOutward faces idxs : agree eq (twinOutward faces idxs) (twinOutward faces idxs).
Proof. induction idxs as [|i rest IH]; simpl; agree_walk. Qed.
Lemma agree_twinInward faces idxs : agree eq (twinInward faces idxs) (twinInward faces idxs).
Proof. induction idxs as [|i rest IH]; simpl; agree_walk. Qed.
Lemma agree_addFacesToHull faces : agree eq (addFacesToHull faces) (addFacesToHull faces).
Proof. induction faces as [|f rest IH]; simpl; agree_walk. Qed.
#[local] Hint Resolve agree_twinOutward agree_twinInward agree_addFacesToHull : agree.

Lemma agree_computeInitialHull : agree eq computeInitialHull computeInitialHull.
Proof.
  unfold computeInitialHull.
  eapply agree_bind; [apply agree_computeExtremes|]. intros ex ex' Hex.
  eapply agree_bind; [apply agree_gets_points|]. intros p q Hp.
  eapply agree_bind; [apply agree_gets_vertices|]. intros vs ? <-.
  rewrite (separationLoop_same p q vs ex ex' _ 0%float 0%float 0 Hp Hex (sameNumber_refl _)).
  eapply agree_bind; [apply agree_orRaise_eq|]. intros index ? <-.
  destruct Hex as (_ & _ & -> & ->).
  rewrite (farthestFromLine_same p q vs _ _ _ 0%float 0%float None Hp (sameNumber_refl _)).
  eapply agree_bind; [apply agree_orRaise_eq|]. intros ov2 ? <-.
  destruct ov2 as [v2|]; [|apply agree_ret_eq].
  eapply agree_bind; [apply agree_getVertex|]. intros n0 ? <-.
  eapply agree_bind; [apply agree_getVertex|]. intros n1 ? <-.
  eapply agree_bind; [apply agree_getVertex|]. intros n2 ? <-.
  eapply agree_bind; [apply agree_orRaise, computePlane_same, Hp|].
  intros [normal offset] [normal' offset'] [Hn Ho]. simpl in Hn, Ho.
  rewrite (farthestFromPlane_same p q vs _ _ _ normal normal' offset offset' _
             (-1)%float (-1)%float None Hp Hn Ho (sameNumber_refl _)).
  eapply agree_bind; [apply agree_orRaise_eq|]. intros ov3 ? <-.
  destruct ov3 as [v3|]; [|apply agree_ret_eq].
  eapply agree_bind; [apply agree_getVertex|]. intros n3 ? <-.
  eapply agree_bind; [apply agree_orRaise, distanceToPlane_same; eassumption|].
  intros d3 d3' Hd3.
  rewrite (sameNumber_ltb _ _ _ _ Hd3 (sameNumber_refl 0%float)).
  destruct (d3' <? 0)%float; agree_walk.
Qed.
#[local] Hint Resolve agree_computeInitialHull : agree.

(** *** Insertion *)

Lemma agree_removeVertexFromFace v f :
  agree eq (removeVertexFromFace v f) (removeVertexFromFace v f).
Proof. unfold removeVertexFromFace. agree_walk. Qed.

Lemma agree_findRunEnd fuel face : forall e,
  agree eq (findRunEnd fuel face e) (findRunEnd fuel face e).
Proof. induction fuel as [|fuel IH]; intros e; simpl; agree_walk. Qed.
#[local] Hint Resolve agree_removeVertexFromFace agree_findRunEnd : agree.

Lemma agree_removeAllVerticesFromFace fuel face :
  agree eq (removeAllVerticesFromFace fuel face) (removeAllVerticesFromFace fuel face).
Proof. unfold removeAllVerticesFromFace. agree_walk. Qed.
#[local] Hint Resolve agree_removeAllVerticesFromFace : agree.

Lemma agree_absorbVertex af v : agree eq (absorbVertex af v) (absorbVertex af v).
Proof.
  unfold absorbVertex.
  eapply agree_bind; [apply agree_getVertex|]. intros vx ? <-.
  eapply agree_bind; [apply agree_gets_points|]. intros p q Hp.
  eapply agree_bind; [apply agree_gets_tolerance|]. intros tol tol' Htol.
  eapply agree_bind; [apply agree_getFace|]. intros fc gc Hfc.
  eapply agree_bind; [apply agree_orRaise, faceDistanceToPoint_same; eassumption|].
  intros d d' Hd. rewrite (sameNumber_ltb _ _ _ _ Htol Hd).
  destruct (tol' <? d')%float; agree_walk.
Qed.
#[local] Hint Resolve agree_absorbVertex : agree.

Lemma agree_absorbLoop fuel af : forall v, agree eq (absorbLoop fuel af v) (absorbLoop fuel af v).
Proof. induction fuel as [|fuel IH]; intros [v|]; simpl; agree_walk. Qed.
#[local] Hint Resolve agree_absorbLoop : agree.

Lemma agree_deleteFaceVertices fuel face af :
  agree eq (deleteFaceVertices fuel face af) (deleteFaceVertices fuel face af).
Proof. unfold deleteFaceVertices. agree_walk. Qed.
#[local] Hint Resolve agree_deleteFaceVertices : agree.

Lemma agree_scanNewFaces i nf : forall m m' mf,
  sameNumber m m' -> agree eq (scanNewFaces i nf m mf) (scanNewFaces i nf m' mf).
Proof.
  induction nf as [|face rest IH]; intros m m' mf Hm; simpl; [apply agree_ret_eq|].
  eapply agree_bind; [apply agree_getFace|]. intros fc gc Hfc.
  pose proof Hfc as (_ & _ & _ & _ & _ & -> & _).
  destruct (bool_decide (Face.mark gc = VISIBLE)); [|apply IH, Hm].
  eapply agree_bind; [apply agree_gets_points|]. intros p q Hp.
  eapply agree_bind; [apply agree_gets_tolerance|]. intros tol tol' Htol.
  eapply agree_bind; [apply agree_orRaise, faceDistanceToPoint_same; eassumption|].
  intros d d' Hd. rewrite (sameNumber_ltb _ _ _ _ Hm Hd).
  assert (Hk : sameNumber (1000 * tol) (1000 * tol')) by same_arith.
  destruct (m' <? d')%float.
  - rewrite (sameNumber_ltb _ _ _ _ Hk Hd).
    destruct (1000 * tol' <? d')%float; [apply agree_ret_eq|apply IH, Hd].
  - rewrite (sameNumber_ltb _ _ _ _ Hk Hm).
    destruct (1000 * tol' <? m')%float; [apply agree_ret_eq|apply IH, Hm].
Qed.

Lemma agree_resolveVertex nf v : agree eq (resolveVertex nf v) (resolveVertex nf v).
Proof.
  unfold resolveVertex.
  eapply agree_bind; [apply agree_getVertex|]. intros vx ? <-.
  eapply agree_bind; [apply agree_gets_tolerance|]. intros tol tol' Htol.
  eapply agree_bind; [apply agree_scanNewFaces, Htol|]. intros mf ? <-.
  agree_walk.
Qed.
#[local] Hint Resolve agree_resolveVertex : agree.

Lemma agree_resolveLoop fuel nf : forall v, agree eq (resolveLoop fuel nf v) (resolveLoop fuel nf v).
Proof. induction fuel as [|fuel IH]; intros [v|]; simpl; agree_walk. Qed.
#[local] Hint Resolve agree_resolveLoop : agree.

Lemma agree_resolveUnassignedPoints fuel nf :
  agree eq (resolveUnassignedPoints fuel nf) (resolveUnassignedPoints fuel nf).
Proof. unfold resolveUnassignedPoints. agree_walk. Qed.
#[local] Hint Resolve agree_resolveUnassignedPoints : agree.

Lemma agree_eyeLoop fuel eyeFace : forall v m m' ev,
  sameNumber m m' -> agree eq (eyeLoop fuel eyeFace v m ev) (eyeLoop fuel eyeFace v m' ev).
Proof.
  induction fuel as [|fuel IH]; intros [v|] m m' ev Hm; simpl; try apply agree_ret_eq.
  - eapply agree_bind; [apply agree_getVertex|]. intros vx ? <-.
    destruct (bool_decide _); [apply agree_outOfFuel|apply agree_ret_eq].
  - eapply agree_bind; [apply agree_getVertex|]. intros vx ? <-.
    destruct (bool_decide _); [|apply agree_ret_eq].
    eapply agree_bind; [apply agree_gets_points|]. intros p q Hp.
    eapply agree_bind; [apply agree_getFace|]. intros fc gc Hfc.
    eapply agree_bind; [apply agree_orRaise, faceDistanceToPoint_same; eassumption|].
    intros d d' Hd. rewrite (sameNumber_ltb _ _ _ _ Hm Hd).
    destruct (m' <? d')%float; apply IH; assumption.
Qed.

Lemma agree_nextVertexToAdd fuel : agree eq (nextVertexToAdd fuel) (nextVertexToAdd fuel).
Proof.
  unfold nextVertexToAdd.
  eapply agree_bind; [apply agree_gets_assigned|]. intros asg ? <-.
  destruct (VertexList.head asg) as [h|]; [|apply agree_ret_eq].
  eapply agree_bind; [apply agree_getVertex|]. intros hd ? <-.
  eapply agree_bind; [apply agree_orRaise_eq|]. intros eyeFace ? <-.
  eapply agree_bind; [apply agree_getFace|]. intros fc gc Hfc.
  pose proof Hfc as (_ & _ & _ & _ & -> & _).
  apply agree_eyeLoop, sameNumber_refl.
Qed.
#[local] Hint Resolve agree_nextVertexToAdd : agree.

Lemma agree_horizon fuel :
  (forall eye ce face hz,
     agree eq (computeHorizon fuel eye ce face hz) (computeHorizon fuel eye ce face hz)) /\
  (forall eye se e hz,
     agree eq (horizonLoop fuel eye se e hz) (horizonLoop fuel eye se e hz)).
Proof.
  induction fuel as [|fuel [IHc IHl]]; (split; [intros eye ce face hz|intros eye se e hz]);
    simpl; try apply agree_outOfFuel.
  - agree_walk.
  - eapply agree_bind; [apply agree_getEdge|]. intros ed ? <-.
    eapply agree_bind; [apply agree_orRaise_eq|]. intros tw ? <-.
    eapply agree_bind; [apply agree_getEdge|]. intros td ? <-.
    eapply agree_bind; [apply agree_getFace|]. intros opp opp' Hopp.
    pose proof Hopp as (_ & _ & _ & _ & _ & -> & _).
    eapply agree_bind; [destruct (bool_decide _); [|apply agree_ret_eq]|agree_walk].
    eapply agree_bind; [apply agree_gets_points|]. intros p q Hp.
    eapply agree_bind; [apply agree_gets_tolerance|]. intros tol tol' Htol.
    eapply agree_bind; [apply agree_orRaise, faceDistanceToPoint_same; eassumption|].
    intros d d' Hd. rewrite (sameNumber_ltb _ _ _ _ Htol Hd).
    destruct (tol' <? d')%float; [apply IHc|apply agree_ret_eq].
Qed.

Lemma agree_computeHorizon fuel eye ce face hz :
  agree eq (computeHorizon fuel eye ce face hz) (computeHorizon fuel eye ce face hz).
Proof. apply agree_horizon. Qed.
#[local] Hint Resolve agree_computeHorizon : agree.

Lemma agree_addAdjoiningFace eye h : agree eq (addAdjoiningFace eye h) (addAdjoiningFace eye h).
Proof. unfold addAdjoiningFace. agree_walk. Qed.
#[local] Hint Resolve agree_addAdjoiningFace : agree.

Lemma agree_addNewFacesLoop eye hz : forall first prev,
  agree eq (addNewFacesLoop eye hz first prev) (addNewFacesLoop eye hz first prev).
Proof. induction hz as [|h rest IH]; intros first prev; simpl; agree_walk. Qed.
#[local] Hint Resolve agree_addNewFacesLoop : agree.

Lemma agree_addNewFaces eye hz : agree eq (addNewFaces eye hz) (addNewFaces eye hz).
Proof. unfold addNewFaces. agree_walk. Qed.
#[local] Hint Resolve agree_addNewFaces : agree.

Lemma agree_addVertexToHull fuel eye : agree eq (addVertexToHull fuel eye) (addVertexToHull fuel eye).
Proof. unfold addVertexToHull. agree_walk. Qed.
#[local] Hint Resolve agree_addVertexToHull : agree.

(** *** The output *)

Lemma agree_activeFaces faces : agree eq (activeFaces faces) (activeFaces faces).
Proof. induction faces as [|f rest IH]; simpl; agree_walk. Qed.
#[local] Hint Resolve agree_activeFaces : agree.

Lemma agree_reindexFaces : agree eq reindexFaces reindexFaces.
Proof. unfold reindexFaces. agree_walk. Qed.

Lemma agree_triangleIndices faces : agree eq (triangleIndices faces) (triangleIndices faces).
Proof. induction faces as [|f rest IH]; simpl; agree_walk. Qed.
#[local] Hint Resolve agree_reindexFaces agree_triangleIndices : agree.

Lemma agree_getTriangleIndices : agree eq getTriangleIndices getTriangleIndices.
Proof. unfold getTriangleIndices. agree_walk. Qed.

Lemma agree_insertionLoop fuel : forall v, agree eq (insertionLoop fuel v) (insertionLoop fuel v).
Proof. induction fuel as [|fuel IH]; intros [v|]; simpl; agree_walk. Qed.
#[local] Hint Resolve agree_getTriangleIndices agree_insertionLoop : agree.

Lemma agree_buildHull fuel : agree eq (buildHull fuel) (buildHull fuel).
Proof. unfold buildHull. agree_walk. Qed.

Lemma sameRun_createHullState p q :
  Forall2 sameNumber p q -> sameRun (createHullState p) (createHullState q).
Proof.
  intros H. unfold createHullState, sameRun. simpl.
  rewrite (Forall2_length _ _ _ H). repeat split; auto using sameNumber_refl.
Qed.

(** The run on two arrays of like numbers. *)
Lemma runHull_same fuel p q :
  Forall2 sameNumber p q -> sameOutcome eq (runHull fuel p) (runHull fuel q).
Proof.
  intros H. unfold runHull.
  assert (Ha : agree eq (bind (buildHull fuel) (fun _ => getTriangleIndices))
                        (bind (buildHull fuel) (fun _ => getTriangleIndices))).
  { eapply agree_bind; [apply agree_buildHull|]. intros _ _ _. apply agree_getTriangleIndices. }
  apply Ha, sameRun_createHullState, H.
Qed.

Lemma runHull_points fuel points r s :
  runHull fuel points = Ok (r, s) -> HullState.points s = points.
Proof.
  intros H.
  eapply (runHull_after_extremes HullState.points) in H as (ex & s1 & He & E);
    try (intros; reflexivity).
  rewrite E. apply computeExtremes_points in He. exact He.
Qed.

(** C10. [quickhull3] is deterministic.  Two input arrays that are equal
    element by element -- the same value, or equal under the language's
    [==], which does not tell [-0] from [0] -- give the same outcome: the
    same list of triangle indices, or the same failure.  And a second
    invocation on the array as the first one left it gives the outcome of
    the first: the state of a call is built anew from the array by
    [createHullState], and nothing else is read. *)
Theorem quickhull3_deterministic :
  (forall fuel (p q : list float),
     Forall2 (fun a b => a = b \/ (a =? b)%float = true) p q ->
     quickhull3 fuel p = quickhull3 fuel q) /\
  (forall fuel (p : list float) r s,
     runHull fuel p = Ok (r, s) ->
     runHull fuel (HullState.points s) = Ok (r, s) /\
     quickhull3 fuel (HullState.points s) = quickhull3 fuel p).
Proof.
  split.
  - intros fuel p q H.
    assert (Hs : Forall2 sameNumber p q).
    { eapply Forall2_impl; [exact H|]. intros a b [->|E];
        [apply sameNumber_refl|apply eqb_sameNumber, E]. }
    unfold quickhull3. rewrite (Forall2_length _ _ _ Hs).
    destruct (length q <? 12); [reflexivity|].
    pose proof (runHull_same fuel p q Hs) as Hr. unfold sameOutcome in Hr.
    destruct (runHull fuel p) as [[a s]| |], (runHull fuel q) as [[b t]| |];
      try contradiction; try reflexivity.
    destruct Hr as [-> _]. reflexivity.
  - intros fuel p r s H. rewrite (runHull_points _ _ _ _ H). split; [exact H|reflexivity].
Qed.

Lemma quickhull3_deterministic_witness :
  tetrahedron <> tetrahedronNegativeZeros /\
  quickhull3 100 tetrahedron = quickhull3 100 tetrahedronNegativeZeros /\
  quickhull3 100 tetrahedronNegativeZeros = Ok [2; 1; 0; 3; 1; 2; 3; 0; 1; 3; 2; 0].
Proof.
  split; [|split].
  - intros H.
    apply (f_equal (fun l => match l with a :: _ => Prim2SF a | [] => S754_nan end)) in H.
    vm_compute in H. discriminate H.
  - apply (proj1 quickhull3_deterministic).
    unfold tetrahedron, tetrahedronNegativeZeros.
    repeat (constructor; [right; vm_compute; reflexivity|]). constructor.
  - vm_compute. reflexivity.
Defined.
